(** * ROAM terrain patches of the Spring engine: a shallow embedding

    The development follows [rts/Map/SMF/ROAM/Patch.cpp]: the node pool
    ([CTriNodePool]), the binary triangle trees of a [Patch] with their
    [Split] operation, the variance precomputation, the tessellation
    driver and the extraction of indices and border vertices.

    Conventions.
    - C++ [int] values are integers in [Z]; signed overflow is undefined
      behaviour and is not given a meaning.  [size_t] values are integers
      in [Z] reduced modulo 2^64 where the code computes with them, and
      [unsigned int] values modulo 2^32.
    - C++ [float] is IEEE-754 binary32, modelled with the reference
      operations of [SpecFloat] at precision 24 and maximal exponent 128.
    - Pointers to [TriTreeNode] are addresses into the world's patches and
      pools; [nullptr] is [None].  Dereferencing a null or dangling
      pointer, indexing outside an array and a failed [assert] end a run
      in [Fault].
    - Recursion over the pointer graph or over the geometry takes a
      recursion budget; a run that exhausts it ends in [OutOfFuel]. *)

From Stdlib Require Import ZArith List Bool Lia.
From Stdlib Require Import Floats.SpecFloat.
From stdpp Require Import base list.

Local Open Scope Z_scope.

(** ** Outcomes of a run *)

Inductive outcome (A : Type) : Type :=
| Done (a : A)
| Fault
| OutOfFuel.

Arguments Done {A} a.
Arguments Fault {A}.
Arguments OutOfFuel {A}.

(** A computation over a state of type [S]: the methods of a [Patch] run
    over the patch, the operations on the mesh over the whole [World]. *)
Definition St (S A : Type) : Type := S -> outcome (A * S).

Definition ret {S A : Type} (a : A) : St S A := fun s => Done (a, s).

Definition bind {S A B : Type} (m : St S A) (k : A -> St S B) : St S B :=
  fun s =>
    match m s with
    | Done (a, s') => k a s'
    | Fault => Fault
    | OutOfFuel => OutOfFuel
    end.

Definition fault {S A : Type} : St S A := fun _ => Fault.
Definition out_of_fuel {S A : Type} : St S A := fun _ => OutOfFuel.
Definition get {S : Type} : St S S := fun s => Done (s, s).
Definition put {S : Type} (s : S) : St S unit := fun _ => Done (tt, s).
Definition modify {S : Type} (f : S -> S) : St S unit := fun s => Done (tt, f s).

(** an [outcome] computed without the state *)
Definition lift {S A : Type} (o : outcome A) : St S A :=
  fun s =>
    match o with
    | Done a => Done (a, s)
    | Fault => Fault
    | OutOfFuel => OutOfFuel
    end.

(** a pointer or an array slot that must be there *)
Definition deref {S A : Type} (o : option A) : St S A :=
  match o with
  | Some a => ret a
  | None => fault
  end.

(** [assert(b)] *)
Definition assert_ {S : Type} (b : bool) : St S unit :=
  if b then ret tt else fault.

Notation "'do' x <- m ; k" := (bind m (fun x => k))
  (at level 10, x name, m at level 100, k at level 200).
Notation "'do' ' pat <- m ; k" :=
  (bind m (fun x => match x with pat => k end))
  (at level 10, pat strict pattern, m at level 100, k at level 200).

(** ** binary32 arithmetic *)

Module Float32.

Definition float : Type := spec_float.

Definition prec : Z := 24.
Definition emax : Z := 128.

Definition add : float -> float -> float := SFadd prec emax.
Definition sub : float -> float -> float := SFsub prec emax.
Definition mul : float -> float -> float := SFmul prec emax.
Definition fabs : float -> float := SFabs.
Definition ltb : float -> float -> bool := SFltb.
Definition leb : float -> float -> bool := SFleb.

(** conversion [int -> float], round to nearest even *)
Definition of_int (z : Z) : float := binary_normalize prec emax z 0 false.

(** the literals of the source *)
Definition zero : float := S754_zero false.                        (* 0.0f *)
Definition half : float := S754_finite false 8388608 (-24).        (* 0.5f *)
Definition one : float := S754_finite false 8388608 (-23).         (* 1.0f *)
Definition one_and_half : float := S754_finite false 12582912 (-23). (* 1.5f *)
Definition ten : float := S754_finite false 10485760 (-20).        (* 10.0f *)
Definition twenty : float := S754_finite false 10485760 (-19).     (* 20.0f *)
Definition milli : float := S754_finite false 8589935 (-33).       (* 0.001f *)
Definition minus400 : float := S754_finite true 13107200 (-15).    (* -400.0f *)
Definition max_float : float := S754_finite false 16777215 104.    (* numeric_limits<float>::max() *)

(** [std::max(a, b)] is [(a < b) ? b : a] and [std::min(a, b)] is
    [(b < a) ? b : a]. *)
Definition std_max (a b : float) : float := if ltb a b then b else a.
Definition std_min (a b : float) : float := if ltb b a then b else a.

Definition is_nan (f : float) : bool :=
  match f with S754_nan => true | _ => false end.

Definition is_finite (f : float) : bool :=
  match f with S754_zero _ | S754_finite _ _ _ => true | _ => false end.

End Float32.

Import Float32.

(** ** Tree nodes *)

(** Address of a [TriTreeNode]: one of the two root triangles of a patch,
    or an entry of the pool of worker [thread] for the main or the shadow
    pass. *)
Inductive NodePtr : Type :=
| BaseLeftOf (patch : nat)
| BaseRightOf (patch : nat)
| PoolNode (shadowPass : bool) (thread : nat) (idx : nat).

#[global] Instance NodePtr_eq_dec : EqDecision NodePtr.
Proof. solve_decision. Defined.

Record TriTreeNode : Type := mkTriTreeNode {
  LeftChild : option NodePtr;
  RightChild : option NodePtr;
  BaseNeighbor : option NodePtr;
  LeftNeighbor : option NodePtr;
  RightNeighbor : option NodePtr
}.

#[global] Instance TriTreeNode_eq_dec : EqDecision TriTreeNode.
Proof. solve_decision. Defined.

(** Modelled from the spec: the default constructor [TriTreeNode()] is
    declared in Patch.h; a fresh node has no children and no neighbours.
    The same value is what [memset] to zero leaves in a pool entry. *)
Definition TriTreeNode_new : TriTreeNode :=
  mkTriTreeNode None None None None None.

(** Modelled from the spec: [TriTreeNode::IsLeaf] is declared in Patch.h;
    a node is a leaf iff both child references are absent. *)
Definition IsLeaf (t : TriTreeNode) : bool :=
  match LeftChild t, RightChild t with
  | None, None => true
  | _, _ => false
  end.

(** Modelled from the spec: [TriTreeNode::IsBranch] is declared in Patch.h;
    a node is a branch when it is not a leaf (it has children). *)
Definition IsBranch (t : TriTreeNode) : bool := negb (IsLeaf t).

(** ** The node pool *)

Record CTriNodePool : Type := mkPool {
  pool : list TriTreeNode;
  nextTriNodeIdx : nat
}.

(** Modelled from the spec: [CTriNodePool::OutOfNodes] is declared in
    Patch.h; the pool is exhausted when the cursor has reached the
    capacity. *)
Definition OutOfNodes (p : CTriNodePool) : bool :=
  (length (pool p) <=? nextTriNodeIdx p)%nat.

(** [CTriNodePool::CTriNodePool(poolSize)] *)
Definition CTriNodePool_new (poolSize : Z) : outcome CTriNodePool :=
  if negb (Z.land poolSize 1 =? 0) then Fault
  else if negb (0 <? poolSize) then Fault
  else Done (mkPool (replicate (Z.to_nat poolSize) TriTreeNode_new) 0).

(** [CTriNodePool::Reset]: the first [nextTriNodeIdx] entries are zeroed
    by [memset]; writing past the vector is a fault. *)
Definition Reset (p : CTriNodePool) : outcome CTriNodePool :=
  if (0 <? nextTriNodeIdx p)%nat then
    if (nextTriNodeIdx p <=? length (pool p))%nat then
      Done (mkPool (replicate (nextTriNodeIdx p) TriTreeNode_new
                      ++ drop (nextTriNodeIdx p) (pool p)) 0)
    else Fault
  else Done (mkPool (pool p) 0).

(** [CTriNodePool::Allocate(left, right)]: the result carries the return
    value, the values left in the two reference parameters (an index into
    this pool, or [None] for [nullptr]) and the pool afterwards. *)
Definition Allocate (p : CTriNodePool)
  : outcome (bool * option nat * option nat * CTriNodePool) :=
  if OutOfNodes p then Done (false, None, None, p)
  else
    let i := nextTriNodeIdx p in
    if (S i <? length (pool p))%nat
    then Done (true, Some i, Some (S i), mkPool (pool p) (S (S i)))
    else Fault.

(** The pool invariant kept by the constructor, [Reset] and [Allocate]:
    capacity and cursor are even and the cursor is within the capacity. *)
Definition pool_wf (p : CTriNodePool) : Prop :=
  Nat.Even (length (pool p)) /\ Nat.Even (nextTriNodeIdx p)
  /\ (nextTriNodeIdx p <= length (pool p))%nat.


(** ** Coordinates, vertices and the patch *)

Module int2.
Record t : Type := mk { x : Z; y : Z }.
End int2.
Abbreviation int2 := int2.t.

Module float3.
Record t : Type := mk { x : float; y : float; z : float }.
End float3.
Abbreviation float3 := float3.t.

(** [VA_TYPE_C]: a position and an RGBA colour of four bytes *)
Record VA_TYPE_C : Type := mkVA_TYPE_C {
  pos : float3;
  color : list Z
}.

Definition white : list Z := [255; 255; 255; 255].
Definition trans : list Z := [255; 255; 255; 0].

(** which of the two variance arrays [currentVariance] points into *)
Inductive VarianceArray : Type := VarianceLeft | VarianceRight.

(** The members of [Patch] that the tessellation code reads or writes.
    [curTriPool] names a pool by pass and worker. *)
Record Patch : Type := mkPatch {
  baseLeft : TriTreeNode;
  baseRight : TriTreeNode;
  varianceLeft : list float;
  varianceRight : list float;
  currentVariance : option VarianceArray;
  isDirty : bool;
  isTesselated : bool;
  varianceMaxLimit : float;
  camDistLODFactor : float;
  coors : int2;
  curTriPool : option (bool * nat);
  vertices : list float;
  indices : list Z;
  borderVertices : list VA_TYPE_C
}.

Definition with_baseLeft (t : TriTreeNode) (P : Patch) : Patch :=
  mkPatch t (baseRight P) (varianceLeft P) (varianceRight P)
    (currentVariance P) (isDirty P) (isTesselated P) (varianceMaxLimit P)
    (camDistLODFactor P) (coors P) (curTriPool P) (vertices P) (indices P)
    (borderVertices P).

Definition with_baseRight (t : TriTreeNode) (P : Patch) : Patch :=
  mkPatch (baseLeft P) t (varianceLeft P) (varianceRight P)
    (currentVariance P) (isDirty P) (isTesselated P) (varianceMaxLimit P)
    (camDistLODFactor P) (coors P) (curTriPool P) (vertices P) (indices P)
    (borderVertices P).

Definition with_varianceLeft (v : list float) (P : Patch) : Patch :=
  mkPatch (baseLeft P) (baseRight P) v (varianceRight P)
    (currentVariance P) (isDirty P) (isTesselated P) (varianceMaxLimit P)
    (camDistLODFactor P) (coors P) (curTriPool P) (vertices P) (indices P)
    (borderVertices P).

Definition with_varianceRight (v : list float) (P : Patch) : Patch :=
  mkPatch (baseLeft P) (baseRight P) (varianceLeft P) v
    (currentVariance P) (isDirty P) (isTesselated P) (varianceMaxLimit P)
    (camDistLODFactor P) (coors P) (curTriPool P) (vertices P) (indices P)
    (borderVertices P).

Definition with_currentVariance (c : option VarianceArray) (P : Patch) : Patch :=
  mkPatch (baseLeft P) (baseRight P) (varianceLeft P) (varianceRight P)
    c (isDirty P) (isTesselated P) (varianceMaxLimit P)
    (camDistLODFactor P) (coors P) (curTriPool P) (vertices P) (indices P)
    (borderVertices P).

Definition with_isDirty (b : bool) (P : Patch) : Patch :=
  mkPatch (baseLeft P) (baseRight P) (varianceLeft P) (varianceRight P)
    (currentVariance P) b (isTesselated P) (varianceMaxLimit P)
    (camDistLODFactor P) (coors P) (curTriPool P) (vertices P) (indices P)
    (borderVertices P).

Definition with_isTesselated (b : bool) (P : Patch) : Patch :=
  mkPatch (baseLeft P) (baseRight P) (varianceLeft P) (varianceRight P)
    (currentVariance P) (isDirty P) b (varianceMaxLimit P)
    (camDistLODFactor P) (coors P) (curTriPool P) (vertices P) (indices P)
    (borderVertices P).

Definition with_indices (l : list Z) (P : Patch) : Patch :=
  mkPatch (baseLeft P) (baseRight P) (varianceLeft P) (varianceRight P)
    (currentVariance P) (isDirty P) (isTesselated P) (varianceMaxLimit P)
    (camDistLODFactor P) (coors P) (curTriPool P) (vertices P) l
    (borderVertices P).

Definition with_borderVertices (l : list VA_TYPE_C) (P : Patch) : Patch :=
  mkPatch (baseLeft P) (baseRight P) (varianceLeft P) (varianceRight P)
    (currentVariance P) (isDirty P) (isTesselated P) (varianceMaxLimit P)
    (camDistLODFactor P) (coors P) (curTriPool P) (vertices P) (indices P)
    l.

(** [Patch::Patch()].  Modelled from the spec: the array sizes are
    declared in Patch.h; a variance field has capacity 2^D and a tile owns
    (S+1) x (S+1) samples of three floats each.  The two root nodes are
    default constructed. *)
Definition Patch_new (PATCH_SIZE VARIANCE_DEPTH : Z) : Patch :=
  mkPatch TriTreeNode_new TriTreeNode_new
    (replicate (Z.to_nat (Z.shiftl 1 VARIANCE_DEPTH)) zero)
    (replicate (Z.to_nat (Z.shiftl 1 VARIANCE_DEPTH)) zero)
    None true false max_float one (int2.mk (-1) (-1)) None
    (replicate (Z.to_nat (3 * (PATCH_SIZE + 1) * (PATCH_SIZE + 1))) zero)
    [] [].

(** [arr[i]] for a C++ [int] index: a fault outside the array *)
Definition array_get {A : Type} (arr : list A) (i : Z) : outcome A :=
  if i <? 0 then Fault
  else match arr !! Z.to_nat i with
       | Some a => Done a
       | None => Fault
       end.

(** [arr[i] = a] *)
Definition array_set {A : Type} (arr : list A) (i : Z) (a : A) : outcome (list A) :=
  if i <? 0 then Fault
  else if (Z.to_nat i <? length arr)%nat then Done (<[Z.to_nat i := a]> arr)
  else Fault.

(** ** The world: the statics of Patch.cpp and the patches *)

Record World : Type := mkWorld {
  CUR_POOL_SIZE : Z;
  MAX_POOL_SIZE : Z;
  pools_main : list CTriNodePool;
  pools_shadow : list CTriNodePool;
  patches : list Patch
}.

(** [pools[shadowPass]] *)
Definition pools (w : World) (shadowPass : bool) : list CTriNodePool :=
  if shadowPass then pools_shadow w else pools_main w.

Definition with_pools (shadowPass : bool) (l : list CTriNodePool) (w : World) : World :=
  if shadowPass
  then mkWorld (CUR_POOL_SIZE w) (MAX_POOL_SIZE w) (pools_main w) l (patches w)
  else mkWorld (CUR_POOL_SIZE w) (MAX_POOL_SIZE w) l (pools_shadow w) (patches w).

Definition with_patches (l : list Patch) (w : World) : World :=
  mkWorld (CUR_POOL_SIZE w) (MAX_POOL_SIZE w) (pools_main w) (pools_shadow w) l.

Definition with_CUR_POOL_SIZE (n : Z) (w : World) : World :=
  mkWorld n (MAX_POOL_SIZE w) (pools_main w) (pools_shadow w) (patches w).

Definition with_MAX_POOL_SIZE (n : Z) (w : World) : World :=
  mkWorld (CUR_POOL_SIZE w) n (pools_main w) (pools_shadow w) (patches w).

Definition size_t_wrap (n : Z) : Z := n mod 2 ^ 64.
Definition unsigned_wrap (n : Z) : Z := n mod 2 ^ 32.

(** *** Pool management *)

(** [CTriNodePool::InitPools(shadowPass, newPoolSize)].  [numThreads] is
    the value of [ThreadPool::GetMaxThreads()]; [can_alloc n] tells
    whether the pools of [n] nodes each can be allocated, that is,
    whether no [std::bad_alloc] is thrown.  The budget bounds the
    retries. *)
Fixpoint InitPools (fuel : nat) (numThreads : Z) (can_alloc : Z -> bool)
    (shadowPass : bool) (newPoolSize : Z) : St World unit :=
  match fuel with
  | O => out_of_fuel
  | S fuel' =>
    if numThreads <=? 0 then fault else
    do _ <- modify (with_CUR_POOL_SIZE newPoolSize);
    let thrPoolSize := Z.max (newPoolSize / numThreads) (newPoolSize / 3) in
    let poolSize := size_t_wrap (thrPoolSize + Z.land thrPoolSize 1) in
    do _ <- modify (with_pools shadowPass []);
    if can_alloc poolSize then
      do p <- lift (CTriNodePool_new poolSize);
      modify (with_pools shadowPass (replicate (Z.to_nat numThreads) p))
    else
      let reduced := newPoolSize - Z.shiftr newPoolSize 2 in
      do _ <- modify (with_MAX_POOL_SIZE reduced);
      InitPools fuel' numThreads can_alloc shadowPass reduced
  end.

(** the loop of [ResetAll] over [pools[shadowPass]] *)
Fixpoint ResetAll_loop (l : list CTriNodePool) (outOfNodes : bool)
  : outcome (bool * list CTriNodePool) :=
  match l with
  | [] => Done (outOfNodes, [])
  | p :: rest =>
    let outOfNodes := outOfNodes || OutOfNodes p in
    match Reset p with
    | Done p' =>
      match ResetAll_loop rest outOfNodes with
      | Done (o, rest') => Done (o, p' :: rest')
      | Fault => Fault
      | OutOfFuel => OutOfFuel
      end
    | Fault => Fault
    | OutOfFuel => OutOfFuel
    end
  end.

(** [CTriNodePool::ResetAll(shadowPass)] *)
Definition ResetAll (fuel : nat) (numThreads : Z) (can_alloc : Z -> bool)
    (shadowPass : bool) : St World unit :=
  do w <- get;
  do '(outOfNodes, l) <- lift (ResetAll_loop (pools w shadowPass) false);
  do _ <- modify (with_pools shadowPass l);
  if negb outOfNodes then ret tt else
  do w <- get;
  if MAX_POOL_SIZE w <=? CUR_POOL_SIZE w then ret tt else
  InitPools fuel numThreads can_alloc shadowPass
    (Z.min (size_t_wrap (CUR_POOL_SIZE w * 2)) (MAX_POOL_SIZE w)).

(** *** Node access *)

Definition lookup_node (w : World) (p : NodePtr) : option TriTreeNode :=
  match p with
  | BaseLeftOf k =>
    match patches w !! k with Some P => Some (baseLeft P) | None => None end
  | BaseRightOf k =>
    match patches w !! k with Some P => Some (baseRight P) | None => None end
  | PoolNode s t i =>
    match pools w s !! t with Some pl => pool pl !! i | None => None end
  end.

Definition update_node (w : World) (p : NodePtr) (n : TriTreeNode) : option World :=
  match p with
  | BaseLeftOf k =>
    match patches w !! k with
    | Some P => Some (with_patches (<[k := with_baseLeft n P]> (patches w)) w)
    | None => None
    end
  | BaseRightOf k =>
    match patches w !! k with
    | Some P => Some (with_patches (<[k := with_baseRight n P]> (patches w)) w)
    | None => None
    end
  | PoolNode s t i =>
    match pools w s !! t with
    | Some pl =>
      if (i <? length (pool pl))%nat
      then Some (with_pools s
                   (<[t := mkPool (<[i := n]> (pool pl)) (nextTriNodeIdx pl)]>
                      (pools w s)) w)
      else None
    | None => None
    end
  end.

Definition with_LeftChild (v : option NodePtr) (t : TriTreeNode) : TriTreeNode :=
  mkTriTreeNode v (RightChild t) (BaseNeighbor t) (LeftNeighbor t) (RightNeighbor t).
Definition with_RightChild (v : option NodePtr) (t : TriTreeNode) : TriTreeNode :=
  mkTriTreeNode (LeftChild t) v (BaseNeighbor t) (LeftNeighbor t) (RightNeighbor t).
Definition with_BaseNeighbor (v : option NodePtr) (t : TriTreeNode) : TriTreeNode :=
  mkTriTreeNode (LeftChild t) (RightChild t) v (LeftNeighbor t) (RightNeighbor t).
Definition with_LeftNeighbor (v : option NodePtr) (t : TriTreeNode) : TriTreeNode :=
  mkTriTreeNode (LeftChild t) (RightChild t) (BaseNeighbor t) v (RightNeighbor t).
Definition with_RightNeighbor (v : option NodePtr) (t : TriTreeNode) : TriTreeNode :=
  mkTriTreeNode (LeftChild t) (RightChild t) (BaseNeighbor t) (LeftNeighbor t) v.

(** [p->f] *)
Definition tri_get {A : Type} (f : TriTreeNode -> A) (p : NodePtr) : St World A :=
  fun w =>
    match lookup_node w p with
    | Some n => Done (f n, w)
    | None => Fault
    end.

(** [p->f = v], with [upd] the update of field [f] *)
Definition tri_set (upd : TriTreeNode -> TriTreeNode) (p : NodePtr) : St World unit :=
  fun w =>
    match lookup_node w p with
    | Some n =>
      match update_node w p (upd n) with
      | Some w' => Done (tt, w')
      | None => Fault
      end
    | None => Fault
    end.

(** [p->f->...]: the pointer read from a field is dereferenced next *)
Definition ptr (m : St World (option NodePtr)) : St World NodePtr :=
  do o <- m; deref o.

(** a member of the patch [self] *)
Definition patch_get {A : Type} (self : nat) (f : Patch -> A) : St World A :=
  do w <- get;
  do P <- deref (patches w !! self);
  ret (f P).

Definition patch_modify (self : nat) (f : Patch -> Patch) : St World unit :=
  do w <- get;
  do P <- deref (patches w !! self);
  put (with_patches (<[self := f P]> (patches w)) w).

(** [curTriPool->Allocate(tri->LeftChild, tri->RightChild)] *)
Definition curTriPool_Allocate (self : nat) (tri : NodePtr) : St World bool :=
  do cur <- patch_get self curTriPool;
  do '(s, t) <- deref cur;
  do w <- get;
  do pl <- deref (pools w s !! t);
  do '(ok, l, r, pl') <- lift (Allocate pl);
  do _ <- modify (fun w => with_pools s (<[t := pl']> (pools w s)) w);
  do _ <- tri_set (with_LeftChild (PoolNode s t <$> l)) tri;
  do _ <- tri_set (with_RightChild (PoolNode s t <$> r)) tri;
  ret ok.

(** *** [Patch::Split] *)

Fixpoint Split (fuel : nat) (self : nat) (tri : NodePtr) : St World bool :=
  match fuel with
  | O => out_of_fuel
  | S fuel' =>
    (* we are already split, no need to do it again *)
    do leaf <- tri_get IsLeaf tri;
    if negb leaf then ret true else
    (* if this triangle is not in a proper diamond, force split our base-neighbor *)
    do bn <- tri_get BaseNeighbor tri;
    do _ <- match bn with
            | Some b =>
              do bb <- tri_get BaseNeighbor b;
              if decide (bb = Some tri) then ret tt
              else do _ <- Split fuel' self b; ret tt
            | None => ret tt
            end;
    (* create children and link into mesh, or make this triangle a leaf *)
    do ok <- curTriPool_Allocate self tri;
    if negb ok then ret false else
    do br <- tri_get IsBranch tri;
    do _ <- assert_ br;
    (* fill in the information we can get from the parent (neighbor pointers) *)
    do lc <- ptr (tri_get LeftChild tri);
    do v <- tri_get LeftNeighbor tri;
    do _ <- tri_set (with_BaseNeighbor v) lc;
    do lc <- ptr (tri_get LeftChild tri);
    do v <- tri_get RightChild tri;
    do _ <- tri_set (with_LeftNeighbor v) lc;
    do rc <- ptr (tri_get RightChild tri);
    do v <- tri_get RightNeighbor tri;
    do _ <- tri_set (with_BaseNeighbor v) rc;
    do rc <- ptr (tri_get RightChild tri);
    do v <- tri_get LeftChild tri;
    do _ <- tri_set (with_RightNeighbor v) rc;
    (* link our left-neighbor to the new children *)
    do ln <- tri_get LeftNeighbor tri;
    do _ <- match ln with
            | Some l =>
              do lb <- tri_get BaseNeighbor l;
              if decide (lb = Some tri) then
                do c <- tri_get LeftChild tri; tri_set (with_BaseNeighbor c) l
              else
              do ll <- tri_get LeftNeighbor l;
              if decide (ll = Some tri) then
                do c <- tri_get LeftChild tri; tri_set (with_LeftNeighbor c) l
              else
              do lr <- tri_get RightNeighbor l;
              if decide (lr = Some tri) then
                do c <- tri_get LeftChild tri; tri_set (with_RightNeighbor c) l
              else ret tt (* illegal Left neighbor *)
            | None => ret tt
            end;
    (* link our right-neighbor to the new children *)
    do rn <- tri_get RightNeighbor tri;
    do _ <- match rn with
            | Some r =>
              do rb <- tri_get BaseNeighbor r;
              if decide (rb = Some tri) then
                do c <- tri_get RightChild tri; tri_set (with_BaseNeighbor c) r
              else
              do rr <- tri_get RightNeighbor r;
              if decide (rr = Some tri) then
                do c <- tri_get RightChild tri; tri_set (with_RightNeighbor c) r
              else
              do rl <- tri_get LeftNeighbor r;
              if decide (rl = Some tri) then
                do c <- tri_get RightChild tri; tri_set (with_LeftNeighbor c) r
              else ret tt (* illegal Right neighbor *)
            | None => ret tt
            end;
    (* link our base-neighbor to the new children; the statements of this
       block write LeftNeighbor and RightNeighbor fields only, so
       tri->BaseNeighbor is read once *)
    do bn <- tri_get BaseNeighbor tri;
    do _ <- match bn with
            | Some b =>
              do bbr <- tri_get IsBranch b;
              if bbr then
                do blc <- ptr (tri_get LeftChild b);
                do v <- tri_get RightChild tri;
                do _ <- tri_set (with_RightNeighbor v) blc;
                do brc <- ptr (tri_get RightChild b);
                do v <- tri_get LeftChild tri;
                do _ <- tri_set (with_LeftNeighbor v) brc;
                do lc <- ptr (tri_get LeftChild tri);
                do v <- tri_get RightChild b;
                do _ <- tri_set (with_RightNeighbor v) lc;
                do rc <- ptr (tri_get RightChild tri);
                do v <- tri_get LeftChild b;
                tri_set (with_LeftNeighbor v) rc
              else
                (* base Neighbor (in a diamond with us) was not split yet, do so now *)
                do _ <- Split fuel' self b; ret tt
            | None =>
              (* edge triangle, trivial case *)
              do lc <- ptr (tri_get LeftChild tri);
              do _ <- tri_set (with_RightNeighbor None) lc;
              do rc <- ptr (tri_get RightChild tri);
              tri_set (with_LeftNeighbor None) rc
            end;
    ret true
  end.

(** [Patch::Reset] *)
Definition Patch_Reset (self : nat) : St World unit :=
  do _ <- patch_modify self (with_baseLeft TriTreeNode_new);
  do _ <- patch_modify self (with_baseRight TriTreeNode_new);
  do _ <- tri_set (with_BaseNeighbor (Some (BaseRightOf self))) (BaseLeftOf self);
  tri_set (with_BaseNeighbor (Some (BaseLeftOf self))) (BaseRightOf self).

(** *** [Patch::RecursTessellate] *)

(** [currentVariance[node]] of the patch [self] *)
Definition currentVariance_get (self : nat) (node : Z) : St World float :=
  do cv <- patch_get self currentVariance;
  do a <- deref cv;
  do arr <- patch_get self
              (match a with VarianceLeft => varianceLeft | VarianceRight => varianceRight end);
  lift (array_get arr node).

(** the value of [triVariance] that [RecursTessellate] compares with 1.0f *)
Definition triVariance_of (PATCH_SIZE VARIANCE_DEPTH : Z) (self : nat)
    (left right : int2) (node : Z) : St World float :=
  (* default > 1; when variance isn't saved this issues further tessellation *)
  if node <? Z.shiftl 1 VARIANCE_DEPTH then
    let sizeX := Z.max (int2.x left - int2.x right) (int2.x right - int2.x left) in
    let sizeY := Z.max (int2.y left - int2.y right) (int2.y right - int2.y left) in
    let size := Z.max sizeX sizeY in
    (* take distance, variance and patch size into consideration *)
    do cv <- currentVariance_get self node;
    do limit <- patch_get self varianceMaxLimit;
    do lod <- patch_get self camDistLODFactor;
    ret (mul (mul (mul (std_min cv limit) (of_int PATCH_SIZE)) (of_int size)) lod)
  else ret ten.

Fixpoint RecursTessellate (fuel : nat) (PATCH_SIZE VARIANCE_DEPTH : Z) (self : nat)
    (tri : option NodePtr) (left right apex : int2) (node : Z) : St World unit :=
  match fuel with
  | O => out_of_fuel
  | S fuel' =>
    (* bail if we can not tessellate further in at least one dimension *)
    if (Z.abs (int2.x left - int2.x right) <=? 1)
       && (Z.abs (int2.y left - int2.y right) <=? 1) then ret tt else
    do triVariance <- triVariance_of PATCH_SIZE VARIANCE_DEPTH self left right node;
    (* stop tesselation *)
    if leb triVariance one then ret tt else
    do t <- deref tri;
    do _ <- Split fuel' self t;
    do br <- tri_get IsBranch t;
    if br then
      (* triangle was split, also try to split its children *)
      let center := int2.mk (Z.shiftr (int2.x left + int2.x right) 1)
                            (Z.shiftr (int2.y left + int2.y right) 1) in
      do lc <- tri_get LeftChild t;
      do _ <- RecursTessellate fuel' PATCH_SIZE VARIANCE_DEPTH self lc
                apex left center (Z.shiftl node 1);
      do rc <- tri_get RightChild t;
      RecursTessellate fuel' PATCH_SIZE VARIANCE_DEPTH self rc
        right apex center (Z.shiftl node 1 + 1)
    else ret tt
  end.

(** *** Index extraction *)

(** [indices.push_back(i)] for an [int] value [i] *)
Definition indices_push_back (self : nat) (i : Z) : St World unit :=
  patch_modify self (fun P => with_indices (indices P ++ [unsigned_wrap i]) P).

Fixpoint RecursGenIndices (fuel : nat) (PATCH_SIZE : Z) (self : nat)
    (tri : option NodePtr) (left right apex : int2) : St World unit :=
  match fuel with
  | O => out_of_fuel
  | S fuel' =>
    do t <- deref tri;
    do leaf <- tri_get IsLeaf t;
    if leaf then
      do _ <- indices_push_back self (int2.x apex + int2.y apex * (PATCH_SIZE + 1));
      do _ <- indices_push_back self (int2.x left + int2.y left * (PATCH_SIZE + 1));
      indices_push_back self (int2.x right + int2.y right * (PATCH_SIZE + 1))
    else
      let center := int2.mk (Z.shiftr (int2.x left + int2.x right) 1)
                            (Z.shiftr (int2.y left + int2.y right) 1) in
      do lc <- tri_get LeftChild t;
      do _ <- RecursGenIndices fuel' PATCH_SIZE self lc apex left center;
      do rc <- tri_get RightChild t;
      RecursGenIndices fuel' PATCH_SIZE self rc right apex center
  end.

(** [Patch::GenerateIndices] *)
Definition GenerateIndices (fuel : nat) (PATCH_SIZE : Z) (self : nat) : St World unit :=
  do _ <- patch_modify self (with_indices []);
  do _ <- RecursGenIndices fuel PATCH_SIZE self (Some (BaseLeftOf self))
            (int2.mk 0 PATCH_SIZE) (int2.mk PATCH_SIZE 0) (int2.mk 0 0);
  RecursGenIndices fuel PATCH_SIZE self (Some (BaseRightOf self))
    (int2.mk PATCH_SIZE 0) (int2.mk 0 PATCH_SIZE) (int2.mk PATCH_SIZE PATCH_SIZE).

(** *** Border vertices *)

(** [*(float3* ) &vertices[i]]: three consecutive floats *)
Definition vertex_at (self : nat) (i : Z) : St World float3 :=
  do vs <- patch_get self vertices;
  do vx <- lift (array_get vs i);
  do vy <- lift (array_get vs (i + 1));
  do vz <- lift (array_get vs (i + 2));
  ret (float3.mk vx vy vz).

Definition borderVertices_push_back (self : nat) (v : VA_TYPE_C) : St World unit :=
  patch_modify self (fun P => with_borderVertices (borderVertices P ++ [v]) P).

(** the six vertices of the skirt quad below the edge from [a] to [b] *)
Definition push_skirt (self : nat) (a b : float3) : St World unit :=
  do _ <- borderVertices_push_back self (mkVA_TYPE_C a white);
  do _ <- borderVertices_push_back self
            (mkVA_TYPE_C (float3.mk (float3.x a) minus400 (float3.z a)) trans);
  do _ <- borderVertices_push_back self
            (mkVA_TYPE_C (float3.mk (float3.x b) (float3.y b) (float3.z b)) white);
  do _ <- borderVertices_push_back self
            (mkVA_TYPE_C (float3.mk (float3.x a) minus400 (float3.z a)) trans);
  do _ <- borderVertices_push_back self
            (mkVA_TYPE_C (float3.mk (float3.x b) minus400 (float3.z b)) trans);
  borderVertices_push_back self (mkVA_TYPE_C b white).

Fixpoint RecursGenBorderVertices (fuel : nat) (PATCH_SIZE : Z) (self : nat)
    (tri : option NodePtr) (left rght apex depth : int2) : St World unit :=
  match fuel with
  | O => out_of_fuel
  | S fuel' =>
    do t <- deref tri;
    do leaf <- tri_get IsLeaf t;
    if leaf then
      do v1 <- vertex_at self ((int2.x apex + int2.y apex * (PATCH_SIZE + 1)) * 3);
      do v2 <- vertex_at self ((int2.x left + int2.y left * (PATCH_SIZE + 1)) * 3);
      do v3 <- vertex_at self ((int2.x rght + int2.y rght * (PATCH_SIZE + 1)) * 3);
      if Z.land (int2.x depth) 1 =? 0 then push_skirt self v2 v3
      else if negb (int2.y depth =? 0) then push_skirt self v1 v2 (* left child *)
      else push_skirt self v3 v1 (* right child *)
    else
      let center := int2.mk (Z.shiftr (int2.x left + int2.x rght) 1)
                            (Z.shiftr (int2.y left + int2.y rght) 1) in
      (* at even depths, descend down left *and* right children since both
         are on the patch-edge *)
      if Z.land (int2.x depth) 1 =? 0 then
        do lc <- tri_get LeftChild t;
        do _ <- RecursGenBorderVertices fuel' PATCH_SIZE self lc apex left center
                  (int2.mk (int2.x depth + 1) (if int2.y depth =? 0 then 1 else 0));
        do rc <- tri_get RightChild t;
        RecursGenBorderVertices fuel' PATCH_SIZE self rc rght apex center
          (int2.mk (int2.x depth + 1) (int2.y depth))
      (* at odd depths (where only one triangle is on the edge), always force
         a left-bias for the next call *)
      else if negb (int2.y depth =? 0) then
        do lc <- tri_get LeftChild t;
        RecursGenBorderVertices fuel' PATCH_SIZE self lc apex left center
          (int2.mk (int2.x depth + 1) 1)
      else
        do rc <- tri_get RightChild t;
        RecursGenBorderVertices fuel' PATCH_SIZE self rc rght apex center
          (int2.mk (int2.x depth + 1) 1)
  end.

(** [Patch::GenerateBorderVertices] *)
Definition GenerateBorderVertices (fuel : nat) (PATCH_SIZE : Z) (self : nat) : St World unit :=
  do tess <- patch_get self isTesselated;
  if negb tess then ret tt else
  do _ <- patch_modify self (with_isTesselated false);
  do _ <- patch_modify self (with_borderVertices []);
  let PS := PATCH_SIZE in
  (* border vertices are always part of base-level triangles that have
     either no left or no right neighbor, i.e. are on the map edge *)
  do n <- tri_get LeftNeighbor (BaseLeftOf self);
  do _ <- (if decide (n = None) then
             RecursGenBorderVertices fuel PS self (Some (BaseLeftOf self))
               (int2.mk 0 PS) (int2.mk PS 0) (int2.mk 0 0) (int2.mk 1 1)
           else ret tt); (* left border *)
  do n <- tri_get RightNeighbor (BaseLeftOf self);
  do _ <- (if decide (n = None) then
             RecursGenBorderVertices fuel PS self (Some (BaseLeftOf self))
               (int2.mk 0 PS) (int2.mk PS 0) (int2.mk 0 0) (int2.mk 1 0)
           else ret tt); (* right border *)
  do n <- tri_get RightNeighbor (BaseRightOf self);
  do _ <- (if decide (n = None) then
             RecursGenBorderVertices fuel PS self (Some (BaseRightOf self))
               (int2.mk PS 0) (int2.mk 0 PS) (int2.mk PS PS) (int2.mk 1 0)
           else ret tt); (* bottom border *)
  do n <- tri_get LeftNeighbor (BaseRightOf self);
  if decide (n = None) then
    RecursGenBorderVertices fuel PS self (Some (BaseRightOf self))
      (int2.mk PS 0) (int2.mk 0 PS) (int2.mk PS PS) (int2.mk 1 1)
  else ret tt. (* top border *)

(** *** Variance *)

(** [Patch::GetHeight] *)
Definition GetHeight (PATCH_SIZE : Z) (pos : int2) : St Patch float :=
  let vIdx := (int2.y pos * (PATCH_SIZE + 1) + int2.x pos) * 3 + 1 in
  do P <- get;
  lift (array_get (vertices P) vIdx).

(** [currentVariance[node] = v] *)
Definition currentVariance_set (node : Z) (v : float) : St Patch unit :=
  do P <- get;
  do a <- deref (currentVariance P);
  match a with
  | VarianceLeft =>
    do arr <- lift (array_set (varianceLeft P) node v);
    put (with_varianceLeft arr P)
  | VarianceRight =>
    do arr <- lift (array_set (varianceRight P) node v);
    put (with_varianceRight arr P)
  end.

Fixpoint RecursComputeVariance (fuel : nat) (PATCH_SIZE VARIANCE_DEPTH : Z)
    (left rght apex : int2) (hgts : float3) (node : Z) : St Patch float :=
  match fuel with
  | O => out_of_fuel
  | S fuel' =>
    (* first compute the XZ coordinates of 'M' (hypotenuse middle) *)
    let mpos := int2.mk (Z.shiftr (int2.x left + int2.x rght) 1)
                        (Z.shiftr (int2.y left + int2.y rght) 1) in
    (* get the height value at M *)
    do mhgt <- GetHeight PATCH_SIZE mpos;
    (* variance of this triangle is the actual height at its hypotenuse
       midpoint minus the interpolated height *)
    let myVariance :=
      fabs (sub mhgt (mul (add (float3.x hgts) (float3.y hgts)) half)) in
    (* shore lines get more variance for higher accuracy *)
    let myVariance :=
      if ltb (mul (float3.x hgts) (float3.y hgts)) zero
         || ltb (mul (float3.x hgts) mhgt) zero
         || ltb (mul (float3.y hgts) mhgt) zero
      then std_max (mul myVariance one_and_half) twenty
      else myVariance in
    (* save some CPU, only calculate variance down to a 4x4 block *)
    do myVariance <-
      (if (4 <=? Z.abs (int2.x left - int2.x rght))
          || (4 <=? Z.abs (int2.y left - int2.y rght)) then
         let hgts1 := float3.mk (float3.z hgts) (float3.x hgts) mhgt in
         let hgts2 := float3.mk (float3.y hgts) (float3.z hgts) mhgt in
         do child1Variance <-
           RecursComputeVariance fuel' PATCH_SIZE VARIANCE_DEPTH
             apex left mpos hgts1 (Z.shiftl node 1);
         do child2Variance <-
           RecursComputeVariance fuel' PATCH_SIZE VARIANCE_DEPTH
             rght apex mpos hgts2 (Z.shiftl node 1 + 1);
         (* final variance for this node is the max of its own variance and
            that of its children *)
         ret (std_max (std_max myVariance child1Variance) child2Variance)
       else ret myVariance);
    (* NOTE: Variance is never zero *)
    let myVariance := std_max milli myVariance in
    (* store the final variance for this node *)
    do _ <- (if node <? Z.shiftl 1 VARIANCE_DEPTH
             then currentVariance_set node myVariance
             else ret tt);
    ret myVariance
  end.

(** [Patch::ComputeVariance] *)
Definition ComputeVariance (fuel : nat) (PATCH_SIZE VARIANCE_DEPTH : Z) : St Patch unit :=
  do _ <- modify (with_currentVariance (Some VarianceLeft));
  do _ <- (let left := int2.mk 0 PATCH_SIZE in
           let rght := int2.mk PATCH_SIZE 0 in
           let apex := int2.mk 0 0 in
           do hl <- GetHeight PATCH_SIZE left;
           do hr <- GetHeight PATCH_SIZE rght;
           do ha <- GetHeight PATCH_SIZE apex;
           RecursComputeVariance fuel PATCH_SIZE VARIANCE_DEPTH
             left rght apex (float3.mk hl hr ha) 1);
  do _ <- modify (with_currentVariance (Some VarianceRight));
  do _ <- (let left := int2.mk PATCH_SIZE 0 in
           let rght := int2.mk 0 PATCH_SIZE in
           let apex := int2.mk PATCH_SIZE PATCH_SIZE in
           do hl <- GetHeight PATCH_SIZE left;
           do hr <- GetHeight PATCH_SIZE rght;
           do ha <- GetHeight PATCH_SIZE apex;
           RecursComputeVariance fuel PATCH_SIZE VARIANCE_DEPTH
             left rght apex (float3.mk hl hr ha) 1);
  (* Clear the dirty flag for this patch *)
  modify (with_isDirty false).

(** ** Tile set-up and the tessellation driver *)

Definition with_varianceMaxLimit (v : float) (P : Patch) : Patch :=
  mkPatch (baseLeft P) (baseRight P) (varianceLeft P) (varianceRight P)
    (currentVariance P) (isDirty P) (isTesselated P) v
    (camDistLODFactor P) (coors P) (curTriPool P) (vertices P) (indices P)
    (borderVertices P).

Definition with_camDistLODFactor (v : float) (P : Patch) : Patch :=
  mkPatch (baseLeft P) (baseRight P) (varianceLeft P) (varianceRight P)
    (currentVariance P) (isDirty P) (isTesselated P) (varianceMaxLimit P)
    v (coors P) (curTriPool P) (vertices P) (indices P)
    (borderVertices P).

Definition with_coors (c : int2) (P : Patch) : Patch :=
  mkPatch (baseLeft P) (baseRight P) (varianceLeft P) (varianceRight P)
    (currentVariance P) (isDirty P) (isTesselated P) (varianceMaxLimit P)
    (camDistLODFactor P) c (curTriPool P) (vertices P) (indices P)
    (borderVertices P).

Definition with_curTriPool (c : option (bool * nat)) (P : Patch) : Patch :=
  mkPatch (baseLeft P) (baseRight P) (varianceLeft P) (varianceRight P)
    (currentVariance P) (isDirty P) (isTesselated P) (varianceMaxLimit P)
    (camDistLODFactor P) (coors P) c (vertices P) (indices P)
    (borderVertices P).

Definition with_vertices (v : list float) (P : Patch) : Patch :=
  mkPatch (baseLeft P) (baseRight P) (varianceLeft P) (varianceRight P)
    (currentVariance P) (isDirty P) (isTesselated P) (varianceMaxLimit P)
    (camDistLODFactor P) (coors P) (curTriPool P) v (indices P)
    (borderVertices P).

(** [for (int i = lo; i <= hi; i++) a = body(i, a);] with the locals that
    the body updates carried in [a] *)
Fixpoint for_steps {S A : Type} (n : nat) (i : Z) (body : Z -> A -> St S A) (a : A)
  : St S A :=
  match n with
  | O => ret a
  | S n' => do a' <- body i a; for_steps n' (i + 1) body a'
  end.

Definition for_range {S A : Type} (lo hi : Z) (body : Z -> A -> St S A) (a : A)
  : St S A :=
  for_steps (Z.to_nat (hi + 1 - lo)) lo body a.

(** Modelled from the spec: [SRectangle] is declared in System/Rectangle.h;
    a rectangle of grid squares given by two corners, both inclusive. *)
Record SRectangle : Type := mkSRectangle {
  x1 : Z;
  z1 : Z;
  x2 : Z;
  z2 : Z
}.

(** [Patch::UpdateHeightMap(rect)].  [hMap] is the array returned by
    [readMap->GetCornerHeightMapUnsynced()] and [mapxp1] the value of
    [mapDims.mapxp1].  [UploadVertices] hands the array to the graphics
    device and changes no member. *)
Definition UpdateHeightMap (PATCH_SIZE : Z) (hMap : list float) (mapxp1 : Z)
    (rect : SRectangle) : St Patch unit :=
  do _ <- for_range (z1 rect) (z2 rect) (fun z _ =>
            for_range (x1 rect) (x2 rect) (fun x _ =>
              let vindex := (z * (PATCH_SIZE + 1) + x) * 3 in
              do P <- get;
              let xw := x + int2.x (coors P) in
              let zw := z + int2.y (coors P) in
              (* only update y-coord *)
              do h <- lift (array_get hMap (zw * mapxp1 + xw));
              do vs <- lift (array_set (vertices P) (vindex + 1) h);
              put (with_vertices vs P)) tt) tt;
  modify (with_isDirty true).

(** [vertices[index++] = v] for the [unsigned int] local [index]; the
    result is the incremented index *)
Definition vertices_store (index : Z) (v : float) : St Patch Z :=
  do P <- get;
  do vs <- lift (array_set (vertices P) index v);
  do _ <- put (with_vertices vs P);
  ret (unsigned_wrap (index + 1)).

(** [Patch::Init(_drawer, patchX, patchZ)] for the patch at address
    [self].  [SQUARE_SIZE] is the constant of that name; [wholeTile] is
    the default argument of [UpdateHeightMap], which Patch.h declares.
    The drawer and the handles of the graphics device are not part of the
    model. *)
Definition Init (PATCH_SIZE SQUARE_SIZE : Z) (hMap : list float) (mapxp1 : Z)
    (wholeTile : SRectangle) (self : nat) (patchX patchZ : Z) : St Patch unit :=
  do _ <- modify (fun P => with_coors (int2.mk patchX (int2.y (coors P))) P);
  do _ <- modify (fun P => with_coors (int2.mk (int2.x (coors P)) patchZ) P);
  (* attach the two base-triangles together *)
  do _ <- modify (fun P =>
            with_baseLeft (with_BaseNeighbor (Some (BaseRightOf self)) (baseLeft P)) P);
  do _ <- modify (fun P =>
            with_baseRight (with_BaseNeighbor (Some (BaseLeftOf self)) (baseRight P)) P);
  (* initialize vertices *)
  do P <- get;
  do _ <- for_range (int2.y (coors P)) (int2.y (coors P) + PATCH_SIZE) (fun z index =>
            for_range (int2.x (coors P)) (int2.x (coors P) + PATCH_SIZE) (fun x index =>
              do index <- vertices_store index (of_int (x * SQUARE_SIZE));
              do index <- vertices_store index zero;
              vertices_store index (of_int (z * SQUARE_SIZE))) index) 0;
  UpdateHeightMap PATCH_SIZE hMap mapxp1 wholeTile.

(** [CTriNodePool::GetPool(shadowPass)]: the address of the pool of the
    calling worker, [threadNum] being the value of
    [ThreadPool::GetThreadNum()] *)
Definition GetPool (threadNum : Z) (shadowPass : bool) : St World (bool * nat) :=
  do w <- get;
  do _ <- lift (array_get (pools w shadowPass) threadNum);
  ret (shadowPass, Z.to_nat threadNum).

Definition div : float -> float -> float := SFdiv prec emax.
Definition sqrt : float -> float := SFsqrt prec emax.

Definition three_hundred : float := S754_finite false 9830400 (-15).  (* 300.0f *)
Definition c0_35 : float := S754_finite false 11744051 (-25).         (* 0.35f *)

(** Modelled from the spec: [float3::distance] is declared in
    System/float3.h; the Euclidean distance of two points. *)
Definition distance (a b : float3) : float :=
  let dx := sub (float3.x a) (float3.x b) in
  let dy := sub (float3.y a) (float3.y b) in
  let dz := sub (float3.z a) (float3.z b) in
  sqrt (add (add (mul dx dx) (mul dy dy)) (mul dz dz)).

(** [Patch::Tessellate(camPos, viewRadius, shadowPass)] for the patch at
    address [self]; [avgHeight] is the value of
    [readMap->GetCurrAvgHeight()]. *)
Definition Tessellate (fuel : nat) (PATCH_SIZE VARIANCE_DEPTH SQUARE_SIZE : Z)
    (avgHeight : float) (threadNum : Z) (self : nat)
    (camPos : float3) (viewRadius : Z) (shadowPass : bool) : St World bool :=
  do _ <- patch_modify self (with_isTesselated true);
  (* Set/Update LOD params *)
  do c <- patch_get self coors;
  let midPos :=
    float3.mk (of_int ((int2.x c + Z.quot PATCH_SIZE 2) * SQUARE_SIZE))
              avgHeight
              (of_int ((int2.y c + Z.quot PATCH_SIZE 2) * SQUARE_SIZE)) in
  do cur <- GetPool threadNum shadowPass;
  do _ <- patch_modify self (with_curTriPool (Some cur));
  (* MAGIC NUMBER 1: scale factor to reduce LOD with camera distance *)
  do _ <- patch_modify self (with_camDistLODFactor (distance midPos camPos));
  do _ <- patch_modify self (fun P =>
            with_camDistLODFactor
              (mul (camDistLODFactor P) (div three_hundred (of_int viewRadius))) P);
  do _ <- patch_modify self (fun P =>
            with_camDistLODFactor (std_max one (camDistLODFactor P)) P);
  do _ <- patch_modify self (fun P =>
            with_camDistLODFactor (div one (camDistLODFactor P)) P);
  (* MAGIC NUMBER 2: regulates how deeply areas are tessellated by clamping
     variances to it *)
  do _ <- patch_modify self (with_varianceMaxLimit (mul (of_int viewRadius) c0_35));
  (* split each of the base triangles *)
  do _ <- patch_modify self (with_currentVariance (Some VarianceLeft));
  do c <- patch_get self coors;
  do _ <- RecursTessellate fuel PATCH_SIZE VARIANCE_DEPTH self (Some (BaseLeftOf self))
            (int2.mk (int2.x c) (int2.y c + PATCH_SIZE))
            (int2.mk (int2.x c + PATCH_SIZE) (int2.y c))
            (int2.mk (int2.x c) (int2.y c)) 1;
  do _ <- patch_modify self (with_currentVariance (Some VarianceRight));
  do c <- patch_get self coors;
  do _ <- RecursTessellate fuel PATCH_SIZE VARIANCE_DEPTH self (Some (BaseRightOf self))
            (int2.mk (int2.x c + PATCH_SIZE) (int2.y c))
            (int2.mk (int2.x c) (int2.y c + PATCH_SIZE))
            (int2.mk (int2.x c + PATCH_SIZE) (int2.y c + PATCH_SIZE)) 1;
  do cur <- patch_get self curTriPool;
  do '(s, t) <- deref cur;
  do w <- get;
  do pl <- deref (pools w s !! t);
  ret (negb (OutOfNodes pl)).

(** * Properties *)

(** ** The node pool *)

Lemma Z_land_1 (n : Z) : Z.land n 1 = n mod 2.
Proof. change 1 with (Z.ones 1). rewrite Z.land_ones by lia. reflexivity. Qed.

Lemma CTriNodePool_new_wf poolSize p :
  CTriNodePool_new poolSize = Done p -> pool_wf p /\ (0 < length (pool p))%nat.
Proof.
  unfold CTriNodePool_new.
  destruct (Z.land poolSize 1 =? 0) eqn:Hev; simpl; [|discriminate].
  destruct (0 <? poolSize) eqn:Hpos; simpl; [|discriminate].
  intros [= <-]. unfold pool_wf. simpl. rewrite length_replicate.
  apply Z.eqb_eq in Hev. apply Z.ltb_lt in Hpos.
  rewrite Z_land_1 in Hev.
  split; [split; [|split] | lia].
  - exists (Z.to_nat (poolSize / 2)).
    pose proof (Z.div_mod poolSize 2 ltac:(lia)) as Hdm. lia.
  - exists 0%nat. reflexivity.
  - lia.
Qed.

Lemma Reset_wf p p' : pool_wf p -> Reset p = Done p' -> pool_wf p'.
Proof.
  intros (Hcap & Hcur & Hle). unfold Reset.
  destruct (0 <? nextTriNodeIdx p)%nat.
  - destruct (nextTriNodeIdx p <=? length (pool p))%nat eqn:E; [|discriminate].
    intros [= <-]. unfold pool_wf. simpl. apply Nat.leb_le in E.
    rewrite length_app, length_replicate, length_drop.
    replace (nextTriNodeIdx p + (length (pool p) - nextTriNodeIdx p))%nat
      with (length (pool p)) by lia.
    split; [assumption | split; [exists 0%nat; reflexivity | lia]].
  - intros [= <-]. unfold pool_wf. simpl.
    split; [assumption | split; [exists 0%nat; reflexivity | lia]].
Qed.

Lemma Allocate_wf p r l b p' :
  pool_wf p -> Allocate p = Done (b, l, r, p') -> pool_wf p'.
Proof.
  intros (Hcap & Hcur & Hle). unfold Allocate.
  destruct (OutOfNodes p) eqn:Hout.
  - intros [= <- <- <- <-]. split; [|split]; assumption.
  - destruct (S (nextTriNodeIdx p) <? length (pool p))%nat eqn:E; [|discriminate].
    intros [= <- <- <- <-]. apply Nat.ltb_lt in E.
    unfold pool_wf. simpl. split; [assumption | split; [| lia]].
    destruct Hcur as [k Hk]. exists (S k). lia.
Qed.

(** C5: [Allocate(left, right)] on an exhausted pool returns false, leaves
    both outputs null and the pool (cursor included) as it was; otherwise
    it returns true, [left] and [right] are the two distinct entries at
    the old cursor and the one after it, both inside the pool and not
    handed out since the last reset, and the cursor has advanced by two. *)
Theorem Allocate_spec (p : CTriNodePool) (Hwf : pool_wf p) :
  (OutOfNodes p = true -> Allocate p = Done (false, None, None, p))
  /\ (OutOfNodes p = false ->
      exists l r p',
        Allocate p = Done (true, Some l, Some r, p')
        /\ l = nextTriNodeIdx p /\ r = S l /\ l <> r
        /\ (nextTriNodeIdx p <= l)%nat /\ (nextTriNodeIdx p <= r)%nat
        /\ (l < length (pool p))%nat /\ (r < length (pool p))%nat
        /\ nextTriNodeIdx p' = (nextTriNodeIdx p + 2)%nat
        /\ pool p' = pool p).
Proof.
  destruct Hwf as (Hcap & Hcur & Hle). split; intros Hout.
  - unfold Allocate. rewrite Hout. reflexivity.
  - assert (Hlt : (S (nextTriNodeIdx p) < length (pool p))%nat).
    { unfold OutOfNodes in Hout. apply Nat.leb_gt in Hout.
      destruct Hcap as [a Ha], Hcur as [c Hc]. lia. }
    exists (nextTriNodeIdx p), (S (nextTriNodeIdx p)),
      (mkPool (pool p) (S (S (nextTriNodeIdx p)))).
    unfold Allocate. rewrite Hout.
    apply Nat.ltb_lt in Hlt as Hb. rewrite Hb. simpl.
    repeat (split; [first [reflexivity | lia] |]). reflexivity.
Qed.

Definition pool_of_four : CTriNodePool :=
  mkPool (replicate 4 TriTreeNode_new) 2.

Lemma pool_of_four_wf : pool_wf pool_of_four.
Proof.
  split; [exists 2%nat; reflexivity | split; [exists 1%nat; reflexivity |]].
  simpl. lia.
Defined.

Lemma Allocate_spec_witness :
  pool_wf pool_of_four
  /\ (OutOfNodes pool_of_four = false ->
      exists l r p',
        Allocate pool_of_four = Done (true, Some l, Some r, p')
        /\ l = nextTriNodeIdx pool_of_four /\ r = S l /\ l <> r
        /\ (nextTriNodeIdx pool_of_four <= l)%nat
        /\ (nextTriNodeIdx pool_of_four <= r)%nat
        /\ (l < length (pool pool_of_four))%nat
        /\ (r < length (pool pool_of_four))%nat
        /\ nextTriNodeIdx p' = (nextTriNodeIdx pool_of_four + 2)%nat
        /\ pool p' = pool pool_of_four).
Proof.
  split; [exact pool_of_four_wf |].
  exact (proj2 (Allocate_spec pool_of_four pool_of_four_wf)).
Defined.

Lemma Reset_Done (p : CTriNodePool) :
  (nextTriNodeIdx p <= length (pool p))%nat ->
  Reset p = Done (mkPool (replicate (nextTriNodeIdx p) TriTreeNode_new
                            ++ drop (nextTriNodeIdx p) (pool p)) 0).
Proof.
  intros Hle. unfold Reset.
  destruct (0 <? nextTriNodeIdx p)%nat eqn:Hpos.
  - apply Nat.leb_le in Hle. rewrite Hle. reflexivity.
  - apply Nat.ltb_ge in Hpos.
    replace (nextTriNodeIdx p) with 0%nat by lia. reflexivity.
Qed.

Lemma Reset_length p p' : Reset p = Done p' -> length (pool p') = length (pool p).
Proof.
  unfold Reset. destruct (0 <? nextTriNodeIdx p)%nat.
  - destruct (nextTriNodeIdx p <=? length (pool p))%nat eqn:E; [|discriminate].
    intros [= <-]. simpl. apply Nat.leb_le in E.
    rewrite length_app, length_replicate, length_drop. lia.
  - intros [= <-]. reflexivity.
Qed.

Lemma Reset_cursor p p' : Reset p = Done p' -> nextTriNodeIdx p' = 0%nat.
Proof.
  unfold Reset. destruct (0 <? nextTriNodeIdx p)%nat.
  - destruct (nextTriNodeIdx p <=? length (pool p))%nat; [|discriminate].
    intros [= <-]. reflexivity.
  - intros [= <-]. reflexivity.
Qed.

(** C6: on a pool whose cursor is positive, [Reset()] followed at once by
    [Allocate()] hands out the entries 0 and 1, and every entry issued
    before the reset is the all-null node: no child or neighbour reference
    is left in the region that was in use. *)
Theorem Reset_then_Allocate (p : CTriNodePool)
    (Hwf : pool_wf p) (Hpos : (0 < nextTriNodeIdx p)%nat) :
  exists p1 p2,
    Reset p = Done p1
    /\ Allocate p1 = Done (true, Some 0%nat, Some 1%nat, p2)
    /\ length (pool p1) = length (pool p)
    /\ (forall i, (i < nextTriNodeIdx p)%nat ->
          pool p1 !! i = Some TriTreeNode_new /\ pool p2 !! i = Some TriTreeNode_new)
    /\ (forall i, (nextTriNodeIdx p <= i)%nat -> pool p1 !! i = pool p !! i)
    /\ nextTriNodeIdx p2 = 2%nat.
Proof.
  destruct Hwf as (Hcap & Hcur & Hle).
  pose proof (Reset_Done p Hle) as HR.
  set (p1 := mkPool (replicate (nextTriNodeIdx p) TriTreeNode_new
                       ++ drop (nextTriNodeIdx p) (pool p)) 0) in *.
  assert (Hlen : length (pool p1) = length (pool p)) by (eapply Reset_length; eassumption).
  assert (Hbig : (1 < length (pool p))%nat).
  { destruct Hcap as [a Ha]. lia. }
  exists p1, (mkPool (pool p1) 2). split; [exact HR|].
  split.
  { unfold Allocate, OutOfNodes. rewrite Hlen. simpl nextTriNodeIdx.
    destruct (length (pool p) <=? 0)%nat eqn:E1; [apply Nat.leb_le in E1; lia|].
    destruct (1 <? length (pool p))%nat eqn:E2; [reflexivity|].
    apply Nat.ltb_ge in E2. lia. }
  split; [exact Hlen|].
  split.
  { intros i Hi. simpl.
    rewrite lookup_app_l by (rewrite length_replicate; lia).
    split; apply lookup_replicate_2; exact Hi. }
  split; [|reflexivity].
  intros i Hi. simpl.
  rewrite lookup_app_r by (rewrite length_replicate; lia).
  rewrite length_replicate, lookup_drop. f_equal. lia.
Qed.

Definition used_pool : CTriNodePool :=
  mkPool
    [ mkTriTreeNode (Some (PoolNode false 0 2)) (Some (PoolNode false 0 3))
        (Some (BaseRightOf 0)) None None;
      mkTriTreeNode None None (Some (PoolNode false 0 0)) None (Some (BaseLeftOf 0));
      TriTreeNode_new; TriTreeNode_new ] 2.

Lemma used_pool_wf : pool_wf used_pool.
Proof.
  split; [exists 2%nat; reflexivity | split; [exists 1%nat; reflexivity |]].
  simpl. lia.
Defined.

Lemma Reset_then_Allocate_witness :
  exists p1 p2,
    Reset used_pool = Done p1
    /\ Allocate p1 = Done (true, Some 0%nat, Some 1%nat, p2)
    /\ length (pool p1) = length (pool used_pool)
    /\ (forall i, (i < nextTriNodeIdx used_pool)%nat ->
          pool p1 !! i = Some TriTreeNode_new /\ pool p2 !! i = Some TriTreeNode_new)
    /\ (forall i, (nextTriNodeIdx used_pool <= i)%nat -> pool p1 !! i = pool used_pool !! i)
    /\ nextTriNodeIdx p2 = 2%nat.
Proof.
  apply (Reset_then_Allocate used_pool used_pool_wf). simpl. lia.
Defined.

(** ** Pool management *)

Definition cursors_in_range (l : list CTriNodePool) : Prop :=
  Forall (fun p => (nextTriNodeIdx p <= length (pool p))%nat) l.

Lemma ResetAll_loop_Done (l : list CTriNodePool) (o : bool) :
  cursors_in_range l ->
  exists l',
    ResetAll_loop l o = Done (o || existsb OutOfNodes l, l')
    /\ Forall2 (fun p p' => Reset p = Done p') l l'.
Proof.
  intros H. revert o. induction H as [|p l Hp Hl IH]; intros o.
  - exists []. simpl. rewrite orb_false_r. split; [reflexivity | constructor].
  - destruct (IH (o || OutOfNodes p)) as (l' & Hl' & HF).
    eexists (_ :: l'). simpl. rewrite (Reset_Done p Hp), Hl'.
    rewrite orb_assoc. split; [reflexivity|].
    constructor; [apply Reset_Done; exact Hp | exact HF].
Qed.

Lemma Forall2_Reset_lengths (l l' : list CTriNodePool) :
  Forall2 (fun p p' => Reset p = Done p') l l' ->
  map (fun p => length (pool p)) l' = map (fun p => length (pool p)) l.
Proof.
  induction 1 as [|p p' l0 l1 Hp HF IH]; [reflexivity|].
  simpl. rewrite (Reset_length _ _ Hp), IH. reflexivity.
Qed.

Lemma with_pools_pools s l w : pools (with_pools s l w) s = l.
Proof. destruct s; reflexivity. Qed.

Lemma with_pools_pools_other s l w : pools (with_pools s l w) (negb s) = pools w (negb s).
Proof. destruct s; reflexivity. Qed.

Lemma MAX_with_pools s l w : MAX_POOL_SIZE (with_pools s l w) = MAX_POOL_SIZE w.
Proof. destruct s; reflexivity. Qed.

Lemma CUR_with_pools s l w : CUR_POOL_SIZE (with_pools s l w) = CUR_POOL_SIZE w.
Proof. destruct s; reflexivity. Qed.

Lemma with_pools_twice s l l' w : with_pools s l (with_pools s l' w) = with_pools s l w.
Proof. destruct s; reflexivity. Qed.

(** [p'] is [p] after a reset: the cursor is back at 0, the capacity
    is that of [p], the entries that had been handed out are cleared and
    the others are as they were *)
Definition was_reset (p p' : CTriNodePool) : Prop :=
  nextTriNodeIdx p' = 0%nat
  /\ length (pool p') = length (pool p)
  /\ (forall i, (i < nextTriNodeIdx p)%nat -> pool p' !! i = Some TriTreeNode_new)
  /\ (forall i, (nextTriNodeIdx p <= i)%nat -> pool p' !! i = pool p !! i).

Lemma Reset_was_reset (p p' : CTriNodePool) :
  (nextTriNodeIdx p <= length (pool p))%nat -> Reset p = Done p' -> was_reset p p'.
Proof.
  intros Hc H. rewrite (Reset_Done p Hc) in H. injection H as <-.
  unfold was_reset. cbn [pool nextTriNodeIdx].
  split; [reflexivity|]. split; [|split].
  - rewrite length_app, length_replicate, length_drop. lia.
  - intros i Hi. rewrite lookup_app_l by (rewrite length_replicate; lia).
    apply lookup_replicate_2. exact Hi.
  - intros i Hi. rewrite lookup_app_r by (rewrite length_replicate; lia).
    rewrite length_replicate, lookup_drop. f_equal. lia.
Qed.

Lemma Forall2_was_reset (l l' : list CTriNodePool) :
  cursors_in_range l ->
  Forall2 (fun p p' => Reset p = Done p') l l' -> Forall2 was_reset l l'.
Proof.
  intros Hc HF. induction HF as [|p p' l0 l1 Hp HF IH]; [constructor|].
  apply Forall_cons in Hc as [Hc0 Hc1].
  constructor; [exact (Reset_was_reset p p' Hc0 Hp) | exact (IH Hc1)].
Qed.


Definition exhausted_world : World :=
  mkWorld 4 32 [mkPool (replicate 2 TriTreeNode_new) 2] [] [].

Lemma exhausted_world_cursors : cursors_in_range (pools exhausted_world false).
Proof. constructor; [simpl; lia | constructor]. Defined.

(** a world whose only pool has handed out two of its four nodes, which
    hold pointers *)
Definition used_world : World := mkWorld 4 32 [used_pool] [] [].

Lemma used_world_cursors : cursors_in_range (pools used_world false).
Proof. constructor; [simpl; lia | constructor]. Defined.



(** ** Reasoning about runs *)

(** [hoare P m Q]: a run of [m] from a state in [P] that ends normally
    ends with a result and a state in [Q]. *)
Definition hoare {S A : Type} (P : S -> Prop) (m : St S A) (Q : A -> S -> Prop) : Prop :=
  forall s, P s -> forall a s', m s = Done (a, s') -> Q a s'.

Definition preserves {S A : Type} (I : S -> Prop) (m : St S A) : Prop :=
  hoare I m (fun _ => I).

Lemma bind_Done {S A B : Type} (m : St S A) (k : A -> St S B) s a s' :
  m s = Done (a, s') -> bind m k s = k a s'.
Proof. intros H. unfold bind. rewrite H. reflexivity. Qed.

Lemma bind_inv {S A B : Type} (m : St S A) (k : A -> St S B) s b s'' :
  bind m k s = Done (b, s'') ->
  exists a s', m s = Done (a, s') /\ k a s' = Done (b, s'').
Proof.
  unfold bind. destruct (m s) as [[a s']| |]; try discriminate.
  intros H. exists a, s'. split; [reflexivity | exact H].
Qed.

Lemma hoare_bind {S A B : Type} (P : S -> Prop) (R : A -> S -> Prop)
    (Q : B -> S -> Prop) (m : St S A) (k : A -> St S B) :
  hoare P m R -> (forall a, hoare (R a) (k a) Q) -> hoare P (bind m k) Q.
Proof.
  intros Hm Hk s Hs b s'' Hrun.
  apply bind_inv in Hrun as (a & s' & H1 & H2).
  exact (Hk a s' (Hm s Hs a s' H1) b s'' H2).
Qed.

Lemma hoare_ret {S A : Type} (P : S -> Prop) (Q : A -> S -> Prop) (a : A) :
  (forall s, P s -> Q a s) -> hoare P (ret a) Q.
Proof. intros H s Hs a' s' [= <- <-]. exact (H s Hs). Qed.

Lemma hoare_conseq {S A : Type} (P P' : S -> Prop) (Q Q' : A -> S -> Prop) (m : St S A) :
  hoare P' m Q' -> (forall s, P s -> P' s) -> (forall a s, Q' a s -> Q a s) ->
  hoare P m Q.
Proof. intros H HP HQ s Hs a s' Hrun. apply HQ. exact (H s (HP s Hs) a s' Hrun). Qed.

Lemma hoare_fault {S A : Type} (P : S -> Prop) (Q : A -> S -> Prop) :
  hoare P fault Q.
Proof. intros s _ a s' H. discriminate H. Qed.

Lemma hoare_out_of_fuel {S A : Type} (P : S -> Prop) (Q : A -> S -> Prop) :
  hoare P out_of_fuel Q.
Proof. intros s _ a s' H. discriminate H. Qed.

(** a fact that the precondition implies may be used for the whole run *)
Lemma hoare_pure {S A : Type} (phi : Prop) (P : S -> Prop) (Q : A -> S -> Prop) (m : St S A) :
  (forall s, P s -> phi) -> (phi -> hoare P m Q) -> hoare P m Q.
Proof. intros H1 H2 s Hs. exact (H2 (H1 s Hs) s Hs). Qed.

(** operations that read the state without changing it *)
Definition read_only {S A : Type} (m : St S A) : Prop :=
  forall s a s', m s = Done (a, s') -> s' = s.

Lemma read_only_preserves {S A : Type} (I : S -> Prop) (m : St S A) :
  read_only m -> preserves I m.
Proof. intros H s Hs a s' Hrun. rewrite (H s a s' Hrun). exact Hs. Qed.

Lemma read_only_ret {S A : Type} (a : A) : read_only (S := S) (ret a).
Proof. intros s a' s' [= _ <-]. reflexivity. Qed.

Lemma read_only_fault {S A : Type} : read_only (S := S) (A := A) fault.
Proof. intros s a s' H. discriminate H. Qed.

Lemma read_only_get {S : Type} : read_only (S := S) get.
Proof. intros s a s' [= _ <-]. reflexivity. Qed.

Lemma read_only_lift {S A : Type} (o : outcome A) : read_only (S := S) (lift o).
Proof. intros s a s' H. unfold lift in H. destruct o; inversion H. reflexivity. Qed.

Lemma read_only_deref {S A : Type} (o : option A) : read_only (S := S) (deref o).
Proof. destruct o; [apply read_only_ret | apply read_only_fault]. Qed.

Lemma read_only_assert {S : Type} (b : bool) : read_only (S := S) (assert_ b).
Proof. destruct b; [apply read_only_ret | apply read_only_fault]. Qed.

Lemma read_only_bind {S A B : Type} (m : St S A) (k : A -> St S B) :
  read_only m -> (forall a, read_only (k a)) -> read_only (bind m k).
Proof.
  intros Hm Hk s b s'' Hrun.
  apply bind_inv in Hrun as (a & s' & H1 & H2).
  rewrite (Hk a s' b s'' H2). exact (Hm s a s' H1).
Qed.

Lemma read_only_tri_get {A : Type} (f : TriTreeNode -> A) p : read_only (tri_get f p).
Proof.
  intros s a s' H. unfold tri_get in H.
  destruct (lookup_node s p); inversion H. reflexivity.
Qed.

Lemma read_only_ptr m : read_only m -> read_only (ptr m).
Proof. intros H. apply read_only_bind; [exact H | intros a; apply read_only_deref]. Qed.

Lemma read_only_patch_get {A : Type} self (f : Patch -> A) : read_only (patch_get self f).
Proof.
  unfold patch_get.
  apply read_only_bind; [apply read_only_get | intros w].
  apply read_only_bind; [apply read_only_deref | intros P]. apply read_only_ret.
Qed.

Lemma read_only_vertex_at self i : read_only (vertex_at self i).
Proof.
  unfold vertex_at.
  apply read_only_bind; [apply read_only_patch_get | intros vs].
  repeat (apply read_only_bind; [apply read_only_lift | intros ?]).
  apply read_only_ret.
Qed.

Lemma read_only_currentVariance_get self node : read_only (currentVariance_get self node).
Proof.
  unfold currentVariance_get.
  apply read_only_bind; [apply read_only_patch_get | intros cv].
  apply read_only_bind; [apply read_only_deref | intros a].
  apply read_only_bind; [apply read_only_patch_get | intros arr].
  apply read_only_lift.
Qed.

Lemma read_only_triVariance_of PS VD self left right node :
  read_only (triVariance_of PS VD self left right node).
Proof.
  unfold triVariance_of.
  destruct (node <? Z.shiftl 1 VD); [|apply read_only_ret].
  apply read_only_bind; [apply read_only_currentVariance_get | intros cv].
  apply read_only_bind; [apply read_only_patch_get | intros l].
  apply read_only_bind; [apply read_only_patch_get | intros d].
  apply read_only_ret.
Qed.

(** what the primitives return *)
Lemma tri_get_Done {A : Type} (f : TriTreeNode -> A) p w n :
  lookup_node w p = Some n -> tri_get f p w = Done (f n, w).
Proof. intros H. unfold tri_get. rewrite H. reflexivity. Qed.

Lemma tri_get_inv {A : Type} (f : TriTreeNode -> A) p w a w' :
  tri_get f p w = Done (a, w') ->
  w' = w /\ exists n, lookup_node w p = Some n /\ a = f n.
Proof.
  unfold tri_get. destruct (lookup_node w p) as [n|]; [|discriminate].
  intros [= <- <-]. split; [reflexivity | exists n; split; reflexivity].
Qed.

Lemma tri_set_inv upd p w u w' :
  tri_set upd p w = Done (u, w') ->
  exists n, lookup_node w p = Some n /\ update_node w p (upd n) = Some w'.
Proof.
  unfold tri_set. destruct (lookup_node w p) as [n|]; [|discriminate].
  destruct (update_node w p (upd n)) as [w1|] eqn:E; [|discriminate].
  intros [= _ <-]. exists n. split; [reflexivity | exact E].
Qed.

Lemma patch_get_Done {A : Type} self (f : Patch -> A) w P :
  patches w !! self = Some P -> patch_get self f w = Done (f P, w).
Proof. intros H. unfold patch_get, bind, get. rewrite H. reflexivity. Qed.

Lemma patch_get_inv {A : Type} self (f : Patch -> A) w a w' :
  patch_get self f w = Done (a, w') ->
  w' = w /\ exists P, patches w !! self = Some P /\ a = f P.
Proof.
  unfold patch_get, bind, get.
  destruct (patches w !! self) as [P|]; [|discriminate].
  intros [= <- <-]. split; [reflexivity | exists P; split; reflexivity].
Qed.

Lemma patch_modify_Done self f w P :
  patches w !! self = Some P ->
  patch_modify self f w = Done (tt, with_patches (<[self := f P]> (patches w)) w).
Proof. intros H. unfold patch_modify, bind, get. rewrite H. reflexivity. Qed.

Lemma patch_modify_inv self f w u w' :
  patch_modify self f w = Done (u, w') ->
  exists P, patches w !! self = Some P
            /\ w' = with_patches (<[self := f P]> (patches w)) w.
Proof.
  unfold patch_modify, bind, get.
  destruct (patches w !! self) as [P|]; [|discriminate].
  intros [= _ <-]. exists P. split; reflexivity.
Qed.

Lemma patches_with_patches l w : patches (with_patches l w) = l.
Proof. reflexivity. Qed.

Lemma with_patches_twice l l' w : with_patches l (with_patches l' w) = with_patches l w.
Proof. reflexivity. Qed.

Lemma lookup_patch_updated (l : list Patch) self P P' :
  l !! self = Some P -> <[self := P']> l !! self = Some P'.
Proof. intros H. apply list_lookup_insert_eq. eapply lookup_lt_Some. exact H. Qed.

(** ** [Split] on a branch *)

(** C8: on a node that is already a branch, [Split] returns true at once
    and leaves the whole world as it was: the node, its children, every
    neighbour pointer and every pool cursor. *)
Theorem Split_branch_noop (fuel self : nat) (tri : NodePtr) (w : World) (t : TriTreeNode)
    (Htri : lookup_node w tri = Some t) (Hbranch : IsBranch t = true) :
  Split (S fuel) self tri w = Done (true, w).
Proof.
  cbn [Split].
  rewrite (bind_Done _ _ w (IsLeaf t) w) by (apply tri_get_Done; exact Htri).
  unfold IsBranch in Hbranch. apply negb_true_iff in Hbranch.
  rewrite Hbranch. reflexivity.
Qed.

(** a patch freshly reset, alone in the world, with a pool of [n] nodes *)
Definition fresh_patch : Patch :=
  with_baseRight (with_BaseNeighbor (Some (BaseLeftOf 0)) TriTreeNode_new)
    (with_baseLeft (with_BaseNeighbor (Some (BaseRightOf 0)) TriTreeNode_new)
       (mkPatch TriTreeNode_new TriTreeNode_new [] [] None true false
          max_float one (int2.mk 0 0) (Some (false, 0%nat)) [] [] [])).

Definition fresh_world (n : nat) : World :=
  mkWorld (Z.of_nat n) (Z.of_nat n)
    [mkPool (replicate n TriTreeNode_new) 0] [] [fresh_patch].

(** the same world after one successful [Split] of the left root *)
Definition split_world : World :=
  match Split 2 0 (BaseLeftOf 0) (fresh_world 4) with
  | Done (_, w) => w
  | _ => fresh_world 4
  end.

Lemma Split_branch_noop_witness :
  Split 1 0 (BaseLeftOf 0) split_world = Done (true, split_world).
Proof.
  apply (Split_branch_noop 0 0 (BaseLeftOf 0) split_world
           (mkTriTreeNode (Some (PoolNode false 0 0)) (Some (PoolNode false 0 1))
              (Some (BaseRightOf 0)) None None)).
  - reflexivity.
  - reflexivity.
Defined.

(** ** Index extraction *)

Definition vertex_index (PATCH_SIZE : Z) (p : int2) : Z :=
  int2.x p + int2.y p * (PATCH_SIZE + 1).

Lemma indices_push_back_Done self i w P :
  patches w !! self = Some P ->
  indices_push_back self i w
  = Done (tt, with_patches
                (<[self := with_indices (indices P ++ [unsigned_wrap i]) P]> (patches w)) w).
Proof.
  intros H. unfold indices_push_back.
  exact (patch_modify_Done self
           (fun P => with_indices (indices P ++ [unsigned_wrap i]) P) w P H).
Qed.

Lemma lookup_node_with_indices w self P l p :
  patches w !! self = Some P ->
  lookup_node (with_patches (<[self := with_indices l P]> (patches w)) w) p
  = lookup_node w p.
Proof.
  intros H. assert (Hlt : (self < length (patches w))%nat) by (eapply lookup_lt_Some; exact H).
  destruct p as [k|k|s t i]; simpl.
  - destruct (decide (k = self)) as [->|Hne].
    + rewrite list_lookup_insert_eq by exact Hlt. rewrite H. reflexivity.
    + rewrite list_lookup_insert_ne by congruence. reflexivity.
  - destruct (decide (k = self)) as [->|Hne].
    + rewrite list_lookup_insert_eq by exact Hlt. rewrite H. reflexivity.
    + rewrite list_lookup_insert_ne by congruence. reflexivity.
  - destruct s; reflexivity.
Qed.

Lemma RecursGenIndices_leaf fuel PS self t left right apex w n P :
  lookup_node w t = Some n -> IsLeaf n = true -> patches w !! self = Some P ->
  RecursGenIndices (S fuel) PS self (Some t) left right apex w
  = Done (tt, with_patches
                (<[self := with_indices
                             (indices P ++ [unsigned_wrap (vertex_index PS apex);
                                            unsigned_wrap (vertex_index PS left);
                                            unsigned_wrap (vertex_index PS right)]) P]>
                   (patches w)) w).
Proof.
  intros Hn Hleaf HP. cbn [RecursGenIndices deref].
  rewrite (bind_Done _ _ w t w) by reflexivity.
  rewrite (bind_Done _ _ w (IsLeaf n) w) by (apply tri_get_Done; exact Hn).
  rewrite Hleaf.
  erewrite bind_Done by (apply indices_push_back_Done; exact HP).
  erewrite bind_Done
    by (apply indices_push_back_Done; rewrite patches_with_patches;
        eapply lookup_patch_updated; exact HP).
  erewrite indices_push_back_Done
    by (rewrite patches_with_patches; eapply lookup_patch_updated;
        rewrite patches_with_patches; eapply lookup_patch_updated; exact HP).
  rewrite !patches_with_patches, !with_patches_twice, !list_insert_insert_eq.
  unfold vertex_index. destruct P; simpl. rewrite <- !app_assoc. reflexivity.
Qed.

(** C9: on a tile whose two root triangles are both leaves,
    [GenerateIndices] leaves exactly six indices, two triangles: for the
    left root and then for the right root the vertex indices of the apex,
    the left and the right corner, in this order; nothing else changes. *)
Theorem GenerateIndices_unsplit (fuel : nat) (PATCH_SIZE : Z) (self : nat)
    (w : World) (P : Patch)
    (HP : patches w !! self = Some P)
    (HleafL : IsLeaf (baseLeft P) = true) (HleafR : IsLeaf (baseRight P) = true) :
  let PS := PATCH_SIZE in
  let result :=
    unsigned_wrap <$>
      [ vertex_index PS (int2.mk 0 0);    (* apex of baseLeft *)
        vertex_index PS (int2.mk 0 PS);   (* left *)
        vertex_index PS (int2.mk PS 0);   (* right *)
        vertex_index PS (int2.mk PS PS);  (* apex of baseRight *)
        vertex_index PS (int2.mk PS 0);   (* left *)
        vertex_index PS (int2.mk 0 PS) ]  (* right *) in
  GenerateIndices (S fuel) PATCH_SIZE self w
  = Done (tt, with_patches (<[self := with_indices result P]> (patches w)) w)
  /\ length result = 6%nat.
Proof.
  intros PS result. split; [|reflexivity].
  unfold GenerateIndices.
  erewrite bind_Done by (apply patch_modify_Done; exact HP).
  set (w1 := with_patches (<[self := with_indices [] P]> (patches w)) w).
  assert (HP1 : patches w1 !! self = Some (with_indices [] P)).
  { unfold w1. rewrite patches_with_patches. eapply lookup_patch_updated. exact HP. }
  erewrite bind_Done.
  2:{ eapply (RecursGenIndices_leaf fuel PATCH_SIZE self (BaseLeftOf self) _ _ _ w1
                (baseLeft P) (with_indices [] P)); [|exact HleafL|exact HP1].
      simpl. simpl in HP1. rewrite HP1. reflexivity. }
  set (w2 := with_patches _ w1).
  set (P2 := with_indices _ (with_indices [] P)) in w2.
  assert (HP2 : patches w2 !! self = Some P2).
  { unfold w2. rewrite patches_with_patches. eapply lookup_patch_updated. exact HP1. }
  erewrite (RecursGenIndices_leaf fuel PATCH_SIZE self (BaseRightOf self) _ _ _ w2
              (baseRight P) P2); [|simpl; simpl in HP2; rewrite HP2; reflexivity
                                  |exact HleafR|exact HP2].
  unfold w2, w1. rewrite !patches_with_patches, !with_patches_twice, !list_insert_insert_eq.
  unfold P2, result. destruct P; reflexivity.
Qed.

Lemma GenerateIndices_unsplit_witness :
  GenerateIndices 1 128 0 (fresh_world 4)
  = Done (tt, with_patches
                [with_indices [0; 16512; 128; 16640; 128; 16512] fresh_patch]
                (fresh_world 4))
  /\ length (unsigned_wrap <$> [0; 16512; 128; 16640; 128; 16512]) = 6%nat.
Proof.
  exact (GenerateIndices_unsplit 0 128 0 (fresh_world 4) fresh_patch
           eq_refl eq_refl eq_refl).
Defined.

(** ** Border vertices *)

Definition flag_clear (self : nat) (w : World) : Prop :=
  exists P, patches w !! self = Some P /\ isTesselated P = false.

Lemma preserves_bind {S A B : Type} (I : S -> Prop) (m : St S A) (k : A -> St S B) :
  preserves I m -> (forall a, preserves I (k a)) -> preserves I (bind m k).
Proof. intros Hm Hk. eapply hoare_bind; [exact Hm | exact Hk]. Qed.

Lemma preserves_ret {S A : Type} (I : S -> Prop) (a : A) : preserves I (ret a).
Proof. apply hoare_ret. auto. Qed.

Lemma flag_clear_patch_modify self k f :
  (forall P, isTesselated (f P) = isTesselated P) ->
  preserves (flag_clear self) (patch_modify k f).
Proof.
  intros Hf w (P & HP & Hflag) u w' Hrun.
  apply patch_modify_inv in Hrun as (Pk & HPk & ->).
  unfold flag_clear. rewrite patches_with_patches.
  destruct (decide (k = self)) as [->|Hne].
  - exists (f Pk). split; [eapply lookup_patch_updated; exact HPk|].
    rewrite Hf. congruence.
  - exists P. rewrite list_lookup_insert_ne by exact Hne. split; assumption.
Qed.

Lemma flag_clear_push_skirt self k a b : preserves (flag_clear self) (push_skirt k a b).
Proof.
  unfold push_skirt, borderVertices_push_back.
  repeat (apply preserves_bind; [apply flag_clear_patch_modify; reflexivity | intros _]).
  apply flag_clear_patch_modify. reflexivity.
Qed.

Lemma flag_clear_RecursGenBorderVertices self fuel PS k tri left rght apex depth :
  preserves (flag_clear self)
    (RecursGenBorderVertices fuel PS k tri left rght apex depth).
Proof.
  revert tri left rght apex depth.
  induction fuel as [|fuel IH]; intros tri left rght apex depth.
  - apply hoare_out_of_fuel.
  - cbn [RecursGenBorderVertices].
    apply preserves_bind; [apply read_only_preserves, read_only_deref | intros t].
    apply preserves_bind; [apply read_only_preserves, read_only_tri_get | intros leaf].
    destruct leaf.
    + repeat (apply preserves_bind;
              [apply read_only_preserves, read_only_vertex_at | intros ?]).
      destruct (Z.land (int2.x depth) 1 =? 0); [apply flag_clear_push_skirt|].
      destruct (negb (int2.y depth =? 0)); apply flag_clear_push_skirt.
    + destruct (Z.land (int2.x depth) 1 =? 0).
      * apply preserves_bind; [apply read_only_preserves, read_only_tri_get | intros lc].
        apply preserves_bind; [apply IH | intros _].
        apply preserves_bind; [apply read_only_preserves, read_only_tri_get | intros rc].
        apply IH.
      * destruct (negb (int2.y depth =? 0));
          (apply preserves_bind;
           [apply read_only_preserves, read_only_tri_get | intros c; apply IH]).
Qed.

Lemma GenerateBorderVertices_not_tessellated fuel PS self w P :
  patches w !! self = Some P -> isTesselated P = false ->
  GenerateBorderVertices fuel PS self w = Done (tt, w).
Proof.
  intros HP Hflag. unfold GenerateBorderVertices.
  rewrite (bind_Done _ _ w (isTesselated P) w)
    by (exact (patch_get_Done self isTesselated w P HP)).
  rewrite Hflag. reflexivity.
Qed.

Lemma GenerateBorderVertices_clears_flag fuel PS self w u w1 :
  GenerateBorderVertices fuel PS self w = Done (u, w1) -> flag_clear self w1.
Proof.
  unfold GenerateBorderVertices. intros Hrun.
  apply bind_inv in Hrun as (tess & w0 & Hget & Hrun).
  apply patch_get_inv in Hget as (-> & P & HP & ->).
  destruct (isTesselated P) eqn:Hflag; simpl in Hrun.
  - apply bind_inv in Hrun as ([] & w2 & Hmod & Hrun).
    apply patch_modify_inv in Hmod as (P' & HP' & ->).
    assert (Hclear : flag_clear self
              (with_patches (<[self := with_isTesselated false P']> (patches w)) w)).
    { exists (with_isTesselated false P'). split; [|reflexivity].
      rewrite patches_with_patches. eapply lookup_patch_updated. exact HP'. }
    match type of Hrun with
    | ?m _ = _ => assert (Hpres : preserves (flag_clear self) m)
    end; [| exact (Hpres _ Hclear _ _ Hrun)].
    apply preserves_bind; [apply flag_clear_patch_modify; reflexivity | intros _].
    do 3 (apply preserves_bind;
          [apply read_only_preserves, read_only_tri_get | intros ?];
          apply preserves_bind;
          [case_decide;
           [apply flag_clear_RecursGenBorderVertices | apply preserves_ret]
          | intros _]).
    apply preserves_bind; [apply read_only_preserves, read_only_tri_get | intros ?].
    case_decide;
      [apply flag_clear_RecursGenBorderVertices | apply preserves_ret].
  - injection Hrun as _ <-. exists P. split; assumption.
Qed.

(** C10: when the tessellated flag of the tile is not set,
    [GenerateBorderVertices] returns with nothing modified, the border
    vertex list included.  A call that runs to its end leaves the flag
    cleared, so a second call that follows it with no [Tessellate] in
    between changes nothing either. *)
Theorem GenerateBorderVertices_idle (PATCH_SIZE : Z) (self : nat) :
  (forall fuel w P,
      patches w !! self = Some P -> isTesselated P = false ->
      GenerateBorderVertices fuel PATCH_SIZE self w = Done (tt, w))
  /\ (forall fuel fuel' w w1,
         GenerateBorderVertices fuel PATCH_SIZE self w = Done (tt, w1) ->
         flag_clear self w1
         /\ GenerateBorderVertices fuel' PATCH_SIZE self w1 = Done (tt, w1)).
Proof.
  split.
  - intros fuel w P HP Hflag.
    exact (GenerateBorderVertices_not_tessellated fuel PATCH_SIZE self w P HP Hflag).
  - intros fuel fuel' w w1 Hrun.
    pose proof (GenerateBorderVertices_clears_flag _ _ _ _ _ _ Hrun) as Hclear.
    split; [exact Hclear|].
    destruct Hclear as (P & HP & Hflag).
    exact (GenerateBorderVertices_not_tessellated fuel' PATCH_SIZE self w1 P HP Hflag).
Qed.

(** a flat tile of edge 4 at the origin, tessellated but never split *)
Definition flat_tile : Patch :=
  mkPatch (with_BaseNeighbor (Some (BaseRightOf 0)) TriTreeNode_new)
    (with_BaseNeighbor (Some (BaseLeftOf 0)) TriTreeNode_new)
    (replicate 16 zero) (replicate 16 zero) None true true
    max_float one (int2.mk 0 0) (Some (false, 0%nat))
    (replicate 75 zero) [] [].

Definition flat_world : World :=
  mkWorld 4 32 [mkPool (replicate 4 TriTreeNode_new) 0] [] [flat_tile].

Definition flat_world_bordered : World :=
  match GenerateBorderVertices 1 4 0 flat_world with
  | Done (_, w) => w
  | _ => flat_world
  end.

Lemma GenerateBorderVertices_idle_witness :
  GenerateBorderVertices 1 4 0 flat_world = Done (tt, flat_world_bordered)
  /\ (length <$> (borderVertices <$> patches flat_world_bordered !! 0%nat)) = Some 24%nat
  /\ flag_clear 0 flat_world_bordered
  /\ GenerateBorderVertices 1 4 0 flat_world_bordered = Done (tt, flat_world_bordered).
Proof.
  assert (Hrun : GenerateBorderVertices 1 4 0 flat_world
                 = Done (tt, flat_world_bordered)) by (vm_compute; reflexivity).
  split; [exact Hrun|].
  split; [vm_compute; reflexivity|].
  exact (proj2 (GenerateBorderVertices_idle 4 0) 1%nat 1%nat
           flat_world flat_world_bordered Hrun).
Defined.

(** ** The node store *)

Lemma pools_with_pools s s' l w :
  pools (with_pools s l w) s' = if decide (s' = s) then l else pools w s'.
Proof. destruct s, s'; reflexivity. Qed.

Lemma patches_with_pools s l w : patches (with_pools s l w) = patches w.
Proof. destruct s; reflexivity. Qed.

Lemma update_node_lookup_same w p n w' :
  update_node w p n = Some w' -> lookup_node w' p = Some n.
Proof.
  destruct p as [k|k|s t i]; simpl.
  - destruct (patches w !! k) as [P|] eqn:HP; [|discriminate].
    intros [= <-]. simpl. erewrite lookup_patch_updated by exact HP. reflexivity.
  - destruct (patches w !! k) as [P|] eqn:HP; [|discriminate].
    intros [= <-]. simpl. erewrite lookup_patch_updated by exact HP. reflexivity.
  - destruct (pools w s !! t) as [pl|] eqn:Hpl; [|discriminate].
    destruct (i <? length (pool pl))%nat eqn:Hi; [|discriminate].
    intros [= <-]. rewrite pools_with_pools. rewrite decide_True by reflexivity.
    rewrite list_lookup_insert_eq by (eapply lookup_lt_Some; exact Hpl).
    simpl. apply list_lookup_insert_eq. apply Nat.ltb_lt. exact Hi.
Qed.

Lemma update_node_lookup_other w p n w' q :
  update_node w p n = Some w' -> q <> p -> lookup_node w' q = lookup_node w q.
Proof.
  destruct p as [k|k|s t i]; simpl.
  - destruct (patches w !! k) as [P|] eqn:HP; [|discriminate].
    intros [= <-] Hne. destruct q as [k'|k'|s' t' i']; simpl; [| |destruct s'; reflexivity].
    + rewrite list_lookup_insert_ne by congruence. reflexivity.
    + destruct (decide (k' = k)) as [->|Hk].
      * erewrite lookup_patch_updated by exact HP. rewrite HP. reflexivity.
      * rewrite list_lookup_insert_ne by congruence. reflexivity.
  - destruct (patches w !! k) as [P|] eqn:HP; [|discriminate].
    intros [= <-] Hne. destruct q as [k'|k'|s' t' i']; simpl; [| |destruct s'; reflexivity].
    + destruct (decide (k' = k)) as [->|Hk].
      * erewrite lookup_patch_updated by exact HP. rewrite HP. reflexivity.
      * rewrite list_lookup_insert_ne by congruence. reflexivity.
    + rewrite list_lookup_insert_ne by congruence. reflexivity.
  - destruct (pools w s !! t) as [pl|] eqn:Hpl; [|discriminate].
    destruct (i <? length (pool pl))%nat eqn:Hi; [|discriminate].
    intros [= <-] Hne. destruct q as [k'|k'|s' t' i']; simpl.
    + rewrite patches_with_pools. reflexivity.
    + rewrite patches_with_pools. reflexivity.
    + rewrite pools_with_pools. destruct (decide (s' = s)) as [->|Hs]; [|reflexivity].
      destruct (decide (t' = t)) as [->|Ht].
      * rewrite list_lookup_insert_eq by (eapply lookup_lt_Some; exact Hpl).
        rewrite Hpl. simpl. apply list_lookup_insert_ne. congruence.
      * rewrite list_lookup_insert_ne by congruence. reflexivity.
Qed.

(** [w'] has the patches and pools of [w], with the same pool named by
    each patch, the same capacities, and cursors that have not moved
    back *)
Definition extends (w w' : World) : Prop :=
  (forall self P, patches w !! self = Some P ->
     exists P', patches w' !! self = Some P' /\ curTriPool P' = curTriPool P)
  /\ (forall s t pl, pools w s !! t = Some pl ->
        exists pl', pools w' s !! t = Some pl'
                    /\ length (pool pl') = length (pool pl)
                    /\ (nextTriNodeIdx pl <= nextTriNodeIdx pl')%nat).

Lemma extends_refl w : extends w w.
Proof.
  split.
  - intros self P HP. exists P. split; [exact HP | reflexivity].
  - intros s t pl Hpl. exists pl. split; [exact Hpl | split; [reflexivity | lia]].
Qed.

Lemma extends_trans w1 w2 w3 : extends w1 w2 -> extends w2 w3 -> extends w1 w3.
Proof.
  intros [Ha1 Hb1] [Ha2 Hb2]. split.
  - intros self P HP. destruct (Ha1 _ _ HP) as (P2 & HP2 & E2).
    destruct (Ha2 _ _ HP2) as (P3 & HP3 & E3).
    exists P3. split; [exact HP3 | congruence].
  - intros s t pl Hpl. destruct (Hb1 _ _ _ Hpl) as (pl2 & Hpl2 & L2 & C2).
    destruct (Hb2 _ _ _ Hpl2) as (pl3 & Hpl3 & L3 & C3).
    exists pl3. split; [exact Hpl3 | split; [congruence | lia]].
Qed.

Lemma extends_insert_patch w k P P' :
  patches w !! k = Some P -> curTriPool P' = curTriPool P ->
  extends w (with_patches (<[k := P']> (patches w)) w).
Proof.
  intros HP Hcur. split.
  - intros self Q HQ. rewrite patches_with_patches.
    destruct (decide (self = k)) as [->|Hne].
    + exists P'. split; [eapply lookup_patch_updated; exact HP | congruence].
    + exists Q. rewrite list_lookup_insert_ne by congruence.
      split; [exact HQ | reflexivity].
  - intros s t pl Hpl. exists pl.
    split; [destruct s; exact Hpl | split; [reflexivity | lia]].
Qed.

Lemma extends_insert_pool w s t pl pl' :
  pools w s !! t = Some pl ->
  length (pool pl') = length (pool pl) ->
  (nextTriNodeIdx pl <= nextTriNodeIdx pl')%nat ->
  extends w (with_pools s (<[t := pl']> (pools w s)) w).
Proof.
  intros Hpl Hlen Hcur. split.
  - intros self P HP. exists P. rewrite patches_with_pools.
    split; [exact HP | reflexivity].
  - intros s' t' q Hq. rewrite pools_with_pools.
    destruct (decide (s' = s)) as [->|Hs]; [|exists q; repeat split; [exact Hq | lia]].
    destruct (decide (t' = t)) as [->|Ht].
    + exists pl'. rewrite list_lookup_insert_eq by (eapply lookup_lt_Some; exact Hpl).
      assert (q = pl) by congruence. subst q. repeat split; [exact Hlen | exact Hcur].
    + exists q. rewrite list_lookup_insert_ne by congruence.
      repeat split; [exact Hq | lia].
Qed.

Lemma update_node_extends w p n w' : update_node w p n = Some w' -> extends w w'.
Proof.
  destruct p as [k|k|s t i]; simpl.
  - destruct (patches w !! k) as [P|] eqn:HP; [|discriminate].
    intros [= <-]. eapply extends_insert_patch; [exact HP | reflexivity].
  - destruct (patches w !! k) as [P|] eqn:HP; [|discriminate].
    intros [= <-]. eapply extends_insert_patch; [exact HP | reflexivity].
  - destruct (pools w s !! t) as [pl|] eqn:Hpl; [|discriminate].
    destruct (i <? length (pool pl))%nat eqn:Hi; [|discriminate].
    intros [= <-]. eapply extends_insert_pool; [exact Hpl | | simpl; lia].
    simpl. apply length_insert.
Qed.

(** moving the cursor of a pool leaves every node where it was *)
Lemma lookup_node_move_cursor w s t pl c q :
  pools w s !! t = Some pl ->
  lookup_node (with_pools s (<[t := mkPool (pool pl) c]> (pools w s)) w) q
  = lookup_node w q.
Proof.
  intros Hpl. destruct q as [k|k|s' t' i]; simpl.
  - rewrite patches_with_pools. reflexivity.
  - rewrite patches_with_pools. reflexivity.
  - rewrite pools_with_pools. destruct (decide (s' = s)) as [->|Hs]; [|reflexivity].
    destruct (decide (t' = t)) as [->|Ht].
    + rewrite list_lookup_insert_eq by (eapply lookup_lt_Some; exact Hpl).
      rewrite Hpl. reflexivity.
    + rewrite list_lookup_insert_ne by congruence. reflexivity.
Qed.

Lemma Allocate_inv pl ok l r pl' :
  Allocate pl = Done (ok, l, r, pl') ->
  pool pl' = pool pl
  /\ (nextTriNodeIdx pl <= nextTriNodeIdx pl')%nat
  /\ (ok = false -> OutOfNodes pl = true /\ l = None /\ r = None /\ pl' = pl)
  /\ (ok = true -> exists i, l = Some i /\ r = Some (S i)).
Proof.
  intros H. unfold Allocate in H. destruct (OutOfNodes pl) eqn:Hout.
  - injection H as <- <- <- <-.
    split; [reflexivity|]. split; [lia|]. split; [|discriminate].
    intros _. repeat split; reflexivity.
  - destruct (S (nextTriNodeIdx pl) <? length (pool pl))%nat; [|discriminate].
    injection H as <- <- <- <-. simpl.
    split; [reflexivity|]. split; [lia|]. split; [discriminate|].
    intros _. eexists. split; reflexivity.
Qed.

(** what [curTriPool->Allocate(tri->LeftChild, tri->RightChild)] does: the
    world [w1] in between has the cursor moved, then the two children of
    [tri] are written *)
Lemma curTriPool_Allocate_inv self tri w ok w' :
  curTriPool_Allocate self tri w = Done (ok, w') ->
  exists P s t pl l r pl' w1 w2 n1 n2,
    patches w !! self = Some P /\ curTriPool P = Some (s, t)
    /\ pools w s !! t = Some pl
    /\ Allocate pl = Done (ok, l, r, pl')
    /\ w1 = with_pools s (<[t := pl']> (pools w s)) w
    /\ lookup_node w1 tri = Some n1
    /\ update_node w1 tri (with_LeftChild (PoolNode s t <$> l) n1) = Some w2
    /\ lookup_node w2 tri = Some n2
    /\ update_node w2 tri (with_RightChild (PoolNode s t <$> r) n2) = Some w'.
Proof.
  unfold curTriPool_Allocate. intros Hrun.
  apply bind_inv in Hrun as (cur & w0 & Hget & Hrun).
  apply patch_get_inv in Hget as (-> & P & HP & ->).
  apply bind_inv in Hrun as ([s t] & w0 & Hd & Hrun).
  destruct (curTriPool P) as [[s0 t0]|] eqn:Hcur; [|discriminate].
  injection Hd as -> -> <-.
  apply bind_inv in Hrun as (w0 & w0' & Hg & Hrun). injection Hg as <- <-.
  apply bind_inv in Hrun as (pl & w0 & Hd & Hrun).
  destruct (pools w s !! t) as [pl0|] eqn:Hpl; [|discriminate].
  injection Hd as -> <-.
  apply bind_inv in Hrun as ([[[ok0 l] r] pl'] & w0 & Hal & Hrun).
  unfold lift in Hal. destruct (Allocate pl) as [[[[ok1 l1] r1] pl1]| |] eqn:HA;
    try discriminate.
  injection Hal as -> -> -> -> <-.
  apply bind_inv in Hrun as ([] & w1 & Hmod & Hrun). injection Hmod as <-.
  apply bind_inv in Hrun as ([] & w2 & Hs1 & Hrun).
  apply tri_set_inv in Hs1 as (n1 & Hn1 & Hu1).
  apply bind_inv in Hrun as ([] & w3 & Hs2 & Hrun).
  apply tri_set_inv in Hs2 as (n2 & Hn2 & Hu2).
  injection Hrun as <- <-.
  exists P, s, t, pl, l, r, pl'. do 2 eexists. exists n1, n2.
  repeat (split; [first [eassumption | reflexivity]|]). exact Hu2.
Qed.

(** ** Invariants of [Split] *)

Create HintDb read_only.

#[local] Hint Resolve read_only_ret read_only_fault read_only_get read_only_lift
  read_only_deref read_only_assert read_only_tri_get read_only_ptr
  read_only_patch_get read_only_vertex_at : read_only.

Lemma hoare_seq {S A B : Type} (I : S -> Prop) (Q : B -> S -> Prop)
    (m : St S A) (k : A -> St S B) :
  hoare I m (fun _ => I) -> (forall a, hoare I (k a) Q) -> hoare I (bind m k) Q.
Proof. intros Hm Hk. eapply hoare_bind; [exact Hm | exact Hk]. Qed.

(** an update of a neighbour field *)
Definition keeps_children (upd : TriTreeNode -> TriTreeNode) : Prop :=
  forall n, LeftChild (upd n) = LeftChild n /\ RightChild (upd n) = RightChild n.

(** one step through a run that keeps the invariant; [Hset], [Halloc] and
    [Hrec] are the facts for [tri_set], [curTriPool_Allocate] and the
    recursive calls *)
Ltac hoare_step Hset Halloc Hrec :=
  unfold preserves;
  first
    [ apply hoare_fault
    | apply hoare_out_of_fuel
    | apply hoare_ret; intros ? ?;
      first [assumption | split; [reflexivity | assumption]]
    | apply read_only_preserves; solve [auto with read_only]
    | apply Hset; intros ?; split; reflexivity
    | apply Halloc; assumption
    | apply Hrec
    | apply hoare_seq; [| intros ?; cbv beta]
    | match goal with
      | |- hoare _ (if ?b then _ else _) _ => destruct b
      | |- hoare _ (match ?o with Some _ => _ | None => _ end) _ => destruct o
      end ].

Section SplitInvariant.

Variable I : World -> Prop.
(** the nodes whose children a run may rewrite *)
Variable splittable : NodePtr -> Prop.

Hypothesis I_set : forall upd p, keeps_children upd -> preserves I (tri_set upd p).
Hypothesis I_alloc : forall self tri,
  splittable tri -> preserves I (curTriPool_Allocate self tri).
Hypothesis I_leaf : forall w tri n,
  I w -> lookup_node w tri = Some n -> IsLeaf n = true -> splittable tri.

Lemma Split_preserves (fuel self : nat) (tri : NodePtr) :
  preserves I (Split fuel self tri).
Proof.
  revert tri. induction fuel as [|fuel IH]; intros tri; [apply hoare_out_of_fuel|].
  cbn [Split].
  eapply hoare_bind
    with (R := fun leaf w => I w /\ exists n, lookup_node w tri = Some n /\ leaf = IsLeaf n).
  { intros w Hw leaf w' Hrun. apply tri_get_inv in Hrun as (-> & n & Hn & ->).
    split; [exact Hw | exists n; split; [exact Hn | reflexivity]]. }
  intros leaf. destruct leaf; cbn [negb].
  - eapply hoare_pure with (phi := splittable tri).
    { intros w (Hw & n & Hn & Hleaf). eapply I_leaf; eauto. }
    intros Hsplit.
    eapply hoare_conseq with (P' := I) (Q' := fun _ => I);
      [| intros w [Hw _]; exact Hw | auto].
    repeat hoare_step I_set I_alloc (IH).
  - apply hoare_ret. intros w [Hw _]. exact Hw.
Qed.

End SplitInvariant.

(** the node at [p] has the children [l] and [r] *)
Definition has_children (p : NodePtr) (l r : option NodePtr) (w : World) : Prop :=
  exists n, lookup_node w p = Some n /\ LeftChild n = l /\ RightChild n = r.

Definition leaf_at (w : World) (p : NodePtr) : Prop :=
  exists n, lookup_node w p = Some n /\ IsLeaf n = true.

Definition branch_at (w : World) (p : NodePtr) : Prop :=
  exists n, lookup_node w p = Some n /\ IsBranch n = true.

(** the pool that the patch [self] allocates from is out of nodes *)
Definition pool_exhausted (self : nat) (w : World) : Prop :=
  exists P s t pl,
    patches w !! self = Some P /\ curTriPool P = Some (s, t)
    /\ pools w s !! t = Some pl /\ OutOfNodes pl = true.

Lemma has_children_update w q n' w' p l r :
  update_node w q n' = Some w' ->
  (q = p -> LeftChild n' = l /\ RightChild n' = r) ->
  has_children p l r w -> has_children p l r w'.
Proof.
  intros Hu Hq (n & Hn & Hl & Hr). unfold has_children.
  destruct (decide (p = q)) as [->|Hne].
  - exists n'. split; [eapply update_node_lookup_same; exact Hu | apply Hq; reflexivity].
  - exists n. rewrite (update_node_lookup_other _ _ _ _ p Hu Hne).
    repeat split; assumption.
Qed.

Lemma has_children_tri_set p l r upd q :
  keeps_children upd -> preserves (has_children p l r) (tri_set upd q).
Proof.
  intros Hupd w Hw u w' Hrun. apply tri_set_inv in Hrun as (n & Hn & Hu).
  eapply has_children_update; [exact Hu | | exact Hw].
  intros ->. destruct Hw as (n0 & Hn0 & Hl & Hr).
  assert (n0 = n) by congruence. subst n0.
  destruct (Hupd n) as [E1 E2]. rewrite E1, E2. split; assumption.
Qed.

Lemma has_children_alloc p l r self tri :
  tri <> p -> preserves (has_children p l r) (curTriPool_Allocate self tri).
Proof.
  intros Hne w Hw ok w' Hrun.
  apply curTriPool_Allocate_inv in Hrun
    as (P & s & t & pl & l0 & r0 & pl' & w1 & w2 & n1 & n2
        & HP & Hcur & Hpl & HA & -> & Hn1 & Hu1 & Hn2 & Hu2).
  apply Allocate_inv in HA as (Hpool & _).
  eapply has_children_update; [exact Hu2 | intros ->; congruence |].
  eapply has_children_update; [exact Hu1 | intros ->; congruence |].
  destruct Hw as (n & Hn & Hl & Hr). exists n.
  replace pl' with (mkPool (pool pl) (nextTriNodeIdx pl'))
    by (destruct pl'; simpl in *; congruence).
  rewrite lookup_node_move_cursor by exact Hpl.
  repeat split; assumption.
Qed.

Lemma Split_keeps_children p l r fuel self tri :
  (l <> None \/ r <> None) ->
  preserves (has_children p l r) (Split fuel self tri).
Proof.
  intros Hlr.
  apply (Split_preserves (has_children p l r) (fun tri => tri <> p)).
  - intros upd q Hupd. apply has_children_tri_set. exact Hupd.
  - intros self0 tri0 Hne. apply has_children_alloc. exact Hne.
  - intros w tri0 n (n0 & Hn0 & Hl & Hr) Hn Hleaf ->.
    assert (n0 = n) by congruence. subst n0.
    unfold IsLeaf in Hleaf. rewrite Hl, Hr in Hleaf.
    destruct l, r; try discriminate. destruct Hlr; congruence.
Qed.

Lemma extends_tri_set w0 upd q : preserves (extends w0) (tri_set upd q).
Proof.
  intros w Hw u w' Hrun. apply tri_set_inv in Hrun as (n & Hn & Hu).
  eapply extends_trans; [exact Hw | eapply update_node_extends; exact Hu].
Qed.

Lemma extends_alloc w0 self tri : preserves (extends w0) (curTriPool_Allocate self tri).
Proof.
  intros w Hw ok w' Hrun.
  apply curTriPool_Allocate_inv in Hrun
    as (P & s & t & pl & l0 & r0 & pl' & w1 & w2 & n1 & n2
        & HP & Hcur & Hpl & HA & -> & Hn1 & Hu1 & Hn2 & Hu2).
  apply Allocate_inv in HA as (Hpool & Hcursor & _).
  eapply extends_trans; [exact Hw|].
  eapply extends_trans; [|eapply update_node_extends; exact Hu2].
  eapply extends_trans; [|eapply update_node_extends; exact Hu1].
  eapply extends_insert_pool; [exact Hpl | congruence | exact Hcursor].
Qed.

Lemma Split_extends fuel self tri w b w' :
  Split fuel self tri w = Done (b, w') -> extends w w'.
Proof.
  intros Hrun.
  refine (Split_preserves (extends w) (fun _ => True) _ _ _ fuel self tri
            w (extends_refl w) b w' Hrun).
  - intros upd q _. apply extends_tri_set.
  - intros self0 tri0 _. apply extends_alloc.
  - intros. exact Logic.I.
Qed.

Lemma pool_exhausted_extends self w w' :
  extends w w' -> pool_exhausted self w -> pool_exhausted self w'.
Proof.
  intros [Ha Hb] (P & s & t & pl & HP & Hcur & Hpl & Hout).
  destruct (Ha _ _ HP) as (P' & HP' & E).
  destruct (Hb _ _ _ Hpl) as (pl' & Hpl' & Hlen & Hc).
  exists P', s, t, pl'. repeat split; [exact HP' | congruence | exact Hpl' |].
  unfold OutOfNodes in *. apply Nat.leb_le in Hout. apply Nat.leb_le. lia.
Qed.

Lemma with_patches_id w : with_patches (patches w) w = w.
Proof. destruct w; reflexivity. Qed.

Lemma with_pools_id s w : with_pools s (pools w s) w = w.
Proof. destruct s, w; reflexivity. Qed.

Lemma update_node_id w p n : lookup_node w p = Some n -> update_node w p n = Some w.
Proof.
  destruct p as [k|k|s t i]; simpl.
  - destruct (patches w !! k) as [P|] eqn:HP; [|discriminate].
    intros [= <-]. replace (with_baseLeft (baseLeft P) P) with P by (destruct P; reflexivity).
    rewrite list_insert_id by exact HP. rewrite with_patches_id. reflexivity.
  - destruct (patches w !! k) as [P|] eqn:HP; [|discriminate].
    intros [= <-]. replace (with_baseRight (baseRight P) P) with P by (destruct P; reflexivity).
    rewrite list_insert_id by exact HP. rewrite with_patches_id. reflexivity.
  - destruct (pools w s !! t) as [pl|] eqn:Hpl; [|discriminate].
    intros Hn. apply lookup_lt_Some in Hn as Hlt. apply Nat.ltb_lt in Hlt. rewrite Hlt.
    rewrite (list_insert_id (pool pl) i n Hn).
    replace (mkPool (pool pl) (nextTriNodeIdx pl)) with pl by (destruct pl; reflexivity).
    rewrite (list_insert_id (pools w s) t pl Hpl). rewrite with_pools_id. reflexivity.
Qed.

Lemma IsLeaf_children n : IsLeaf n = true -> LeftChild n = None /\ RightChild n = None.
Proof.
  unfold IsLeaf. destruct (LeftChild n), (RightChild n); try discriminate.
  split; reflexivity.
Qed.

(** with the pool out of nodes the allocation for a leaf fails and
    changes nothing *)
Lemma curTriPool_Allocate_exhausted self tri w n :
  pool_exhausted self w -> lookup_node w tri = Some n -> IsLeaf n = true ->
  curTriPool_Allocate self tri w = Done (false, w).
Proof.
  intros (P & s & t & pl & HP & Hcur & Hpl & Hout) Hn Hleaf.
  destruct (IsLeaf_children n Hleaf) as [HL HR].
  assert (Hsame : with_LeftChild None n = n /\ with_RightChild None n = n).
  { destruct n; simpl in *; subst; split; reflexivity. }
  destruct Hsame as [E1 E2].
  unfold curTriPool_Allocate.
  rewrite (bind_Done _ _ w (curTriPool P) w) by (exact (patch_get_Done self curTriPool w P HP)).
  rewrite Hcur. cbn [deref].
  rewrite (bind_Done _ _ w (s, t) w) by reflexivity.
  rewrite (bind_Done _ _ w w w) by reflexivity.
  rewrite Hpl. cbn [deref].
  rewrite (bind_Done _ _ w pl w) by reflexivity.
  unfold Allocate. rewrite Hout. cbn [lift].
  rewrite (bind_Done _ _ w (false, None, None, pl) w) by reflexivity.
  assert (Hw : with_pools s (<[t := pl]> (pools w s)) w = w).
  { rewrite list_insert_id by exact Hpl. apply with_pools_id. }
  rewrite (bind_Done _ _ w tt w) by (unfold modify; rewrite Hw; reflexivity).
  assert (Hset1 : tri_set (with_LeftChild (PoolNode s t <$> None)) tri w = Done (tt, w)).
  { unfold tri_set. rewrite Hn. cbn [fmap option_fmap option_map]. rewrite E1.
    rewrite (update_node_id w tri n Hn). reflexivity. }
  assert (Hset2 : tri_set (with_RightChild (PoolNode s t <$> None)) tri w = Done (tt, w)).
  { unfold tri_set. rewrite Hn. cbn [fmap option_fmap option_map]. rewrite E2.
    rewrite (update_node_id w tri n Hn). reflexivity. }
  rewrite (bind_Done _ _ w tt w) by exact Hset1.
  rewrite (bind_Done _ _ w tt w) by exact Hset2.
  reflexivity.
Qed.

(** with the pool out of nodes [Split] changes nothing, and it returns
    false exactly on a leaf *)
Lemma Split_exhausted fuel self tri w b w' :
  pool_exhausted self w -> Split fuel self tri w = Done (b, w') ->
  w' = w /\ exists n, lookup_node w tri = Some n /\ b = negb (IsLeaf n).
Proof.
  intros Hex. revert tri b w'.
  induction fuel as [|fuel IH]; intros tri b w' Hrun; [discriminate|].
  cbn [Split] in Hrun.
  apply bind_inv in Hrun as (leaf & w0 & Hget & Hrun).
  apply tri_get_inv in Hget as (-> & n & Hn & ->).
  destruct (IsLeaf n) eqn:Hleaf; cbn [negb] in Hrun.
  2:{ injection Hrun as <- <-. split; [reflexivity|].
      exists n. rewrite Hleaf. split; [exact Hn | reflexivity]. }
  apply bind_inv in Hrun as (bn & w0 & Hget & Hrun).
  apply tri_get_inv in Hget as (-> & n0 & Hn0 & ->).
  apply bind_inv in Hrun as ([] & w1 & Hforced & Hrun).
  assert (w1 = w) as ->.
  { destruct (BaseNeighbor n0) as [b0|]; [|injection Hforced as <-; reflexivity].
    apply bind_inv in Hforced as (bb & w2 & Hget & Hforced).
    apply tri_get_inv in Hget as (-> & nb & Hnb & ->).
    destruct (decide (BaseNeighbor nb = Some tri)); [injection Hforced as <-; reflexivity|].
    apply bind_inv in Hforced as (b1 & w2 & Hsplit & Hret).
    injection Hret as <-. apply (IH _ _ _ Hsplit). }
  rewrite (bind_Done _ _ w false w) in Hrun
    by (exact (curTriPool_Allocate_exhausted self tri w n Hex Hn Hleaf)).
  cbn [negb] in Hrun. injection Hrun as <- <-. split; [reflexivity|].
  exists n. rewrite Hleaf. split; [exact Hn | reflexivity].
Qed.

(** the two ways in which [Split] returns *)
Lemma Split_returns fuel self tri w b w' :
  Split fuel self tri w = Done (b, w') ->
  (b = true /\ branch_at w' tri)
  \/ (b = false /\ leaf_at w' tri /\ pool_exhausted self w').
Proof.
  destruct fuel as [|fuel]; [discriminate|]. intros Hrun.
  cbn [Split] in Hrun.
  apply bind_inv in Hrun as (leaf & w0 & Hget & Hrun).
  apply tri_get_inv in Hget as (-> & n & Hn & ->).
  destruct (IsLeaf n) eqn:Hleaf; cbn [negb] in Hrun.
  2:{ injection Hrun as <- <-. left. split; [reflexivity|].
      exists n. split; [exact Hn | unfold IsBranch; rewrite Hleaf; reflexivity]. }
  apply bind_inv in Hrun as (bn & w0 & Hget & Hrun).
  apply tri_get_inv in Hget as (-> & n0 & Hn0 & ->).
  apply bind_inv in Hrun as ([] & w1 & Hforced & Hrun).
  apply bind_inv in Hrun as (ok & w2 & Halloc & Hrun).
  apply curTriPool_Allocate_inv in Halloc
    as (P & s & t & pl & l0 & r0 & pl' & w1' & w2' & n1 & n2
        & HP & Hcur & Hpl & HA & -> & Hn1 & Hu1 & Hn2 & Hu2).
  pose proof (update_node_lookup_same _ _ _ _ Hu1) as Hn2'.
  assert (n2 = with_LeftChild (PoolNode s t <$> l0) n1) by congruence. subst n2.
  pose proof (update_node_lookup_same _ _ _ _ Hu2) as Hn3.
  apply Allocate_inv in HA as (Hpool & Hcursor & Hfail & Hok).
  destruct ok; cbn [negb] in Hrun.
  - left. destruct (Hok eq_refl) as (i & -> & ->).
    cbn [fmap option_fmap option_map] in *.
    set (I := has_children tri (Some (PoolNode s t i)) (Some (PoolNode s t (S i)))).
    assert (HI : I w2).
    { eexists. split; [exact Hn3 | split; reflexivity]. }
    match type of Hrun with
    | ?m _ = _ => assert (Htail : hoare I m (fun b w => b = true /\ I w))
    end.
    { assert (Hset : forall upd p, keeps_children upd ->
                preserves I (tri_set upd p))
        by (intros; apply has_children_tri_set; assumption).
      assert (Hrec : forall fuel self tri, preserves I (Split fuel self tri))
        by (intros; apply Split_keeps_children; left; discriminate).
      repeat hoare_step Hset Hset Hrec. }
    destruct (Htail _ HI _ _ Hrun) as [-> (n' & Hn' & HL & HR)].
    split; [reflexivity|]. exists n'. split; [exact Hn'|].
    unfold IsBranch, IsLeaf. rewrite HL. reflexivity.
  - right. injection Hrun as <- <-. destruct (Hfail eq_refl) as (Hout & -> & -> & ->).
    cbn [fmap option_fmap option_map] in *.
    split; [reflexivity|]. split.
    + eexists. split; [exact Hn3 | reflexivity].
    + eapply pool_exhausted_extends.
      { eapply extends_trans; eapply update_node_extends; eassumption. }
      exists P, s, t, pl. rewrite patches_with_pools, pools_with_pools.
      rewrite decide_True by reflexivity.
      rewrite list_lookup_insert_eq by (eapply lookup_lt_Some; exact Hpl).
      repeat split; assumption.
Qed.

(** [tri] has no base neighbour, or its base neighbour has [tri] as its
    own base neighbour *)
Definition in_diamond (w : World) (tri : NodePtr) : Prop :=
  exists n, lookup_node w tri = Some n
    /\ (BaseNeighbor n = None
        \/ exists b nb, BaseNeighbor n = Some b /\ lookup_node w b = Some nb
                        /\ BaseNeighbor nb = Some tri).

Lemma Split_exhausted_in_diamond fuel self tri w :
  pool_exhausted self w -> leaf_at w tri -> in_diamond w tri ->
  Split (S fuel) self tri w = Done (false, w).
Proof.
  intros Hex (n & Hn & Hleaf) (n0 & Hn0 & Hbase).
  assert (n0 = n) by congruence. subst n0.
  cbn [Split].
  rewrite (bind_Done _ _ w (IsLeaf n) w) by (apply tri_get_Done; exact Hn).
  rewrite Hleaf. cbn [negb].
  rewrite (bind_Done _ _ w (BaseNeighbor n) w) by (apply tri_get_Done; exact Hn).
  rewrite (bind_Done _ _ w tt w).
  - rewrite (bind_Done _ _ w false w)
      by (exact (curTriPool_Allocate_exhausted self tri w n Hex Hn Hleaf)).
    reflexivity.
  - destruct Hbase as [->|(b & nb & -> & Hnb & Hrec)]; [reflexivity|].
    rewrite (bind_Done _ _ w (BaseNeighbor nb) w) by (apply tri_get_Done; exact Hnb).
    rewrite decide_True by exact Hrec. reflexivity.
Qed.

(** the tile of [fresh_world 2] after [Split] of its left root: the two
    nodes of the pool are the children of the left root, the right root
    is still a leaf *)
Definition starved_world : World :=
  match Split 2 0 (BaseLeftOf 0) (fresh_world 2) with
  | Done (_, w) => w
  | _ => fresh_world 2
  end.

Lemma starved_world_exhausted : pool_exhausted 0 starved_world.
Proof.
  exists (mkPatch
            (mkTriTreeNode (Some (PoolNode false 0 0)) (Some (PoolNode false 0 1))
               (Some (BaseRightOf 0)) None None)
            (with_BaseNeighbor (Some (BaseLeftOf 0)) TriTreeNode_new)
            [] [] None true false max_float one (int2.mk 0 0)
            (Some (false, 0%nat)) [] [] []),
    false, 0%nat,
    (mkPool [mkTriTreeNode None None None (Some (PoolNode false 0 1)) None;
             mkTriTreeNode None None None None (Some (PoolNode false 0 0))] 2).
  repeat split.
Defined.

Lemma starved_world_right_leaf : leaf_at starved_world (BaseRightOf 0).
Proof.
  exists (with_BaseNeighbor (Some (BaseLeftOf 0)) TriTreeNode_new).
  split; reflexivity.
Defined.

Lemma starved_world_right_diamond : in_diamond starved_world (BaseRightOf 0).
Proof.
  exists (with_BaseNeighbor (Some (BaseLeftOf 0)) TriTreeNode_new).
  split; [reflexivity|]. right.
  exists (BaseLeftOf 0),
    (mkTriTreeNode (Some (PoolNode false 0 0)) (Some (PoolNode false 0 1))
       (Some (BaseRightOf 0)) None None).
  repeat split.
Defined.


(** ** The tessellation threshold *)

(** The scaled variance in the words of the specification: the
    precomputed error of the node, clamped to the variance ceiling,
    times the tile size, the extent of the triangle and the LOD factor.
    Beyond the precomputed depth the code compares the constant 10.0f
    instead, unscaled. *)
Definition scaled_variance_spec (PATCH_SIZE VARIANCE_DEPTH : Z) (P : Patch)
    (left right : int2) (node : Z) : option float :=
  if node <? 2 ^ VARIANCE_DEPTH then
    let extent := Z.max (Z.abs (int2.x left - int2.x right))
                        (Z.abs (int2.y left - int2.y right)) in
    match currentVariance P with
    | Some a =>
      let field := match a with VarianceLeft => varianceLeft P
                              | VarianceRight => varianceRight P end in
      match array_get field node with
      | Done error =>
        Some (mul (mul (mul (std_min error (varianceMaxLimit P)) (of_int PATCH_SIZE))
                       (of_int extent))
                  (camDistLODFactor P))
      | _ => None
      end
    | None => None
    end
  else Some ten.

Lemma currentVariance_get_Done self node w P a cv :
  patches w !! self = Some P -> currentVariance P = Some a ->
  array_get (match a with VarianceLeft => varianceLeft P
                        | VarianceRight => varianceRight P end) node = Done cv ->
  currentVariance_get self node w = Done (cv, w).
Proof.
  intros HP Hcv Harr. unfold currentVariance_get.
  rewrite (bind_Done _ _ w (currentVariance P) w)
    by (exact (patch_get_Done self currentVariance w P HP)).
  rewrite Hcv. cbn [deref].
  rewrite (bind_Done _ _ w a w) by reflexivity.
  erewrite bind_Done
    by (exact (patch_get_Done self
                 (match a with VarianceLeft => varianceLeft
                             | VarianceRight => varianceRight end) w P HP)).
  destruct a; rewrite Harr; reflexivity.
Qed.

Lemma triVariance_of_spec PS VD self left right node w P tv :
  0 <= VD ->
  patches w !! self = Some P ->
  scaled_variance_spec PS VD P left right node = Some tv ->
  triVariance_of PS VD self left right node w = Done (tv, w).
Proof.
  intros HVD HP. unfold scaled_variance_spec, triVariance_of.
  rewrite Z.shiftl_1_l.
  destruct (node <? 2 ^ VD); [|intros [= <-]; reflexivity].
  replace (Z.max (int2.x left - int2.x right) (int2.x right - int2.x left))
    with (Z.abs (int2.x left - int2.x right)) by lia.
  replace (Z.max (int2.y left - int2.y right) (int2.y right - int2.y left))
    with (Z.abs (int2.y left - int2.y right)) by lia.
  destruct (currentVariance P) as [a|] eqn:Hcv; [|discriminate].
  destruct (array_get _ node) as [cv| |] eqn:Harr; try discriminate.
  intros [= <-].
  rewrite (bind_Done _ _ w cv w)
    by (exact (currentVariance_get_Done self node w P a cv HP Hcv Harr)).
  rewrite (bind_Done _ _ w (varianceMaxLimit P) w)
    by (exact (patch_get_Done self varianceMaxLimit w P HP)).
  rewrite (bind_Done _ _ w (camDistLODFactor P) w)
    by (exact (patch_get_Done self camDistLODFactor w P HP)).
  reflexivity.
Qed.

(** C3, as the code has it: at a node whose hypotenuse spans more than
    one grid unit in some axis, [RecursTessellate] stops without
    splitting when the scaled variance is at most 1.0f (below or equal);
    when it is above 1.0f (or not comparable with it) the node is
    [Split] and, if it is a branch afterwards, the recursion goes into
    the left and then the right child. *)
Theorem RecursTessellate_threshold (fuel : nat) (PATCH_SIZE VARIANCE_DEPTH : Z)
    (self : nat) (tri : option NodePtr) (left right apex : int2) (node : Z)
    (w : World) (P : Patch) (tv : float)
    (HVD : 0 <= VARIANCE_DEPTH)
    (Hspan : 1 < Z.abs (int2.x left - int2.x right)
             \/ 1 < Z.abs (int2.y left - int2.y right))
    (HP : patches w !! self = Some P)
    (Htv : scaled_variance_spec PATCH_SIZE VARIANCE_DEPTH P left right node = Some tv) :
  (leb tv one = true ->
   RecursTessellate (S fuel) PATCH_SIZE VARIANCE_DEPTH self tri left right apex node w
   = Done (tt, w))
  /\ (leb tv one = false ->
      RecursTessellate (S fuel) PATCH_SIZE VARIANCE_DEPTH self tri left right apex node w
      = (do t <- deref tri;
         do _ <- Split fuel self t;
         do br <- tri_get IsBranch t;
         if br then
           let center := int2.mk (Z.shiftr (int2.x left + int2.x right) 1)
                                 (Z.shiftr (int2.y left + int2.y right) 1) in
           do lc <- tri_get LeftChild t;
           do _ <- RecursTessellate fuel PATCH_SIZE VARIANCE_DEPTH self lc
                     apex left center (2 * node);
           do rc <- tri_get RightChild t;
           RecursTessellate fuel PATCH_SIZE VARIANCE_DEPTH self rc
             right apex center (2 * node + 1)
         else ret tt) w).
Proof.
  assert (Hbail : (Z.abs (int2.x left - int2.x right) <=? 1)
                  && (Z.abs (int2.y left - int2.y right) <=? 1) = false).
  { apply andb_false_iff. destruct Hspan; [left | right]; apply Z.leb_gt; assumption. }
  pose proof (triVariance_of_spec _ _ _ _ _ _ _ _ _ HVD HP Htv) as Hrun.
  split; intros Hcmp.
  - cbn [RecursTessellate]. rewrite Hbail.
    rewrite (bind_Done _ _ w tv w) by exact Hrun.
    rewrite Hcmp. reflexivity.
  - cbn [RecursTessellate]. rewrite Hbail.
    rewrite (bind_Done _ _ w tv w) by exact Hrun.
    rewrite Hcmp. rewrite Z.shiftl_mul_pow2 by lia.
    replace (node * 2 ^ 1) with (2 * node) by lia. reflexivity.
Qed.

(** a fresh tile at the origin seen from afar: the error of the root
    node is 0.5, the ceiling 350 and the LOD factor 2^-13, so that the
    scaled variance of the left root is 0.5 * 128 * 128 * 2^-13 = 1.0 *)
Definition threshold_tile : Patch :=
  mkPatch (with_BaseNeighbor (Some (BaseRightOf 0)) TriTreeNode_new)
    (with_BaseNeighbor (Some (BaseLeftOf 0)) TriTreeNode_new)
    (zero :: replicate 4095 half) (zero :: replicate 4095 half)
    (Some VarianceLeft) false true
    (of_int 350) (S754_finite false 8388608 (-36)) (int2.mk 0 0)
    (Some (false, 0%nat)) [] [] [].

Definition threshold_world : World :=
  mkWorld 4 32 [mkPool (replicate 4 TriTreeNode_new) 0] [] [threshold_tile].

(** the same tile seen from nearby: the LOD factor is 1 *)
Definition near_tile : Patch :=
  mkPatch (with_BaseNeighbor (Some (BaseRightOf 0)) TriTreeNode_new)
    (with_BaseNeighbor (Some (BaseLeftOf 0)) TriTreeNode_new)
    (zero :: replicate 4095 half) (zero :: replicate 4095 half)
    (Some VarianceLeft) false true
    (of_int 350) one (int2.mk 0 0)
    (Some (false, 0%nat)) [] [] [].

Definition near_world : World :=
  mkWorld 4 32 [mkPool (replicate 4 TriTreeNode_new) 0] [] [near_tile].

Lemma RecursTessellate_threshold_witness :
  RecursTessellate 1 128 12 0 (Some (BaseLeftOf 0))
    (int2.mk 0 128) (int2.mk 128 0) (int2.mk 0 0) 1 threshold_world
  = Done (tt, threshold_world)
  /\ RecursTessellate 1 128 12 0 (Some (BaseLeftOf 0))
       (int2.mk 0 128) (int2.mk 128 0) (int2.mk 0 0) 1 near_world
     = (do _ <- Split 0 0 (BaseLeftOf 0);
        do br <- tri_get IsBranch (BaseLeftOf 0);
        if br then
          do lc <- tri_get LeftChild (BaseLeftOf 0);
          do _ <- RecursTessellate 0 128 12 0 lc
                    (int2.mk 0 0) (int2.mk 0 128) (int2.mk 64 64) 2;
          do rc <- tri_get RightChild (BaseLeftOf 0);
          RecursTessellate 0 128 12 0 rc
            (int2.mk 128 0) (int2.mk 0 0) (int2.mk 64 64) 3
        else ret tt) near_world.
Proof.
  split.
  - refine (proj1 (RecursTessellate_threshold 0 128 12 0 (Some (BaseLeftOf 0))
                     (int2.mk 0 128) (int2.mk 128 0) (int2.mk 0 0) 1
                     threshold_world threshold_tile one _ _ _ _) _).
    + lia.
    + left. simpl. lia.
    + reflexivity.
    + vm_compute. reflexivity.
    + reflexivity.
  - refine (proj2 (RecursTessellate_threshold 0 128 12 0 (Some (BaseLeftOf 0))
                     (int2.mk 0 128) (int2.mk 128 0) (int2.mk 0 0) 1
                     near_world near_tile (of_int 8192) _ _ _ _) _).
    + lia.
    + left. simpl. lia.
    + reflexivity.
    + vm_compute. reflexivity.
    + reflexivity.
Defined.

(** C3 as stated fails at the threshold itself: the scaled variance of
    the left root of [threshold_tile] is exactly 1.0f, which is at or
    above 1.0f and not below it; the pool has free nodes and a [Split]
    of the root would succeed; yet [RecursTessellate] returns with the
    world unchanged and the root still a leaf. *)
Lemma RecursTessellate_stops_at_one :
  scaled_variance_spec 128 12 threshold_tile (int2.mk 0 128) (int2.mk 128 0) 1
  = Some one
  /\ leb one one = true
  /\ ltb one one = false
  /\ RecursTessellate 3 128 12 0 (Some (BaseLeftOf 0))
       (int2.mk 0 128) (int2.mk 128 0) (int2.mk 0 0) 1 threshold_world
     = Done (tt, threshold_world)
  /\ (IsLeaf <$> lookup_node threshold_world (BaseLeftOf 0)) = Some true
  /\ match Split 2 0 (BaseLeftOf 0) threshold_world with
     | Done (b, _) => b
     | _ => false
     end = true.
Proof. vm_compute. repeat split. Qed.

(** ** Facts about binary32 values *)

Module Float32Facts.

(** [x] is 0.001f or above it; such a value is not a NaN *)
Definition at_least_milli (x : float) : Prop := x = milli \/ ltb milli x = true.

Lemma std_max_milli (r : float) : at_least_milli (std_max milli r).
Proof.
  unfold at_least_milli, std_max. destruct (ltb milli r) eqn:E; [right | left].
  - exact E.
  - reflexivity.
Qed.

Lemma at_least_milli_positive (x : float) : at_least_milli x -> ltb zero x = true.
Proof.
  intros [->|H]; [reflexivity|].
  destruct x as [s|s| |s m e]; try discriminate.
  - destruct s; [discriminate | reflexivity].
  - destruct s; [discriminate | reflexivity].
Qed.

Lemma at_least_milli_not_nan (x : float) : at_least_milli x -> is_nan x = false.
Proof. intros [->|H]; [reflexivity|]. destruct x; try discriminate; reflexivity. Qed.

(** [SFcompare] as an order on the values that are not NaN *)
Lemma compare_not_nan (a b : float) :
  is_nan a = false -> is_nan b = false -> exists c, SFcompare a b = Some c.
Proof.
  intros Ha Hb. destruct a, b; try discriminate; simpl; eexists; reflexivity.
Qed.

Lemma Pos_compare_cont_Eq (p q : positive) : Pos.compare_cont Eq p q = Pos.compare p q.
Proof. reflexivity. Qed.

Lemma compare_antisym (a b : float) (c : comparison) :
  SFcompare a b = Some c -> SFcompare b a = Some (CompOpp c).
Proof.
  destruct a as [sa|sa| |sa ma ea], b as [sb|sb| |sb mb eb]; simpl;
    try discriminate; intros [= <-];
    try (destruct sa; reflexivity); try (destruct sb; reflexivity);
    try (destruct sa, sb; reflexivity).
  rewrite !Pos_compare_cont_Eq.
  rewrite (Z.compare_antisym ea eb), (Pos.compare_antisym ma mb).
  destruct sa, sb; try reflexivity;
    destruct (ea ?= eb); simpl; try reflexivity;
    destruct (ma ?= mb); reflexivity.
Qed.

Lemma leb_refl (a : float) : is_nan a = false -> leb a a = true.
Proof.
  intros Ha. unfold leb, SFleb.
  destruct a as [s|s| |s m e]; try discriminate; simpl.
  - reflexivity.
  - destruct s; reflexivity.
  - rewrite Pos_compare_cont_Eq, Z.compare_refl, Pos.compare_refl.
    destruct s; reflexivity.
Qed.

Lemma ltb_leb (a b : float) : ltb a b = true -> leb a b = true.
Proof.
  unfold ltb, leb, SFltb, SFleb.
  destruct (SFcompare a b) as [[]|]; try discriminate; reflexivity.
Qed.

Lemma not_ltb_leb (a b : float) :
  is_nan a = false -> is_nan b = false -> ltb a b = false -> leb b a = true.
Proof.
  intros Ha Hb. destruct (compare_not_nan a b Ha Hb) as [c Hc].
  unfold ltb, leb, SFltb, SFleb. rewrite Hc, (compare_antisym a b c Hc).
  destruct c; try discriminate; reflexivity.
Qed.

Lemma leb_finite_trans (sa sb sc : bool) (ma mb mc : positive) (ea eb ec : Z) :
  leb (S754_finite sa ma ea) (S754_finite sb mb eb) = true ->
  leb (S754_finite sb mb eb) (S754_finite sc mc ec) = true ->
  leb (S754_finite sa ma ea) (S754_finite sc mc ec) = true.
Proof.
  unfold leb, SFleb. cbn [SFcompare].
  change (PosDef.Pos.compare_cont Eq ma mb) with (Pos.compare ma mb).
  change (PosDef.Pos.compare_cont Eq mb mc) with (Pos.compare mb mc).
  change (PosDef.Pos.compare_cont Eq ma mc) with (Pos.compare ma mc).
  destruct sa, sb, sc; try (intros; discriminate); try reflexivity;
    destruct (Z.compare_spec ea eb), (Z.compare_spec eb ec), (Z.compare_spec ea ec);
    try (intros; discriminate); try reflexivity; try lia;
    destruct (Pos.compare_spec ma mb), (Pos.compare_spec mb mc),
      (Pos.compare_spec ma mc);
    simpl; intros Hab Hbc; try discriminate Hab; try discriminate Hbc;
    try reflexivity; lia.
Qed.

Lemma leb_trans (a b c : float) : leb a b = true -> leb b c = true -> leb a c = true.
Proof.
  destruct a as [sa|sa| |sa ma ea], b as [sb|sb| |sb mb eb], c as [sc|sc| |sc mc ec];
    try discriminate; try reflexivity;
    try apply leb_finite_trans;
    unfold leb, SFleb; simpl;
    try (destruct sa; try discriminate; try reflexivity);
    try (destruct sb; try discriminate; try reflexivity);
    try (destruct sc; try discriminate; try reflexivity).
Qed.

(** [std::max] on values that are not NaN is an upper bound of both *)
Lemma std_max_not_nan (a b : float) :
  is_nan a = false -> is_nan b = false -> is_nan (std_max a b) = false.
Proof. intros Ha Hb. unfold std_max. destruct (ltb a b); assumption. Qed.

Lemma std_max_upper_l (a b : float) :
  is_nan a = false -> leb a (std_max a b) = true.
Proof.
  intros Ha. unfold std_max. destruct (ltb a b) eqn:E.
  - apply ltb_leb. exact E.
  - apply leb_refl. exact Ha.
Qed.

Lemma std_max_upper_r (a b : float) :
  is_nan a = false -> is_nan b = false -> leb b (std_max a b) = true.
Proof.
  intros Ha Hb. unfold std_max. destruct (ltb a b) eqn:E.
  - apply leb_refl. exact Hb.
  - apply not_ltb_leb; assumption.
Qed.

(** the rounded result of an operation on finite values is not a NaN *)
Lemma shr_1_nonneg (mrs : shr_record) : 0 <= shr_m mrs -> 0 <= shr_m (shr_1 mrs).
Proof.
  destruct mrs as [m r s]. simpl. intros Hm.
  destruct m as [|p|p]; [simpl; lia | destruct p; simpl; lia | lia].
Qed.

Lemma iter_pos_shr_1_nonneg (p : positive) (mrs : shr_record) :
  0 <= shr_m mrs -> 0 <= shr_m (SpecFloat.iter_pos shr_1 p mrs).
Proof.
  revert mrs. induction p as [p IH|p IH|]; intros mrs Hm; simpl.
  - apply IH, IH, shr_1_nonneg, Hm.
  - apply IH, IH, Hm.
  - apply shr_1_nonneg, Hm.
Qed.

Lemma shr_fexp_nonneg (p e : Z) (m ex : Z) (l : location) :
  0 <= m -> 0 <= shr_m (fst (shr_fexp p e m ex l)).
Proof.
  intros Hm. unfold shr_fexp, shr.
  assert (H0 : 0 <= shr_m (shr_record_of_loc m l)).
  { destruct l as [|[]]; simpl; exact Hm. }
  destruct (fexp p e (Zdigits2 m + ex) - ex) as [|q|q]; simpl;
    [exact H0 | apply iter_pos_shr_1_nonneg; exact H0 | exact H0].
Qed.

Lemma round_nearest_even_nonneg (m : Z) (l : location) :
  0 <= m -> 0 <= round_nearest_even m l.
Proof.
  intros Hm. unfold round_nearest_even.
  destruct l as [|[]]; try lia. destruct (Z.even m); lia.
Qed.

Lemma binary_round_aux_not_nan (p e : Z) (sx : bool) (mx ex : Z) (lx : location) :
  0 <= mx -> is_nan (binary_round_aux p e sx mx ex lx) = false.
Proof.
  intros Hm. unfold binary_round_aux.
  pose proof (shr_fexp_nonneg p e mx ex lx Hm) as H1.
  destruct (shr_fexp p e mx ex lx) as [mrs' e'] eqn:E1. simpl in H1.
  pose proof (shr_fexp_nonneg p e
                (round_nearest_even (shr_m mrs') (loc_of_shr_record mrs')) e' loc_Exact
                (round_nearest_even_nonneg _ _ H1)) as H2.
  destruct (shr_fexp p e (round_nearest_even (shr_m mrs') (loc_of_shr_record mrs'))
              e' loc_Exact) as [mrs'' e''] eqn:E2. simpl in H2.
  destruct (shr_m mrs'') as [|q|q]; [reflexivity | | lia].
  destruct (e'' <=? e - p); reflexivity.
Qed.

Lemma binary_normalize_not_nan (p e : Z) (m ex : Z) (sz : bool) :
  is_nan (binary_normalize p e m ex sz) = false.
Proof.
  unfold binary_normalize, binary_round.
  destruct m as [|q|q]; [reflexivity | |];
    destruct (shl_align q ex (fexp p e (Z.pos (digits2_pos q) + ex))) as [mz ez];
    apply binary_round_aux_not_nan; lia.
Qed.

Lemma add_finite_not_nan (a b : float) :
  is_finite a = true -> is_finite b = true -> is_nan (add a b) = false.
Proof.
  destruct a as [sa|sa| |sa ma ea], b as [sb|sb| |sb mb eb]; try discriminate;
    intros _ _; unfold add, SFadd; try reflexivity.
  - destruct sa, sb; reflexivity.
  - apply binary_normalize_not_nan.
Qed.

Lemma sub_finite_not_nan (a b : float) :
  is_finite a = true -> is_nan b = false -> is_nan (sub a b) = false.
Proof.
  destruct a as [sa|sa| |sa ma ea], b as [sb|sb| |sb mb eb]; try discriminate;
    intros _ _; unfold sub, SFsub; try reflexivity.
  - destruct sa, sb; reflexivity.
  - apply binary_normalize_not_nan.
Qed.

Lemma mul_const_not_nan (a : float) (s : bool) (m : positive) (e : Z) :
  is_nan a = false -> is_nan (mul a (S754_finite s m e)) = false.
Proof.
  destruct a as [sa|sa| |sa ma ea]; try discriminate; intros _;
    unfold mul, SFmul; try reflexivity.
  apply binary_round_aux_not_nan. lia.
Qed.

Lemma fabs_not_nan (a : float) : is_nan a = false -> is_nan (fabs a) = false.
Proof. destruct a; try discriminate; reflexivity. Qed.

End Float32Facts.

(** ** The variance fields *)

Import Float32Facts.

(** the array that [currentVariance] points into, and its replacement *)
Definition field_of (a : VarianceArray) (P : Patch) : list float :=
  match a with VarianceLeft => varianceLeft P | VarianceRight => varianceRight P end.

Definition with_field (a : VarianceArray) (f : list float) (P : Patch) : Patch :=
  match a with VarianceLeft => with_varianceLeft f P | VarianceRight => with_varianceRight f P end.

(** the entry of a field at a node index *)
Definition entry (f : list float) (n : Z) : option float :=
  if n <? 0 then None else f !! Z.to_nat n.

(** the variance of a triangle on its own: the distance of the height at
    the midpoint of the hypotenuse from the mean of the heights at its
    ends, raised along shore lines *)
Definition own_variance (hgts : float3) (mhgt : float) : float :=
  let myVariance :=
    fabs (sub mhgt (mul (add (float3.x hgts) (float3.y hgts)) half)) in
  if ltb (mul (float3.x hgts) (float3.y hgts)) zero
     || ltb (mul (float3.x hgts) mhgt) zero
     || ltb (mul (float3.y hgts) mhgt) zero
  then std_max (mul myVariance one_and_half) twenty
  else myVariance.

Definition midpoint (left rght : int2) : int2 :=
  int2.mk (Z.shiftr (int2.x left + int2.x rght) 1)
          (Z.shiftr (int2.y left + int2.y rght) 1).

Definition height_index (PATCH_SIZE : Z) (pos : int2) : Z :=
  (int2.y pos * (PATCH_SIZE + 1) + int2.x pos) * 3 + 1.

Definition subdivides (left rght : int2) : bool :=
  (4 <=? Z.abs (int2.x left - int2.x rght))
  || (4 <=? Z.abs (int2.y left - int2.y rght)).

(** The nodes that [RecursComputeVariance] visits, in the order in which
    it enters them; [None] when the budget does not suffice or a height
    is read outside the [nverts] floats of the vertex array.  The
    recursion depends on the coordinates only. *)
Fixpoint RecursVisits (fuel : nat) (PATCH_SIZE : Z) (nverts : Z)
    (left rght apex : int2) (node : Z) : option (list Z) :=
  match fuel with
  | O => None
  | S fuel' =>
    let mpos := midpoint left rght in
    if (height_index PATCH_SIZE mpos <? 0)
       || (nverts <=? height_index PATCH_SIZE mpos) then None
    else if subdivides left rght then
      match RecursVisits fuel' PATCH_SIZE nverts apex left mpos (2 * node),
            RecursVisits fuel' PATCH_SIZE nverts rght apex mpos (2 * node + 1) with
      | Some l1, Some l2 => Some (node :: l1 ++ l2)
      | _, _ => None
      end
    else Some [node]
  end.

(** [m] is [a] or lies below it in the implicit binary tree *)
Definition desc (a m : Z) : Prop := exists k, 0 <= k /\ Z.shiftr m k = a.

Lemma desc_refl a : desc a a.
Proof. exists 0. split; [lia | apply Z.shiftr_0_r]. Qed.

Lemma half_even a : 2 * a / 2 = a.
Proof. symmetry. apply (Z.div_unique _ 2 a 0); lia. Qed.

Lemma half_odd a : (2 * a + 1) / 2 = a.
Proof. symmetry. apply (Z.div_unique _ 2 a 1); lia. Qed.

Lemma desc_child a m : desc (2 * a) m \/ desc (2 * a + 1) m -> desc a m.
Proof.
  intros [(k & Hk & H)|(k & Hk & H)]; exists (k + 1);
    (split; [lia|]); rewrite <- Z.shiftr_shiftr by lia; rewrite H;
    rewrite Z.shiftr_div_pow2 by lia; change (2 ^ 1) with 2;
    [apply half_even | apply half_odd].
Qed.

Lemma desc_ge a m : 1 <= a -> desc a m -> a <= m.
Proof.
  intros Ha (k & Hk & H). rewrite Z.shiftr_div_pow2 in H by lia.
  assert (Hp : 0 < 2 ^ k) by (apply Z.pow_pos_nonneg; lia).
  destruct (Z.le_gt_cases 0 m) as [Hm|Hm].
  - subst a. apply Z.div_le_upper_bound; [exact Hp | nia].
  - assert (m / 2 ^ k < 0) by (apply Z.div_lt_upper_bound; lia). lia.
Qed.

Lemma shiftr_le_half a d : 0 <= a -> 0 < d -> Z.shiftr a d <= a / 2.
Proof.
  intros Ha Hd. rewrite Z.shiftr_div_pow2 by lia.
  replace d with (1 + (d - 1)) by lia. rewrite Z.pow_add_r by lia.
  change (2 ^ 1) with 2. rewrite <- Z.div_div by (try lia; apply Z.pow_pos_nonneg; lia).
  apply Z.div_le_upper_bound; [apply Z.pow_pos_nonneg; lia|].
  assert (0 <= a / 2) by (apply Z.div_pos; lia).
  assert (0 < 2 ^ (d - 1)) by (apply Z.pow_pos_nonneg; lia). nia.
Qed.

Lemma desc_disjoint a m : 1 <= a -> desc (2 * a) m -> desc (2 * a + 1) m -> False.
Proof.
  intros Ha (k1 & Hk1 & H1) (k2 & Hk2 & H2).
  destruct (Z.lt_trichotomy k1 k2) as [Hlt|[->|Hgt]].
  - assert (E : Z.shiftr m k2 = Z.shiftr (2 * a) (k2 - k1)).
    { rewrite <- H1, Z.shiftr_shiftr by lia. f_equal. lia. }
    pose proof (shiftr_le_half (2 * a) (k2 - k1) ltac:(lia) ltac:(lia)) as Hle.
    rewrite <- E, H2, half_even in Hle. lia.
  - lia.
  - assert (E : Z.shiftr m k1 = Z.shiftr (2 * a + 1) (k1 - k2)).
    { rewrite <- H2, Z.shiftr_shiftr by lia. f_equal. lia. }
    pose proof (shiftr_le_half (2 * a + 1) (k1 - k2) ltac:(lia) ltac:(lia)) as Hle.
    rewrite <- E, H1, half_odd in Hle. lia.
Qed.

Lemma array_set_inv {A : Type} (f : list A) (n : Z) (v : A) (f' : list A) :
  array_set f n v = Done f' ->
  0 <= n /\ (Z.to_nat n < length f)%nat /\ f' = <[Z.to_nat n := v]> f.
Proof.
  unfold array_set. destruct (n <? 0) eqn:E; [discriminate|].
  destruct (Z.to_nat n <? length f)%nat eqn:E2; [|discriminate].
  intros [= <-]. apply Z.ltb_ge in E. apply Nat.ltb_lt in E2.
  split; [exact E | split; [exact E2 | reflexivity]].
Qed.

Lemma entry_array_set_same f n v f' :
  array_set f n v = Done f' -> entry f' n = Some v /\ length f' = length f.
Proof.
  intros H. apply array_set_inv in H as (Hn & Hlt & ->).
  unfold entry. destruct (n <? 0) eqn:E; [apply Z.ltb_lt in E; lia|].
  split; [apply list_lookup_insert_eq; exact Hlt | apply length_insert].
Qed.

Lemma entry_array_set_other f n v f' m :
  array_set f n v = Done f' -> m <> n -> entry f' m = entry f m.
Proof.
  intros H Hne. apply array_set_inv in H as (Hn & Hlt & ->).
  unfold entry. destruct (m <? 0) eqn:E; [reflexivity|].
  apply Z.ltb_ge in E. apply list_lookup_insert_ne. lia.
Qed.

Lemma field_of_with_field a f P : field_of a (with_field a f P) = f.
Proof. destruct a; reflexivity. Qed.

Lemma with_field_twice a f g P : with_field a f (with_field a g P) = with_field a f P.
Proof. destruct a; reflexivity. Qed.

Lemma with_field_same a P : with_field a (field_of a P) P = P.
Proof. destruct a, P; reflexivity. Qed.

Lemma currentVariance_with_field a f P :
  currentVariance (with_field a f P) = currentVariance P.
Proof. destruct a; reflexivity. Qed.

Lemma vertices_with_field a f P : vertices (with_field a f P) = vertices P.
Proof. destruct a; reflexivity. Qed.

Lemma currentVariance_set_inv node v P u P' a :
  currentVariance P = Some a ->
  currentVariance_set node v P = Done (u, P') ->
  exists arr, array_set (field_of a P) node v = Done arr /\ P' = with_field a arr P.
Proof.
  intros Hcv. unfold currentVariance_set, bind, get. rewrite Hcv. cbn [deref ret].
  destruct a; cbn [field_of with_field]; unfold lift, put.
  - destruct (array_set (varianceLeft P) node v) as [arr| |]; try discriminate.
    intros H. inversion H; subst. exists arr. split; reflexivity.
  - destruct (array_set (varianceRight P) node v) as [arr| |]; try discriminate.
    intros H. inversion H; subst. exists arr. split; reflexivity.
Qed.

Lemma currentVariance_set_Done node v P a arr :
  currentVariance P = Some a ->
  array_set (field_of a P) node v = Done arr ->
  currentVariance_set node v P = Done (tt, with_field a arr P).
Proof.
  intros Hcv Harr. unfold currentVariance_set, bind, get. rewrite Hcv. cbn [deref ret].
  destruct a; cbn [field_of with_field] in *; rewrite Harr; reflexivity.
Qed.

Lemma GetHeight_inv PS pos P h P' :
  GetHeight PS pos P = Done (h, P') ->
  P' = P /\ array_get (vertices P) (height_index PS pos) = Done h.
Proof.
  unfold GetHeight, bind, get, lift, height_index.
  destruct (array_get (vertices P) _) as [x| |]; try discriminate.
  intros [= <- <-]. split; reflexivity.
Qed.

Lemma GetHeight_Done PS pos P h :
  array_get (vertices P) (height_index PS pos) = Done h ->
  GetHeight PS pos P = Done (h, P).
Proof.
  intros H. unfold GetHeight, bind, get, lift. fold (height_index PS pos).
  rewrite H. reflexivity.
Qed.

(** one level of [RecursComputeVariance] *)
Lemma RecursComputeVariance_unfold fuel PS VD left rght apex hgts node P :
  RecursComputeVariance (S fuel) PS VD left rght apex hgts node P
  = (do mhgt <- GetHeight PS (midpoint left rght);
     do r <- (if subdivides left rght then
                do c1 <- RecursComputeVariance fuel PS VD apex left (midpoint left rght)
                           (float3.mk (float3.z hgts) (float3.x hgts) mhgt) (2 * node);
                do c2 <- RecursComputeVariance fuel PS VD rght apex (midpoint left rght)
                           (float3.mk (float3.y hgts) (float3.z hgts) mhgt) (2 * node + 1);
                ret (std_max (std_max (own_variance hgts mhgt) c1) c2)
              else ret (own_variance hgts mhgt));
     do _ <- (if node <? 2 ^ VD then currentVariance_set node (std_max milli r)
              else ret tt);
     ret (std_max milli r)) P.
Proof.
  cbn [RecursComputeVariance]. rewrite Z.shiftl_1_l.
  rewrite Z.shiftl_mul_pow2 by lia. change (2 ^ 1) with 2.
  rewrite (Z.mul_comm node 2). reflexivity.
Qed.

Lemma RecursComputeVariance_inv fuel PS VD left rght apex hgts node P v P' :
  RecursComputeVariance (S fuel) PS VD left rght apex hgts node P = Done (v, P') ->
  exists mhgt r P2,
    array_get (vertices P) (height_index PS (midpoint left rght)) = Done mhgt
    /\ (if subdivides left rght then
          exists c1 P1 c2,
            RecursComputeVariance fuel PS VD apex left (midpoint left rght)
              (float3.mk (float3.z hgts) (float3.x hgts) mhgt) (2 * node) P
            = Done (c1, P1)
            /\ RecursComputeVariance fuel PS VD rght apex (midpoint left rght)
                 (float3.mk (float3.y hgts) (float3.z hgts) mhgt) (2 * node + 1) P1
               = Done (c2, P2)
            /\ r = std_max (std_max (own_variance hgts mhgt) c1) c2
        else P2 = P /\ r = own_variance hgts mhgt)
    /\ v = std_max milli r
    /\ (if node <? 2 ^ VD then currentVariance_set node v P2 = Done (tt, P')
        else P' = P2).
Proof.
  rewrite RecursComputeVariance_unfold. intros Hrun.
  apply bind_inv in Hrun as (mhgt & P0 & Hget & Hrun).
  apply GetHeight_inv in Hget as (-> & Hget).
  apply bind_inv in Hrun as (r & P2 & Hrec & Hrun).
  apply bind_inv in Hrun as ([] & P3 & Hset & Hrun).
  injection Hrun as <- <-.
  exists mhgt, r, P2. split; [exact Hget|]. split; [|split; [reflexivity|]].
  - destruct (subdivides left rght).
    + apply bind_inv in Hrec as (c1 & P1 & H1 & Hrec).
      apply bind_inv in Hrec as (c2 & P2' & H2 & Hrec).
      injection Hrec as <- <-. exists c1, P1, c2.
      split; [exact H1 | split; [exact H2 | reflexivity]].
    + injection Hrec as <- <-. split; reflexivity.
  - destruct (node <? 2 ^ VD); [exact Hset | injection Hset as <-; reflexivity].
Qed.

(** What a run of [RecursComputeVariance] at [node] does: it rewrites the
    current field only, and there only entries at [node] and below it;
    the value it returns is at least 0.001f and is the one stored at
    [node]; entries that were at least 0.001f stay so. *)
Lemma RecursComputeVariance_effect fuel PS VD :
  forall left rght apex hgts node P v P' a,
    RecursComputeVariance fuel PS VD left rght apex hgts node P = Done (v, P') ->
    currentVariance P = Some a -> 1 <= node ->
    exists f',
      P' = with_field a f' P
      /\ length f' = length (field_of a P)
      /\ at_least_milli v
      /\ (node < 2 ^ VD -> entry f' node = Some v)
      /\ (forall i, ~ desc node i -> entry f' i = entry (field_of a P) i)
      /\ (forall n x, entry (field_of a P) n = Some x -> at_least_milli x ->
            exists x', entry f' n = Some x' /\ at_least_milli x').
Proof.
  induction fuel as [|fuel IH]; intros left rght apex hgts node P v P' a Hrun Hcv Hnode;
    [discriminate|].
  apply RecursComputeVariance_inv in Hrun as (mhgt & r & P2 & Hget & Hrec & -> & Hset).
  (* the state before the store *)
  assert (Hmid : exists f2,
             P2 = with_field a f2 P /\ length f2 = length (field_of a P)
             /\ (forall i, ~ desc node i -> entry f2 i = entry (field_of a P) i)
             /\ (forall n x, entry (field_of a P) n = Some x -> at_least_milli x ->
                   exists x', entry f2 n = Some x' /\ at_least_milli x')).
  { destruct (subdivides left rght).
    - destruct Hrec as (c1 & P1 & c2 & H1 & H2 & _).
      destruct (IH _ _ _ _ _ _ _ _ a H1 Hcv ltac:(lia))
        as (f1 & -> & Hlen1 & _ & _ & Hfr1 & Hpos1).
      rewrite <- (currentVariance_with_field a f1 P) in Hcv.
      destruct (IH _ _ _ _ _ _ _ _ a H2 Hcv ltac:(lia))
        as (f2 & -> & Hlen2 & _ & _ & Hfr2 & Hpos2).
      rewrite field_of_with_field in Hlen2, Hfr2, Hpos2.
      exists f2. rewrite with_field_twice.
      split; [reflexivity|]. split; [congruence|]. split.
      + intros i Hi. rewrite Hfr2, Hfr1; [reflexivity | |];
          intros Hd; apply Hi, desc_child; [left | right]; exact Hd.
      + intros n x Hx Hm. destruct (Hpos1 n x Hx Hm) as (x1 & Hx1 & Hm1).
        exact (Hpos2 n x1 Hx1 Hm1).
    - destruct Hrec as [-> _]. exists (field_of a P).
      rewrite with_field_same. split; [reflexivity|]. split; [reflexivity|].
      split; [reflexivity|]. intros n x Hx Hm. exists x. split; assumption. }
  destruct Hmid as (f2 & -> & Hlen2 & Hfr2 & Hpos2).
  pose proof (std_max_milli r) as Hv.
  destruct (node <? 2 ^ VD) eqn:Hdepth.
  - rewrite <- (currentVariance_with_field a f2 P) in Hcv.
    apply (currentVariance_set_inv _ _ _ _ _ a Hcv) in Hset as (arr & Harr & ->).
    rewrite field_of_with_field in Harr.
    destruct (entry_array_set_same _ _ _ _ Harr) as [Hsame Hlen].
    exists arr. rewrite with_field_twice.
    split; [reflexivity|]. split; [congruence|]. split; [exact Hv|].
    split; [intros _; exact Hsame|]. split.
    + intros i Hi. rewrite (entry_array_set_other _ _ _ _ i Harr).
      * apply Hfr2. exact Hi.
      * intros ->. apply Hi, desc_refl.
    + intros n x Hx Hm. destruct (Z.eq_dec n node) as [->|Hne].
      * exists (std_max milli r). split; [exact Hsame | exact Hv].
      * rewrite (entry_array_set_other _ _ _ _ n Harr Hne). exact (Hpos2 n x Hx Hm).
  - subst P'. exists f2. apply Z.ltb_ge in Hdepth.
    split; [reflexivity|]. split; [exact Hlen2|]. split; [exact Hv|].
    split; [lia|]. split; [exact Hfr2 | exact Hpos2].
Qed.

Lemma RecursVisits_inv fuel PS nverts left rght apex node nodes :
  RecursVisits (S fuel) PS nverts left rght apex node = Some nodes ->
  0 <= height_index PS (midpoint left rght) < nverts
  /\ (if subdivides left rght then
        exists l1 l2,
          RecursVisits fuel PS nverts apex left (midpoint left rght) (2 * node) = Some l1
          /\ RecursVisits fuel PS nverts rght apex (midpoint left rght) (2 * node + 1)
             = Some l2
          /\ nodes = node :: l1 ++ l2
      else nodes = [node]).
Proof.
  cbn [RecursVisits].
  destruct (height_index PS (midpoint left rght) <? 0) eqn:E1; [discriminate|].
  destruct (nverts <=? height_index PS (midpoint left rght)) eqn:E2;
    [discriminate|].
  cbn [orb]. apply Z.ltb_ge in E1. apply Z.leb_gt in E2.
  intros H. split; [lia|].
  destruct (subdivides left rght).
  - destruct (RecursVisits fuel PS nverts apex left _ _) as [l1|]; [|discriminate].
    destruct (RecursVisits fuel PS nverts rght apex _ _) as [l2|]; [|discriminate].
    injection H as <-. exists l1, l2. repeat split.
  - injection H as <-. reflexivity.
Qed.

Lemma RecursVisits_desc fuel PS nverts :
  forall left rght apex node nodes,
    RecursVisits fuel PS nverts left rght apex node = Some nodes ->
    Forall (desc node) nodes.
Proof.
  induction fuel as [|fuel IH]; intros left rght apex node nodes H; [discriminate|].
  apply RecursVisits_inv in H as (_ & H).
  destruct (subdivides left rght).
  - destruct H as (l1 & l2 & H1 & H2 & ->).
    constructor; [apply desc_refl|]. apply Forall_app. split.
    + eapply Forall_impl; [exact (IH _ _ _ _ _ H1)|].
      intros m Hm. apply desc_child. left. exact Hm.
    + eapply Forall_impl; [exact (IH _ _ _ _ _ H2)|].
      intros m Hm. apply desc_child. right. exact Hm.
  - subst nodes. constructor; [apply desc_refl | constructor].
Qed.

Lemma desc_down a m : desc a m -> desc a (2 * m) /\ desc a (2 * m + 1).
Proof.
  intros (k & Hk & H). split; exists (1 + k); (split; [lia|]);
    rewrite <- Z.shiftr_shiftr by lia;
    rewrite (Z.shiftr_div_pow2 _ 1) by lia; change (2 ^ 1) with 2.
  - rewrite half_even. exact H.
  - rewrite half_odd. exact H.
Qed.

(** the store that ends a level of the recursion *)
Lemma store_effect VD node v P2 P' a :
  (if node <? 2 ^ VD then currentVariance_set node v P2 = Done (tt, P') else P' = P2) ->
  currentVariance P2 = Some a -> at_least_milli v ->
  exists f',
    P' = with_field a f' P2
    /\ (forall i, i <> node -> entry f' i = entry (field_of a P2) i)
    /\ (node < 2 ^ VD -> entry f' node = Some v).
Proof.
  intros Hset Hcv Hv. destruct (node <? 2 ^ VD) eqn:Hdepth.
  - apply (currentVariance_set_inv _ _ _ _ _ a Hcv) in Hset as (arr & Harr & ->).
    exists arr. split; [reflexivity|]. split.
    + intros i Hi. exact (entry_array_set_other _ _ _ _ i Harr Hi).
    + intros _. exact (proj1 (entry_array_set_same _ _ _ _ Harr)).
  - subst P'. exists (field_of a P2). rewrite with_field_same.
    apply Z.ltb_ge in Hdepth. split; [reflexivity|]. split; [reflexivity | lia].
Qed.

(** every visited node within the depth bound holds a value that is at
    least 0.001f *)
Lemma RecursComputeVariance_visited fuel PS VD nverts :
  forall left rght apex hgts node P v P' a nodes,
    RecursComputeVariance fuel PS VD left rght apex hgts node P = Done (v, P') ->
    RecursVisits fuel PS nverts left rght apex node = Some nodes ->
    currentVariance P = Some a -> 1 <= node ->
    forall n, In n nodes -> n < 2 ^ VD ->
      exists x, entry (field_of a P') n = Some x /\ at_least_milli x.
Proof.
  induction fuel as [|fuel IH];
    intros left rght apex hgts node P v P' a nodes Hrun Hvis Hcv Hnode n Hin Hdepth;
    [discriminate|].
  pose proof (RecursComputeVariance_effect _ _ _ _ _ _ _ _ _ _ _ a Hrun Hcv Hnode)
    as (f' & HP' & _ & Hv & Hroot & _ & _).
  apply RecursVisits_inv in Hvis as (_ & Hvis).
  apply RecursComputeVariance_inv in Hrun as (mhgt & r & P2 & Hget & Hrec & Hveq & Hset).
  assert (Hself : n = node ->
                  exists x, entry (field_of a P') n = Some x /\ at_least_milli x).
  { intros ->. exists v. rewrite HP', field_of_with_field.
    split; [apply Hroot; exact Hdepth | exact Hv]. }
  destruct (subdivides left rght).
  2:{ subst nodes. destruct Hin as [<-|[]]. apply Hself. reflexivity. }
  destruct Hvis as (l1 & l2 & Hv1 & Hv2 & ->).
  destruct Hrec as (c1 & P1 & c2 & H1 & H2 & _).
  destruct Hin as [<-|Hin]; [apply Hself; reflexivity|].
  destruct (Z.eq_dec n node) as [->|Hne]; [apply Hself; reflexivity|].
  pose proof (RecursComputeVariance_effect _ _ _ _ _ _ _ _ _ _ _ a H1 Hcv ltac:(lia))
    as (f1 & HP1 & _).
  assert (Hcv1 : currentVariance P1 = Some a)
    by (rewrite HP1, currentVariance_with_field; exact Hcv).
  pose proof (RecursComputeVariance_effect _ _ _ _ _ _ _ _ _ _ _ a H2 Hcv1 ltac:(lia))
    as (f2 & HP2 & _ & _ & _ & _ & Hpos2).
  assert (Hcv2 : currentVariance P2 = Some a)
    by (rewrite HP2, currentVariance_with_field; exact Hcv1).
  assert (Hbefore : exists x, entry (field_of a P2) n = Some x /\ at_least_milli x).
  { apply in_app_or in Hin as [Hin|Hin].
    - destruct (IH _ _ _ _ _ _ _ _ a _ H1 Hv1 Hcv ltac:(lia) n Hin Hdepth)
        as (x1 & Hx1 & Hm1).
      rewrite HP2, field_of_with_field. exact (Hpos2 n x1 Hx1 Hm1).
    - exact (IH _ _ _ _ _ _ _ _ a _ H2 Hv2 Hcv1 ltac:(lia) n Hin Hdepth). }
  destruct (store_effect VD node v P2 P' a Hset Hcv2 Hv) as (g & -> & Hother & _).
  rewrite field_of_with_field, (Hother n Hne). exact Hbefore.
Qed.

(** with enough budget and all reads inside the vertex array the
    recursion ends normally *)
Lemma RecursComputeVariance_total fuel PS VD :
  forall left rght apex hgts node P a nodes,
    RecursVisits fuel PS (Z.of_nat (length (vertices P))) left rght apex node
    = Some nodes ->
    currentVariance P = Some a -> 1 <= node ->
    2 ^ VD <= Z.of_nat (length (field_of a P)) ->
    exists v P', RecursComputeVariance fuel PS VD left rght apex hgts node P = Done (v, P').
Proof.
  induction fuel as [|fuel IH];
    intros left rght apex hgts node P a nodes Hvis Hcv Hnode Hlen; [discriminate|].
  apply RecursVisits_inv in Hvis as (Hidx & Hvis).
  assert (Hget : exists mhgt,
             array_get (vertices P) (height_index PS (midpoint left rght)) = Done mhgt).
  { unfold array_get.
    destruct (height_index PS (midpoint left rght) <? 0) eqn:E;
      [apply Z.ltb_lt in E; lia|].
    destruct (lookup_lt_is_Some_2 (vertices P)
                (Z.to_nat (height_index PS (midpoint left rght))) ltac:(lia))
      as [h Hh].
    exists h. rewrite Hh. reflexivity. }
  destruct Hget as (mhgt & Hget).
  rewrite RecursComputeVariance_unfold.
  rewrite (bind_Done _ _ P mhgt P) by (apply GetHeight_Done; exact Hget).
  assert (Hrec : exists r P2,
             (if subdivides left rght then
                do c1 <- RecursComputeVariance fuel PS VD apex left (midpoint left rght)
                           (float3.mk (float3.z hgts) (float3.x hgts) mhgt) (2 * node);
                do c2 <- RecursComputeVariance fuel PS VD rght apex (midpoint left rght)
                           (float3.mk (float3.y hgts) (float3.z hgts) mhgt) (2 * node + 1);
                ret (std_max (std_max (own_variance hgts mhgt) c1) c2)
              else ret (own_variance hgts mhgt)) P = Done (r, P2)
             /\ currentVariance P2 = Some a
             /\ length (field_of a P2) = length (field_of a P)).
  { destruct (subdivides left rght).
    - destruct Hvis as (l1 & l2 & Hv1 & Hv2 & _).
      destruct (IH apex left (midpoint left rght)
                  (float3.mk (float3.z hgts) (float3.x hgts) mhgt) (2 * node)
                  P a l1 Hv1 Hcv ltac:(lia) Hlen) as (c1 & P1 & H1).
      pose proof (RecursComputeVariance_effect _ _ _ _ _ _ _ _ _ _ _ a H1 Hcv ltac:(lia))
        as (f1 & HP1 & Hlen1 & _).
      assert (Hcv1 : currentVariance P1 = Some a)
        by (rewrite HP1, currentVariance_with_field; exact Hcv).
      assert (Hvs1 : vertices P1 = vertices P)
        by (rewrite HP1; apply vertices_with_field).
      assert (Hl1 : length (field_of a P1) = length (field_of a P))
        by (rewrite HP1, field_of_with_field; exact Hlen1).
      rewrite <- Hvs1 in Hv2.
      destruct (IH rght apex (midpoint left rght)
                  (float3.mk (float3.y hgts) (float3.z hgts) mhgt) (2 * node + 1)
                  P1 a l2 Hv2 Hcv1 ltac:(lia) ltac:(lia)) as (c2 & P2 & H2).
      pose proof (RecursComputeVariance_effect _ _ _ _ _ _ _ _ _ _ _ a H2 Hcv1
                    ltac:(lia)) as (f2 & HP2 & Hlen2 & _).
      exists (std_max (std_max (own_variance hgts mhgt) c1) c2), P2.
      rewrite (bind_Done _ _ P c1 P1) by exact H1.
      rewrite (bind_Done _ _ P1 c2 P2) by exact H2.
      split; [reflexivity|]. split.
      + rewrite HP2, currentVariance_with_field. exact Hcv1.
      + rewrite HP2, field_of_with_field. congruence.
    - exists (own_variance hgts mhgt), P. repeat split; assumption. }
  destruct Hrec as (r & P2 & Hrec & Hcv2 & Hlen2).
  rewrite (bind_Done _ _ P r P2) by exact Hrec.
  destruct (node <? 2 ^ VD) eqn:Hdepth.
  - apply Z.ltb_lt in Hdepth.
    assert (Harr : exists arr, array_set (field_of a P2) node (std_max milli r) = Done arr).
    { unfold array_set. destruct (node <? 0) eqn:E; [apply Z.ltb_lt in E; lia|].
      destruct (Z.to_nat node <? length (field_of a P2))%nat eqn:E2;
        [eexists; reflexivity|].
      apply Nat.ltb_ge in E2. lia. }
    destruct Harr as (arr & Harr).
    rewrite (bind_Done _ _ P2 tt (with_field a arr P2))
      by (apply currentVariance_set_Done; assumption).
    eexists. eexists. reflexivity.
  - rewrite (bind_Done _ _ P2 tt P2) by reflexivity.
    eexists. eexists. reflexivity.
Qed.

(** *** Monotonicity *)

Definition heights_finite (P : Patch) : Prop :=
  Forall (fun h => is_finite h = true) (vertices P).

Definition finite3 (h : float3) : Prop :=
  is_finite (float3.x h) = true /\ is_finite (float3.y h) = true
  /\ is_finite (float3.z h) = true.

Lemma array_get_finite P i h :
  heights_finite P -> array_get (vertices P) i = Done h -> is_finite h = true.
Proof.
  intros HF. unfold array_get. destruct (i <? 0); [discriminate|].
  destruct (vertices P !! Z.to_nat i) as [x|] eqn:E; [|discriminate].
  intros [= <-]. eapply Forall_lookup_1 in HF; [exact HF | exact E].
Qed.

Lemma finite_not_nan (x : float) : is_finite x = true -> is_nan x = false.
Proof. destruct x; try discriminate; reflexivity. Qed.

Lemma own_variance_not_nan hgts mhgt :
  is_finite (float3.x hgts) = true -> is_finite (float3.y hgts) = true ->
  is_finite mhgt = true ->
  is_nan (own_variance hgts mhgt) = false.
Proof.
  intros Hx Hy Hm. unfold own_variance.
  assert (H0 : is_nan (fabs (sub mhgt (mul (add (float3.x hgts) (float3.y hgts)) half)))
               = false).
  { apply fabs_not_nan, sub_finite_not_nan; [exact Hm|].
    apply mul_const_not_nan, add_finite_not_nan; assumption. }
  destruct (_ || _ || _); [|exact H0].
  apply std_max_not_nan; [apply mul_const_not_nan; exact H0 | reflexivity].
Qed.

(** the value stored for a node is an upper bound of the values
    returned for its children *)
Lemma parent_bounds_children (own c1 c2 : float) :
  is_nan own = false -> at_least_milli c1 -> at_least_milli c2 ->
  leb c1 (std_max milli (std_max (std_max own c1) c2)) = true
  /\ leb c2 (std_max milli (std_max (std_max own c1) c2)) = true.
Proof.
  intros Hown H1 H2.
  apply at_least_milli_not_nan in H1, H2.
  assert (Ha : is_nan (std_max own c1) = false) by (apply std_max_not_nan; assumption).
  assert (Hb : is_nan (std_max (std_max own c1) c2) = false)
    by (apply std_max_not_nan; assumption).
  assert (Htop : leb (std_max (std_max own c1) c2)
                     (std_max milli (std_max (std_max own c1) c2)) = true)
    by (apply std_max_upper_r; [reflexivity | exact Hb]).
  split.
  - eapply leb_trans; [|exact Htop].
    apply (leb_trans c1 (std_max own c1));
      [apply std_max_upper_r; assumption | apply std_max_upper_l; exact Ha].
  - eapply leb_trans; [|exact Htop]. apply std_max_upper_r; assumption.
Qed.

Lemma in_left_subtree node m (l1 l2 : list Z) :
  1 <= node -> In m (node :: l1 ++ l2) -> desc (2 * node) m ->
  Forall (desc (2 * node + 1)) l2 -> In m l1.
Proof.
  intros Hnode [<-|Hin] Hd H2.
  - apply desc_ge in Hd; lia.
  - apply in_app_or in Hin as [Hin|Hin]; [exact Hin|].
    rewrite Forall_forall in H2. apply list_elem_of_In in Hin.
    destruct (desc_disjoint node m Hnode Hd (H2 m Hin)).
Qed.

Lemma in_right_subtree node m (l1 l2 : list Z) :
  1 <= node -> In m (node :: l1 ++ l2) -> desc (2 * node + 1) m ->
  Forall (desc (2 * node)) l1 -> In m l2.
Proof.
  intros Hnode [<-|Hin] Hd H1.
  - apply desc_ge in Hd; lia.
  - apply in_app_or in Hin as [Hin|Hin]; [|exact Hin].
    rewrite Forall_forall in H1. apply list_elem_of_In in Hin.
    destruct (desc_disjoint node m Hnode (H1 m Hin) Hd).
Qed.

(** the entries at [n], [2n] and [2n+1] with the parent above both children *)
Definition parent_above_children (f : list float) (n : Z) : Prop :=
  exists x c1 c2,
    entry f n = Some x /\ entry f (2 * n) = Some c1 /\ entry f (2 * n + 1) = Some c2
    /\ leb c1 x = true /\ leb c2 x = true.

Lemma parent_above_children_frame (f g : list float) (n : Z) :
  entry g n = entry f n -> entry g (2 * n) = entry f (2 * n) ->
  entry g (2 * n + 1) = entry f (2 * n + 1) ->
  parent_above_children f n -> parent_above_children g n.
Proof.
  intros E0 E1 E2 (x & c1 & c2 & H0 & H1 & H2 & Hle).
  exists x, c1, c2. rewrite E0, E1, E2. repeat split; try assumption; apply Hle.
Qed.

Lemma RecursComputeVariance_monotone fuel PS VD nverts :
  forall left rght apex hgts node P v P' a nodes,
    RecursComputeVariance fuel PS VD left rght apex hgts node P = Done (v, P') ->
    RecursVisits fuel PS nverts left rght apex node = Some nodes ->
    currentVariance P = Some a -> 1 <= node ->
    heights_finite P -> finite3 hgts ->
    forall n, In n nodes -> In (2 * n) nodes -> In (2 * n + 1) nodes ->
      2 * n + 1 < 2 ^ VD ->
      parent_above_children (field_of a P') n.
Proof.
  induction fuel as [|fuel IH];
    intros left rght apex hgts node P v P' a nodes Hrun Hvis Hcv Hnode HF Hh
           n Hin Hin0 Hin1 Hdepth;
    [discriminate|].
  pose proof (RecursVisits_desc _ _ _ _ _ _ _ _ Hvis) as Hdesc.
  apply RecursVisits_inv in Hvis as (_ & Hvis).
  apply RecursComputeVariance_inv in Hrun as (mhgt & r & P2 & Hget & Hrec & Hveq & Hset).
  destruct (subdivides left rght).
  2:{ subst nodes. destruct Hin as [<-|[]]. destruct Hin0 as [E|[]]. lia. }
  destruct Hvis as (l1 & l2 & Hv1 & Hv2 & ->).
  destruct Hrec as (c1 & P1 & c2 & H1 & H2 & Hr).
  pose proof (RecursVisits_desc _ _ _ _ _ _ _ _ Hv1) as Hd1.
  pose proof (RecursVisits_desc _ _ _ _ _ _ _ _ Hv2) as Hd2.
  pose proof (array_get_finite _ _ _ HF Hget) as Hmf.
  destruct Hh as (Hhx & Hhy & Hhz).
  pose proof (RecursComputeVariance_effect _ _ _ _ _ _ _ _ _ _ _ a H1 Hcv ltac:(lia))
    as (f1 & HP1 & _ & Hm1 & Hroot1 & _ & _).
  assert (Hcv1 : currentVariance P1 = Some a)
    by (rewrite HP1, currentVariance_with_field; exact Hcv).
  assert (HF1 : heights_finite P1)
    by (unfold heights_finite; rewrite HP1, vertices_with_field; exact HF).
  pose proof (RecursComputeVariance_effect _ _ _ _ _ _ _ _ _ _ _ a H2 Hcv1 ltac:(lia))
    as (f2 & HP2 & _ & Hm2 & Hroot2 & Hfr2 & _).
  assert (Hcv2 : currentVariance P2 = Some a)
    by (rewrite HP2, currentVariance_with_field; exact Hcv1).
  assert (Hv : at_least_milli v) by (rewrite Hveq; apply std_max_milli).
  destruct (store_effect VD node v P2 P' a Hset Hcv2 Hv) as (g & -> & Hother & Hstored).
  rewrite field_of_with_field.
  rewrite HP2, field_of_with_field in Hother.
  rewrite HP1, field_of_with_field in Hfr2.
  assert (Hnot : forall m, desc (2 * node) m -> ~ desc (2 * node + 1) m)
    by (intros m Ha Hb; exact (desc_disjoint node m Hnode Ha Hb)).
  destruct (Z.eq_dec n node) as [->|Hne].
  - (* the node of this call *)
    exists v, c1, c2.
    split; [apply Hstored; lia|].
    split; [rewrite Hother by lia; rewrite Hfr2 by (apply Hnot, desc_refl);
            apply Hroot1; lia|].
    split; [rewrite Hother by lia; apply Hroot2; lia|].
    rewrite Hveq, Hr. apply parent_bounds_children; [|exact Hm1 | exact Hm2].
    apply own_variance_not_nan; assumption.
  - destruct Hin as [E|Hin]; [congruence|].
    apply in_app_or in Hin as [Hin|Hin].
    + (* a node of the left subtree *)
      assert (Hdn : desc (2 * node) n).
      { rewrite Forall_forall in Hd1. apply Hd1, list_elem_of_In. exact Hin. }
      destruct (desc_down _ _ Hdn) as [Hdn0 Hdn1].
      pose proof (in_left_subtree node _ l1 l2 Hnode Hin0 Hdn0 Hd2) as Hin0'.
      pose proof (in_left_subtree node _ l1 l2 Hnode Hin1 Hdn1 Hd2) as Hin1'.
      pose proof (IH _ _ _ _ _ _ _ _ a _ H1 Hv1 Hcv ltac:(lia) HF
                    (conj Hhz (conj Hhx Hmf)) n Hin Hin0' Hin1' Hdepth) as Hpc.
      rewrite HP1, field_of_with_field in Hpc.
      pose proof (desc_ge (2 * node) n ltac:(lia) Hdn) as Hge.
      eapply parent_above_children_frame; [| | | exact Hpc];
        (rewrite Hother by lia; apply Hfr2, Hnot; assumption).
    + (* a node of the right subtree *)
      assert (Hdn : desc (2 * node + 1) n).
      { rewrite Forall_forall in Hd2. apply Hd2, list_elem_of_In. exact Hin. }
      destruct (desc_down _ _ Hdn) as [Hdn0 Hdn1].
      pose proof (in_right_subtree node _ l1 l2 Hnode Hin0 Hdn0 Hd1) as Hin0'.
      pose proof (in_right_subtree node _ l1 l2 Hnode Hin1 Hdn1 Hd1) as Hin1'.
      pose proof (IH _ _ _ _ _ _ _ _ a _ H2 Hv2 Hcv1 ltac:(lia) HF1
                    (conj Hhy (conj Hhz Hmf)) n Hin Hin0' Hin1' Hdepth) as Hpc.
      rewrite HP2, field_of_with_field in Hpc.
      pose proof (desc_ge (2 * node + 1) n ltac:(lia) Hdn) as Hge.
      eapply parent_above_children_frame; [| | | exact Hpc];
        (rewrite Hother by lia; reflexivity).
Qed.

(** *** [ComputeVariance] *)

(** the nodes visited for the left and for the right half of a tile *)
Definition left_visits (fuel : nat) (PATCH_SIZE : Z) (nverts : Z) : option (list Z) :=
  RecursVisits fuel PATCH_SIZE nverts
    (int2.mk 0 PATCH_SIZE) (int2.mk PATCH_SIZE 0) (int2.mk 0 0) 1.

Definition right_visits (fuel : nat) (PATCH_SIZE : Z) (nverts : Z) : option (list Z) :=
  RecursVisits fuel PATCH_SIZE nverts
    (int2.mk PATCH_SIZE 0) (int2.mk 0 PATCH_SIZE) (int2.mk PATCH_SIZE PATCH_SIZE) 1.

(** the arrays of the patch are as large as Patch.h declares them *)
Definition arrays_sized (PATCH_SIZE VARIANCE_DEPTH : Z) (P : Patch) : Prop :=
  0 <= PATCH_SIZE
  /\ 3 * (PATCH_SIZE + 1) * (PATCH_SIZE + 1) <= Z.of_nat (length (vertices P))
  /\ 2 ^ VARIANCE_DEPTH <= Z.of_nat (length (varianceLeft P))
  /\ 2 ^ VARIANCE_DEPTH <= Z.of_nat (length (varianceRight P)).

Lemma corner_height PS P (c : int2) :
  0 <= PS -> 3 * (PS + 1) * (PS + 1) <= Z.of_nat (length (vertices P)) ->
  0 <= int2.x c <= PS -> 0 <= int2.y c <= PS ->
  exists h, GetHeight PS c P = Done (h, P)
            /\ array_get (vertices P) (height_index PS c) = Done h.
Proof.
  intros HPS Hlen Hx Hy.
  assert (Hidx : 0 <= height_index PS c < Z.of_nat (length (vertices P))).
  { unfold height_index. nia. }
  assert (Hget : exists h, array_get (vertices P) (height_index PS c) = Done h).
  { unfold array_get. destruct (height_index PS c <? 0) eqn:E; [apply Z.ltb_lt in E; lia|].
    destruct (lookup_lt_is_Some_2 (vertices P) (Z.to_nat (height_index PS c))
                ltac:(lia)) as [h Hh].
    exists h. rewrite Hh. reflexivity. }
  destruct Hget as (h & Hget). exists h.
  split; [apply GetHeight_Done; exact Hget | exact Hget].
Qed.

(** the run of [ComputeVariance], taken apart *)
Lemma ComputeVariance_runs fuel PS VD P nodesL nodesR :
  arrays_sized PS VD P ->
  left_visits fuel PS (Z.of_nat (length (vertices P))) = Some nodesL ->
  right_visits fuel PS (Z.of_nat (length (vertices P))) = Some nodesR ->
  exists hgtsL vL P1 hgtsR vR P2,
    RecursComputeVariance fuel PS VD (int2.mk 0 PS) (int2.mk PS 0) (int2.mk 0 0)
      hgtsL 1 (with_currentVariance (Some VarianceLeft) P) = Done (vL, P1)
    /\ RecursComputeVariance fuel PS VD (int2.mk PS 0) (int2.mk 0 PS) (int2.mk PS PS)
         hgtsR 1 (with_currentVariance (Some VarianceRight) P1) = Done (vR, P2)
    /\ ComputeVariance fuel PS VD P = Done (tt, with_isDirty false P2)
    /\ varianceLeft P2 = varianceLeft P1
    /\ varianceRight P1 = varianceRight P
    /\ vertices P1 = vertices P
    /\ (heights_finite P -> finite3 hgtsL /\ finite3 hgtsR).
Proof.
  intros (HPS & Hverts & HlenL & HlenR) HvL HvR.
  set (Pa := with_currentVariance (Some VarianceLeft) P).
  assert (Hcorner : forall Q c, vertices Q = vertices P ->
            0 <= int2.x c <= PS -> 0 <= int2.y c <= PS ->
            exists h, GetHeight PS c Q = Done (h, Q)
                      /\ (heights_finite P -> is_finite h = true)).
  { intros Q c HQ Hx Hy.
    destruct (corner_height PS Q c HPS ltac:(rewrite HQ; exact Hverts) Hx Hy)
      as (h & Hh & Harr).
    exists h. split; [exact Hh|]. intros HF.
    apply (array_get_finite Q (height_index PS c) h); [|exact Harr].
    unfold heights_finite. rewrite HQ. exact HF. }
  destruct (Hcorner Pa (int2.mk 0 PS) eq_refl ltac:(simpl; lia) ltac:(simpl; lia))
    as (hl & Hhl & Fhl).
  destruct (Hcorner Pa (int2.mk PS 0) eq_refl ltac:(simpl; lia) ltac:(simpl; lia))
    as (hr & Hhr & Fhr).
  destruct (Hcorner Pa (int2.mk 0 0) eq_refl ltac:(simpl; lia) ltac:(simpl; lia))
    as (ha & Hha & Fha).
  destruct (RecursComputeVariance_total fuel PS VD (int2.mk 0 PS) (int2.mk PS 0)
              (int2.mk 0 0) (float3.mk hl hr ha) 1 Pa VarianceLeft nodesL
              HvL eq_refl ltac:(lia) HlenL) as (vL & P1 & H1).
  pose proof (RecursComputeVariance_effect _ _ _ _ _ _ _ _ _ _ _ VarianceLeft H1
                eq_refl ltac:(lia)) as (f1 & HP1 & _).
  assert (Hvs1 : vertices P1 = vertices P) by (rewrite HP1; reflexivity).
  assert (HR1 : varianceRight P1 = varianceRight P) by (rewrite HP1; reflexivity).
  set (Pb := with_currentVariance (Some VarianceRight) P1).
  destruct (Hcorner Pb (int2.mk PS 0) Hvs1 ltac:(simpl; lia) ltac:(simpl; lia))
    as (hl' & Hhl' & Fhl').
  destruct (Hcorner Pb (int2.mk 0 PS) Hvs1 ltac:(simpl; lia) ltac:(simpl; lia))
    as (hr' & Hhr' & Fhr').
  destruct (Hcorner Pb (int2.mk PS PS) Hvs1 ltac:(simpl; lia) ltac:(simpl; lia))
    as (ha' & Hha' & Fha').
  assert (HvR' : RecursVisits fuel PS (Z.of_nat (length (vertices Pb)))
                   (int2.mk PS 0) (int2.mk 0 PS) (int2.mk PS PS) 1 = Some nodesR).
  { change (vertices Pb) with (vertices P1). rewrite Hvs1. exact HvR. }
  destruct (RecursComputeVariance_total fuel PS VD (int2.mk PS 0) (int2.mk 0 PS)
              (int2.mk PS PS) (float3.mk hl' hr' ha') 1 Pb VarianceRight nodesR
              HvR' eq_refl ltac:(lia)
              ltac:(change (field_of VarianceRight Pb) with (varianceRight P1);
                    rewrite HR1; exact HlenR)) as (vR & P2 & H2).
  pose proof (RecursComputeVariance_effect _ _ _ _ _ _ _ _ _ _ _ VarianceRight H2
                eq_refl ltac:(lia)) as (f2 & HP2 & _).
  exists (float3.mk hl hr ha), vL, P1, (float3.mk hl' hr' ha'), vR, P2.
  split; [exact H1|]. split; [exact H2|]. split.
  - unfold ComputeVariance.
    rewrite (bind_Done _ _ P tt Pa) by reflexivity.
    rewrite (bind_Done _ _ Pa vL P1).
    2:{ cbv zeta.
        rewrite (bind_Done _ _ Pa hl Pa) by exact Hhl.
        rewrite (bind_Done _ _ Pa hr Pa) by exact Hhr.
        rewrite (bind_Done _ _ Pa ha Pa) by exact Hha.
        exact H1. }
    rewrite (bind_Done _ _ P1 tt Pb) by reflexivity.
    rewrite (bind_Done _ _ Pb vR P2).
    2:{ cbv zeta.
        rewrite (bind_Done _ _ Pb hl' Pb) by exact Hhl'.
        rewrite (bind_Done _ _ Pb hr' Pb) by exact Hhr'.
        rewrite (bind_Done _ _ Pb ha' Pb) by exact Hha'.
        exact H2. }
    reflexivity.
  - split; [rewrite HP2; reflexivity|]. split; [exact HR1|]. split; [exact Hvs1|].
    intros HF. split; repeat split; auto.
Qed.

Lemma at_least_milli_leb (x : float) : at_least_milli x -> leb milli x = true.
Proof. intros [->|H]; [reflexivity | apply ltb_leb; exact H]. Qed.

Lemma not_desc_root_zero : ~ desc 1 0.
Proof. intros H. apply desc_ge in H; lia. Qed.

(** what [ComputeVariance] leaves in the two variance fields *)
Lemma ComputeVariance_fields fuel PS VD P nodesL nodesR :
  arrays_sized PS VD P ->
  left_visits fuel PS (Z.of_nat (length (vertices P))) = Some nodesL ->
  right_visits fuel PS (Z.of_nat (length (vertices P))) = Some nodesR ->
  exists P',
    ComputeVariance fuel PS VD P = Done (tt, P')
    /\ (forall n, In n nodesL -> n < 2 ^ VD ->
          exists x, entry (varianceLeft P') n = Some x /\ at_least_milli x)
    /\ (forall n, In n nodesR -> n < 2 ^ VD ->
          exists x, entry (varianceRight P') n = Some x /\ at_least_milli x)
    /\ (forall i, ~ desc 1 i ->
          entry (varianceLeft P') i = entry (varianceLeft P) i
          /\ entry (varianceRight P') i = entry (varianceRight P) i)
    /\ (heights_finite P ->
        (forall n, In n nodesL -> In (2 * n) nodesL -> In (2 * n + 1) nodesL ->
           2 * n + 1 < 2 ^ VD -> parent_above_children (varianceLeft P') n)
        /\ (forall n, In n nodesR -> In (2 * n) nodesR -> In (2 * n + 1) nodesR ->
              2 * n + 1 < 2 ^ VD -> parent_above_children (varianceRight P') n)).
Proof.
  intros Hsized HvL HvR.
  destruct (ComputeVariance_runs fuel PS VD P nodesL nodesR Hsized HvL HvR)
    as (hgtsL & vL & P1 & hgtsR & vR & P2 & H1 & H2 & Hrun & HL2 & HR1 & Hvs1 & Hfin).
  set (Pa := with_currentVariance (Some VarianceLeft) P) in *.
  set (Pb := with_currentVariance (Some VarianceRight) P1) in *.
  exists (with_isDirty false P2). split; [exact Hrun|].
  change (varianceLeft (with_isDirty false P2)) with (varianceLeft P2).
  change (varianceRight (with_isDirty false P2)) with (field_of VarianceRight P2).
  rewrite HL2. change (varianceLeft P1) with (field_of VarianceLeft P1).
  pose proof (RecursComputeVariance_effect _ _ _ _ _ _ _ _ _ _ _ VarianceLeft H1
                eq_refl ltac:(lia)) as (f1 & HP1 & _ & _ & _ & Hfr1 & _).
  pose proof (RecursComputeVariance_effect _ _ _ _ _ _ _ _ _ _ _ VarianceRight H2
                eq_refl ltac:(lia)) as (f2 & HP2 & _ & _ & _ & Hfr2 & _).
  split; [|split; [|split]].
  - intros n Hin Hdepth.
    exact (RecursComputeVariance_visited _ _ _ _ _ _ _ _ _ _ _ _ VarianceLeft _
             H1 HvL eq_refl ltac:(lia) n Hin Hdepth).
  - intros n Hin Hdepth.
    exact (RecursComputeVariance_visited _ _ _ _ _ _ _ _ _ _ _ _ VarianceRight _
             H2 HvR eq_refl ltac:(lia) n Hin Hdepth).
  - intros i Hi. split.
    + rewrite HP1, field_of_with_field. exact (Hfr1 i Hi).
    + rewrite HP2, field_of_with_field. rewrite (Hfr2 i Hi).
      change (field_of VarianceRight Pb) with (varianceRight P1).
      rewrite HR1. reflexivity.
  - intros HF. destruct (Hfin HF) as [HfL HfR]. split.
    + intros n Hin Hin0 Hin1 Hdepth.
      exact (RecursComputeVariance_monotone _ _ _ _ _ _ _ _ _ _ _ _ VarianceLeft _
               H1 HvL eq_refl ltac:(lia) HF HfL n Hin Hin0 Hin1 Hdepth).
    + intros n Hin Hin0 Hin1 Hdepth.
      assert (HFb : heights_finite Pb).
      { unfold heights_finite. change (vertices Pb) with (vertices P1).
        rewrite Hvs1. exact HF. }
      exact (RecursComputeVariance_monotone _ _ _ _ _ _ _ _ _ _ _ _ VarianceRight _
               H2 HvR eq_refl ltac:(lia) HFb HfR n Hin Hin0 Hin1 Hdepth).
Qed.

(** C2, as the code has it: [ComputeVariance] ends normally on a tile
    whose arrays have their declared sizes, and every entry of its two
    variance fields at an index that the recursion visits within the
    depth bound is at least 0.001f, hence strictly greater than zero,
    whatever the height samples are.  The node indices start at 1: entry
    0 of either field is never written and keeps its value. *)
Theorem ComputeVariance_positive (fuel : nat) (PATCH_SIZE VARIANCE_DEPTH : Z)
    (P : Patch) (nodesL nodesR : list Z)
    (Hsized : arrays_sized PATCH_SIZE VARIANCE_DEPTH P)
    (HvL : left_visits fuel PATCH_SIZE (Z.of_nat (length (vertices P))) = Some nodesL)
    (HvR : right_visits fuel PATCH_SIZE (Z.of_nat (length (vertices P))) = Some nodesR) :
  exists P',
    ComputeVariance fuel PATCH_SIZE VARIANCE_DEPTH P = Done (tt, P')
    /\ (forall n, In n nodesL -> n < 2 ^ VARIANCE_DEPTH ->
          exists x, entry (varianceLeft P') n = Some x
                    /\ leb milli x = true /\ ltb zero x = true)
    /\ (forall n, In n nodesR -> n < 2 ^ VARIANCE_DEPTH ->
          exists x, entry (varianceRight P') n = Some x
                    /\ leb milli x = true /\ ltb zero x = true)
    /\ entry (varianceLeft P') 0 = entry (varianceLeft P) 0
    /\ entry (varianceRight P') 0 = entry (varianceRight P) 0.
Proof.
  destruct (ComputeVariance_fields fuel PATCH_SIZE VARIANCE_DEPTH P nodesL nodesR
              Hsized HvL HvR) as (P' & Hrun & HL & HR & Hfr & _).
  exists P'. split; [exact Hrun|]. split; [|split; [|split]].
  - intros n Hin Hd. destruct (HL n Hin Hd) as (x & Hx & Hm). exists x.
    split; [exact Hx|]. split; [apply at_least_milli_leb | apply at_least_milli_positive];
      exact Hm.
  - intros n Hin Hd. destruct (HR n Hin Hd) as (x & Hx & Hm). exists x.
    split; [exact Hx|]. split; [apply at_least_milli_leb | apply at_least_milli_positive];
      exact Hm.
  - exact (proj1 (Hfr 0 not_desc_root_zero)).
  - exact (proj2 (Hfr 0 not_desc_root_zero)).
Qed.

(** C4: after [ComputeVariance] on a tile with finite height samples,
    for every node [n] such that [n], [2n] and [2n+1] are visited by the
    recursion and lie within the depth bound, the value stored at [n] is
    greater than or equal to the values stored at [2n] and at [2n+1]. *)
Theorem ComputeVariance_monotone (fuel : nat) (PATCH_SIZE VARIANCE_DEPTH : Z)
    (P : Patch) (nodesL nodesR : list Z)
    (Hsized : arrays_sized PATCH_SIZE VARIANCE_DEPTH P)
    (HvL : left_visits fuel PATCH_SIZE (Z.of_nat (length (vertices P))) = Some nodesL)
    (HvR : right_visits fuel PATCH_SIZE (Z.of_nat (length (vertices P))) = Some nodesR)
    (Hfinite : heights_finite P) :
  exists P',
    ComputeVariance fuel PATCH_SIZE VARIANCE_DEPTH P = Done (tt, P')
    /\ (forall n, In n nodesL -> In (2 * n) nodesL -> In (2 * n + 1) nodesL ->
          2 * n + 1 < 2 ^ VARIANCE_DEPTH ->
          exists parent child1 child2,
            entry (varianceLeft P') n = Some parent
            /\ entry (varianceLeft P') (2 * n) = Some child1
            /\ entry (varianceLeft P') (2 * n + 1) = Some child2
            /\ leb child1 parent = true /\ leb child2 parent = true)
    /\ (forall n, In n nodesR -> In (2 * n) nodesR -> In (2 * n + 1) nodesR ->
          2 * n + 1 < 2 ^ VARIANCE_DEPTH ->
          exists parent child1 child2,
            entry (varianceRight P') n = Some parent
            /\ entry (varianceRight P') (2 * n) = Some child1
            /\ entry (varianceRight P') (2 * n + 1) = Some child2
            /\ leb child1 parent = true /\ leb child2 parent = true).
Proof.
  destruct (ComputeVariance_fields fuel PATCH_SIZE VARIANCE_DEPTH P nodesL nodesR
              Hsized HvL HvR) as (P' & Hrun & _ & _ & _ & Hmono).
  destruct (Hmono Hfinite) as [HL HR].
  exists P'. split; [exact Hrun|]. split.
  - intros n H0 H1 H2 Hd. exact (HL n H0 H1 H2 Hd).
  - intros n H0 H1 H2 Hd. exact (HR n H0 H1 H2 Hd).
Qed.

(** *** Tiles of edge 128 with a depth bound of 12

    With these values of [PATCH_SIZE] and [VARIANCE_DEPTH] the recursion
    is 13 levels deep and visits every node index from 1 to 8191, so
    that all entries 1 .. 4095 of both fields are written. *)

Definition nodes128L : list Z :=
  match left_visits 13 128 49923 with Some l => l | None => [] end.

Definition nodes128R : list Z :=
  match right_visits 13 128 49923 with Some l => l | None => [] end.

Lemma visits128_succeed :
  match left_visits 13 128 49923, right_visits 13 128 49923 with
  | Some _, Some _ => true
  | _, _ => false
  end = true.
Proof. vm_cast_no_check (eq_refl true). Qed.

Lemma visits128 :
  left_visits 13 128 49923 = Some nodes128L
  /\ right_visits 13 128 49923 = Some nodes128R.
Proof.
  pose proof visits128_succeed as H. unfold nodes128L, nodes128R.
  destruct (left_visits 13 128 49923); [|discriminate H].
  destruct (right_visits 13 128 49923); [|discriminate H].
  split; reflexivity.
Qed.

(** the two halves are visited under the same node indices *)
Lemma nodes128_same : nodes128R = nodes128L.
Proof.
  apply (bool_decide_eq_true_1 (nodes128R = nodes128L)).
  vm_cast_no_check (eq_refl true).
Qed.

Lemma nodes128_check :
  forallb (fun n => existsb (Z.eqb n) nodes128L) (Z.of_nat <$> seq 1 4095) = true.
Proof. vm_cast_no_check (eq_refl true). Qed.

Lemma nodes128_cover (n : Z) : 1 <= n < 4096 -> In n nodes128L /\ In n nodes128R.
Proof.
  intros Hn. rewrite nodes128_same.
  pose proof nodes128_check as H. rewrite forallb_forall in H.
  specialize (H n). rewrite existsb_exists in H.
  destruct H as (x & Hx & Ex).
  { apply in_map_iff. exists (Z.to_nat n). split; [lia|]. apply in_seq. lia. }
  apply Z.eqb_eq in Ex. subst x. split; assumption.
Qed.

Definition sized128 (P : Patch) : Prop :=
  Z.of_nat (length (vertices P)) = 49923
  /\ Z.of_nat (length (varianceLeft P)) = 4096
  /\ Z.of_nat (length (varianceRight P)) = 4096.

Lemma sized128_arrays P : sized128 P -> arrays_sized 128 12 P.
Proof.
  intros (Hv & Hl & Hr). unfold arrays_sized. rewrite Hv, Hl, Hr.
  change (2 ^ 12) with 4096. lia.
Qed.

Lemma Patch_new_sized128 : sized128 (Patch_new 128 12).
Proof.
  unfold sized128, Patch_new. cbn [vertices varianceLeft varianceRight].
  rewrite !length_replicate, !Z2Nat.id by (vm_compute; discriminate).
  repeat split.
Qed.

(** for these constants: every entry 1 .. 4095 of both fields is positive
    after [ComputeVariance], and every node above the last stored level
    is at least as large as its two children when the samples are finite *)
Lemma ComputeVariance_128 (P : Patch) :
  sized128 P ->
  exists P',
    ComputeVariance 13 128 12 P = Done (tt, P')
    /\ (forall n, 1 <= n < 4096 ->
          (exists x, entry (varianceLeft P') n = Some x /\ ltb zero x = true)
          /\ (exists x, entry (varianceRight P') n = Some x /\ ltb zero x = true))
    /\ entry (varianceLeft P') 0 = entry (varianceLeft P) 0
    /\ entry (varianceRight P') 0 = entry (varianceRight P) 0
    /\ (heights_finite P ->
        forall n, 1 <= n < 2048 ->
          parent_above_children (varianceLeft P') n
          /\ parent_above_children (varianceRight P') n).
Proof.
  intros Hs. pose proof (sized128_arrays P Hs) as Hsized.
  destruct Hs as (Hv & _). destruct visits128 as [HvL HvR].
  rewrite <- Hv in HvL, HvR.
  destruct (ComputeVariance_fields 13 128 12 P nodes128L nodes128R Hsized HvL HvR)
    as (P' & Hrun & HL & HR & Hfr & Hmono).
  change (2 ^ 12) with 4096 in *.
  exists P'. split; [exact Hrun|]. split; [|split; [|split]].
  - intros n Hn. destruct (nodes128_cover n Hn) as [HinL HinR].
    destruct (HL n HinL ltac:(lia)) as (x & Hx & Hm).
    destruct (HR n HinR ltac:(lia)) as (y & Hy & Hmy).
    split; [exists x | exists y]; (split; [assumption|]);
      apply at_least_milli_positive; assumption.
  - exact (proj1 (Hfr 0 not_desc_root_zero)).
  - exact (proj2 (Hfr 0 not_desc_root_zero)).
  - intros HF n Hn. destruct (Hmono HF) as [ML MR].
    destruct (nodes128_cover n ltac:(lia)) as [H0L H0R].
    destruct (nodes128_cover (2 * n) ltac:(lia)) as [H1L H1R].
    destruct (nodes128_cover (2 * n + 1) ltac:(lia)) as [H2L H2R].
    split; [apply ML | apply MR]; try assumption; lia.
Qed.

Lemma Patch_new_visits128 :
  left_visits 13 128 (Z.of_nat (length (vertices (Patch_new 128 12)))) = Some nodes128L
  /\ right_visits 13 128 (Z.of_nat (length (vertices (Patch_new 128 12))))
     = Some nodes128R.
Proof.
  destruct Patch_new_sized128 as (Hv & _). rewrite Hv. exact visits128.
Qed.

Lemma ComputeVariance_positive_witness :
  exists P',
    ComputeVariance 13 128 12 (Patch_new 128 12) = Done (tt, P')
    /\ (forall n, In n nodes128L -> n < 2 ^ 12 ->
          exists x, entry (varianceLeft P') n = Some x
                    /\ leb milli x = true /\ ltb zero x = true)
    /\ (forall n, In n nodes128R -> n < 2 ^ 12 ->
          exists x, entry (varianceRight P') n = Some x
                    /\ leb milli x = true /\ ltb zero x = true)
    /\ entry (varianceLeft P') 0 = entry (varianceLeft (Patch_new 128 12)) 0
    /\ entry (varianceRight P') 0 = entry (varianceRight (Patch_new 128 12)) 0.
Proof.
  exact (ComputeVariance_positive 13 128 12 (Patch_new 128 12) nodes128L nodes128R
           (sized128_arrays _ Patch_new_sized128)
           (proj1 Patch_new_visits128) (proj2 Patch_new_visits128)).
Defined.

(** *** Tiles of edge 4 with a depth bound of 4 *)

(** a tile of edge 4 with a peak in its middle *)
Definition peak_tile : Patch :=
  mkPatch (with_BaseNeighbor (Some (BaseRightOf 0)) TriTreeNode_new)
    (with_BaseNeighbor (Some (BaseLeftOf 0)) TriTreeNode_new)
    (replicate 16 zero) (replicate 16 zero) None true false
    max_float one (int2.mk 0 0) (Some (false, 0%nat))
    (replicate 36 zero ++ [zero; ten; zero] ++ replicate 36 zero)
    [] [].

Definition peak_tile_done : Patch :=
  match ComputeVariance 3 4 4 peak_tile with
  | Done (_, P) => P
  | _ => peak_tile
  end.

Lemma peak_tile_sized : arrays_sized 4 4 peak_tile.
Proof. unfold arrays_sized. vm_compute. repeat split; discriminate. Qed.

Lemma heights_finite_check (P : Patch) :
  forallb is_finite (vertices P) = true -> heights_finite P.
Proof.
  intros H. apply List.Forall_forall. intros h Hh.
  rewrite forallb_forall in H. exact (H h Hh).
Qed.

Lemma peak_tile_finite : heights_finite peak_tile.
Proof. apply heights_finite_check. vm_compute. reflexivity. Qed.

Lemma ComputeVariance_monotone_witness :
  (entry (varianceLeft peak_tile_done) 1 = Some ten
   /\ entry (varianceLeft peak_tile_done) 2 = Some (S754_finite false 10485760 (-21))
   /\ entry (varianceLeft peak_tile_done) 3 = Some (S754_finite false 10485760 (-21)))
  /\ exists P',
    ComputeVariance 3 4 4 peak_tile = Done (tt, P')
    /\ (forall n, In n [1; 2; 4; 5; 3; 6; 7] -> In (2 * n) [1; 2; 4; 5; 3; 6; 7] ->
          In (2 * n + 1) [1; 2; 4; 5; 3; 6; 7] ->
          2 * n + 1 < 2 ^ 4 ->
          exists parent child1 child2,
            entry (varianceLeft P') n = Some parent
            /\ entry (varianceLeft P') (2 * n) = Some child1
            /\ entry (varianceLeft P') (2 * n + 1) = Some child2
            /\ leb child1 parent = true /\ leb child2 parent = true)
    /\ (forall n, In n [1; 2; 4; 5; 3; 6; 7] -> In (2 * n) [1; 2; 4; 5; 3; 6; 7] ->
          In (2 * n + 1) [1; 2; 4; 5; 3; 6; 7] ->
          2 * n + 1 < 2 ^ 4 ->
          exists parent child1 child2,
            entry (varianceRight P') n = Some parent
            /\ entry (varianceRight P') (2 * n) = Some child1
            /\ entry (varianceRight P') (2 * n + 1) = Some child2
            /\ leb child1 parent = true /\ leb child2 parent = true).
Proof.
  split; [vm_compute; repeat split|].
  exact (ComputeVariance_monotone 3 4 4 peak_tile [1; 2; 4; 5; 3; 6; 7] [1; 2; 4; 5; 3; 6; 7]
           peak_tile_sized eq_refl eq_refl peak_tile_finite).
Defined.

(** a tile of edge 4 whose height at the middle is not a number, with a
    height of 10 in the middle of its left side *)
Definition nan_tile : Patch :=
  mkPatch (with_BaseNeighbor (Some (BaseRightOf 0)) TriTreeNode_new)
    (with_BaseNeighbor (Some (BaseLeftOf 0)) TriTreeNode_new)
    (replicate 16 zero) (replicate 16 zero) None true false
    max_float one (int2.mk 0 0) (Some (false, 0%nat))
    (replicate 31 zero ++ [ten] ++ replicate 5 zero ++ [S754_nan] ++ replicate 37 zero)
    [] [].

(** C4 as stated fails on a tile with a height sample that is not a
    number.  The middle of the tile is the midpoint of the hypotenuse of
    the left root, whose own variance is then NaN; [std::max(v, child)]
    returns its first argument when the comparison fails, so the NaN
    survives both children, and the final [std::max(0.001f, v)] replaces
    it by 0.001f.  The first child of the root does not read that sample
    for its own variance and stores 10.0f: the parent, node 1, is below
    its child, node 2, both visited and within the depth bound. *)
Lemma ComputeVariance_nan_parent_below_child :
  exists P',
    ComputeVariance 3 4 4 nan_tile = Done (tt, P')
    /\ left_visits 3 4 (Z.of_nat (length (vertices nan_tile))) = Some [1; 2; 4; 5; 3; 6; 7]
    /\ entry (varianceLeft P') 1 = Some milli
    /\ entry (varianceLeft P') 2 = Some ten
    /\ leb ten milli = false.
Proof. eexists. vm_compute. repeat split. Qed.

(** C2 as stated fails at entry 0: on the flat tile that the constructor
    leaves, [ComputeVariance] ends normally and entry 0 of both fields
    is still the 0.0f of the constructor, which is not greater than
    zero. *)
Lemma ComputeVariance_entry_zero_is_zero :
  exists P',
    ComputeVariance 13 128 12 (Patch_new 128 12) = Done (tt, P')
    /\ entry (varianceLeft P') 0 = Some zero
    /\ entry (varianceRight P') 0 = Some zero
    /\ ltb zero zero = false.
Proof.
  destruct (ComputeVariance_128 (Patch_new 128 12) Patch_new_sized128)
    as (P' & Hrun & _ & HL & HR & _).
  exists P'. split; [exact Hrun|].
  rewrite HL, HR. repeat split.
Qed.

(** * Further properties of the pool, the tile and the extraction *)

(** ** The node pool over a pass *)

(** [n] calls of [Allocate] in a row: the return value and the two outputs
    of every call, and the pool after the last one *)
Fixpoint Allocate_seq (n : nat) (p : CTriNodePool)
  : outcome (list (bool * option nat * option nat) * CTriNodePool) :=
  match n with
  | O => Done ([], p)
  | S n' =>
    match Allocate p with
    | Done (b, l, r, p') =>
      match Allocate_seq n' p' with
      | Done (rs, p'') => Done ((b, l, r) :: rs, p'')
      | Fault => Fault
      | OutOfFuel => OutOfFuel
      end
    | Fault => Fault
    | OutOfFuel => OutOfFuel
    end
  end.

Lemma Allocate_seq_exhausted (n : nat) (p : CTriNodePool) :
  OutOfNodes p = true ->
  Allocate_seq n p = Done (replicate n (false, None, None), p).
Proof.
  intros Hout. induction n as [|n IH]; [reflexivity|].
  simpl. unfold Allocate. rewrite Hout. rewrite IH. reflexivity.
Qed.

(** X1: A pool hands out the pairs of entries from its cursor on, one pair a
    call and no entry twice, until fewer than two entries are left; from
    then on every call returns false and null outputs.  A pool of
    capacity [2 * k] thus serves exactly [k] calls between two resets. *)
Theorem Allocate_seq_spec (n : nat) (p : CTriNodePool) (Hwf : pool_wf p) :
  let c := nextTriNodeIdx p in
  let k := ((length (pool p) - c) / 2)%nat in
  Allocate_seq n p
  = Done (((fun j => (true, Some (c + 2 * j)%nat, Some (c + 2 * j + 1)%nat))
             <$> seq 0 (n `min` k))
          ++ replicate (n - k) (false, None, None),
          mkPool (pool p) (c + 2 * (n `min` k))).
Proof.
  revert p Hwf. induction n as [|n IH]; intros p Hwf c k.
  - simpl. destruct p as [l i]. subst c. simpl. rewrite Nat.add_0_r. reflexivity.
  - destruct Hwf as (Hcap & Hcur & Hle).
    destruct Hcap as [a Ha], Hcur as [b Hb].
    assert (Hk : k = (a - b)%nat).
    { subst k c. rewrite Ha, Hb.
      replace (2 * a - 2 * b)%nat with ((a - b) * 2)%nat by lia.
      apply Nat.div_mul. lia. }
    destruct (OutOfNodes p) eqn:Hout.
    + rewrite Allocate_seq_exhausted by exact Hout.
      unfold OutOfNodes in Hout. apply Nat.leb_le in Hout.
      assert (k = 0%nat) as -> by lia.
      rewrite Nat.min_0_r, Nat.sub_0_r. simpl.
      destruct p as [l i]. subst c. simpl. rewrite Nat.add_0_r. reflexivity.
    + unfold OutOfNodes in Hout. apply Nat.leb_gt in Hout.
      assert (Hlt : (S (nextTriNodeIdx p) < length (pool p))%nat) by lia.
      simpl. unfold Allocate, OutOfNodes.
      apply Nat.leb_gt in Hout as ->. apply Nat.ltb_lt in Hlt as Hb2. rewrite Hb2.
      assert (Hwf' : pool_wf (mkPool (pool p) (S (S (nextTriNodeIdx p))))).
      { split; [exists a; exact Ha | split; [exists (S b); simpl; lia | simpl; lia]]. }
      rewrite (IH _ Hwf'). cbn [nextTriNodeIdx pool].
      assert (Hk' : ((length (pool p) - S (S (nextTriNodeIdx p))) / 2 = k - 1)%nat).
      { rewrite Ha, Hb.
        replace (2 * a - S (S (2 * b)))%nat with ((a - b - 1) * 2)%nat by lia.
        rewrite Nat.div_mul by lia. lia. }
      rewrite Hk'.
      destruct k as [|k']; [lia|].
      replace (S k' - 1)%nat with k' by lia.
      replace (S n `min` S k')%nat with (S (n `min` k')) by lia.
      replace (S n - S k')%nat with (n - k')%nat by lia.
      f_equal. f_equal.
      * simpl. f_equal.
        -- subst c. repeat f_equal; lia.
        -- f_equal. rewrite <- fmap_S_seq, <- list_fmap_compose.
           apply list_fmap_ext. intros ? j ?. simpl. subst c. repeat f_equal; lia.
      * f_equal. subst c. lia.
Qed.

Lemma Allocate_seq_spec_witness :
  pool_wf pool_of_four
  /\ Allocate_seq 3 pool_of_four
     = Done ([(true, Some 2%nat, Some 3%nat); (false, None, None); (false, None, None)],
             mkPool (pool pool_of_four) 4).
Proof.
  split; [exact pool_of_four_wf |].
  exact (Allocate_seq_spec 3 pool_of_four pool_of_four_wf).
Defined.

(** no entry at or beyond the cursor has been written since the pool was
    built or last reset *)
Definition untouched_beyond_cursor (p : CTriNodePool) : Prop :=
  forall i, (nextTriNodeIdx p <= i < length (pool p))%nat ->
    pool p !! i = Some TriTreeNode_new.

(** X2: [Reset] returns a pool to the state in which the constructor built
    it, whatever was written to the entries handed out, provided the
    entries beyond the cursor were left alone: a pool that is reset
    cannot be told from a new pool of the same capacity. *)
Theorem Reset_restores_fresh (p p0 : CTriNodePool)
    (Hcur : (nextTriNodeIdx p <= length (pool p))%nat)
    (Hclean : untouched_beyond_cursor p)
    (Hnew : CTriNodePool_new (Z.of_nat (length (pool p))) = Done p0) :
  Reset p = Done p0.
Proof.
  unfold CTriNodePool_new in Hnew.
  destruct (negb _); [discriminate|]. destruct (negb _); [discriminate|].
  injection Hnew as <-. rewrite Nat2Z.id.
  assert (Hall : replicate (nextTriNodeIdx p) TriTreeNode_new
                 ++ drop (nextTriNodeIdx p) (pool p)
                 = replicate (length (pool p)) TriTreeNode_new).
  { apply list_eq. intros i.
    destruct (decide (i < nextTriNodeIdx p)%nat) as [Hlt|Hge].
    - rewrite lookup_app_l by (rewrite length_replicate; exact Hlt).
      rewrite !lookup_replicate_2 by lia. reflexivity.
    - rewrite lookup_app_r by (rewrite length_replicate; lia).
      rewrite length_replicate, lookup_drop.
      replace (nextTriNodeIdx p + (i - nextTriNodeIdx p))%nat with i by lia.
      destruct (decide (i < length (pool p))%nat) as [Hin|Hout].
      + rewrite Hclean by lia. rewrite lookup_replicate_2 by lia. reflexivity.
      + rewrite lookup_ge_None_2 by lia.
        symmetry. apply lookup_replicate_None. lia. }
  unfold Reset. destruct (0 <? nextTriNodeIdx p)%nat eqn:Hpos.
  - apply Nat.leb_le in Hcur as ->. rewrite Hall. reflexivity.
  - apply Nat.ltb_ge in Hpos. assert (nextTriNodeIdx p = 0%nat) as E by lia.
    rewrite E in Hall. simpl in Hall. rewrite drop_0 in Hall. f_equal. f_equal. exact Hall.
Qed.

Lemma Reset_restores_fresh_witness :
  Reset used_pool = Done (mkPool (replicate 4 TriTreeNode_new) 0).
Proof.
  apply Reset_restores_fresh.
  - simpl. lia.
  - intros i Hi. simpl in Hi.
    destruct i as [|[|[|[|i]]]]; try lia; reflexivity.
  - reflexivity.
Defined.

(** ** Building and resetting the pools of a pass *)

(** the capacity that [InitPools] gives every pool for a request of
    [newPoolSize] nodes *)
Definition thread_pool_size (numThreads newPoolSize : Z) : Z :=
  let thrPoolSize := Z.max (newPoolSize / numThreads) (newPoolSize / 3) in
  size_t_wrap (thrPoolSize + Z.land thrPoolSize 1).

Lemma InitPools_unfold fuel nt ca s n w :
  InitPools (S fuel) nt ca s n w
  = if nt <=? 0 then Fault
    else if ca (thread_pool_size nt n) then
      match CTriNodePool_new (thread_pool_size nt n) with
      | Done p =>
        Done (tt, with_pools s (replicate (Z.to_nat nt) p)
                    (with_pools s [] (with_CUR_POOL_SIZE n w)))
      | Fault => Fault
      | OutOfFuel => OutOfFuel
      end
    else InitPools fuel nt ca s (n - Z.shiftr n 2)
           (with_MAX_POOL_SIZE (n - Z.shiftr n 2)
              (with_pools s [] (with_CUR_POOL_SIZE n w))).
Proof.
  cbn [InitPools]. destruct (nt <=? 0); [reflexivity|].
  unfold bind, modify, lift, thread_pool_size. cbv zeta.
  destruct (ca _); [|reflexivity].
  destruct (CTriNodePool_new _); reflexivity.
Qed.

Lemma quarter_off (n : Z) : 0 <= n -> 0 <= n - Z.shiftr n 2 <= n.
Proof.
  intros Hn. rewrite Z.shiftr_div_pow2 by lia. change (2 ^ 2) with 4.
  pose proof (Z.div_pos n 4 Hn ltac:(lia)).
  pose proof (Z.div_le_upper_bound n 4 n ltac:(lia) ltac:(lia)). lia.
Qed.

Lemma InitPools_result (fuel : nat) (numThreads : Z) (can_alloc : Z -> bool)
    (shadowPass : bool) (newPoolSize : Z) (w w' : World) (u : unit)
    (Hrun : InitPools fuel numThreads can_alloc shadowPass newPoolSize w = Done (u, w')) :
  exists p,
    0 < numThreads
    /\ can_alloc (thread_pool_size numThreads (CUR_POOL_SIZE w')) = true
    /\ CTriNodePool_new (thread_pool_size numThreads (CUR_POOL_SIZE w')) = Done p
    /\ pools w' shadowPass = replicate (Z.to_nat numThreads) p
    /\ pools w' (negb shadowPass) = pools w (negb shadowPass)
    /\ patches w' = patches w
    /\ (if can_alloc (thread_pool_size numThreads newPoolSize)
        then CUR_POOL_SIZE w' = newPoolSize /\ MAX_POOL_SIZE w' = MAX_POOL_SIZE w
        else MAX_POOL_SIZE w' = CUR_POOL_SIZE w'
             /\ (0 <= newPoolSize -> 0 <= CUR_POOL_SIZE w' <= newPoolSize)).
Proof.
  revert newPoolSize w Hrun.
  induction fuel as [|fuel IH]; intros n w Hrun; [discriminate|].
  rewrite InitPools_unfold in Hrun.
  destruct (numThreads <=? 0) eqn:Hnt; [discriminate|]. apply Z.leb_gt in Hnt.
  destruct (can_alloc (thread_pool_size numThreads n)) eqn:Hca.
  - destruct (CTriNodePool_new (thread_pool_size numThreads n)) as [p| |] eqn:Hnew;
      try discriminate.
    injection Hrun as _ Hw. rewrite <- Hw. clear Hw. exists p.
    rewrite !CUR_with_pools, !MAX_with_pools, !with_pools_pools, !with_pools_pools_other,
      !patches_with_pools.
    cbn [CUR_POOL_SIZE MAX_POOL_SIZE with_CUR_POOL_SIZE].
    repeat (split; [first [assumption | destruct shadowPass; reflexivity]|]).
    destruct shadowPass; reflexivity.
  - apply IH in Hrun as (p & _ & Hca' & Hnew & Hpools & Hother & Hpatches & Hsize).
    exists p.
    repeat (split; [first [assumption | lia]|]).
    split; [rewrite Hother; destruct shadowPass; reflexivity|].
    split; [rewrite Hpatches; destruct shadowPass; reflexivity|].
    destruct (can_alloc (thread_pool_size numThreads (n - Z.shiftr n 2))).
    + destruct Hsize as [HC HM]. rewrite HC, HM.
      split; [destruct shadowPass; reflexivity|].
      intros Hn. apply quarter_off. exact Hn.
    + destruct Hsize as [HM Hle]. split; [exact HM|].
      intros Hn. pose proof (quarter_off n Hn). lia.
Qed.

(** X3: Whenever [InitPools] returns, the pass has one pool for each worker,
    all built alike by the constructor for the capacity that belongs to
    the request finally served; the pools of the other pass and the
    patches are as before.  That request is [CUR_POOL_SIZE] afterwards.
    It is the caller's request, with [MAX_POOL_SIZE] as it was, when the
    first allocation succeeds; after a failed allocation it is smaller
    and [MAX_POOL_SIZE] has been lowered to it, so that [ResetAll] does
    not grow the pools any more. *)
Theorem InitPools_spec (fuel : nat) (numThreads : Z) (can_alloc : Z -> bool)
    (shadowPass : bool) (newPoolSize : Z) (w w' : World) (u : unit)
    (Hrun : InitPools fuel numThreads can_alloc shadowPass newPoolSize w = Done (u, w')) :
  exists p,
    0 < numThreads
    /\ can_alloc (thread_pool_size numThreads (CUR_POOL_SIZE w')) = true
    /\ CTriNodePool_new (thread_pool_size numThreads (CUR_POOL_SIZE w')) = Done p
    /\ pools w' shadowPass = replicate (Z.to_nat numThreads) p
    /\ pools w' (negb shadowPass) = pools w (negb shadowPass)
    /\ patches w' = patches w
    /\ (if can_alloc (thread_pool_size numThreads newPoolSize)
        then CUR_POOL_SIZE w' = newPoolSize /\ MAX_POOL_SIZE w' = MAX_POOL_SIZE w
        else MAX_POOL_SIZE w' = CUR_POOL_SIZE w'
             /\ (0 <= newPoolSize -> 0 <= CUR_POOL_SIZE w' <= newPoolSize)).
Proof. exact (InitPools_result _ _ _ _ _ _ _ _ Hrun). Qed.

(** a world whose main pass asks for 64 nodes, on a machine that cannot
    provide pools of more than 20 nodes each *)
Definition scarce (size : Z) : bool := size <=? 20.

Lemma InitPools_spec_witness :
  InitPools 3 2 scarce false 64 exhausted_world
  = Done (tt, mkWorld 36 36 (replicate 2 (mkPool (replicate 18 TriTreeNode_new) 0)) [] [])
  /\ exists p,
       0 < 2
       /\ scarce (thread_pool_size 2 36) = true
       /\ CTriNodePool_new (thread_pool_size 2 36) = Done p
       /\ replicate 2 (mkPool (replicate 18 TriTreeNode_new) 0) = replicate (Z.to_nat 2) p
       /\ pools_shadow exhausted_world = pools_shadow exhausted_world
       /\ patches exhausted_world = patches exhausted_world
       /\ (36 = 36 /\ (0 <= 64 -> 0 <= 36 <= 64)).
Proof.
  split; [vm_compute; reflexivity|].
  exact (InitPools_spec 3 2 scarce false 64 exhausted_world _ tt ltac:(vm_compute; reflexivity)).
Defined.

(** X4: [InitPools] has no way out but a successful allocation: if the
    allocation fails at every size the retry goes on without end (the
    request is cut by a quarter each time and stalls below 4). *)
Theorem InitPools_never_gives_up (fuel : nat) (numThreads : Z) (can_alloc : Z -> bool)
    (shadowPass : bool) (newPoolSize : Z) (w : World)
    (Hthreads : 0 < numThreads)
    (Hfail : forall size, can_alloc size = false) :
  InitPools fuel numThreads can_alloc shadowPass newPoolSize w = OutOfFuel
  /\ (0 <= newPoolSize < 4 -> newPoolSize - Z.shiftr newPoolSize 2 = newPoolSize).
Proof.
  split.
  - revert newPoolSize w. induction fuel as [|fuel IH]; intros n w; [reflexivity|].
    rewrite InitPools_unfold. apply Z.leb_gt in Hthreads as ->.
    rewrite Hfail. apply IH.
  - intros Hn. rewrite Z.shiftr_div_pow2 by lia. change (2 ^ 2) with 4.
    rewrite Z.div_small by lia. lia.
Qed.

Lemma InitPools_never_gives_up_witness :
  InitPools 100 2 (fun _ => false) false 3 exhausted_world = OutOfFuel
  /\ (0 <= 3 < 4 -> 3 - Z.shiftr 3 2 = 3).
Proof.
  apply InitPools_never_gives_up; [lia | reflexivity].
Defined.

(** between two passes every pool is at its start and has room *)
Definition pools_at_start (l : list CTriNodePool) : Prop :=
  Forall (fun p => nextTriNodeIdx p = 0%nat /\ (0 < length (pool p))%nat) l.

Lemma ResetAll_loop_at_start (l : list CTriNodePool) :
  pools_at_start l -> ResetAll_loop l false = Done (false, l).
Proof.
  induction 1 as [|p l [Hc Hlen] _ IH]; [reflexivity|].
  cbn [ResetAll_loop]. unfold OutOfNodes, Reset. rewrite Hc.
  apply Nat.leb_gt in Hlen as ->. cbn [orb Nat.ltb Nat.leb]. rewrite IH.
  destruct p as [pl c]. simpl in Hc. subst c. reflexivity.
Qed.

Lemma ResetAll_at_start fuel nt ca s w :
  pools_at_start (pools w s) -> ResetAll fuel nt ca s w = Done (tt, w).
Proof.
  intros H. unfold ResetAll, bind, get, lift, modify.
  rewrite (ResetAll_loop_at_start _ H). cbn [negb]. cbv beta iota.
  rewrite with_pools_id. reflexivity.
Qed.

Lemma Forall2_Reset_at_start (l l' : list CTriNodePool) :
  Forall (fun p => (0 < length (pool p))%nat) l ->
  Forall2 (fun p p' => Reset p = Done p') l l' -> pools_at_start l'.
Proof.
  intros Hpos HF. induction HF as [|p p' l l' Hp _ IH]; [constructor|].
  inversion Hpos; subst. constructor; [|apply IH; assumption].
  split; [eapply Reset_cursor; exact Hp|].
  rewrite (Reset_length _ _ Hp). assumption.
Qed.

(** X5: [ResetAll] settles: once it has returned, calling it again for the
    same pass, with whatever thread count and allocator, changes nothing.
    The pools grow at most once for each pass that ran out of nodes. *)
Theorem ResetAll_settles (fuel fuel' : nat) (numThreads numThreads' : Z)
    (can_alloc can_alloc' : Z -> bool) (shadowPass : bool) (w w' : World)
    (Hcur : cursors_in_range (pools w shadowPass))
    (Hroom : Forall (fun p => (0 < length (pool p))%nat) (pools w shadowPass))
    (Hrun : ResetAll fuel numThreads can_alloc shadowPass w = Done (tt, w')) :
  ResetAll fuel' numThreads' can_alloc' shadowPass w' = Done (tt, w').
Proof.
  apply ResetAll_at_start.
  unfold ResetAll in Hrun.
  apply bind_inv in Hrun as (w0 & w1 & Hg & Hrun). injection Hg as <- <-.
  destruct (ResetAll_loop_Done (pools w shadowPass) false Hcur) as (l & Hloop & HF).
  unfold bind at 1 in Hrun. unfold lift in Hrun. rewrite Hloop in Hrun.
  unfold bind at 1 in Hrun. unfold modify in Hrun.
  pose proof (Forall2_Reset_at_start _ _ Hroom HF) as Hstart.
  destruct (negb (false || existsb OutOfNodes (pools w shadowPass))).
  { injection Hrun as <-. rewrite with_pools_pools. exact Hstart. }
  unfold bind at 1 in Hrun. unfold get in Hrun.
  destruct (MAX_POOL_SIZE (with_pools shadowPass l w)
            <=? CUR_POOL_SIZE (with_pools shadowPass l w)).
  { injection Hrun as <-. rewrite with_pools_pools. exact Hstart. }
  apply InitPools_result in Hrun as (p & _ & _ & Hnew & Hpools & _).
  rewrite Hpools. apply Forall_replicate.
  apply CTriNodePool_new_wf in Hnew as Hwf.
  unfold CTriNodePool_new in Hnew.
  destruct (negb _); [discriminate|]. destruct (negb _); [discriminate|].
  injection Hnew as <-. split; [reflexivity | apply Hwf].
Qed.

Lemma ResetAll_settles_witness :
  ResetAll 5 3 (fun _ => false) false
    (mkWorld 8 32 (replicate 2 (mkPool (replicate 4 TriTreeNode_new) 0)) [] [])
  = Done (tt, mkWorld 8 32 (replicate 2 (mkPool (replicate 4 TriTreeNode_new) 0)) [] []).
Proof.
  apply (ResetAll_settles 1 5 2 3 (fun _ => true) (fun _ => false) false exhausted_world).
  - exact exhausted_world_cursors.
  - repeat constructor.
  - vm_compute. reflexivity.
Defined.

(** ** The variance pass run again *)

Lemma array_set_same_length {A : Type} (f g : list A) (n : Z) (v : A) (f' : list A) :
  array_set f n v = Done f' -> length g = length f ->
  array_set g n v = Done (<[Z.to_nat n := v]> g).
Proof.
  unfold array_set. intros H Hlen. rewrite Hlen.
  destruct (n <? 0); [discriminate|].
  destruct (Z.to_nat n <? length f)%nat; [reflexivity | discriminate].
Qed.

Lemma store_replay VD node v P2 P' a Q2 :
  (if node <? 2 ^ VD then currentVariance_set node v P2 = Done (tt, P') else P' = P2) ->
  currentVariance P2 = Some a -> currentVariance Q2 = Some a ->
  length (field_of a Q2) = length (field_of a P2) ->
  exists g,
    (if node <? 2 ^ VD then currentVariance_set node v else ret tt) Q2
    = Done (tt, with_field a g Q2)
    /\ length g = length (field_of a Q2)
    /\ (node < 2 ^ VD -> entry g node = entry (field_of a P') node)
    /\ (forall i, i <> node \/ 2 ^ VD <= node ->
          entry g i = entry (field_of a Q2) i
          /\ entry (field_of a P') i = entry (field_of a P2) i).
Proof.
  intros Hset HcP HcQ Hlen. destruct (node <? 2 ^ VD) eqn:Hdepth.
  - apply (currentVariance_set_inv _ _ _ _ _ a HcP) in Hset as (arr & Harr & ->).
    pose proof (array_set_same_length _ (field_of a Q2) _ _ _ Harr Hlen) as HQ.
    exists (<[Z.to_nat node := v]> (field_of a Q2)).
    split; [exact (currentVariance_set_Done _ _ _ _ _ HcQ HQ)|].
    split; [apply length_insert|].
    rewrite field_of_with_field. split.
    + intros _. rewrite (proj1 (entry_array_set_same _ _ _ _ Harr)).
      exact (proj1 (entry_array_set_same _ _ _ _ HQ)).
    + apply Z.ltb_lt in Hdepth. intros i [Hi|Hi]; [|lia]. split.
      * exact (entry_array_set_other _ _ _ _ i HQ Hi).
      * exact (entry_array_set_other _ _ _ _ i Harr Hi).
  - subst P'. exists (field_of a Q2). rewrite with_field_same.
    apply Z.ltb_ge in Hdepth.
    split; [reflexivity|]. split; [reflexivity|]. split; [lia|].
    intros i _. split; reflexivity.
Qed.

(** The pass over a triangle computes its values from the heights alone:
    run on a patch [Q] with the vertices of [P], it returns the value it
    returned on [P] and stores, at the indices [W] that it writes, what it
    stored in [P]; the other entries stay as they were. *)
Lemma RecursComputeVariance_replay fuel PS VD :
  forall left rght apex hgts node P v P' a Q,
    RecursComputeVariance fuel PS VD left rght apex hgts node P = Done (v, P') ->
    currentVariance P = Some a -> 1 <= node ->
    vertices Q = vertices P -> currentVariance Q = Some a ->
    length (field_of a Q) = length (field_of a P) ->
    exists g W,
      RecursComputeVariance fuel PS VD left rght apex hgts node Q
      = Done (v, with_field a g Q)
      /\ length g = length (field_of a Q)
      /\ (forall i, In i W -> entry g i = entry (field_of a P') i)
      /\ (forall i, ~ In i W ->
            entry g i = entry (field_of a Q) i
            /\ entry (field_of a P') i = entry (field_of a P) i).
Proof.
  induction fuel as [|fuel IH];
    intros left rght apex hgts node P v P' a Q Hrun Hcv Hnode HvQ HcQ Hlen;
    [discriminate|].
  apply RecursComputeVariance_inv in Hrun as (mhgt & r & P2 & Hm & Hsub & -> & Hstore).
  rewrite RecursComputeVariance_unfold.
  rewrite (bind_Done _ _ Q mhgt Q) by (apply GetHeight_Done; rewrite HvQ; exact Hm).
  assert (Hinner : exists g2 W2,
    (if subdivides left rght then
       do c1 <- RecursComputeVariance fuel PS VD apex left (midpoint left rght)
                  (float3.mk (float3.z hgts) (float3.x hgts) mhgt) (2 * node);
       do c2 <- RecursComputeVariance fuel PS VD rght apex (midpoint left rght)
                  (float3.mk (float3.y hgts) (float3.z hgts) mhgt) (2 * node + 1);
       ret (std_max (std_max (own_variance hgts mhgt) c1) c2)
     else ret (own_variance hgts mhgt)) Q = Done (r, with_field a g2 Q)
    /\ length g2 = length (field_of a Q)
    /\ currentVariance P2 = Some a
    /\ length (field_of a P2) = length (field_of a P)
    /\ (forall i, In i W2 -> entry g2 i = entry (field_of a P2) i)
    /\ (forall i, ~ In i W2 ->
          entry g2 i = entry (field_of a Q) i
          /\ entry (field_of a P2) i = entry (field_of a P) i)).
  { destruct (subdivides left rght).
    - destruct Hsub as (c1 & P1 & c2 & H1 & H2 & ->).
      pose proof (RecursComputeVariance_effect _ _ _ _ _ _ _ _ _ _ _ a H1 Hcv
                    ltac:(lia)) as (f1 & HP1 & Hl1 & _).
      destruct (IH _ _ _ _ _ _ _ _ a Q H1 Hcv ltac:(lia) HvQ HcQ Hlen)
        as (g1 & W1 & R1 & Lg1 & In1 & Out1).
      assert (Hcv1 : currentVariance P1 = Some a)
        by (rewrite HP1, currentVariance_with_field; exact Hcv).
      pose proof (RecursComputeVariance_effect _ _ _ _ _ _ _ _ _ _ _ a H2 Hcv1
                    ltac:(lia)) as (f2 & HP2 & Hl2 & _).
      destruct (IH _ _ _ _ _ _ _ _ a (with_field a g1 Q) H2 Hcv1 ltac:(lia))
        as (g2 & W2 & R2 & Lg2 & In2 & Out2).
      { rewrite HP1, !vertices_with_field. exact HvQ. }
      { rewrite currentVariance_with_field. exact HcQ. }
      { rewrite field_of_with_field, Lg1, Hlen, HP1, field_of_with_field. symmetry. exact Hl1. }
      rewrite with_field_twice in R2. rewrite field_of_with_field in Lg2, Out2.
      exists g2, (W1 ++ W2).
      split.
      { rewrite (bind_Done _ _ Q c1 (with_field a g1 Q)) by exact R1.
        rewrite (bind_Done _ _ _ c2 (with_field a g2 Q)) by exact R2.
        reflexivity. }
      split; [congruence|].
      split; [rewrite HP2, currentVariance_with_field; exact Hcv1|].
      split.
      { rewrite HP2, field_of_with_field, Hl2, HP1, field_of_with_field. exact Hl1. }
      split.
      + intros i Hi. destruct (in_dec Z.eq_dec i W2) as [Hi2|Hn2].
        * apply In2. exact Hi2.
        * destruct (Out2 i Hn2) as [E1 E2]. rewrite E1, E2.
          apply in_app_or in Hi as [Hi|Hi]; [apply In1; exact Hi | contradiction].
      + intros i Hi.
        assert (Hn1 : ~ In i W1) by (intros H; apply Hi, in_or_app; left; exact H).
        assert (Hn2 : ~ In i W2) by (intros H; apply Hi, in_or_app; right; exact H).
        destruct (Out1 i Hn1) as [E1 E1']. destruct (Out2 i Hn2) as [E2 E2'].
        split; congruence.
    - destruct Hsub as [-> ->]. exists (field_of a Q), [].
      rewrite with_field_same.
      split; [reflexivity|]. split; [reflexivity|]. split; [exact Hcv|].
      split; [reflexivity|]. split; [intros i []|]. intros i _. split; reflexivity. }
  destruct Hinner as (g2 & W2 & R & Lg2 & Hcv2 & Hl2 & In2 & Out2).
  rewrite (bind_Done _ _ Q r (with_field a g2 Q)) by exact R.
  destruct (store_replay VD node (std_max milli r) P2 P' a (with_field a g2 Q) Hstore Hcv2)
    as (g & Rs & Lg & Hat & Hoff).
  { rewrite currentVariance_with_field. exact HcQ. }
  { rewrite field_of_with_field. congruence. }
  rewrite with_field_twice in Rs. rewrite field_of_with_field in Lg, Hoff.
  rewrite (bind_Done _ _ _ tt (with_field a g Q)) by exact Rs.
  exists g, ((if node <? 2 ^ VD then [node] else []) ++ W2).
  split; [reflexivity|]. split; [congruence|]. split.
  - intros i Hi. destruct (Z.eq_dec i node) as [->|Hne].
    + destruct (node <? 2 ^ VD) eqn:Hd.
      * apply Hat. apply Z.ltb_lt. exact Hd.
      * simpl in Hi. apply Z.ltb_ge in Hd.
        destruct (Hoff node (or_intror Hd)) as [E1 E2]. rewrite E1, E2.
        apply In2. exact Hi.
    + destruct (Hoff i (or_introl Hne)) as [E1 E2]. rewrite E1, E2.
      apply In2. apply in_app_or in Hi as [Hi|Hi]; [|exact Hi].
      destruct (node <? 2 ^ VD); simpl in Hi; [destruct Hi as [<-|[]]; contradiction | destruct Hi].
  - intros i Hi.
    assert (Hn2 : ~ In i W2) by (intros H; apply Hi, in_or_app; right; exact H).
    assert (Hne : i <> node \/ 2 ^ VD <= node).
    { destruct (node <? 2 ^ VD) eqn:Hd.
      - left. intros ->. apply Hi, in_or_app. left. left. reflexivity.
      - right. apply Z.ltb_ge. exact Hd. }
    destruct (Hoff i Hne) as [E1 E2]. destruct (Out2 i Hn2) as [E3 E4].
    split; congruence.
Qed.

Lemma entry_ext (f g : list float) :
  (forall i, entry f i = entry g i) -> f = g.
Proof.
  intros H. apply list_eq. intros k. specialize (H (Z.of_nat k)).
  unfold entry in H. destruct (Z.of_nat k <? 0) eqn:E; [apply Z.ltb_lt in E; lia|].
  rewrite Nat2Z.id in H. exact H.
Qed.

(** a pass that is run again on its own result changes nothing *)
Lemma RecursComputeVariance_again fuel PS VD left rght apex hgts node P v f a :
  RecursComputeVariance fuel PS VD left rght apex hgts node P
  = Done (v, with_field a f P) ->
  currentVariance P = Some a -> 1 <= node ->
  length f = length (field_of a P) ->
  forall Q, vertices Q = vertices P -> currentVariance Q = Some a -> field_of a Q = f ->
    RecursComputeVariance fuel PS VD left rght apex hgts node Q = Done (v, Q).
Proof.
  intros Hrun Hcv Hnode Hlen Q HvQ HcQ HfQ.
  destruct (RecursComputeVariance_replay fuel PS VD _ _ _ _ _ _ _ _ a Q Hrun Hcv Hnode
              HvQ HcQ ltac:(congruence)) as (g & W & R & Lg & In1 & Out1).
  rewrite field_of_with_field in In1, Out1.
  assert (g = f) as ->.
  { apply entry_ext. intros i. destruct (in_dec Z.eq_dec i W) as [Hi|Hi].
    - apply In1. exact Hi.
    - destruct (Out1 i Hi) as [E _]. rewrite E, HfQ. reflexivity. }
  rewrite R. rewrite <- HfQ, with_field_same. reflexivity.
Qed.

Lemma ComputeVariance_inv fuel PS VD P u P' :
  ComputeVariance fuel PS VD P = Done (u, P') ->
  exists hgtsL vL f1 hgtsR vR f2,
    let Pa := with_currentVariance (Some VarianceLeft) P in
    let Pb := with_currentVariance (Some VarianceRight) (with_field VarianceLeft f1 Pa) in
    array_get (vertices P) (height_index PS (int2.mk 0 PS)) = Done (float3.x hgtsL)
    /\ array_get (vertices P) (height_index PS (int2.mk PS 0)) = Done (float3.y hgtsL)
    /\ array_get (vertices P) (height_index PS (int2.mk 0 0)) = Done (float3.z hgtsL)
    /\ array_get (vertices P) (height_index PS (int2.mk PS 0)) = Done (float3.x hgtsR)
    /\ array_get (vertices P) (height_index PS (int2.mk 0 PS)) = Done (float3.y hgtsR)
    /\ array_get (vertices P) (height_index PS (int2.mk PS PS)) = Done (float3.z hgtsR)
    /\ RecursComputeVariance fuel PS VD (int2.mk 0 PS) (int2.mk PS 0) (int2.mk 0 0)
         hgtsL 1 Pa = Done (vL, with_field VarianceLeft f1 Pa)
    /\ length f1 = length (varianceLeft P)
    /\ RecursComputeVariance fuel PS VD (int2.mk PS 0) (int2.mk 0 PS) (int2.mk PS PS)
         hgtsR 1 Pb = Done (vR, with_field VarianceRight f2 Pb)
    /\ length f2 = length (varianceRight P)
    /\ P' = with_isDirty false (with_field VarianceRight f2 Pb).
Proof.
  unfold ComputeVariance. intros Hrun.
  apply bind_inv in Hrun as (u0 & Pa & Hm & Hrun). injection Hm as _ <-.
  apply bind_inv in Hrun as (vL & P1 & Hleft & Hrun). cbv zeta in Hleft.
  apply bind_inv in Hleft as (hl & Q & Hh & Hleft). apply GetHeight_inv in Hh as [-> Hhl].
  apply bind_inv in Hleft as (hr & Q & Hh & Hleft). apply GetHeight_inv in Hh as [-> Hhr].
  apply bind_inv in Hleft as (ha & Q & Hh & Hleft). apply GetHeight_inv in Hh as [-> Hha].
  pose proof (RecursComputeVariance_effect _ _ _ _ _ _ _ _ _ _ _ VarianceLeft Hleft
                eq_refl ltac:(lia)) as (f1 & HP1 & Hl1 & _).
  subst P1.
  apply bind_inv in Hrun as (u1 & Pb & Hm & Hrun). injection Hm as _ <-.
  apply bind_inv in Hrun as (vR & P2 & Hright & Hrun). cbv zeta in Hright.
  apply bind_inv in Hright as (hl' & Q & Hh & Hright). apply GetHeight_inv in Hh as [-> Hhl'].
  apply bind_inv in Hright as (hr' & Q & Hh & Hright). apply GetHeight_inv in Hh as [-> Hhr'].
  apply bind_inv in Hright as (ha' & Q & Hh & Hright). apply GetHeight_inv in Hh as [-> Hha'].
  pose proof (RecursComputeVariance_effect _ _ _ _ _ _ _ _ _ _ _ VarianceRight Hright
                eq_refl ltac:(lia)) as (f2 & HP2 & Hl2 & _).
  subst P2. injection Hrun as _ <-.
  exists (float3.mk hl hr ha), vL, f1, (float3.mk hl' hr' ha'), vR, f2.
  cbv zeta. cbn [float3.x float3.y float3.z].
  repeat (split; [first [assumption | reflexivity]|]). reflexivity.
Qed.

(** X6: [ComputeVariance] is idempotent: run on a tile that it has just
    processed, it stores the values that are there already and returns the
    tile as it found it.  The variance fields are a function of the
    height samples; recomputing them without a change of height is
    harmless. *)
Theorem ComputeVariance_idempotent (fuel : nat) (PATCH_SIZE VARIANCE_DEPTH : Z)
    (P P' : Patch)
    (Hrun : ComputeVariance fuel PATCH_SIZE VARIANCE_DEPTH P = Done (tt, P')) :
  ComputeVariance fuel PATCH_SIZE VARIANCE_DEPTH P' = Done (tt, P').
Proof.
  apply ComputeVariance_inv in Hrun
    as (hgtsL & vL & f1 & hgtsR & vR & f2 & Hxl & Hyl & Hzl & Hxr & Hyr & Hzr
        & H1 & Hl1 & H2 & Hl2 & ->).
  cbv zeta in H1, H2.
  set (Pa := with_currentVariance (Some VarianceLeft) P) in *.
  set (Pb := with_currentVariance (Some VarianceRight) (with_field VarianceLeft f1 Pa)) in *.
  set (P' := with_isDirty false (with_field VarianceRight f2 Pb)).
  assert (Hv : vertices P' = vertices P) by reflexivity.
  unfold ComputeVariance.
  rewrite (bind_Done _ _ P' tt (with_currentVariance (Some VarianceLeft) P')) by reflexivity.
  set (Qa := with_currentVariance (Some VarianceLeft) P').
  rewrite (bind_Done _ _ Qa vL Qa).
  2:{ cbv zeta.
      rewrite (bind_Done _ _ Qa (float3.x hgtsL) Qa) by (apply GetHeight_Done; exact Hxl).
      rewrite (bind_Done _ _ Qa (float3.y hgtsL) Qa) by (apply GetHeight_Done; exact Hyl).
      rewrite (bind_Done _ _ Qa (float3.z hgtsL) Qa) by (apply GetHeight_Done; exact Hzl).
      replace (float3.mk (float3.x hgtsL) (float3.y hgtsL) (float3.z hgtsL)) with hgtsL
        by (destruct hgtsL; reflexivity).
      apply (RecursComputeVariance_again fuel PATCH_SIZE VARIANCE_DEPTH _ _ _ _ _ Pa vL f1
               VarianceLeft H1 eq_refl ltac:(lia) Hl1); reflexivity. }
  rewrite (bind_Done _ _ Qa tt (with_currentVariance (Some VarianceRight) Qa)) by reflexivity.
  set (Qb := with_currentVariance (Some VarianceRight) Qa).
  rewrite (bind_Done _ _ Qb vR Qb).
  2:{ cbv zeta.
      rewrite (bind_Done _ _ Qb (float3.x hgtsR) Qb) by (apply GetHeight_Done; exact Hxr).
      rewrite (bind_Done _ _ Qb (float3.y hgtsR) Qb) by (apply GetHeight_Done; exact Hyr).
      rewrite (bind_Done _ _ Qb (float3.z hgtsR) Qb) by (apply GetHeight_Done; exact Hzr).
      replace (float3.mk (float3.x hgtsR) (float3.y hgtsR) (float3.z hgtsR)) with hgtsR
        by (destruct hgtsR; reflexivity).
      apply (RecursComputeVariance_again fuel PATCH_SIZE VARIANCE_DEPTH _ _ _ _ _ Pb vR f2
               VarianceRight H2 eq_refl ltac:(lia) Hl2); reflexivity. }
  reflexivity.
Qed.

Lemma ComputeVariance_idempotent_witness :
  ComputeVariance 3 4 4 peak_tile = Done (tt, peak_tile_done)
  /\ ComputeVariance 3 4 4 peak_tile_done = Done (tt, peak_tile_done)
  /\ varianceLeft peak_tile_done <> varianceLeft peak_tile.
Proof.
  assert (H : ComputeVariance 3 4 4 peak_tile = Done (tt, peak_tile_done))
    by (vm_compute; reflexivity).
  split; [exact H|]. split; [exact (ComputeVariance_idempotent 3 4 4 _ _ H)|].
  vm_compute. discriminate.
Defined.

(** ** Ancestors in a variance field *)

Lemma RecursVisits_head fuel PS nverts left rght apex node nodes :
  RecursVisits fuel PS nverts left rght apex node = Some nodes ->
  exists rest, nodes = node :: rest.
Proof.
  destruct fuel as [|fuel]; [discriminate|]. intros H.
  apply RecursVisits_inv in H as (_ & H).
  destruct (subdivides left rght).
  - destruct H as (l1 & l2 & _ & _ & ->). eauto.
  - subst. eauto.
Qed.

(** every node visited below the root of a pass has been reached through
    its parent, together with its sibling *)
Lemma RecursVisits_parent fuel PS nverts :
  forall left rght apex node nodes,
    RecursVisits fuel PS nverts left rght apex node = Some nodes ->
    forall n, In n nodes ->
      n = node
      \/ (In (n / 2) nodes /\ In (2 * (n / 2)) nodes /\ In (2 * (n / 2) + 1) nodes).
Proof.
  induction fuel as [|fuel IH]; intros left rght apex node nodes H n Hn; [discriminate|].
  apply RecursVisits_inv in H as (_ & H).
  destruct (subdivides left rght).
  - destruct H as (l1 & l2 & H1 & H2 & ->).
    destruct Hn as [<-|Hn]; [left; reflexivity|]. right.
    destruct (RecursVisits_head _ _ _ _ _ _ _ _ H1) as (r1 & E1).
    destruct (RecursVisits_head _ _ _ _ _ _ _ _ H2) as (r2 & E2).
    assert (Hfirst : In (2 * node) (node :: l1 ++ l2))
      by (right; apply in_or_app; left; rewrite E1; left; reflexivity).
    assert (Hsecond : In (2 * node + 1) (node :: l1 ++ l2))
      by (right; apply in_or_app; right; rewrite E2; left; reflexivity).
    apply in_app_or in Hn as [Hn|Hn].
    + destruct (IH _ _ _ _ _ H1 n Hn) as [->|(Ha & Hb & Hc)].
      * rewrite half_even. split; [left; reflexivity|]. split; assumption.
      * split; [|split]; right; apply in_or_app; left; assumption.
    + destruct (IH _ _ _ _ _ H2 n Hn) as [->|(Ha & Hb & Hc)].
      * rewrite half_odd. split; [left; reflexivity|]. split; assumption.
      * split; [|split]; right; apply in_or_app; right; assumption.
  - subst nodes. destruct Hn as [<-|[]]. left. reflexivity.
Qed.

Lemma even_bound (n VD : Z) : 1 <= n < 2 ^ VD -> 2 * (n / 2) + 1 < 2 ^ VD.
Proof.
  intros [Hn Hlt].
  destruct (Z.le_gt_cases VD 0) as [Hle|Hgt].
  { assert (2 ^ VD <= 1).
    { destruct (Z.eq_dec VD 0) as [->|]; [simpl; lia|].
      rewrite Z.pow_neg_r by lia. lia. }
    lia. }
  replace VD with (Z.succ (VD - 1)) in * by lia.
  rewrite Z.pow_succ_r in * by lia.
  pose proof (Z.div_mod n 2 ltac:(lia)). pose proof (Z.mod_pos_bound n 2 ltac:(lia)). lia.
Qed.

(** in a field in which every visited parent bounds its two children,
    every visited node bounds all visited nodes beneath it *)
Lemma ancestors_above (f : list float) (VD : Z) (nodes : list Z) fuel PS nverts
    left rght apex :
  RecursVisits fuel PS nverts left rght apex 1 = Some nodes ->
  (forall n, In n nodes -> n < 2 ^ VD -> exists x, entry f n = Some x /\ at_least_milli x) ->
  (forall n, In n nodes -> In (2 * n) nodes -> In (2 * n + 1) nodes ->
     2 * n + 1 < 2 ^ VD -> parent_above_children f n) ->
  forall (k : nat) a n,
    In a nodes -> In n nodes -> n < 2 ^ VD -> Z.shiftr n (Z.of_nat k) = a ->
    exists x y, entry f a = Some x /\ entry f n = Some y /\ leb y x = true.
Proof.
  intros Hvis Hpos Hmono.
  pose proof (RecursVisits_desc _ _ _ _ _ _ _ _ Hvis) as Hdesc.
  assert (Hge : forall n, In n nodes -> 1 <= n).
  { intros n Hn. apply (desc_ge 1 n ltac:(lia)).
    exact (proj1 (List.Forall_forall _ _) Hdesc n Hn). }
  induction k as [|k IH]; intros a n Ha Hn Hlt Hshift.
  - simpl in Hshift. rewrite Z.shiftr_0_r in Hshift. subst a.
    destruct (Hpos n Hn Hlt) as (x & Hx & Hm).
    exists x, x. split; [exact Hx|]. split; [exact Hx|].
    apply leb_refl, at_least_milli_not_nan, Hm.
  - pose proof (Hge n Hn) as Hn1. pose proof (Hge a Ha) as Ha1.
    assert (Hhalf : Z.shiftr (n / 2) (Z.of_nat k) = a).
    { rewrite <- Hshift. replace (Z.of_nat (S k)) with (1 + Z.of_nat k) by lia.
      rewrite <- (Z.shiftr_shiftr n 1 (Z.of_nat k)) by lia.
      rewrite (Z.shiftr_div_pow2 n 1) by lia. reflexivity. }
    destruct (RecursVisits_parent _ _ _ _ _ _ _ _ Hvis n Hn) as [->|(Hp & Hc1 & Hc2)].
    { exfalso. change (1 / 2) with 0 in Hhalf. rewrite Z.shiftr_0_l in Hhalf. lia. }
    pose proof (even_bound n VD ltac:(lia)) as Hb.
    assert (Hplt : n / 2 < 2 ^ VD).
    { pose proof (Z.div_mod n 2 ltac:(lia)). pose proof (Z.mod_pos_bound n 2 ltac:(lia)). lia. }
    destruct (IH a (n / 2) Ha Hp Hplt Hhalf) as (x & y & Hx & Hy & Hxy).
    destruct (Hmono (n / 2) Hp Hc1 Hc2 Hb) as (p & c1 & c2 & Ep & E1 & E2 & L1 & L2).
    assert (p = y) as -> by congruence.
    pose proof (Z.div_mod n 2 ltac:(lia)) as Hdm.
    pose proof (Z.mod_pos_bound n 2 ltac:(lia)) as Hmod.
    destruct (Z.eq_dec (n mod 2) 0) as [Hev|Hodd].
    + replace (2 * (n / 2)) with n in E1 by lia.
      exists x, c1. split; [exact Hx|]. split; [exact E1|].
      exact (leb_trans _ _ _ L1 Hxy).
    + replace (2 * (n / 2) + 1) with n in E2 by lia.
      exists x, c2. split; [exact Hx|]. split; [exact E2|].
      exact (leb_trans _ _ _ L2 Hxy).
Qed.

(** X7: After [ComputeVariance] on a tile with finite heights, the value
    stored for a node is at least the value stored for any node beneath
    it in the implicit tree, however deep (among the nodes that the pass
    visits and stores): the root entry, index 1, is the greatest of its
    field, and one comparison with a node's value bounds the error of the
    whole subtree. *)
Theorem ComputeVariance_ancestors (fuel : nat) (PATCH_SIZE VARIANCE_DEPTH : Z)
    (P : Patch) (nodesL nodesR : list Z)
    (Hsized : arrays_sized PATCH_SIZE VARIANCE_DEPTH P)
    (HvL : left_visits fuel PATCH_SIZE (Z.of_nat (length (vertices P))) = Some nodesL)
    (HvR : right_visits fuel PATCH_SIZE (Z.of_nat (length (vertices P))) = Some nodesR)
    (Hfinite : heights_finite P) :
  exists P',
    ComputeVariance fuel PATCH_SIZE VARIANCE_DEPTH P = Done (tt, P')
    /\ (forall a n, In a nodesL -> In n nodesL -> desc a n -> n < 2 ^ VARIANCE_DEPTH ->
          exists above below,
            entry (varianceLeft P') a = Some above
            /\ entry (varianceLeft P') n = Some below
            /\ leb below above = true)
    /\ (forall a n, In a nodesR -> In n nodesR -> desc a n -> n < 2 ^ VARIANCE_DEPTH ->
          exists above below,
            entry (varianceRight P') a = Some above
            /\ entry (varianceRight P') n = Some below
            /\ leb below above = true).
Proof.
  destruct (ComputeVariance_fields fuel PATCH_SIZE VARIANCE_DEPTH P nodesL nodesR
              Hsized HvL HvR) as (P' & Hrun & HposL & HposR & _ & Hmono).
  destruct (Hmono Hfinite) as [HmL HmR].
  exists P'. split; [exact Hrun|]. split.
  - intros a n Ha Hn (k & Hk & Hshift) Hlt.
    apply (ancestors_above _ VARIANCE_DEPTH nodesL _ _ _ _ _ _ HvL HposL HmL (Z.to_nat k));
      try assumption.
    rewrite Z2Nat.id by lia. exact Hshift.
  - intros a n Ha Hn (k & Hk & Hshift) Hlt.
    apply (ancestors_above _ VARIANCE_DEPTH nodesR _ _ _ _ _ _ HvR HposR HmR (Z.to_nat k));
      try assumption.
    rewrite Z2Nat.id by lia. exact Hshift.
Qed.

Lemma ComputeVariance_ancestors_witness :
  (entry (varianceLeft peak_tile_done) 1 = Some ten
   /\ entry (varianceLeft peak_tile_done) 4 = Some (S754_finite false 10485760 (-21))
   /\ desc 1 4)
  /\ exists P',
    ComputeVariance 3 4 4 peak_tile = Done (tt, P')
    /\ (forall a n, In a [1; 2; 4; 5; 3; 6; 7] -> In n [1; 2; 4; 5; 3; 6; 7] ->
          desc a n -> n < 2 ^ 4 ->
          exists above below,
            entry (varianceLeft P') a = Some above
            /\ entry (varianceLeft P') n = Some below
            /\ leb below above = true)
    /\ (forall a n, In a [1; 2; 4; 5; 3; 6; 7] -> In n [1; 2; 4; 5; 3; 6; 7] ->
          desc a n -> n < 2 ^ 4 ->
          exists above below,
            entry (varianceRight P') a = Some above
            /\ entry (varianceRight P') n = Some below
            /\ leb below above = true).
Proof.
  split.
  { split; [vm_compute; reflexivity|]. split; [vm_compute; reflexivity|].
    exists 2. split; [lia | reflexivity]. }
  exact (ComputeVariance_ancestors 3 4 4 peak_tile [1; 2; 4; 5; 3; 6; 7] [1; 2; 4; 5; 3; 6; 7]
           peak_tile_sized eq_refl eq_refl peak_tile_finite).
Defined.

(** ** Heights of a tile *)

(** a loop that keeps an invariant ends in it *)
Lemma for_steps_invariant {T A : Type} (Inv : Z -> A -> T -> Prop)
    (body : Z -> A -> St T A) :
  forall (n : nat) (i : Z) (a : A) (s : T),
    Inv i a s ->
    (forall j a s, i <= j < i + Z.of_nat n -> Inv j a s ->
       exists a' s', body j a s = Done (a', s') /\ Inv (j + 1) a' s') ->
    exists a' s', for_steps n i body a s = Done (a', s') /\ Inv (i + Z.of_nat n) a' s'.
Proof.
  induction n as [|n IH]; intros i a s Hinv Hstep.
  - exists a, s. split; [reflexivity|]. replace (i + Z.of_nat 0) with i by lia. exact Hinv.
  - destruct (Hstep i a s ltac:(lia) Hinv) as (a1 & s1 & Hb & Hinv1).
    destruct (IH (i + 1) a1 s1 Hinv1) as (a2 & s2 & Hrest & Hinv2).
    { intros j a' s' Hj. apply Hstep. lia. }
    exists a2, s2. split.
    + cbn [for_steps]. rewrite (bind_Done _ _ s a1 s1) by exact Hb. exact Hrest.
    + replace (i + Z.of_nat (S n)) with (i + 1 + Z.of_nat n) by lia. exact Hinv2.
Qed.

Lemma for_range_invariant {T A : Type} (Inv : Z -> A -> T -> Prop)
    (body : Z -> A -> St T A) (lo hi : Z) (a : A) (s : T) :
  Inv lo a s ->
  (forall j a s, lo <= j <= hi -> Inv j a s ->
     exists a' s', body j a s = Done (a', s') /\ Inv (j + 1) a' s') ->
  exists a' s', for_range lo hi body a s = Done (a', s')
                /\ Inv (Z.max lo (hi + 1)) a' s'.
Proof.
  intros Hinv Hstep. unfold for_range.
  destruct (for_steps_invariant Inv body (Z.to_nat (hi + 1 - lo)) lo a s Hinv)
    as (a' & s' & Hrun & Hend).
  { intros j a0 s0 Hj. apply Hstep. lia. }
  exists a', s'. split; [exact Hrun|].
  replace (Z.max lo (hi + 1)) with (lo + Z.of_nat (Z.to_nat (hi + 1 - lo))) by lia.
  exact Hend.
Qed.

(** the sample of the height map that belongs to the vertex [(x, z)] of a
    tile at [c] *)
Definition map_index (c : int2) (mapxp1 x z : Z) : Z :=
  (z + int2.y c) * mapxp1 + (x + int2.x c).

Definition in_rect (r : SRectangle) (x z : Z) : Prop :=
  x1 r <= x <= x2 r /\ z1 r <= z <= z2 r.

(** the vertices of [r] that the loops of [UpdateHeightMap] have passed
    when they are about to visit [(x, z)] *)
Definition passed (r : SRectangle) (z x : Z) (x' z' : Z) : Prop :=
  in_rect r x' z' /\ (z' < z \/ (z' = z /\ x' < x)).

(** [vs'] is [vs] with the heights of the vertices in [W] taken from the
    height map *)
Definition heights_set (PS : Z) (W : Z -> Z -> Prop) (hMap : list float)
    (mapxp1 : Z) (c : int2) (vs vs' : list float) : Prop :=
  length vs' = length vs
  /\ (forall x z, W x z ->
        exists h, array_get hMap (map_index c mapxp1 x z) = Done h
                  /\ array_get vs' (height_index PS (int2.mk x z)) = Done h)
  /\ (forall k, (forall x z, W x z -> k <> height_index PS (int2.mk x z)) ->
        entry vs' k = entry vs k).

Lemma heights_set_ext PS (W W' : Z -> Z -> Prop) hMap mapxp1 c vs vs' :
  (forall x z, W x z <-> W' x z) ->
  heights_set PS W hMap mapxp1 c vs vs' -> heights_set PS W' hMap mapxp1 c vs vs'.
Proof.
  intros Hext (Hlen & Hin & Hout). split; [exact Hlen|]. split.
  - intros x z Hw. apply Hin, Hext, Hw.
  - intros k Hk. apply Hout. intros x z Hw. apply Hk, Hext, Hw.
Qed.

Lemma height_index_inj PS x z x' z' :
  0 <= x <= PS -> 0 <= x' <= PS ->
  height_index PS (int2.mk x z) = height_index PS (int2.mk x' z') -> x = x' /\ z = z'.
Proof.
  unfold height_index. cbn [int2.x int2.y]. intros Hx Hx' H.
  assert (E : z * (PS + 1) + x = z' * (PS + 1) + x') by lia.
  assert (z = z') by nia. subst z'. split; [lia | reflexivity].
Qed.

Lemma height_index_bounds PS x z :
  0 <= x <= PS -> 0 <= z <= PS ->
  0 <= height_index PS (int2.mk x z) < 3 * (PS + 1) * (PS + 1).
Proof. unfold height_index. cbn [int2.x int2.y]. intros Hx Hz. nia. Qed.

Lemma array_get_entry {A : Type} (f : list A) (i : Z) (a : A) :
  array_get f i = Done a <-> (0 <= i /\ f !! Z.to_nat i = Some a).
Proof.
  unfold array_get. destruct (i <? 0) eqn:E.
  - apply Z.ltb_lt in E. split; [discriminate | lia].
  - apply Z.ltb_ge in E. destruct (f !! Z.to_nat i) as [b|].
    + split; [intros [= ->]; auto | intros [_ [= ->]]; reflexivity].
    + split; [discriminate | intros [_ ?]; discriminate].
Qed.

Lemma array_get_in_range {A : Type} (f : list A) (i : Z) :
  0 <= i < Z.of_nat (length f) -> exists a, array_get f i = Done a.
Proof.
  intros Hi. destruct (lookup_lt_is_Some_2 f (Z.to_nat i) ltac:(lia)) as [a Ha].
  exists a. apply array_get_entry. split; [lia | exact Ha].
Qed.

(** one step of the inner loop *)
Lemma UpdateHeightMap_step PS hMap mapxp1 r (P : Patch) vs' x z :
  0 <= PS ->
  0 <= x1 r -> x2 r <= PS ->
  3 * (PS + 1) * (PS + 1) <= Z.of_nat (length (vertices P)) ->
  (forall x z, in_rect r x z ->
     0 <= map_index (coors P) mapxp1 x z < Z.of_nat (length hMap)) ->
  in_rect r x z -> 0 <= z <= PS ->
  heights_set PS (passed r z x) hMap mapxp1 (coors P) (vertices P) vs' ->
  exists vs'',
    (let vindex := (z * (PS + 1) + x) * 3 in
     do Q <- get;
     let xw := x + int2.x (coors Q) in
     let zw := z + int2.y (coors Q) in
     do h <- lift (array_get hMap (zw * mapxp1 + xw));
     do vs <- lift (array_set (vertices Q) (vindex + 1) h);
     put (with_vertices vs Q)) (with_vertices vs' P)
    = Done (tt, with_vertices vs'' P)
    /\ heights_set PS (passed r z (x + 1)) hMap mapxp1 (coors P) (vertices P) vs''.
Proof.
  intros HPS Hx1 Hx2 Hlen Hmap Hin Hz (Hl & Hset & Hrest).
  destruct (array_get_in_range hMap _ (Hmap x z Hin)) as (h & Hh).
  pose proof (height_index_bounds PS x z ltac:(unfold in_rect in Hin; lia) Hz) as Hb.
  exists (<[Z.to_nat (height_index PS (int2.mk x z)) := h]> vs').
  split.
  - cbv zeta. unfold bind at 1. unfold get.
    change (coors (with_vertices vs' P)) with (coors P).
    change ((z + int2.y (coors P)) * mapxp1 + (x + int2.x (coors P)))
      with (map_index (coors P) mapxp1 x z).
    unfold bind at 1. unfold lift at 1. rewrite Hh.
    change ((z * (PS + 1) + x) * 3 + 1) with (height_index PS (int2.mk x z)).
    change (vertices (with_vertices vs' P)) with vs'.
    unfold bind, lift, array_set.
    destruct (height_index PS (int2.mk x z) <? 0) eqn:E; [apply Z.ltb_lt in E; lia|].
    assert (Hlt : (Z.to_nat (height_index PS (int2.mk x z)) <? length vs')%nat = true)
      by (apply Nat.ltb_lt; lia).
    rewrite Hlt. destruct P; reflexivity.
  - split; [rewrite length_insert; exact Hl|]. split.
    + intros x' z' (Hr & Hord).
      destruct (Z.eq_dec z' z) as [->|Hnz].
      * destruct (Z.eq_dec x' x) as [->|Hnx].
        -- exists h. split; [exact Hh|]. apply array_get_entry. split; [lia|].
           apply list_lookup_insert_eq. lia.
        -- destruct (Hset x' z) as (h' & Hh' & Hv').
           { split; [exact Hr|]. right. split; [reflexivity | lia]. }
           exists h'. split; [exact Hh'|].
           apply array_get_entry in Hv' as [Hge Hv']. apply array_get_entry.
           split; [exact Hge|]. rewrite list_lookup_insert_ne; [exact Hv'|].
           intros E. apply Z2Nat.inj in E; [|lia|lia].
           apply height_index_inj in E as [E _];
             [congruence | unfold in_rect in Hin; lia | unfold in_rect in Hr; lia].
      * destruct (Hset x' z') as (h' & Hh' & Hv').
        { split; [exact Hr|]. left. lia. }
        exists h'. split; [exact Hh'|].
        apply array_get_entry in Hv' as [Hge Hv']. apply array_get_entry.
        split; [exact Hge|]. rewrite list_lookup_insert_ne; [exact Hv'|].
        intros E. apply Z2Nat.inj in E; [|lia|lia].
        apply height_index_inj in E as [_ E];
          [congruence | unfold in_rect in Hin; lia | unfold in_rect in Hr; lia].
    + intros k Hk.
      assert (Hne : k <> height_index PS (int2.mk x z)).
      { apply Hk. split; [exact Hin|]. right. split; [reflexivity | lia]. }
      rewrite <- Hrest.
      * unfold entry. destruct (k <? 0) eqn:E; [reflexivity|]. apply Z.ltb_ge in E.
        apply list_lookup_insert_ne. intros E'. apply Hne. apply Z2Nat.inj in E'; lia.
      * intros x' z' (Hr & Hord). apply Hk. split; [exact Hr|].
        destruct Hord as [Hord|[-> Hord]]; [left; exact Hord | right; split; [reflexivity | lia]].
Qed.

Lemma UpdateHeightMap_loops PS hMap mapxp1 r (P : Patch) :
  0 <= PS ->
  0 <= x1 r -> x2 r <= PS -> 0 <= z1 r -> z2 r <= PS ->
  3 * (PS + 1) * (PS + 1) <= Z.of_nat (length (vertices P)) ->
  (forall x z, in_rect r x z ->
     0 <= map_index (coors P) mapxp1 x z < Z.of_nat (length hMap)) ->
  exists vs',
    UpdateHeightMap PS hMap mapxp1 r P
    = Done (tt, with_isDirty true (with_vertices vs' P))
    /\ heights_set PS (in_rect r) hMap mapxp1 (coors P) (vertices P) vs'.
Proof.
  intros HPS Hx1 Hx2 Hz1 Hz2 Hlen Hmap.
  set (Inv := fun (z : Z) (_ : unit) (Q : Patch) =>
         exists vs', Q = with_vertices vs' P
           /\ heights_set PS (passed r z (x1 r)) hMap mapxp1 (coors P) (vertices P) vs').
  destruct (for_range_invariant Inv
              (fun z _ =>
                 for_range (x1 r) (x2 r) (fun x _ =>
                   let vindex := (z * (PS + 1) + x) * 3 in
                   do P <- get;
                   let xw := x + int2.x (coors P) in
                   let zw := z + int2.y (coors P) in
                   do h <- lift (array_get hMap (zw * mapxp1 + xw));
                   do vs <- lift (array_set (vertices P) (vindex + 1) h);
                   put (with_vertices vs P)) tt)
              (z1 r) (z2 r) tt P) as ([] & Q & Hrun & (vs' & -> & Hset)).
  - exists (vertices P). split; [destruct P; reflexivity|].
    split; [reflexivity|]. split.
    + intros x z ((Hxx & Hzz) & Hord). exfalso. lia.
    + intros k _. reflexivity.
  - intros z [] Q Hz (vs0 & -> & Hset0).
    set (Inv2 := fun (x : Z) (_ : unit) (Q : Patch) =>
           exists vs', Q = with_vertices vs' P
             /\ heights_set PS (passed r z x) hMap mapxp1 (coors P) (vertices P) vs').
    destruct (for_range_invariant Inv2
                (fun x _ =>
                   let vindex := (z * (PS + 1) + x) * 3 in
                   do P <- get;
                   let xw := x + int2.x (coors P) in
                   let zw := z + int2.y (coors P) in
                   do h <- lift (array_get hMap (zw * mapxp1 + xw));
                   do vs <- lift (array_set (vertices P) (vindex + 1) h);
                   put (with_vertices vs P))
                (x1 r) (x2 r) tt (with_vertices vs0 P))
      as ([] & Q2 & Hrun2 & (vs2 & -> & Hset2)).
    + exists vs0. split; [reflexivity | exact Hset0].
    + intros x [] Q2 Hx (vs1 & -> & Hset1).
      destruct (UpdateHeightMap_step PS hMap mapxp1 r P vs1 x z HPS Hx1 Hx2 Hlen Hmap
                  ltac:(split; lia) ltac:(lia) Hset1) as (vs2 & Hstep & Hset2).
      exists tt, (with_vertices vs2 P). split; [exact Hstep|].
      exists vs2. split; [reflexivity | exact Hset2].
    + exists tt, (with_vertices vs2 P). split; [exact Hrun2|].
      exists vs2. split; [reflexivity|].
      revert Hset2. apply heights_set_ext. intros x' z'. unfold passed, in_rect. lia.
  - exists vs'. split.
    + unfold UpdateHeightMap.
      rewrite (bind_Done _ _ P tt (with_vertices vs' P)) by exact Hrun. reflexivity.
    + revert Hset. apply heights_set_ext. intros x' z'. unfold passed, in_rect. lia.
Qed.

(** X8: [UpdateHeightMap] and [GetHeight] agree: for a rectangle inside the
    tile and a height map that covers it, the update completes, and
    afterwards [GetHeight] returns, for every vertex of the rectangle, the
    sample of the height map at the vertex's place on the map (the
    assertion that is commented out in [GetHeight]).  Every other float of
    the vertex array, the x and z coordinates among them, is left as it
    was, and the tile is marked dirty. *)
Theorem UpdateHeightMap_GetHeight (PATCH_SIZE : Z) (hMap : list float) (mapxp1 : Z)
    (rect : SRectangle) (P : Patch)
    (HPS : 0 <= PATCH_SIZE)
    (Hx : 0 <= x1 rect /\ x2 rect <= PATCH_SIZE)
    (Hz : 0 <= z1 rect /\ z2 rect <= PATCH_SIZE)
    (Hlen : 3 * (PATCH_SIZE + 1) * (PATCH_SIZE + 1) <= Z.of_nat (length (vertices P)))
    (Hmap : forall x z, in_rect rect x z ->
              0 <= map_index (coors P) mapxp1 x z < Z.of_nat (length hMap)) :
  exists vs',
    let P' := with_isDirty true (with_vertices vs' P) in
    UpdateHeightMap PATCH_SIZE hMap mapxp1 rect P = Done (tt, P')
    /\ length vs' = length (vertices P)
    /\ (forall x z, in_rect rect x z ->
          exists h, array_get hMap (map_index (coors P) mapxp1 x z) = Done h
                    /\ GetHeight PATCH_SIZE (int2.mk x z) P' = Done (h, P'))
    /\ (forall k, (forall x z, in_rect rect x z ->
                     k <> height_index PATCH_SIZE (int2.mk x z)) ->
          entry vs' k = entry (vertices P) k).
Proof.
  destruct (UpdateHeightMap_loops PATCH_SIZE hMap mapxp1 rect P HPS
              (proj1 Hx) (proj2 Hx) (proj1 Hz) (proj2 Hz) Hlen Hmap)
    as (vs' & Hrun & Hl & Hin & Hout).
  exists vs'. cbv zeta. split; [exact Hrun|]. split; [exact Hl|]. split; [|exact Hout].
  intros x z Hr. destruct (Hin x z Hr) as (h & Hh & Hv).
  exists h. split; [exact Hh|]. apply GetHeight_Done. exact Hv.
Qed.

Definition probe_map : list float := replicate 25 ten.

Lemma UpdateHeightMap_GetHeight_witness :
  exists vs',
    let P' := with_isDirty true (with_vertices vs' flat_tile) in
    UpdateHeightMap 4 probe_map 5 (mkSRectangle 1 1 2 2) flat_tile = Done (tt, P')
    /\ length vs' = length (vertices flat_tile)
    /\ (forall x z, in_rect (mkSRectangle 1 1 2 2) x z ->
          exists h, array_get probe_map (map_index (coors flat_tile) 5 x z) = Done h
                    /\ GetHeight 4 (int2.mk x z) P' = Done (h, P'))
    /\ (forall k, (forall x z, in_rect (mkSRectangle 1 1 2 2) x z ->
                     k <> height_index 4 (int2.mk x z)) ->
          entry vs' k = entry (vertices flat_tile) k).
Proof.
  apply (UpdateHeightMap_GetHeight 4 probe_map 5 (mkSRectangle 1 1 2 2) flat_tile).
  - lia.
  - simpl. lia.
  - simpl. lia.
  - simpl. lia.
  - intros x z [Hx Hz]. simpl in Hx, Hz. unfold map_index. simpl. lia.
Defined.

(** ** Setting up a tile *)

Lemma array_get_insert_eq {A : Type} (f : list A) (i : Z) (v : A) :
  0 <= i < Z.of_nat (length f) -> array_get (<[Z.to_nat i := v]> f) i = Done v.
Proof.
  intros Hi. apply array_get_entry. split; [lia|]. apply list_lookup_insert_eq. lia.
Qed.

Lemma array_get_insert_ne {A : Type} (f : list A) (i k : Z) (v : A) :
  0 <= i -> i <> k -> array_get (<[Z.to_nat i := v]> f) k = array_get f k.
Proof.
  intros Hi Hne. unfold array_get. destruct (k <? 0) eqn:E; [reflexivity|].
  apply Z.ltb_ge in E. rewrite list_lookup_insert_ne by lia. reflexivity.
Qed.

Lemma vertices_store_Done (index : Z) (v : float) (Q : Patch) :
  0 <= index < Z.of_nat (length (vertices Q)) -> index + 1 < 2 ^ 32 ->
  vertices_store index v Q
  = Done (index + 1, with_vertices (<[Z.to_nat index := v]> (vertices Q)) Q).
Proof.
  intros Hi Hw. unfold vertices_store, bind, get, lift, put, ret, array_set.
  destruct (index <? 0) eqn:E; [apply Z.ltb_lt in E; lia|].
  assert (Hlt : (Z.to_nat index <? length (vertices Q))%nat = true)
    by (apply Nat.ltb_lt; lia).
  rewrite Hlt. unfold unsigned_wrap. rewrite Z.mod_small by lia. reflexivity.
Qed.

(** the first [n] vertices of the array, in row-major order, have the
    positions that [Init] gives them: the grid position of the vertex
    scaled by the square size, at height zero *)
Definition grid_filled (PS SQ : Z) (c : int2) (n : Z) (vs : list float) : Prop :=
  forall x z, 0 <= x <= PS -> 0 <= z -> z * (PS + 1) + x < n ->
    array_get vs (3 * (z * (PS + 1) + x)) = Done (of_int ((int2.x c + x) * SQ))
    /\ array_get vs (3 * (z * (PS + 1) + x) + 1) = Done zero
    /\ array_get vs (3 * (z * (PS + 1) + x) + 2) = Done (of_int ((int2.y c + z) * SQ)).

Lemma row_major_inj PS x z x' z' :
  0 <= x <= PS -> 0 <= x' <= PS ->
  z * (PS + 1) + x = z' * (PS + 1) + x' -> x = x' /\ z = z'.
Proof.
  intros Hx Hx' E. assert (z = z') by nia. subst z'. split; [lia | reflexivity].
Qed.

Lemma Init_step PS SQ c (P0 : Patch) vs' x z :
  0 <= PS -> 0 <= x <= PS -> 0 <= z <= PS ->
  3 * (PS + 1) * (PS + 1) <= Z.of_nat (length vs') ->
  3 * (PS + 1) * (PS + 1) < 2 ^ 32 ->
  grid_filled PS SQ c (z * (PS + 1) + x) vs' ->
  exists vs'',
    (do index <- vertices_store (3 * (z * (PS + 1) + x)) (of_int ((int2.x c + x) * SQ));
     do index <- vertices_store index zero;
     vertices_store index (of_int ((int2.y c + z) * SQ))) (with_vertices vs' P0)
    = Done (3 * (z * (PS + 1) + x + 1), with_vertices vs'' P0)
    /\ length vs'' = length vs'
    /\ grid_filled PS SQ c (z * (PS + 1) + x + 1) vs''.
Proof.
  intros HPS Hx Hz Hlen Hw Hfill.
  assert (Hn : 0 <= z * (PS + 1) + x < (PS + 1) * (PS + 1)) by nia.
  remember (z * (PS + 1) + x) as n eqn:En.
  set (a := of_int ((int2.x c + x) * SQ)). set (b := of_int ((int2.y c + z) * SQ)).
  exists (<[Z.to_nat (3 * n + 2) := b]>
            (<[Z.to_nat (3 * n + 1) := zero]> (<[Z.to_nat (3 * n) := a]> vs'))).
  split; [|split].
  - rewrite (bind_Done _ _ _ (3 * n + 1)
               (with_vertices (<[Z.to_nat (3 * n) := a]> vs') P0)).
    2:{ rewrite vertices_store_Done by (cbn [vertices with_vertices]; lia).
        reflexivity. }
    rewrite (bind_Done _ _ _ (3 * n + 1 + 1)
               (with_vertices (<[Z.to_nat (3 * n + 1) := zero]>
                                 (<[Z.to_nat (3 * n) := a]> vs')) P0)).
    2:{ rewrite vertices_store_Done
          by (cbn [vertices with_vertices]; rewrite ?length_insert; lia).
        reflexivity. }
    rewrite vertices_store_Done
      by (cbn [vertices with_vertices]; rewrite ?length_insert; lia).
    cbn [vertices with_vertices].
    replace (3 * n + 1 + 1 + 1) with (3 * (n + 1)) by lia.
    replace (3 * n + 1 + 1) with (3 * n + 2) by lia. reflexivity.
  - rewrite !length_insert. reflexivity.
  - intros x' z' Hx' Hz' Hlt.
    remember (z' * (PS + 1) + x') as n' eqn:En'.
    destruct (Z.eq_dec n' n) as [E|Hne].
    + assert (x' = x /\ z' = z) as [-> ->]
        by (apply (row_major_inj PS); [lia | lia | congruence]).
      clear En'. subst n'. split; [|split].
      * rewrite !array_get_insert_ne by lia. apply array_get_insert_eq. lia.
      * rewrite array_get_insert_ne by lia. apply array_get_insert_eq.
        rewrite length_insert. lia.
      * apply array_get_insert_eq. rewrite !length_insert. lia.
    + assert (Hn' : 0 <= n') by nia.
      destruct (Hfill x' z' Hx' Hz' ltac:(lia)) as (Ha & Hb & Hc).
      rewrite <- En' in Ha, Hb, Hc.
      rewrite !array_get_insert_ne by lia. auto.
Qed.

Lemma array_get_of_entry {A : Type} (f g : list A) (k : Z) :
  (if k <? 0 then None else f !! Z.to_nat k) = (if k <? 0 then None else g !! Z.to_nat k) ->
  array_get f k = array_get g k.
Proof. unfold array_get. destruct (k <? 0); [reflexivity|]. intros ->. reflexivity. Qed.

Lemma Init_loops PS SQ (P0 : Patch) :
  0 <= PS ->
  3 * (PS + 1) * (PS + 1) <= Z.of_nat (length (vertices P0)) ->
  3 * (PS + 1) * (PS + 1) < 2 ^ 32 ->
  exists index vs',
    for_range (int2.y (coors P0)) (int2.y (coors P0) + PS) (fun z index =>
      for_range (int2.x (coors P0)) (int2.x (coors P0) + PS) (fun x index =>
        do index <- vertices_store index (of_int (x * SQ));
        do index <- vertices_store index zero;
        vertices_store index (of_int (z * SQ))) index) 0 P0
    = Done (index, with_vertices vs' P0)
    /\ length vs' = length (vertices P0)
    /\ grid_filled PS SQ (coors P0) ((PS + 1) * (PS + 1)) vs'.
Proof.
  intros HPS Hlen Hw.
  set (cx := int2.x (coors P0)). set (cz := int2.y (coors P0)).
  set (Inv := fun (Z0 : Z) (index : Z) (Q : Patch) =>
         exists vs', Q = with_vertices vs' P0
           /\ length vs' = length (vertices P0)
           /\ index = 3 * ((Z0 - cz) * (PS + 1))
           /\ grid_filled PS SQ (coors P0) ((Z0 - cz) * (PS + 1)) vs').
  destruct (for_range_invariant Inv
              (fun z index =>
                 for_range cx (cx + PS) (fun x index =>
                   do index <- vertices_store index (of_int (x * SQ));
                   do index <- vertices_store index zero;
                   vertices_store index (of_int (z * SQ))) index)
              cz (cz + PS) 0 P0) as (index & Q & Hrun & (vs' & -> & Hl & _ & Hfill)).
  - exists (vertices P0). split; [destruct P0; reflexivity|]. split; [reflexivity|].
    split; [lia|]. intros x z Hx Hz Hlt. exfalso. nia.
  - intros Z0 index Q HZ (vs0 & -> & Hl0 & -> & Hfill0).
    set (Inv2 := fun (X0 : Z) (index : Z) (Q : Patch) =>
           exists vs', Q = with_vertices vs' P0
             /\ length vs' = length (vertices P0)
             /\ index = 3 * ((Z0 - cz) * (PS + 1) + (X0 - cx))
             /\ grid_filled PS SQ (coors P0) ((Z0 - cz) * (PS + 1) + (X0 - cx)) vs').
    destruct (for_range_invariant Inv2
                (fun x index =>
                   do index <- vertices_store index (of_int (x * SQ));
                   do index <- vertices_store index zero;
                   vertices_store index (of_int (Z0 * SQ)))
                cx (cx + PS) (3 * ((Z0 - cz) * (PS + 1))) (with_vertices vs0 P0))
      as (index2 & Q2 & Hrun2 & (vs2 & -> & Hl2 & -> & Hfill2)).
    + exists vs0. split; [reflexivity|]. split; [exact Hl0|].
      split; [lia|]. replace ((Z0 - cz) * (PS + 1) + (cx - cx)) with ((Z0 - cz) * (PS + 1)) by lia.
      exact Hfill0.
    + intros X0 index Q2 HX (vs1 & -> & Hl1 & -> & Hfill1).
      destruct (Init_step PS SQ (coors P0) P0 vs1 (X0 - cx) (Z0 - cz) HPS
                  ltac:(lia) ltac:(lia) ltac:(lia) Hw Hfill1)
        as (vs2 & Hstep & Hl2 & Hfill2).
      exists (3 * ((Z0 - cz) * (PS + 1) + (X0 - cx) + 1)), (with_vertices vs2 P0).
      split.
      * replace (X0 * SQ) with ((int2.x (coors P0) + (X0 - cx)) * SQ)
          by (subst cx; f_equal; lia).
        replace (Z0 * SQ) with ((int2.y (coors P0) + (Z0 - cz)) * SQ)
          by (subst cz; f_equal; lia).
        exact Hstep.
      * exists vs2. split; [reflexivity|]. split; [congruence|].
        split; [f_equal; lia|].
        replace ((Z0 - cz) * (PS + 1) + (X0 + 1 - cx))
          with ((Z0 - cz) * (PS + 1) + (X0 - cx) + 1) by lia.
        exact Hfill2.
    + exists (3 * ((Z0 - cz) * (PS + 1) + (Z.max cx (cx + PS + 1) - cx))),
        (with_vertices vs2 P0).
      split; [exact Hrun2|].
      exists vs2. split; [reflexivity|]. split; [exact Hl2|].
      replace (Z.max cx (cx + PS + 1) - cx) with (PS + 1) in * by lia.
      replace ((Z0 + 1 - cz) * (PS + 1)) with ((Z0 - cz) * (PS + 1) + (PS + 1)) by lia.
      split; [reflexivity | exact Hfill2].
  - exists index, vs'. split; [exact Hrun|]. split; [exact Hl|].
    replace (Z.max cz (cz + PS + 1) - cz) with (PS + 1) in Hfill by lia. exact Hfill.
Qed.

(** X9: [Init] lays the tile out as the rest of the code addresses it.  With
    the whole tile as the rectangle of the height update and a height map
    that covers the tile, [Init] completes; afterwards the tile knows its
    place, its two root triangles are each other's base neighbour, it is
    dirty, and the vertex of every grid point [(x, z)] of the tile, found
    at three times its row-major index (the index that [GenerateIndices]
    emits for the point), is the point's place on the map scaled by the
    square size, with the height that the map has there. *)
Theorem Init_layout (PATCH_SIZE SQUARE_SIZE : Z) (hMap : list float) (mapxp1 : Z)
    (self : nat) (patchX patchZ : Z) (P : Patch)
    (HPS : 0 <= PATCH_SIZE)
    (Hlen : 3 * (PATCH_SIZE + 1) * (PATCH_SIZE + 1) <= Z.of_nat (length (vertices P)))
    (Hindex : 3 * (PATCH_SIZE + 1) * (PATCH_SIZE + 1) < 2 ^ 32)
    (Hmap : forall x z, 0 <= x <= PATCH_SIZE -> 0 <= z <= PATCH_SIZE ->
              0 <= map_index (int2.mk patchX patchZ) mapxp1 x z
                < Z.of_nat (length hMap)) :
  exists P',
    Init PATCH_SIZE SQUARE_SIZE hMap mapxp1 (mkSRectangle 0 0 PATCH_SIZE PATCH_SIZE)
      self patchX patchZ P = Done (tt, P')
    /\ coors P' = int2.mk patchX patchZ
    /\ baseLeft P' = with_BaseNeighbor (Some (BaseRightOf self)) (baseLeft P)
    /\ baseRight P' = with_BaseNeighbor (Some (BaseLeftOf self)) (baseRight P)
    /\ isDirty P' = true
    /\ length (vertices P') = length (vertices P)
    /\ (forall x z, 0 <= x <= PATCH_SIZE -> 0 <= z <= PATCH_SIZE ->
          let i := vertex_index PATCH_SIZE (int2.mk x z) * 3 in
          exists h,
            array_get hMap (map_index (int2.mk patchX patchZ) mapxp1 x z) = Done h
            /\ array_get (vertices P') i = Done (of_int ((patchX + x) * SQUARE_SIZE))
            /\ array_get (vertices P') (i + 1) = Done h
            /\ array_get (vertices P') (i + 2) = Done (of_int ((patchZ + z) * SQUARE_SIZE))).
Proof.
  set (PS := PATCH_SIZE) in *.
  set (P0 := with_baseRight (with_BaseNeighbor (Some (BaseLeftOf self)) (baseRight P))
               (with_baseLeft (with_BaseNeighbor (Some (BaseRightOf self)) (baseLeft P))
                  (with_coors (int2.mk patchX patchZ) P))).
  destruct (Init_loops PS SQUARE_SIZE P0 HPS Hlen Hindex) as (index & vs1 & Hloop & Hl1 & Hfill).
  destruct (UpdateHeightMap_loops PS hMap mapxp1 (mkSRectangle 0 0 PS PS)
              (with_vertices vs1 P0) HPS) as (vs2 & Hupd & Hl2 & Hin & Hout).
  { simpl. lia. } { simpl. lia. } { simpl. lia. } { simpl. lia. }
  { cbn [vertices with_vertices]. rewrite Hl1. exact Hlen. }
  { intros x z [Hx Hz]. simpl in Hx, Hz. apply Hmap; assumption. }
  cbn [vertices with_vertices coors] in Hl2, Hin, Hout.
  exists (with_isDirty true (with_vertices vs2 P0)).
  split.
  { unfold Init.
    rewrite (bind_Done _ _ P tt (with_coors (int2.mk patchX (int2.y (coors P))) P))
      by reflexivity.
    rewrite (bind_Done _ _ _ tt (with_coors (int2.mk patchX patchZ) P)) by reflexivity.
    rewrite (bind_Done _ _ _ tt
               (with_baseLeft (with_BaseNeighbor (Some (BaseRightOf self)) (baseLeft P))
                  (with_coors (int2.mk patchX patchZ) P))) by reflexivity.
    rewrite (bind_Done _ _ _ tt P0) by reflexivity.
    rewrite (bind_Done _ _ P0 P0 P0) by reflexivity.
    rewrite (bind_Done _ _ P0 index (with_vertices vs1 P0)) by exact Hloop.
    exact Hupd. }
  split; [reflexivity|]. split; [reflexivity|]. split; [reflexivity|].
  split; [reflexivity|]. split; [cbn [vertices with_isDirty with_vertices]; rewrite Hl2, Hl1; reflexivity|].
  intros x z Hx Hz. cbv zeta. cbn [vertices with_isDirty with_vertices].
  unfold vertex_index. cbn [int2.x int2.y].
  destruct (Hin x z ltac:(split; simpl; lia)) as (h & Hh & Hv).
  destruct (Hfill x z Hx ltac:(lia) ltac:(nia)) as (Ha & _ & Hc).
  cbn [coors with_baseRight with_baseLeft with_coors P0 int2.x int2.y] in Ha, Hc.
  exists h. split; [exact Hh|].
  assert (Hkeep : forall k d, k = 3 * (z * (PS + 1) + x) + d -> d = 0 \/ d = 2 ->
            array_get vs2 k = array_get vs1 k).
  { intros k d -> Hd. apply array_get_of_entry. apply (Hout (3 * (z * (PS + 1) + x) + d)).
    intros x' z' _. unfold height_index. cbn [int2.x int2.y]. lia. }
  split; [|split].
  - rewrite (Hkeep _ 0) by lia. rewrite <- Ha. f_equal. lia.
  - rewrite <- Hv. f_equal. unfold height_index. cbn [int2.x int2.y]. lia.
  - rewrite (Hkeep _ 2) by lia. rewrite <- Hc. f_equal. lia.
Qed.

Lemma Init_layout_witness :
  exists P',
    Init 4 8 probe_map 5 (mkSRectangle 0 0 4 4) 0 0 0 flat_tile = Done (tt, P')
    /\ coors P' = int2.mk 0 0
    /\ baseLeft P' = with_BaseNeighbor (Some (BaseRightOf 0)) (baseLeft flat_tile)
    /\ baseRight P' = with_BaseNeighbor (Some (BaseLeftOf 0)) (baseRight flat_tile)
    /\ isDirty P' = true
    /\ length (vertices P') = length (vertices flat_tile)
    /\ (forall x z, 0 <= x <= 4 -> 0 <= z <= 4 ->
          let i := vertex_index 4 (int2.mk x z) * 3 in
          exists h,
            array_get probe_map (map_index (int2.mk 0 0) 5 x z) = Done h
            /\ array_get (vertices P') i = Done (of_int ((0 + x) * 8))
            /\ array_get (vertices P') (i + 1) = Done h
            /\ array_get (vertices P') (i + 2) = Done (of_int ((0 + z) * 8))).
Proof.
  apply (Init_layout 4 8 probe_map 5 0 0 0 flat_tile).
  - lia.
  - simpl. lia.
  - lia.
  - intros x z Hx Hz. unfold map_index. simpl. lia.
Defined.

(** ** The index list of an arbitrary mesh *)

(** the world with the index list of the patch [self] replaced *)
Definition set_indices (self : nat) (l : list Z) (w : World) : World :=
  match patches w !! self with
  | Some P => with_patches (<[self := with_indices l P]> (patches w)) w
  | None => w
  end.

Lemma set_indices_patch self l w P :
  patches w !! self = Some P ->
  patches (set_indices self l w) !! self = Some (with_indices l P).
Proof.
  intros HP. unfold set_indices. rewrite HP. rewrite patches_with_patches.
  eapply lookup_patch_updated. exact HP.
Qed.

Lemma set_indices_twice self l l' w :
  set_indices self l (set_indices self l' w) = set_indices self l w.
Proof.
  unfold set_indices at 1. destruct (patches w !! self) as [P|] eqn:HP.
  - rewrite (set_indices_patch self l' w P HP).
    unfold set_indices. rewrite HP. rewrite patches_with_patches, with_patches_twice.
    rewrite list_insert_insert_eq. reflexivity.
  - unfold set_indices. rewrite HP. rewrite HP. reflexivity.
Qed.

Lemma set_indices_same self w P :
  patches w !! self = Some P -> set_indices self (indices P) w = w.
Proof.
  intros HP. unfold set_indices. rewrite HP.
  replace (with_indices (indices P) P) with P by (destruct P; reflexivity).
  rewrite list_insert_id by exact HP. apply with_patches_id.
Qed.

Lemma lookup_node_set_indices self l w p :
  lookup_node (set_indices self l w) p = lookup_node w p.
Proof.
  unfold set_indices. destruct (patches w !! self) as [P|] eqn:HP; [|reflexivity].
  apply lookup_node_with_indices. exact HP.
Qed.

Lemma indices_push_back_set self i w P :
  patches w !! self = Some P ->
  indices_push_back self i w
  = Done (tt, set_indices self (indices P ++ [unsigned_wrap i]) w).
Proof.
  intros HP. rewrite (indices_push_back_Done self i w P HP).
  unfold set_indices. rewrite HP. reflexivity.
Qed.

Lemma patch_modify_set_indices self l w P :
  patches w !! self = Some P ->
  patch_modify self (with_indices l) w = Done (tt, set_indices self l w).
Proof.
  intros HP. rewrite (patch_modify_Done self _ w P HP).
  unfold set_indices. rewrite HP. reflexivity.
Qed.

(** a grid point of the tile *)
Definition in_tile (PS : Z) (p : int2) : Prop :=
  0 <= int2.x p <= PS /\ 0 <= int2.y p <= PS.

Lemma in_tile_center PS (a b : int2) :
  in_tile PS a -> in_tile PS b ->
  in_tile PS (int2.mk (Z.shiftr (int2.x a + int2.x b) 1) (Z.shiftr (int2.y a + int2.y b) 1)).
Proof.
  intros [Hax Hay] [Hbx Hby]. unfold in_tile. cbn [int2.x int2.y].
  rewrite !Z.shiftr_div_pow2 by lia. change (2 ^ 1) with 2.
  pose proof (Z.div_mod (int2.x a + int2.x b) 2 ltac:(lia)).
  pose proof (Z.mod_pos_bound (int2.x a + int2.x b) 2 ltac:(lia)).
  pose proof (Z.div_mod (int2.y a + int2.y b) 2 ltac:(lia)).
  pose proof (Z.mod_pos_bound (int2.y a + int2.y b) 2 ltac:(lia)).
  lia.
Qed.

Lemma vertex_index_in_range PS p :
  0 <= PS -> (PS + 1) * (PS + 1) <= 2 ^ 32 -> in_tile PS p ->
  0 <= unsigned_wrap (vertex_index PS p) < (PS + 1) * (PS + 1).
Proof.
  intros HPS Hw [Hx Hy]. unfold vertex_index, unsigned_wrap.
  assert (0 <= int2.x p + int2.y p * (PS + 1) < (PS + 1) * (PS + 1)) by nia.
  rewrite Z.mod_small by lia. lia.
Qed.

(** The walk over a tree appends a list of indices that depends on the
    tree and the corners alone, and changes nothing else. *)
Lemma RecursGenIndices_appends fuel PS self :
  forall tri left right apex w u w' P,
    RecursGenIndices fuel PS self tri left right apex w = Done (u, w') ->
    patches w !! self = Some P ->
    exists L,
      (forall l0,
         RecursGenIndices fuel PS self tri left right apex (set_indices self l0 w)
         = Done (tt, set_indices self (l0 ++ L) w))
      /\ (0 <= PS -> (PS + 1) * (PS + 1) <= 2 ^ 32 ->
          in_tile PS left -> in_tile PS right -> in_tile PS apex ->
          Forall (fun i => 0 <= i < (PS + 1) * (PS + 1)) L
          /\ exists k : nat, length L = (3 * k)%nat).
Proof.
  induction fuel as [|fuel IH]; intros tri left right apex w u w' P Hrun HP;
    [discriminate|].
  cbn [RecursGenIndices] in Hrun |- *.
  apply bind_inv in Hrun as (t & w0 & Hd & Hrun).
  destruct tri as [t0|]; [|discriminate]. injection Hd as -> <-.
  apply bind_inv in Hrun as (leaf & w0 & Hleaf & Hrun).
  apply tri_get_inv in Hleaf as (-> & n & Hn & ->).
  destruct (IsLeaf n) eqn:Hl.
  - exists [unsigned_wrap (vertex_index PS apex); unsigned_wrap (vertex_index PS left);
            unsigned_wrap (vertex_index PS right)].
    split.
    2:{ intros HPS Hw Hl0 Hr0 Ha0. split; [|exists 1%nat; reflexivity].
        repeat constructor; apply vertex_index_in_range; assumption. }
    intros l0.
    rewrite (bind_Done _ _ _ t (set_indices self l0 w)) by reflexivity.
    rewrite (bind_Done _ _ _ true (set_indices self l0 w))
      by (rewrite <- Hl; apply tri_get_Done; rewrite lookup_node_set_indices; exact Hn).
    cbv iota.
    pose proof (set_indices_patch self l0 w P HP) as HP0.
    rewrite (bind_Done _ _ _ tt _ (indices_push_back_set _ _ _ _ HP0)).
    rewrite set_indices_twice. cbn [indices with_indices].
    pose proof (set_indices_patch self (l0 ++ [unsigned_wrap (vertex_index PS apex)]) w P HP)
      as HP1.
    unfold vertex_index in *.
    rewrite (bind_Done _ _ _ tt _ (indices_push_back_set _ _ _ _ HP1)).
    rewrite set_indices_twice. cbn [indices with_indices].
    match goal with |- context [set_indices self ?l w] =>
      pose proof (set_indices_patch self l w P HP) as HP2 end.
    rewrite (indices_push_back_set _ _ _ _ HP2).
    rewrite set_indices_twice. cbn [indices with_indices].
    rewrite <- !app_assoc. reflexivity.
  - cbv zeta in Hrun.
    apply bind_inv in Hrun as (lc & w0 & Hlc & Hrun).
    apply tri_get_inv in Hlc as (-> & n1 & Hn1 & ->).
    apply bind_inv in Hrun as (u1 & w1 & H1 & Hrun).
    apply bind_inv in Hrun as (rc & w0 & Hrc & H2).
    apply tri_get_inv in Hrc as (-> & n2 & Hn2 & ->).
    destruct (IH _ _ _ _ _ _ _ P H1 HP) as (L1 & R1 & Hrange1).
    assert (Hw1 : w1 = set_indices self (indices P ++ L1) w).
    { pose proof (R1 (indices P)) as R. rewrite (set_indices_same self w P HP) in R.
      rewrite H1 in R. injection R as _ ->. reflexivity. }
    pose proof (set_indices_patch self (indices P ++ L1) w P HP) as HP1.
    rewrite <- Hw1 in HP1.
    destruct (IH _ _ _ _ _ _ _ _ H2 HP1) as (L2 & R2 & Hrange2).
    exists (L1 ++ L2). split.
    2:{ intros HPS Hw Hl0 Hr0 Ha0.
        pose proof (in_tile_center PS left right Hl0 Hr0) as Hc.
        destruct (Hrange1 HPS Hw Ha0 Hl0 Hc) as (F1 & k1 & E1).
        destruct (Hrange2 HPS Hw Hr0 Ha0 Hc) as (F2 & k2 & E2).
        split; [apply Forall_app; split; assumption|].
        exists (k1 + k2)%nat. rewrite length_app. lia. }
    intros l0.
    rewrite (bind_Done _ _ _ t (set_indices self l0 w)) by reflexivity.
    rewrite (bind_Done _ _ _ false (set_indices self l0 w))
      by (rewrite <- Hl; apply tri_get_Done; rewrite lookup_node_set_indices; exact Hn).
    cbv iota zeta.
    rewrite (bind_Done _ _ _ (LeftChild n) (set_indices self l0 w))
      by (apply tri_get_Done; rewrite lookup_node_set_indices; exact Hn).
    assert (n1 = n) as -> by congruence.
    rewrite (bind_Done _ _ _ tt _ (R1 l0)).
    assert (Hn' : lookup_node w t = Some n2).
    { rewrite Hw1, lookup_node_set_indices in Hn2. exact Hn2. }
    assert (n2 = n) as -> by congruence.
    rewrite (bind_Done _ _ _ (RightChild n) (set_indices self (l0 ++ L1) w))
      by (apply tri_get_Done; rewrite lookup_node_set_indices; exact Hn).
    specialize (R2 (l0 ++ L1)). rewrite Hw1, !set_indices_twice in R2.
    rewrite R2. rewrite app_assoc. reflexivity.
Qed.


Lemma GenerateIndices_result fuel PS self w u w' :
  GenerateIndices fuel PS self w = Done (u, w') ->
  exists P L,
    patches w !! self = Some P
    /\ w' = set_indices self L w
    /\ (forall l0, GenerateIndices fuel PS self (set_indices self l0 w) = Done (tt, w'))
    /\ (0 <= PS -> (PS + 1) * (PS + 1) <= 2 ^ 32 ->
        Forall (fun i => 0 <= i < (PS + 1) * (PS + 1)) L
        /\ exists k : nat, length L = (3 * k)%nat).
Proof.
  intros Hrun. unfold GenerateIndices in Hrun.
  apply bind_inv in Hrun as (u0 & w0 & Hclear & Hrun).
  pose proof Hclear as Hclear'.
  apply patch_modify_inv in Hclear' as (P & HP & _).
  rewrite (patch_modify_set_indices self [] w P HP) in Hclear. injection Hclear as _ <-.
  apply bind_inv in Hrun as (u1 & w1 & H1 & H2).
  pose proof (set_indices_patch self [] w P HP) as HP0.
  destruct (RecursGenIndices_appends _ _ _ _ _ _ _ _ _ _ _ H1 HP0) as (L1 & R1 & Hrange1).
  assert (Hw1 : w1 = set_indices self L1 w).
  { pose proof (R1 []) as R. rewrite set_indices_twice in R. rewrite H1 in R.
    injection R as _ ->. rewrite set_indices_twice. reflexivity. }
  pose proof (set_indices_patch self L1 w P HP) as HP1. rewrite <- Hw1 in HP1.
  destruct (RecursGenIndices_appends _ _ _ _ _ _ _ _ _ _ _ H2 HP1) as (L2 & R2 & Hrange2).
  assert (Hw' : w' = set_indices self (L1 ++ L2) w).
  { pose proof (R2 L1) as R. rewrite Hw1, !set_indices_twice in R.
    rewrite <- Hw1 in R. rewrite H2 in R. injection R as _ ->. reflexivity. }
  exists P, (L1 ++ L2). split; [exact HP|]. split; [exact Hw'|]. split.
  - intros l0. unfold GenerateIndices.
    rewrite (bind_Done _ _ _ tt (set_indices self [] w)).
    2:{ rewrite (patch_modify_set_indices self [] _ _ (set_indices_patch self l0 w P HP)).
        rewrite set_indices_twice. reflexivity. }
    pose proof (R1 []) as R. rewrite set_indices_twice in R.
    rewrite (bind_Done _ _ _ tt _ R). rewrite set_indices_twice. simpl app.
    pose proof (R2 L1) as R'. rewrite Hw1, !set_indices_twice in R'.
    rewrite R'. rewrite Hw'. reflexivity.
  - intros HPS Hw.
    assert (Hc : forall a b, 0 <= a <= PS -> 0 <= b <= PS -> in_tile PS (int2.mk a b))
      by (intros a b Ha Hb; split; assumption).
    destruct (Hrange1 HPS Hw ltac:(apply Hc; lia) ltac:(apply Hc; lia) ltac:(apply Hc; lia))
      as (F1 & k1 & E1).
    destruct (Hrange2 HPS Hw ltac:(apply Hc; lia) ltac:(apply Hc; lia) ltac:(apply Hc; lia))
      as (F2 & k2 & E2).
    split; [apply Forall_app; split; assumption|].
    exists (k1 + k2)%nat. rewrite length_app. lia.
Qed.

(** X10: [GenerateIndices] rebuilds the index list from the trees and touches
    nothing else: the result is the world it started from with a new
    index list for the tile, and the list does not depend on the one that
    was there.  Generating the indices of a mesh twice gives what
    generating them once gives. *)
Theorem GenerateIndices_idempotent (fuel : nat) (PATCH_SIZE : Z) (self : nat)
    (w w' : World)
    (Hrun : GenerateIndices fuel PATCH_SIZE self w = Done (tt, w')) :
  (exists L, w' = set_indices self L w)
  /\ (forall l0, GenerateIndices fuel PATCH_SIZE self (set_indices self l0 w) = Done (tt, w'))
  /\ GenerateIndices fuel PATCH_SIZE self w' = Done (tt, w').
Proof.
  destruct (GenerateIndices_result _ _ _ _ _ _ Hrun) as (P & L & HP & Hw' & Hall & _).
  split; [exists L; exact Hw'|]. split; [exact Hall|].
  rewrite Hw' at 1. apply Hall.
Qed.

(** the mesh of a tile after one split of its left root triangle *)
Definition indexed_world : World :=
  match GenerateIndices 3 128 0 split_world with
  | Done (_, w) => w
  | _ => split_world
  end.

Lemma GenerateIndices_idempotent_witness :
  GenerateIndices 3 128 0 split_world = Done (tt, indexed_world)
  /\ (exists L, indexed_world = set_indices 0 L split_world)
  /\ (forall l0, GenerateIndices 3 128 0 (set_indices 0 l0 split_world)
                 = Done (tt, indexed_world))
  /\ GenerateIndices 3 128 0 indexed_world = Done (tt, indexed_world).
Proof.
  assert (H : GenerateIndices 3 128 0 split_world = Done (tt, indexed_world))
    by (vm_compute; reflexivity).
  split; [exact H|]. exact (GenerateIndices_idempotent 3 128 0 _ _ H).
Defined.

(** X11: Whatever the shape of the mesh, every index that [GenerateIndices]
    emits addresses a vertex of the tile (it is below the number of grid
    points, (S+1) x (S+1)), and the indices come in triples, one triangle
    for each leaf. *)
Theorem GenerateIndices_in_range (fuel : nat) (PATCH_SIZE : Z) (self : nat)
    (w w' : World)
    (HPS : 0 <= PATCH_SIZE)
    (Hwrap : (PATCH_SIZE + 1) * (PATCH_SIZE + 1) <= 2 ^ 32)
    (Hrun : GenerateIndices fuel PATCH_SIZE self w = Done (tt, w')) :
  exists P',
    patches w' !! self = Some P'
    /\ Forall (fun i => 0 <= i < (PATCH_SIZE + 1) * (PATCH_SIZE + 1)) (indices P')
    /\ exists k : nat, length (indices P') = (3 * k)%nat.
Proof.
  destruct (GenerateIndices_result _ _ _ _ _ _ Hrun) as (P & L & HP & Hw' & _ & Hrange).
  exists (with_indices L P). split.
  - rewrite Hw'. apply set_indices_patch. exact HP.
  - cbn [indices with_indices]. apply Hrange; assumption.
Qed.

Lemma GenerateIndices_in_range_witness :
  exists P',
    patches indexed_world !! 0%nat = Some P'
    /\ Forall (fun i => 0 <= i < (128 + 1) * (128 + 1)) (indices P')
    /\ exists k : nat, length (indices P') = (3 * k)%nat.
Proof.
  apply (GenerateIndices_in_range 3 128 0 split_world indexed_world).
  - lia.
  - lia.
  - vm_compute. reflexivity.
Defined.

(** ** The skirt along a border *)

(** the world with the border-vertex list of the patch [self] replaced *)
Definition set_border (self : nat) (l : list VA_TYPE_C) (w : World) : World :=
  match patches w !! self with
  | Some P => with_patches (<[self := with_borderVertices l P]> (patches w)) w
  | None => w
  end.

Lemma set_border_patch self l w P :
  patches w !! self = Some P ->
  patches (set_border self l w) !! self = Some (with_borderVertices l P).
Proof.
  intros HP. unfold set_border. rewrite HP. rewrite patches_with_patches.
  eapply lookup_patch_updated. exact HP.
Qed.

Lemma set_border_twice self l l' w :
  set_border self l (set_border self l' w) = set_border self l w.
Proof.
  unfold set_border at 1. destruct (patches w !! self) as [P|] eqn:HP.
  - rewrite (set_border_patch self l' w P HP).
    unfold set_border. rewrite HP. rewrite patches_with_patches, with_patches_twice.
    rewrite list_insert_insert_eq. reflexivity.
  - unfold set_border. rewrite HP. rewrite HP. reflexivity.
Qed.

Lemma set_border_same self w P :
  patches w !! self = Some P -> set_border self (borderVertices P) w = w.
Proof.
  intros HP. unfold set_border. rewrite HP.
  replace (with_borderVertices (borderVertices P) P) with P by (destruct P; reflexivity).
  rewrite list_insert_id by exact HP. apply with_patches_id.
Qed.

Lemma lookup_node_set_border self l w p :
  lookup_node (set_border self l w) p = lookup_node w p.
Proof.
  unfold set_border. destruct (patches w !! self) as [P|] eqn:HP; [|reflexivity].
  destruct p as [k|k|s t i]; cbn [lookup_node]; rewrite ?patches_with_patches.
  - destruct (decide (k = self)) as [->|Hne].
    + rewrite (lookup_patch_updated _ _ _ _ HP), HP. reflexivity.
    + rewrite list_lookup_insert_ne by congruence. reflexivity.
  - destruct (decide (k = self)) as [->|Hne].
    + rewrite (lookup_patch_updated _ _ _ _ HP), HP. reflexivity.
    + rewrite list_lookup_insert_ne by congruence. reflexivity.
  - destruct s; reflexivity.
Qed.

(** the vertex of a grid point: three consecutive floats *)
Definition grid_vertex (PS : Z) (vs : list float) (p : int2) : option float3 :=
  let i := (int2.x p + int2.y p * (PS + 1)) * 3 in
  match array_get vs i, array_get vs (i + 1), array_get vs (i + 2) with
  | Done a, Done b, Done c => Some (float3.mk a b c)
  | _, _, _ => None
  end.

Lemma vertex_at_grid PS self p w v w' :
  vertex_at self ((int2.x p + int2.y p * (PS + 1)) * 3) w = Done (v, w') ->
  w' = w /\ exists P, patches w !! self = Some P /\ grid_vertex PS (vertices P) p = Some v.
Proof.
  unfold vertex_at. intros H.
  apply bind_inv in H as (vs & w0 & Hvs & H).
  apply patch_get_inv in Hvs as (-> & P & HP & ->).
  apply bind_inv in H as (a & w0 & Ha & H). unfold lift in Ha.
  destruct (array_get (vertices P) _) as [a0| |] eqn:Ea in Ha; try discriminate.
  injection Ha as -> <-.
  apply bind_inv in H as (b & w0 & Hb & H). unfold lift in Hb.
  destruct (array_get (vertices P) _) as [b0| |] eqn:Eb in Hb; try discriminate.
  injection Hb as -> <-.
  apply bind_inv in H as (c & w0 & Hc & H). unfold lift in Hc.
  destruct (array_get (vertices P) _) as [c0| |] eqn:Ec in Hc; try discriminate.
  injection Hc as -> <-. injection H as <- <-.
  split; [reflexivity|]. exists P. split; [exact HP|].
  unfold grid_vertex. cbv zeta. rewrite Ea, Eb, Ec. reflexivity.
Qed.

(** the two triangles of the skirt that hangs from the edge from [a] to
    [b] down to the height -400 *)
Definition skirt_of (a b : float3) : list VA_TYPE_C :=
  [ mkVA_TYPE_C a white;
    mkVA_TYPE_C (float3.mk (float3.x a) minus400 (float3.z a)) trans;
    mkVA_TYPE_C (float3.mk (float3.x b) (float3.y b) (float3.z b)) white;
    mkVA_TYPE_C (float3.mk (float3.x a) minus400 (float3.z a)) trans;
    mkVA_TYPE_C (float3.mk (float3.x b) minus400 (float3.z b)) trans;
    mkVA_TYPE_C b white ].

Lemma borderVertices_push_back_set self v w P :
  patches w !! self = Some P ->
  borderVertices_push_back self v w
  = Done (tt, set_border self (borderVertices P ++ [v]) w).
Proof.
  intros HP. unfold borderVertices_push_back.
  rewrite (patch_modify_Done self _ w P HP). unfold set_border. rewrite HP. reflexivity.
Qed.

Lemma push_skirt_set self a b w P :
  patches w !! self = Some P ->
  push_skirt self a b w = Done (tt, set_border self (borderVertices P ++ skirt_of a b) w).
Proof.
  intros HP. unfold push_skirt, skirt_of.
  repeat (match goal with
          | |- context [set_border self ?l w] =>
            rewrite (bind_Done _ _ _ tt _
                       (borderVertices_push_back_set self _ _ _
                          (set_border_patch self l w P HP)));
            rewrite set_border_twice; cbn [borderVertices with_borderVertices];
            rewrite <- app_assoc; cbn [app]
          | |- _ =>
            rewrite (bind_Done _ _ _ tt _ (borderVertices_push_back_set self _ _ _ HP))
          end).
  rewrite (borderVertices_push_back_set self _ _ _ (set_border_patch self _ w P HP)).
  rewrite set_border_twice. cbn [borderVertices with_borderVertices].
  rewrite <- app_assoc. reflexivity.
Qed.

(** the edge of a triangle that lies on the border of the tile, by the
    depth and the side flag with which the walk reaches the triangle *)
Definition border_edge (left rght apex depth : int2) : int2 * int2 :=
  if Z.land (int2.x depth) 1 =? 0 then (left, rght)
  else if negb (int2.y depth =? 0) then (apex, left)
  else (rght, apex).

(** [segs] is a chain of segments from [s] to [e], each starting where
    the one before it ends *)
Fixpoint linked (s e : int2) (segs : list (int2 * int2)) : Prop :=
  match segs with
  | [] => False
  | (a, b) :: rest =>
    a = s /\ match rest with [] => b = e | _ :: _ => linked b e rest end
  end.

Lemma linked_app s c e l1 l2 : linked s c l1 -> linked c e l2 -> linked s e (l1 ++ l2).
Proof.
  revert s. induction l1 as [|[a b] l1 IH]; intros s H1 H2; [destruct H1|].
  destruct H1 as [-> H1]. cbn [app linked]. split; [reflexivity|].
  destruct l1 as [|ab l1].
  - subst b. destruct l2 as [|ab2 l2]; [destruct H2|]. exact H2.
  - cbn [app]. specialize (IH b H1 H2). exact IH.
Qed.

(** [p] is inside the bounding box of [s] and [e]; for the two ends of a
    side of the tile this says that [p] lies on that side *)
Definition on_edge (s e p : int2) : Prop :=
  Z.min (int2.x s) (int2.x e) <= int2.x p <= Z.max (int2.x s) (int2.x e)
  /\ Z.min (int2.y s) (int2.y e) <= int2.y p <= Z.max (int2.y s) (int2.y e).

Definition within (s e : int2) (seg : int2 * int2) : Prop :=
  on_edge s e (fst seg) /\ on_edge s e (snd seg).

Lemma on_edge_center s e :
  on_edge s e (int2.mk (Z.shiftr (int2.x s + int2.x e) 1) (Z.shiftr (int2.y s + int2.y e) 1)).
Proof.
  unfold on_edge. cbn [int2.x int2.y].
  rewrite !Z.shiftr_div_pow2 by lia. change (2 ^ 1) with 2.
  pose proof (Z.div_mod (int2.x s + int2.x e) 2 ltac:(lia)).
  pose proof (Z.mod_pos_bound (int2.x s + int2.x e) 2 ltac:(lia)).
  pose proof (Z.div_mod (int2.y s + int2.y e) 2 ltac:(lia)).
  pose proof (Z.mod_pos_bound (int2.y s + int2.y e) 2 ltac:(lia)).
  lia.
Qed.

Lemma within_narrow s e s' e' seg :
  on_edge s e s' -> on_edge s e e' -> within s' e' seg -> within s e seg.
Proof. unfold within, on_edge. intros. lia. Qed.

Lemma on_edge_start s e : on_edge s e s.
Proof. unfold on_edge. lia. Qed.

Lemma on_edge_end s e : on_edge s e e.
Proof. unfold on_edge. lia. Qed.

(** the vertices of the skirts below a chain of segments *)
Fixpoint skirts_of (PS : Z) (vs : list float) (segs : list (int2 * int2))
  : option (list VA_TYPE_C) :=
  match segs with
  | [] => Some []
  | (a, b) :: rest =>
    match grid_vertex PS vs a, grid_vertex PS vs b, skirts_of PS vs rest with
    | Some va, Some vb, Some out => Some (skirt_of va vb ++ out)
    | _, _, _ => None
    end
  end.

Lemma skirts_of_app PS vs l1 l2 o1 o2 :
  skirts_of PS vs l1 = Some o1 -> skirts_of PS vs l2 = Some o2 ->
  skirts_of PS vs (l1 ++ l2) = Some (o1 ++ o2).
Proof.
  revert o1. induction l1 as [|[a b] l1 IH]; intros o1 H1 H2.
  - injection H1 as <-. exact H2.
  - cbn [app skirts_of] in *.
    destruct (grid_vertex PS vs a) as [va|]; [|discriminate].
    destruct (grid_vertex PS vs b) as [vb|]; [|discriminate].
    destruct (skirts_of PS vs l1) as [o|]; [|discriminate].
    injection H1 as <-. rewrite (IH o eq_refl H2). rewrite app_assoc. reflexivity.
Qed.

Lemma parity_flip (d : Z) : (Z.land (d + 1) 1 =? 0) = negb (Z.land d 1 =? 0).
Proof.
  rewrite !Z_land_1.
  pose proof (Z.mod_pos_bound d 2 ltac:(lia)).
  pose proof (Z.mod_pos_bound (d + 1) 2 ltac:(lia)).
  destruct (Z.eqb_spec (d mod 2) 0) as [E|E];
    destruct (Z.eqb_spec ((d + 1) mod 2) 0) as [E'|E']; try reflexivity; exfalso.
  - pose proof (Z.div_mod d 2 ltac:(lia)). pose proof (Z.div_mod (d + 1) 2 ltac:(lia)). lia.
  - pose proof (Z.div_mod d 2 ltac:(lia)). pose proof (Z.div_mod (d + 1) 2 ltac:(lia)). lia.
Qed.

(** The walk along a border emits a chain of skirts from one end of the
    border edge of its triangle to the other. *)
Lemma RecursGenBorderVertices_chain fuel PS self :
  forall tri left rght apex depth w u w' P,
    RecursGenBorderVertices fuel PS self tri left rght apex depth w = Done (u, w') ->
    patches w !! self = Some P ->
    (Z.land (int2.x depth) 1 = 0 -> int2.y depth <> 0) ->
    exists segs out,
      linked (fst (border_edge left rght apex depth))
             (snd (border_edge left rght apex depth)) segs
      /\ Forall (within (fst (border_edge left rght apex depth))
                        (snd (border_edge left rght apex depth))) segs
      /\ skirts_of PS (vertices P) segs = Some out
      /\ w' = set_border self (borderVertices P ++ out) w.
Proof.
  induction fuel as [|fuel IH]; intros tri left rght apex depth w u w' P Hrun HP Hinv;
    [discriminate|].
  cbn [RecursGenBorderVertices] in Hrun.
  apply bind_inv in Hrun as (t & w0 & Hd & Hrun).
  destruct tri as [t0|]; [|discriminate]. injection Hd as -> <-.
  apply bind_inv in Hrun as (leaf & w0 & Hleaf & Hrun).
  apply tri_get_inv in Hleaf as (-> & n & Hn & ->).
  destruct (IsLeaf n) eqn:Hl.
  - apply bind_inv in Hrun as (v1 & w0 & H1 & Hrun).
    apply vertex_at_grid in H1 as (-> & P1 & HP1 & G1).
    apply bind_inv in Hrun as (v2 & w0 & H2 & Hrun).
    apply vertex_at_grid in H2 as (-> & P2 & HP2 & G2).
    apply bind_inv in Hrun as (v3 & w0 & H3 & Hrun).
    apply vertex_at_grid in H3 as (-> & P3 & HP3 & G3).
    assert (P1 = P) as -> by congruence. assert (P2 = P) as -> by congruence.
    assert (P3 = P) as -> by congruence.
    unfold border_edge.
    destruct (Z.land (int2.x depth) 1 =? 0);
      [|destruct (negb (int2.y depth =? 0))]; cbn [fst snd];
      rewrite (push_skirt_set self _ _ w P HP) in Hrun; injection Hrun as _ <-.
    + exists [(left, rght)], (skirt_of v2 v3).
      split; [split; reflexivity|]. split.
      { constructor; [|constructor]. split; [apply on_edge_start | apply on_edge_end]. }
      split; [|reflexivity]. cbn [skirts_of]. rewrite G2, G3, app_nil_r. reflexivity.
    + exists [(apex, left)], (skirt_of v1 v2).
      split; [split; reflexivity|]. split.
      { constructor; [|constructor]. split; [apply on_edge_start | apply on_edge_end]. }
      split; [|reflexivity]. cbn [skirts_of]. rewrite G1, G2, app_nil_r. reflexivity.
    + exists [(rght, apex)], (skirt_of v3 v1).
      split; [split; reflexivity|]. split.
      { constructor; [|constructor]. split; [apply on_edge_start | apply on_edge_end]. }
      split; [|reflexivity]. cbn [skirts_of]. rewrite G3, G1, app_nil_r. reflexivity.
  - cbv zeta in Hrun.
    set (center := int2.mk (Z.shiftr (int2.x left + int2.x rght) 1)
                           (Z.shiftr (int2.y left + int2.y rght) 1)) in *.
    pose proof (on_edge_center left rght) as Hcenter. fold center in Hcenter.
    unfold border_edge.
    destruct (Z.land (int2.x depth) 1 =? 0) eqn:Hpar.
    + apply Z.eqb_eq in Hpar as Hpar'. specialize (Hinv Hpar').
      apply Z.eqb_neq in Hinv as Hy. rewrite Hy in Hrun.
      apply bind_inv in Hrun as (lc & w0 & Hlc & Hrun).
      apply tri_get_inv in Hlc as (-> & n1 & Hn1 & ->).
      apply bind_inv in Hrun as (u1 & w1 & H1 & Hrun).
      apply bind_inv in Hrun as (rc & w0 & Hrc & H2).
      apply tri_get_inv in Hrc as (-> & n2 & Hn2 & ->).
      destruct (IH _ _ _ _ _ _ _ _ P H1 HP) as (segs1 & out1 & L1 & W1 & S1 & ->).
      { cbn [int2.x]. intros E. exfalso.
        pose proof (parity_flip (int2.x depth)) as F. rewrite Hpar in F.
        apply Z.eqb_eq in E. rewrite E in F. discriminate. }
      pose proof (set_border_patch self (borderVertices P ++ out1) w P HP) as HP1.
      destruct (IH _ _ _ _ _ _ _ _ _ H2 HP1) as (segs2 & out2 & L2 & W2 & S2 & ->).
      { cbn [int2.x int2.y]. intros _. exact Hinv. }
      unfold border_edge in L1, W1, L2, W2. cbn [int2.x int2.y] in L1, W1, L2, W2.
      rewrite parity_flip, Hpar in L1, W1, L2, W2.
      cbn [negb Z.eqb] in L1, W1, L2, W2. rewrite Hy in L2, W2.
      cbn [negb fst snd] in L1, W1, L2, W2 |- *.
      cbn [vertices borderVertices with_borderVertices] in S2.
      exists (segs1 ++ segs2), (out1 ++ out2).
      split; [exact (linked_app _ _ _ _ _ L1 L2)|]. split.
      { apply Forall_app. split.
        - eapply Forall_impl; [exact W1|]. intros seg.
          apply within_narrow; [apply on_edge_start | exact Hcenter].
        - eapply Forall_impl; [exact W2|]. intros seg.
          apply within_narrow; [exact Hcenter | apply on_edge_end]. }
      split; [exact (skirts_of_app _ _ _ _ _ _ S1 S2)|].
      rewrite set_border_twice. cbn [borderVertices with_borderVertices].
      rewrite <- app_assoc. reflexivity.
    + destruct (negb (int2.y depth =? 0)) eqn:Hy; cbn [fst snd].
      * apply bind_inv in Hrun as (lc & w0 & Hlc & H1).
        apply tri_get_inv in Hlc as (-> & n1 & Hn1 & ->).
        destruct (IH _ _ _ _ _ _ _ _ P H1 HP) as (segs1 & out1 & L1 & W1 & S1 & ->).
        { cbn [int2.y]. intros _. lia. }
        unfold border_edge in L1, W1. cbn [int2.x int2.y] in L1, W1.
        rewrite parity_flip, Hpar in L1, W1. cbn [negb fst snd] in L1, W1.
        exists segs1, out1. auto.
      * apply bind_inv in Hrun as (rc & w0 & Hrc & H1).
        apply tri_get_inv in Hrc as (-> & n1 & Hn1 & ->).
        destruct (IH _ _ _ _ _ _ _ _ P H1 HP) as (segs1 & out1 & L1 & W1 & S1 & ->).
        { cbn [int2.y]. intros _. lia. }
        unfold border_edge in L1, W1. cbn [int2.x int2.y] in L1, W1.
        rewrite parity_flip, Hpar in L1, W1. cbn [negb fst snd] in L1, W1.
        exists segs1, out1. auto.
Qed.

(** what [GenerateBorderVertices] emits for one side of the tile, from
    the corner [s] to the corner [e]: a chain of skirts along the side if
    the root triangle has no neighbour there, nothing otherwise *)
Definition side_skirts (PS : Z) (vs : list float) (neighbor : option NodePtr)
    (s e : int2) (out : list VA_TYPE_C) : Prop :=
  match neighbor with
  | None =>
    exists segs, linked s e segs /\ Forall (within s e) segs
                 /\ skirts_of PS vs segs = Some out
  | Some _ => out = []
  end.

Lemma side_step fuel PS self (root : NodePtr) (nb : option NodePtr)
    (left rght apex depth : int2) w u w' P :
  (if decide (nb = None) then
     RecursGenBorderVertices fuel PS self (Some root) left rght apex depth
   else ret tt) w = Done (u, w') ->
  patches w !! self = Some P ->
  int2.x depth = 1 ->
  exists out,
    w' = set_border self (borderVertices P ++ out) w
    /\ side_skirts PS (vertices P) nb
         (fst (border_edge left rght apex depth))
         (snd (border_edge left rght apex depth)) out.
Proof.
  intros Hrun HP Hd. destruct (decide (nb = None)) as [->|Hnb].
  - destruct (RecursGenBorderVertices_chain _ _ _ _ _ _ _ _ _ _ _ P Hrun HP)
      as (segs & out & L & W & S & ->).
    { rewrite Hd. intros E. discriminate E. }
    exists out. split; [reflexivity|]. exists segs. auto.
  - injection Hrun as _ <-. exists []. rewrite app_nil_r.
    split; [symmetry; apply set_border_same; exact HP|].
    destruct nb; [reflexivity | contradiction].
Qed.

Lemma root_neighbor (f : TriTreeNode -> option NodePtr) (left : bool) self w n w' P :
  tri_get f (if left then BaseLeftOf self else BaseRightOf self) w = Done (n, w') ->
  patches w !! self = Some P ->
  w' = w /\ n = f (if left then baseLeft P else baseRight P).
Proof.
  intros H HP. apply tri_get_inv in H as (-> & m & Hm & ->).
  split; [reflexivity|].
  destruct left; cbn [lookup_node] in Hm; rewrite HP in Hm; injection Hm as <-; reflexivity.
Qed.

(** what a finished call of [GenerateBorderVertices] on a tessellated
    tile has done: the border list holds the skirts of the four sides,
    in the order left, right, bottom, top of the source, and nothing but
    the border list and the flag [isTesselated] has changed *)
Lemma GenerateBorderVertices_result (fuel : nat) (PATCH_SIZE : Z) (self : nat)
    (w w' : World) (P : Patch)
    (HP : patches w !! self = Some P)
    (Htess : isTesselated P = true)
    (Hrun : GenerateBorderVertices fuel PATCH_SIZE self w = Done (tt, w')) :
  let PS := PATCH_SIZE in
  exists o1 o2 o3 o4,
    w' = with_patches
           (<[self := with_borderVertices (o1 ++ o2 ++ o3 ++ o4)
                        (with_isTesselated false P)]> (patches w)) w
    /\ side_skirts PS (vertices P) (LeftNeighbor (baseLeft P))
         (int2.mk 0 0) (int2.mk 0 PS) o1
    /\ side_skirts PS (vertices P) (RightNeighbor (baseLeft P))
         (int2.mk PS 0) (int2.mk 0 0) o2
    /\ side_skirts PS (vertices P) (RightNeighbor (baseRight P))
         (int2.mk 0 PS) (int2.mk PS PS) o3
    /\ side_skirts PS (vertices P) (LeftNeighbor (baseRight P))
         (int2.mk PS PS) (int2.mk PS 0) o4.
Proof.
  intros PS. unfold GenerateBorderVertices in Hrun. cbv zeta in Hrun. fold PS in Hrun.
  apply bind_inv in Hrun as (tess & wx & Hget & Hrun).
  apply patch_get_inv in Hget as (-> & Px & HPx & ->).
  assert (Px = P) as -> by congruence. clear HPx.
  rewrite Htess in Hrun. cbn [negb] in Hrun.
  apply bind_inv in Hrun as (ux & wA & Hmod & Hrun).
  apply patch_modify_inv in Hmod as (Px & HPx & ->).
  assert (Px = P) as -> by congruence. clear HPx.
  assert (HPA : patches (with_patches (<[self := with_isTesselated false P]> (patches w)) w)
                !! self = Some (with_isTesselated false P))
    by (apply (lookup_patch_updated _ _ _ _ HP)).
  apply bind_inv in Hrun as (uy & w0 & Hmod & Hrun).
  apply patch_modify_inv in Hmod as (Px & HPx & Hw0).
  assert (Px = with_isTesselated false P) as -> by congruence. clear HPx.
  set (P0 := with_borderVertices [] (with_isTesselated false P)) in *.
  assert (HP0 : patches w0 !! self = Some P0)
    by (rewrite Hw0; apply (lookup_patch_updated _ _ _ _ HPA)).
  assert (Hset : forall l, set_border self l w0
            = with_patches (<[self := with_borderVertices l (with_isTesselated false P)]>
                              (patches w)) w).
  { intros l. unfold set_border. rewrite HP0. rewrite Hw0.
    rewrite !patches_with_patches, !with_patches_twice, !list_insert_insert_eq.
    reflexivity. }
  apply bind_inv in Hrun as (n1 & w1 & Hget & Hrun).
  pose proof (root_neighbor LeftNeighbor true self _ n1 w1 _ Hget HP0) as [E1 E2]. subst w1 n1. clear Hget.
  apply bind_inv in Hrun as (u1 & w1 & Hs1 & Hrun).
  destruct (side_step _ _ _ _ _ _ _ _ _ _ _ _ _ Hs1 HP0 eq_refl) as (o1 & E & Hside1).
  subst w1. clear Hs1.
  pose proof (set_border_patch self (borderVertices P0 ++ o1) w0 P0 HP0) as HP1.
  apply bind_inv in Hrun as (n2 & w2 & Hget & Hrun).
  pose proof (root_neighbor RightNeighbor true self _ n2 w2 _ Hget HP1) as [E1 E2]. subst w2 n2. clear Hget.
  apply bind_inv in Hrun as (u2 & w2 & Hs2 & Hrun).
  destruct (side_step _ _ _ _ _ _ _ _ _ _ _ _ _ Hs2 HP1 eq_refl) as (o2 & E & Hside2).
  subst w2. clear Hs2.
  rewrite set_border_twice in *.
  match type of Hrun with context [set_border self ?l w0] =>
    pose proof (set_border_patch self l w0 P0 HP0) as HP2 end.
  apply bind_inv in Hrun as (n3 & w3 & Hget & Hrun).
  pose proof (root_neighbor RightNeighbor false self _ n3 w3 _ Hget HP2) as [E1 E2]. subst w3 n3. clear Hget.
  apply bind_inv in Hrun as (u3 & w3 & Hs3 & Hrun).
  destruct (side_step _ _ _ _ _ _ _ _ _ _ _ _ _ Hs3 HP2 eq_refl) as (o3 & E & Hside3).
  subst w3. clear Hs3.
  rewrite set_border_twice in *.
  match type of Hrun with context [set_border self ?l w0] =>
    pose proof (set_border_patch self l w0 P0 HP0) as HP3 end.
  apply bind_inv in Hrun as (n4 & w4 & Hget & Hrun).
  pose proof (root_neighbor LeftNeighbor false self _ n4 w4 _ Hget HP3) as [E1 E2]. subst w4 n4. clear Hget.
  destruct (side_step _ _ _ _ _ _ _ _ _ _ _ _ _ Hrun HP3 eq_refl) as (o4 & E & Hside4).
  subst w'. clear Hrun.
  rewrite set_border_twice.
  exists o1, o2, o3, o4. split.
  - rewrite Hset. cbn [borderVertices with_borderVertices P0].
    rewrite <- !app_assoc. reflexivity.
  - cbn [vertices with_borderVertices with_isTesselated P0 baseLeft baseRight
         border_edge fst snd int2.x int2.y] in Hside1, Hside2, Hside3, Hside4.
    auto.
Qed.

(** a flat tile of edge 4 with a pool of eight nodes *)
Definition ridge_base : World :=
  mkWorld 8 32 [mkPool (replicate 8 TriTreeNode_new) 0] [] [flat_tile].

(** the same tile after [Split] of its left root, which splits both roots *)
Definition ridge_once : World :=
  match Split 2 0 (BaseLeftOf 0) ridge_base with
  | Done (_, w) => w
  | _ => ridge_base
  end.

(** and after [Split] of the left child of the left root: the left side
    of the tile is now split more finely than the other three *)
Definition ridge_world : World :=
  match Split 1 0 (PoolNode false 0 0) ridge_once with
  | Done (_, w) => w
  | _ => ridge_once
  end.

Definition ridge_tile : Patch :=
  match patches ridge_world !! 0%nat with
  | Some P => P
  | None => flat_tile
  end.

Lemma ridge_once_run : Split 2 0 (BaseLeftOf 0) ridge_base = Done (true, ridge_once).
Proof. vm_compute. reflexivity. Qed.

Lemma ridge_world_run : Split 1 0 (PoolNode false 0 0) ridge_once = Done (true, ridge_world).
Proof. vm_compute. reflexivity. Qed.

Lemma ridge_world_tile : patches ridge_world !! 0%nat = Some ridge_tile.
Proof. vm_compute. reflexivity. Qed.

(** ** What [Split] leaves alone *)

(** the members of a patch other than its two root nodes *)
Definition payload (P : Patch) : Patch :=
  with_baseLeft TriTreeNode_new (with_baseRight TriTreeNode_new P).

(** [w'] differs from [w] at most in the links of tree nodes and in the
    cursor of the pool that the patch [self] allocates from, which has
    advanced by whole pairs *)
Definition frame (self : nat) (w w' : World) : Prop :=
  CUR_POOL_SIZE w' = CUR_POOL_SIZE w
  /\ MAX_POOL_SIZE w' = MAX_POOL_SIZE w
  /\ length (patches w') = length (patches w)
  /\ (forall k P, patches w !! k = Some P ->
        exists P', patches w' !! k = Some P' /\ payload P' = payload P)
  /\ (forall s, length (pools w' s) = length (pools w s))
  /\ (forall s t pl, pools w s !! t = Some pl ->
        exists pl' k,
          pools w' s !! t = Some pl'
          /\ length (pool pl') = length (pool pl)
          /\ nextTriNodeIdx pl' = (nextTriNodeIdx pl + 2 * k)%nat
          /\ (k <> 0%nat ->
              exists P, patches w !! self = Some P /\ curTriPool P = Some (s, t))).

Lemma frame_refl self w : frame self w w.
Proof.
  repeat (split; [reflexivity|]). split; [|split; [reflexivity|]].
  - intros k P HP. exists P. split; [exact HP | reflexivity].
  - intros s t pl Hpl. exists pl, 0%nat.
    split; [exact Hpl|]. split; [reflexivity|]. split; [lia | congruence].
Qed.

Lemma frame_trans self w1 w2 w3 : frame self w1 w2 -> frame self w2 w3 -> frame self w1 w3.
Proof.
  intros (C1 & M1 & L1 & P1 & N1 & Q1) (C2 & M2 & L2 & P2 & N2 & Q2).
  split; [congruence|]. split; [congruence|]. split; [congruence|].
  split; [|split; [intros s; rewrite N2, N1; reflexivity|]].
  - intros k P HP. destruct (P1 k P HP) as (P' & HP' & E1).
    destruct (P2 k P' HP') as (P'' & HP'' & E2).
    exists P''. split; [exact HP'' | congruence].
  - intros s t pl Hpl. destruct (Q1 s t pl Hpl) as (pl' & k1 & Hpl' & Hl1 & Hc1 & Hk1).
    destruct (Q2 s t pl' Hpl') as (pl'' & k2 & Hpl'' & Hl2 & Hc2 & Hk2).
    exists pl'', (k1 + k2)%nat.
    split; [exact Hpl''|]. split; [congruence|]. split; [lia|].
    intros Hk. destruct (Nat.eq_dec k1 0%nat) as [E|E]; [|exact (Hk1 E)].
    destruct (Hk2 ltac:(lia)) as (P2' & HP2' & Hcur2).
    destruct (lookup_lt_is_Some_2 (patches w1) self) as [P1' HP1'].
    { rewrite <- L1. eapply lookup_lt_Some. exact HP2'. }
    destruct (P1 self P1' HP1') as (Px & HPx & Epay).
    assert (Px = P2') as -> by congruence.
    exists P1'. split; [exact HP1'|].
    apply (f_equal curTriPool) in Epay. cbn in Epay. congruence.
Qed.

Lemma frame_insert_patch self w k P P' :
  patches w !! k = Some P -> payload P' = payload P ->
  frame self w (with_patches (<[k := P']> (patches w)) w).
Proof.
  intros HP Hpay.
  split; [reflexivity|]. split; [reflexivity|].
  split; [rewrite patches_with_patches; apply length_insert|].
  split; [|split; [intros s; destruct s; reflexivity|]].
  - intros j Q HQ. rewrite patches_with_patches.
    destruct (decide (j = k)) as [->|Hne].
    + exists P'. split; [eapply lookup_patch_updated; exact HP | congruence].
    + exists Q. rewrite list_lookup_insert_ne by congruence.
      split; [exact HQ | reflexivity].
  - intros s t pl Hpl. exists pl, 0%nat.
    split; [destruct s; exact Hpl|]. split; [reflexivity|]. split; [lia | congruence].
Qed.

Lemma frame_insert_pool self w s t pl pl' k :
  pools w s !! t = Some pl ->
  length (pool pl') = length (pool pl) ->
  nextTriNodeIdx pl' = (nextTriNodeIdx pl + 2 * k)%nat ->
  (k <> 0%nat -> exists P, patches w !! self = Some P /\ curTriPool P = Some (s, t)) ->
  frame self w (with_pools s (<[t := pl']> (pools w s)) w).
Proof.
  intros Hpl Hlen Hc Hk.
  split; [apply CUR_with_pools|]. split; [apply MAX_with_pools|].
  split; [rewrite patches_with_pools; reflexivity|].
  split; [|split].
  - intros j Q HQ. exists Q. rewrite patches_with_pools. split; [exact HQ | reflexivity].
  - intros s0. rewrite pools_with_pools. destruct (decide (s0 = s)) as [->|_];
      [apply length_insert | reflexivity].
  - intros s0 t0 pl0 Hpl0. rewrite pools_with_pools.
    destruct (decide (s0 = s)) as [->|Hs].
    + destruct (decide (t0 = t)) as [->|Ht].
      * assert (pl0 = pl) as -> by congruence.
        exists pl', k. split; [apply list_lookup_insert_eq; eapply lookup_lt_Some; exact Hpl|].
        split; [exact Hlen|]. split; [exact Hc | exact Hk].
      * exists pl0, 0%nat. rewrite list_lookup_insert_ne by congruence.
        split; [exact Hpl0|]. split; [reflexivity|]. split; [lia | congruence].
    + exists pl0, 0%nat.
      split; [exact Hpl0|]. split; [reflexivity|]. split; [lia | congruence].
Qed.

Lemma frame_update_node self w p n w' : update_node w p n = Some w' -> frame self w w'.
Proof.
  destruct p as [k|k|s t i]; cbn [update_node].
  - destruct (patches w !! k) as [P|] eqn:HP; [|discriminate]. intros [= <-].
    eapply frame_insert_patch; [exact HP | reflexivity].
  - destruct (patches w !! k) as [P|] eqn:HP; [|discriminate]. intros [= <-].
    eapply frame_insert_patch; [exact HP | reflexivity].
  - destruct (pools w s !! t) as [pl|] eqn:Hpl; [|discriminate].
    destruct (i <? length (pool pl))%nat; [|discriminate]. intros [= <-].
    apply (frame_insert_pool self w s t pl _ 0%nat Hpl).
    + cbn [pool]. apply length_insert.
    + cbn [nextTriNodeIdx]. lia.
    + congruence.
Qed.

Lemma frame_tri_set self w0 upd q : preserves (frame self w0) (tri_set upd q).
Proof.
  intros w Hw u w' Hrun. apply tri_set_inv in Hrun as (n & _ & Hupd).
  eapply frame_trans; [exact Hw | eapply frame_update_node; exact Hupd].
Qed.

Lemma frame_alloc self w0 tri : preserves (frame self w0) (curTriPool_Allocate self tri).
Proof.
  intros w Hw ok w' Hrun.
  apply curTriPool_Allocate_inv in Hrun
    as (P & s & t & pl & l0 & r0 & pl' & w1 & w2 & n1 & n2
        & HP & Hcur & Hpl & HA & -> & Hn1 & Hu1 & Hn2 & Hu2).
  eapply frame_trans; [exact Hw|].
  eapply frame_trans; [|eapply frame_update_node; exact Hu2].
  eapply frame_trans; [|eapply frame_update_node; exact Hu1].
  unfold Allocate in HA. destruct (OutOfNodes pl).
  - injection HA as <- <- <- <-.
    apply (frame_insert_pool self w s t pl pl 0%nat Hpl); [reflexivity | lia | congruence].
  - destruct (S (nextTriNodeIdx pl) <? length (pool pl))%nat; [|discriminate].
    injection HA as <- <- <- <-.
    apply (frame_insert_pool self w s t pl _ 1%nat Hpl);
      [reflexivity | cbn [nextTriNodeIdx]; lia |].
    intros _. exists P. split; [exact HP | exact Hcur].
Qed.

(** an invariant of the steps of [Split] for one patch is an invariant
    of [Split] *)
Section SplitInvariantAt.

Variable self : nat.
Variable I : World -> Prop.

Hypothesis I_set : forall upd p, keeps_children upd -> preserves I (tri_set upd p).
Hypothesis I_alloc : forall tri, preserves I (curTriPool_Allocate self tri).

Lemma Split_preserves_at (fuel : nat) (tri : NodePtr) :
  preserves I (Split fuel self tri).
Proof.
  revert tri. induction fuel as [|fuel IH]; intros tri; [apply hoare_out_of_fuel|].
  cbn [Split].
  assert (I_alloc' : forall tri, True -> preserves I (curTriPool_Allocate self tri))
    by (intros; apply I_alloc).
  assert (Htrue : True) by exact Logic.I.
  repeat hoare_step I_set I_alloc' (IH).
Qed.

End SplitInvariantAt.

(** X13: [Split] changes the links of tree nodes and nothing else.  After a
    call for the patch [self], every patch has all its members other
    than the two root nodes as before (vertices, variance fields, index
    and border lists, flags, LOD parameters, pool selection), the number
    of patches, the number and the capacities of the pools and the two
    size statics are unchanged.  No pool cursor has moved except
    possibly that of the pool the patch allocates from, which has
    advanced by a whole number of pairs. *)
Theorem Split_frame (fuel self : nat) (tri : NodePtr) (w w' : World) (b : bool)
    (Hrun : Split fuel self tri w = Done (b, w')) :
  frame self w w'.
Proof.
  refine (Split_preserves_at self (frame self w) _ _ fuel tri w (frame_refl self w) b w' Hrun).
  - intros upd q _. apply frame_tri_set.
  - intros tri0. apply frame_alloc.
Qed.

Lemma Split_frame_witness : frame 0 (fresh_world 4) split_world.
Proof.
  apply (Split_frame 2 0 (BaseLeftOf 0) (fresh_world 4) split_world true).
  vm_compute. reflexivity.
Defined.

(** ** Pointer safety of the mesh operations *)

(** a run that does not end in a fault; when it ends, it ends in [post] *)
Definition no_fault {T A : Type} (pre : T -> Prop) (m : St T A) (post : A -> T -> Prop)
  : Prop :=
  forall s, pre s ->
    match m s with
    | Done (a, s') => post a s'
    | Fault => False
    | OutOfFuel => True
    end.

Lemma nf_ret {T A : Type} (pre : T -> Prop) (post : A -> T -> Prop) (a : A) :
  (forall s, pre s -> post a s) -> no_fault pre (ret a) post.
Proof. intros H s Hs. apply H. exact Hs. Qed.

Lemma nf_out_of_fuel {T A : Type} (pre : T -> Prop) (post : A -> T -> Prop) :
  no_fault pre out_of_fuel post.
Proof. intros s _. exact Logic.I. Qed.

Lemma nf_bind {T A B : Type} (pre : T -> Prop) (mid : A -> T -> Prop)
    (post : B -> T -> Prop) (m : St T A) (k : A -> St T B) :
  no_fault pre m mid -> (forall a, no_fault (mid a) (k a) post) ->
  no_fault pre (bind m k) post.
Proof.
  intros Hm Hk s Hs. specialize (Hm s Hs). unfold bind.
  destruct (m s) as [[a s']| |]; [|contradiction|exact Logic.I].
  apply Hk. exact Hm.
Qed.

Lemma nf_weaken {T A : Type} (pre pre' : T -> Prop) (post post' : A -> T -> Prop)
    (m : St T A) :
  no_fault pre' m post' -> (forall s, pre s -> pre' s) ->
  (forall a s, post' a s -> post a s) -> no_fault pre m post.
Proof.
  intros Hm Hpre Hpost s Hs. specialize (Hm s (Hpre s Hs)).
  destruct (m s) as [[a s']| |]; auto.
Qed.

Lemma nf_pure {T A : Type} (phi : Prop) (pre : T -> Prop) (post : A -> T -> Prop)
    (m : St T A) :
  (forall s, pre s -> phi) -> (phi -> no_fault pre m post) -> no_fault pre m post.
Proof. intros Hphi Hm s Hs. exact (Hm (Hphi s Hs) s Hs). Qed.

(** a run that cannot fault and a property that its finished runs keep *)
Lemma nf_and {T A : Type} (pre H : T -> Prop) (post : A -> T -> Prop) (m : St T A) :
  no_fault pre m post -> preserves H m ->
  no_fault (fun s => pre s /\ H s) m (fun a s => post a s /\ H s).
Proof.
  intros Hm HH s [Hs Hh]. specialize (Hm s Hs). specialize (HH s Hh).
  destruct (m s) as [[a s']| |]; [|contradiction|exact Logic.I].
  split; [exact Hm | exact (HH a s' eq_refl)].
Qed.

(** *** Closed meshes *)

Definition valid (w : World) (p : NodePtr) : Prop := is_Some (lookup_node w p).

Definition opt_valid (w : World) (o : option NodePtr) : Prop :=
  forall q, o = Some q -> valid w q.

(** every pointer of the node leads to a node, and the node has both
    children or none *)
Definition node_ok (w : World) (n : TriTreeNode) : Prop :=
  opt_valid w (LeftChild n) /\ opt_valid w (RightChild n)
  /\ opt_valid w (BaseNeighbor n) /\ opt_valid w (LeftNeighbor n)
  /\ opt_valid w (RightNeighbor n)
  /\ (LeftChild n = None <-> RightChild n = None).

(** no node of the world holds a dangling pointer or a single child, and
    the pools are well formed *)
Definition mesh_closed (w : World) : Prop :=
  (forall p n, lookup_node w p = Some n -> node_ok w n)
  /\ (forall s t pl, pools w s !! t = Some pl -> pool_wf pl).

(** the patch [self] has selected a pool that exists *)
Definition can_allocate (self : nat) (w : World) : Prop :=
  exists P s t, patches w !! self = Some P /\ curTriPool P = Some (s, t)
                /\ is_Some (pools w s !! t).

(** the invariant of the operations on the mesh of [w0], seen from the
    patch [self] whose members other than the roots are [pay] *)
Definition sound (self : nat) (pay : Patch) (w0 w : World) : Prop :=
  (forall p, valid w p <-> valid w0 p)
  /\ (forall p n, lookup_node w p = Some n -> node_ok w0 n)
  /\ (forall s t pl, pools w s !! t = Some pl -> pool_wf pl)
  /\ (exists P, patches w !! self = Some P /\ payload P = pay)
  /\ (forall s t, curTriPool pay = Some (s, t) -> is_Some (pools w s !! t)).

Lemma node_ok_same_valid w w' n :
  (forall p, valid w' p <-> valid w p) -> node_ok w n -> node_ok w' n.
Proof.
  intros Hv (H1 & H2 & H3 & H4 & H5 & H6). unfold node_ok, opt_valid in *.
  repeat split; try (intros q Hq; apply Hv; eauto); apply H6.
Qed.

Lemma sound_start self w P :
  mesh_closed w -> patches w !! self = Some P ->
  (forall s t, curTriPool P = Some (s, t) -> is_Some (pools w s !! t)) ->
  sound self (payload P) w w.
Proof.
  intros [Hn Hp] HP Hcur. split; [reflexivity|]. split; [exact Hn|].
  split; [exact Hp|]. split; [exists P; split; [exact HP | reflexivity]|].
  exact Hcur.
Qed.

Lemma sound_closed self pay w0 w : sound self pay w0 w -> mesh_closed w.
Proof.
  intros (Hv & Hn & Hp & _). split; [|exact Hp].
  intros p n Hpn. apply (node_ok_same_valid w0 w); [exact Hv | eapply Hn; exact Hpn].
Qed.

Lemma update_node_valid w p n w' q :
  update_node w p n = Some w' -> (valid w' q <-> valid w q).
Proof.
  intros Hupd. unfold valid.
  destruct (decide (q = p)) as [->|Hne].
  - rewrite (update_node_lookup_same _ _ _ _ Hupd).
    split; [|eauto]. intros _.
    destruct p as [k|k|s t i]; cbn [update_node lookup_node] in *.
    + destruct (patches w !! k); [eauto | discriminate].
    + destruct (patches w !! k); [eauto | discriminate].
    + destruct (pools w s !! t) as [pl|]; [|discriminate].
      destruct (i <? length (pool pl))%nat eqn:E; [|discriminate].
      apply Nat.ltb_lt in E. apply lookup_lt_is_Some_2. exact E.
  - rewrite (update_node_lookup_other _ _ _ _ q Hupd Hne). reflexivity.
Qed.

Lemma update_node_exists w p n m : lookup_node w p = Some n -> is_Some (update_node w p m).
Proof.
  destruct p as [k|k|s t i]; cbn [update_node lookup_node].
  - destruct (patches w !! k); [eauto | discriminate].
  - destruct (patches w !! k); [eauto | discriminate].
  - destruct (pools w s !! t) as [pl|]; [|discriminate]. intros H.
    apply lookup_lt_Some in H. apply Nat.ltb_lt in H. rewrite H. eauto.
Qed.

Lemma update_node_pools w p n w' s t pl' :
  update_node w p n = Some w' -> pools w' s !! t = Some pl' ->
  exists pl, pools w s !! t = Some pl /\ length (pool pl') = length (pool pl)
             /\ nextTriNodeIdx pl' = nextTriNodeIdx pl.
Proof.
  destruct p as [k|k|s0 t0 i]; cbn [update_node].
  - destruct (patches w !! k); [|discriminate]. intros [= <-] H.
    exists pl'. split; [destruct s; exact H | auto].
  - destruct (patches w !! k); [|discriminate]. intros [= <-] H.
    exists pl'. split; [destruct s; exact H | auto].
  - destruct (pools w s0 !! t0) as [pl|] eqn:Hpl; [|discriminate].
    destruct (i <? length (pool pl))%nat; [|discriminate]. intros [= <-].
    rewrite pools_with_pools. destruct (decide (s = s0)) as [->|Hs]; [|eauto].
    destruct (decide (t = t0)) as [->|Ht].
    + rewrite list_lookup_insert_eq by (eapply lookup_lt_Some; exact Hpl).
      intros [= <-]. exists pl. split; [exact Hpl|]. cbn. rewrite length_insert. auto.
    + rewrite list_lookup_insert_ne by congruence. eauto.
Qed.

Lemma pool_wf_same_shape pl pl' :
  length (pool pl') = length (pool pl) -> nextTriNodeIdx pl' = nextTriNodeIdx pl ->
  pool_wf pl -> pool_wf pl'.
Proof. unfold pool_wf. intros -> ->. auto. Qed.

Lemma update_node_payload self w p n w' P :
  update_node w p n = Some w' -> patches w !! self = Some P ->
  exists P', patches w' !! self = Some P' /\ payload P' = payload P.
Proof.
  intros Hupd HP. destruct (frame_update_node self w p n w' Hupd) as (_ & _ & _ & H & _).
  exact (H self P HP).
Qed.

Lemma update_node_pool_exists w p n w' s t :
  update_node w p n = Some w' -> is_Some (pools w s !! t) -> is_Some (pools w' s !! t).
Proof.
  intros Hupd [pl Hpl].
  destruct (frame_update_node 0 w p n w' Hupd) as (_ & _ & _ & _ & _ & H).
  destruct (H s t pl Hpl) as (pl' & k & Hpl' & _). eauto.
Qed.

(** storing a sound node at a valid place keeps the invariant *)
Lemma sound_update self pay w0 w p n w' :
  sound self pay w0 w -> node_ok w0 n -> update_node w p n = Some w' ->
  sound self pay w0 w'.
Proof.
  intros (Hv & Hn & Hp & (P & HP & Hpay) & Hcur) Hok Hupd.
  split; [|split; [|split; [|split]]].
  - intros q. rewrite (update_node_valid _ _ _ _ q Hupd). apply Hv.
  - intros q m Hq. destruct (decide (q = p)) as [->|Hne].
    + rewrite (update_node_lookup_same _ _ _ _ Hupd) in Hq. injection Hq as <-. exact Hok.
    + rewrite (update_node_lookup_other _ _ _ _ q Hupd Hne) in Hq. eapply Hn. exact Hq.
  - intros s t pl' Hpl'.
    destruct (update_node_pools _ _ _ _ _ _ _ Hupd Hpl') as (pl & Hpl & Hl & Hc).
    exact (pool_wf_same_shape pl pl' Hl Hc (Hp s t pl Hpl)).
  - destruct (update_node_payload self _ _ _ _ P Hupd HP) as (P' & HP' & E).
    exists P'. split; [exact HP' | congruence].
  - intros s t Hst. eapply update_node_pool_exists; [exact Hupd | apply Hcur; exact Hst].
Qed.

(** nodes known to have the children named *)
Definition kids_at (kids : list (NodePtr * NodePtr * NodePtr)) (w : World) : Prop :=
  Forall (fun k => has_children k.1.1 (Some k.1.2) (Some k.2) w) kids.

Lemma kids_at_preserved {A : Type} kids (m : St World A) :
  (forall p l r, preserves (has_children p (Some l) (Some r)) m) ->
  preserves (kids_at kids) m.
Proof.
  intros Hm w Hw a w' Hrun. unfold kids_at in *.
  eapply Forall_impl; [exact Hw|]. intros [[p l] r] Hk. cbn in *.
  exact (Hm p l r w Hk a w' Hrun).
Qed.

Lemma kids_at_tri_set kids upd q :
  keeps_children upd -> preserves (kids_at kids) (tri_set upd q).
Proof. intros Hupd. apply kids_at_preserved. intros. apply has_children_tri_set. exact Hupd. Qed.

Lemma kids_at_Split kids fuel self tri : preserves (kids_at kids) (Split fuel self tri).
Proof.
  apply kids_at_preserved. intros. apply Split_keeps_children. left. discriminate.
Qed.

Section Safety.

Variable self : nat.
Variable pay : Patch.
Variable w0 : World.

Definition Inv (kids : list (NodePtr * NodePtr * NodePtr)) : World -> Prop :=
  fun w => sound self pay w0 w /\ kids_at kids w.

Lemma Inv_lookup kids w p : Inv kids w -> valid w0 p ->
  exists n, lookup_node w p = Some n /\ node_ok w0 n.
Proof.
  intros [(Hv & Hn & _) _] Hp. apply Hv in Hp as [n Hn']. exists n.
  split; [exact Hn' | eapply Hn; exact Hn'].
Qed.

Lemma R_get {A B : Type} kids (f : TriTreeNode -> A) p (k : A -> St World B) Q :
  valid w0 p ->
  (forall n, node_ok w0 n ->
     no_fault (fun w => Inv kids w /\ lookup_node w p = Some n) (k (f n)) Q) ->
  no_fault (Inv kids) (bind (tri_get f p) k) Q.
Proof.
  intros Hp Hk w Hw. destruct (Inv_lookup kids w p Hw Hp) as (n & Hn & Hok).
  rewrite (bind_Done _ _ _ _ _ (tri_get_Done f p w n Hn)).
  apply (Hk n Hok). split; assumption.
Qed.

Lemma nf_forget {A : Type} kids (X : World -> Prop) (m : St World A) Q :
  no_fault (Inv kids) m Q -> no_fault (fun w => Inv kids w /\ X w) m Q.
Proof. intros H. eapply nf_weaken; [exact H | intros s [Hs _]; exact Hs | auto]. Qed.

Lemma nf_known {A : Type} kids p l r n (m : St World A) Q :
  In (p, l, r) kids ->
  (LeftChild n = Some l -> RightChild n = Some r -> no_fault (Inv kids) m Q) ->
  no_fault (fun w => Inv kids w /\ lookup_node w p = Some n) m Q.
Proof.
  intros Hin Hm w [Hw Hn].
  assert (Hc : LeftChild n = Some l /\ RightChild n = Some r).
  { destruct Hw as [_ Hk]. unfold kids_at in Hk.
    pose proof (proj1 (List.Forall_forall _ _) Hk _ Hin) as (n' & Hn' & Hl & Hr).
    cbn in *. assert (n' = n) by congruence. subst n'. auto. }
  exact (Hm (proj1 Hc) (proj2 Hc) w Hw).
Qed.

Lemma nf_learn {A : Type} kids p l r n (m : St World A) Q :
  LeftChild n = Some l -> RightChild n = Some r ->
  no_fault (Inv ((p, l, r) :: kids)) m Q ->
  no_fault (fun w => Inv kids w /\ lookup_node w p = Some n) m Q.
Proof.
  intros Hl Hr Hm w [[Hs Hk] Hn]. apply Hm. split; [exact Hs|].
  constructor; [|exact Hk]. exists n. cbn. auto.
Qed.

Lemma Inv_drop kids w : Inv kids w -> Inv [] w.
Proof. intros [Hs _]. split; [exact Hs | constructor]. Qed.

Lemma T_set kids upd p :
  valid w0 p -> keeps_children upd ->
  (forall n, node_ok w0 n -> node_ok w0 (upd n)) ->
  no_fault (Inv kids) (tri_set upd p) (fun _ => Inv kids).
Proof.
  intros Hp Hkeep Hok w Hw. destruct (Inv_lookup kids w p Hw Hp) as (n & Hn & Hnok).
  destruct (update_node_exists w p n (upd n) Hn) as [w' Hupd].
  assert (Hrun : tri_set upd p w = Done (tt, w')).
  { unfold tri_set. rewrite Hn, Hupd. reflexivity. }
  rewrite Hrun. split.
  - eapply sound_update; [exact (proj1 Hw) | apply Hok; exact Hnok | exact Hupd].
  - exact (kids_at_tri_set kids upd p Hkeep w (proj2 Hw) tt w' Hrun).
Qed.

Lemma R_set {B : Type} kids upd p (k : unit -> St World B) Q :
  valid w0 p -> keeps_children upd ->
  (forall n, node_ok w0 n -> node_ok w0 (upd n)) ->
  no_fault (Inv kids) (k tt) Q ->
  no_fault (Inv kids) (bind (tri_set upd p) k) Q.
Proof.
  intros Hp Hkeep Hok Hk. eapply nf_bind; [apply T_set; assumption|].
  intros []. exact Hk.
Qed.

Lemma R_ptr_left {B : Type} kids p l r (k : NodePtr -> St World B) Q :
  In (p, l, r) kids ->
  no_fault (Inv kids) (k l) Q ->
  no_fault (Inv kids) (bind (ptr (tri_get LeftChild p)) k) Q.
Proof.
  intros Hin Hk w Hw.
  pose proof (proj1 (List.Forall_forall _ _) (proj2 Hw) _ Hin) as (n & Hn & Hl & Hr).
  cbn in *. unfold ptr.
  rewrite (bind_Done _ _ w l w).
  - apply Hk. exact Hw.
  - rewrite (bind_Done _ _ _ _ _ (tri_get_Done LeftChild p w n Hn)). rewrite Hl. reflexivity.
Qed.

Lemma R_ptr_right {B : Type} kids p l r (k : NodePtr -> St World B) Q :
  In (p, l, r) kids ->
  no_fault (Inv kids) (k r) Q ->
  no_fault (Inv kids) (bind (ptr (tri_get RightChild p)) k) Q.
Proof.
  intros Hin Hk w Hw.
  pose proof (proj1 (List.Forall_forall _ _) (proj2 Hw) _ Hin) as (n & Hn & Hl & Hr).
  cbn in *. unfold ptr.
  rewrite (bind_Done _ _ w r w).
  - apply Hk. exact Hw.
  - rewrite (bind_Done _ _ _ _ _ (tri_get_Done RightChild p w n Hn)). rewrite Hr. reflexivity.
Qed.

Lemma kids_valid kids w p l r :
  Inv kids w -> In (p, l, r) kids -> valid w0 p /\ valid w0 l /\ valid w0 r.
Proof.
  intros [(Hv & Hn & _) Hk] Hin.
  pose proof (proj1 (List.Forall_forall _ _) Hk _ Hin) as (n & Hpn & Hl & Hr). cbn in *.
  destruct (Hn p n Hpn) as (H1 & H2 & _).
  split; [apply Hv; exists n; exact Hpn|]. split; [apply H1; exact Hl | apply H2; exact Hr].
Qed.

End Safety.

Lemma Allocate_cases pl :
  pool_wf pl ->
  (Allocate pl = Done (false, None, None, mkPool (pool pl) (nextTriNodeIdx pl)))
  \/ (Allocate pl = Done (true, Some (nextTriNodeIdx pl), Some (S (nextTriNodeIdx pl)),
                          mkPool (pool pl) (S (S (nextTriNodeIdx pl))))
      /\ (S (nextTriNodeIdx pl) < length (pool pl))%nat).
Proof.
  intros (Hcap & Hcur & Hle). unfold Allocate. destruct (OutOfNodes pl) eqn:Hout.
  - left. destruct pl; reflexivity.
  - right. unfold OutOfNodes in Hout. apply Nat.leb_gt in Hout.
    assert (Hlt : (S (nextTriNodeIdx pl) < length (pool pl))%nat).
    { destruct Hcap as [a Ha], Hcur as [c Hc]. lia. }
    apply Nat.ltb_lt in Hlt as Hb. rewrite Hb. split; [reflexivity | exact Hlt].
Qed.

Lemma node_ok_children w n l r :
  node_ok w n -> opt_valid w l -> opt_valid w r -> (l = None <-> r = None) ->
  node_ok w (with_RightChild r (with_LeftChild l n)).
Proof.
  intros (_ & _ & H3 & H4 & H5 & _) Hl Hr Hlr. unfold node_ok. cbn. auto 10.
Qed.

Lemma move_cursor_pools w s t pl c s' t' pl' :
  pools w s !! t = Some pl ->
  pools (with_pools s (<[t := mkPool (pool pl) c]> (pools w s)) w) s' !! t' = Some pl' ->
  (s' = s /\ t' = t /\ pl' = mkPool (pool pl) c)
  \/ ((s' <> s \/ t' <> t) /\ pools w s' !! t' = Some pl').
Proof.
  intros Hpl. rewrite pools_with_pools. destruct (decide (s' = s)) as [->|Hs]; [|auto].
  destruct (decide (t' = t)) as [->|Ht].
  - rewrite list_lookup_insert_eq by (eapply lookup_lt_Some; exact Hpl).
    intros [= <-]. auto.
  - rewrite list_lookup_insert_ne by congruence. auto.
Qed.

(** the allocation of the children of [tri] cannot fault, and on success
    [tri] has two valid children *)
Lemma T_alloc self pay w0 tri s t :
  curTriPool pay = Some (s, t) -> valid w0 tri ->
  no_fault (Inv self pay w0 []) (curTriPool_Allocate self tri)
    (fun ok w =>
       if ok then exists l r, Inv self pay w0 [(tri, l, r)] w /\ valid w0 l /\ valid w0 r
       else Inv self pay w0 [] w).
Proof.
  intros Hcurpay Htri w Hw.
  destruct (Inv_lookup self pay w0 [] w tri Hw Htri) as (n & Hn & Hnok).
  destruct Hw as [(Hv & Hnodes & Hwf & (P & HP & Hpay) & Hex) _].
  assert (Hcur : curTriPool P = Some (s, t)).
  { rewrite <- Hcurpay, <- Hpay. reflexivity. }
  destruct (Hex s t Hcurpay) as [pl Hpl].
  pose proof (Hwf s t pl Hpl) as Hplwf.
  assert (Hres : exists ok l r c,
            Allocate pl = Done (ok, l, r, mkPool (pool pl) c)
            /\ pool_wf (mkPool (pool pl) c)
            /\ ((ok = false /\ l = None /\ r = None)
                \/ (ok = true /\ exists i, l = Some i /\ r = Some (S i)
                      /\ (S i < length (pool pl))%nat))).
  { destruct (Allocate_cases pl Hplwf) as [HA|[HA Hlt]].
    - exists false, None, None, (nextTriNodeIdx pl). split; [exact HA|].
      split; [exact (Allocate_wf _ _ _ _ _ Hplwf HA) | left; auto].
    - exists true, (Some (nextTriNodeIdx pl)), (Some (S (nextTriNodeIdx pl))),
        (S (S (nextTriNodeIdx pl))).
      split; [exact HA|]. split; [exact (Allocate_wf _ _ _ _ _ Hplwf HA)|].
      right. split; [reflexivity|]. exists (nextTriNodeIdx pl). auto. }
  destruct Hres as (ok & l & r & c & HA & Hwf' & Hlr).
  set (w1 := with_pools s (<[t := mkPool (pool pl) c]> (pools w s)) w).
  assert (Hlook1 : forall q, lookup_node w1 q = lookup_node w q)
    by (intros q; apply lookup_node_move_cursor; exact Hpl).
  set (L := PoolNode s t <$> l). set (R := PoolNode s t <$> r).
  destruct (update_node_exists w1 tri n (with_LeftChild L n)) as [w2 Hu2];
    [rewrite Hlook1; exact Hn|].
  pose proof (update_node_lookup_same _ _ _ _ Hu2) as Hn2.
  destruct (update_node_exists w2 tri _ (with_RightChild R (with_LeftChild L n)) Hn2)
    as [w3 Hu3].
  pose proof (update_node_lookup_same _ _ _ _ Hu3) as Hn3.
  assert (Hrun : curTriPool_Allocate self tri w = Done (ok, w3)).
  { unfold curTriPool_Allocate.
    rewrite (bind_Done _ _ _ _ _ (patch_get_Done self curTriPool w P HP)).
    rewrite Hcur. rewrite (bind_Done _ _ w (s, t) w) by reflexivity.
    rewrite (bind_Done _ _ w w w) by reflexivity.
    rewrite Hpl. rewrite (bind_Done _ _ w pl w) by reflexivity.
    rewrite (bind_Done _ _ w (ok, l, r, mkPool (pool pl) c) w)
      by (unfold lift; rewrite HA; reflexivity).
    rewrite (bind_Done _ _ w tt w1) by reflexivity.
    rewrite (bind_Done _ _ w1 tt w2)
      by (unfold tri_set; rewrite Hlook1, Hn; fold L; rewrite Hu2; reflexivity).
    rewrite (bind_Done _ _ w2 tt w3)
      by (unfold tri_set; rewrite Hn2; fold R; rewrite Hu3; reflexivity).
    reflexivity. }
  rewrite Hrun.
  assert (HvL : opt_valid w0 L /\ opt_valid w0 R /\ (L = None <-> R = None)).
  { destruct Hlr as [(_ & -> & ->)|(_ & i & -> & -> & Hlt)]; subst L R; cbn.
    - repeat split; try (intros q [=]); auto.
    - assert (Hvi : forall j, (j <= S i)%nat -> valid w0 (PoolNode s t j)).
      { intros j Hj. apply Hv. unfold valid. cbn [lookup_node]. rewrite Hpl.
        apply lookup_lt_is_Some_2. lia. }
      repeat split; try (intros q [= <-]; apply Hvi; lia); discriminate. }
  destruct HvL as (HL & HR & HLR).
  assert (Hsound : sound self pay w0 w3).
  { split; [|split; [|split; [|split]]].
    - intros q. rewrite (update_node_valid _ _ _ _ q Hu3), (update_node_valid _ _ _ _ q Hu2).
      unfold valid. rewrite Hlook1. apply Hv.
    - intros q m Hq. destruct (decide (q = tri)) as [->|Hne].
      + rewrite Hn3 in Hq. injection Hq as <-. apply node_ok_children; assumption.
      + rewrite (update_node_lookup_other _ _ _ _ q Hu3 Hne),
          (update_node_lookup_other _ _ _ _ q Hu2 Hne), Hlook1 in Hq.
        eapply Hnodes. exact Hq.
    - intros s' t' pl3 Hpl3.
      destruct (update_node_pools _ _ _ _ _ _ _ Hu3 Hpl3) as (pl2 & Hpl2 & Hl3 & Hc3).
      destruct (update_node_pools _ _ _ _ _ _ _ Hu2 Hpl2) as (pl1 & Hpl1 & Hl2 & Hc2).
      apply (pool_wf_same_shape pl1 pl3); [congruence | congruence |].
      destruct (move_cursor_pools _ _ _ _ _ _ _ _ Hpl Hpl1) as [(-> & -> & ->)|[_ Hold]];
        [exact Hwf' | exact (Hwf _ _ _ Hold)].
    - assert (HP1 : patches w1 !! self = Some P)
        by (unfold w1; rewrite patches_with_pools; exact HP).
      destruct (update_node_payload self _ _ _ _ P Hu2 HP1) as (P2 & HP2 & E2).
      destruct (update_node_payload self _ _ _ _ P2 Hu3 HP2) as (P3 & HP3 & E3).
      exists P3. split; [exact HP3 | congruence].
    - intros s' t' Hst.
      eapply update_node_pool_exists; [exact Hu3|].
      eapply update_node_pool_exists; [exact Hu2|].
      destruct (Hex s' t' Hst) as [pl0 Hpl0]. unfold w1. rewrite pools_with_pools.
      destruct (decide (s' = s)) as [->|_]; [|eauto].
      apply lookup_lt_is_Some_2. rewrite length_insert. eapply lookup_lt_Some. exact Hpl0. }
  destruct Hlr as [(-> & _)|(-> & i & El & Er & Hlt)].
  - split; [exact Hsound | constructor].
  - exists (PoolNode s t i), (PoolNode s t (S i)).
    split; [split; [exact Hsound|]|].
    + constructor; [|constructor]. exists (with_RightChild R (with_LeftChild L n)).
      split; [exact Hn3|]. subst L R. rewrite El, Er. cbn. auto.
    + subst L R. rewrite El in HL. rewrite Er in HR. split; [apply HL | apply HR]; reflexivity.
Qed.

Lemma nf_bind_ret {T A B : Type} (pre : T -> Prop) (a : A) (k : A -> St T B) Q :
  no_fault pre (k a) Q -> no_fault pre (bind (ret a) k) Q.
Proof. intros H s Hs. exact (H s Hs). Qed.

Lemma nf_ex2 {A : Type} (R : NodePtr -> NodePtr -> World -> Prop) (phi : NodePtr -> NodePtr -> Prop)
    (m : St World A) Q :
  (forall l r, phi l r -> no_fault (R l r) m Q) ->
  no_fault (fun w => exists l r, R l r w /\ phi l r) m Q.
Proof. intros H w (l & r & Hw & Hphi). exact (H l r Hphi w Hw). Qed.

Lemma node_ok_fields w n :
  node_ok w n ->
  opt_valid w (LeftChild n) /\ opt_valid w (RightChild n) /\ opt_valid w (BaseNeighbor n)
  /\ opt_valid w (LeftNeighbor n) /\ opt_valid w (RightNeighbor n).
Proof. intros (H1 & H2 & H3 & H4 & H5 & _). auto. Qed.

Lemma node_ok_with_BaseNeighbor w v n :
  opt_valid w v -> node_ok w n -> node_ok w (with_BaseNeighbor v n).
Proof. intros Hv (H1 & H2 & H3 & H4 & H5 & H6). unfold node_ok. cbn. auto 10. Qed.

Lemma node_ok_with_LeftNeighbor w v n :
  opt_valid w v -> node_ok w n -> node_ok w (with_LeftNeighbor v n).
Proof. intros Hv (H1 & H2 & H3 & H4 & H5 & H6). unfold node_ok. cbn. auto 10. Qed.

Lemma node_ok_with_RightNeighbor w v n :
  opt_valid w v -> node_ok w n -> node_ok w (with_RightNeighbor v n).
Proof. intros Hv (H1 & H2 & H3 & H4 & H5 & H6). unfold node_ok. cbn. auto 10. Qed.

Lemma opt_valid_None w : opt_valid w None.
Proof. intros q [=]. Qed.

Lemma opt_valid_Some w q : valid w q -> opt_valid w (Some q).
Proof. intros H q' [= <-]. exact H. Qed.

Lemma branch_children w n :
  node_ok w n -> IsBranch n = true ->
  exists l r, LeftChild n = Some l /\ RightChild n = Some r /\ valid w l /\ valid w r.
Proof.
  intros (H1 & H2 & _ & _ & _ & H6) Hb. unfold IsBranch, IsLeaf in Hb.
  destruct (LeftChild n) as [l|] eqn:El, (RightChild n) as [r|] eqn:Er; cbn in Hb.
  - exists l, r. auto.
  - destruct H6 as [_ H6]. specialize (H6 eq_refl). discriminate.
  - destruct H6 as [H6 _]. specialize (H6 eq_refl). discriminate.
  - discriminate.
Qed.

Lemma keeps_children_BaseNeighbor v : keeps_children (with_BaseNeighbor v).
Proof. intros n. split; reflexivity. Qed.
Lemma keeps_children_LeftNeighbor v : keeps_children (with_LeftNeighbor v).
Proof. intros n. split; reflexivity. Qed.
Lemma keeps_children_RightNeighbor v : keeps_children (with_RightNeighbor v).
Proof. intros n. split; reflexivity. Qed.

Lemma Split_kids self pay w0 kids fuel tri :
  no_fault (Inv self pay w0 []) (Split fuel self tri) (fun _ => Inv self pay w0 []) ->
  no_fault (Inv self pay w0 kids) (Split fuel self tri) (fun _ => Inv self pay w0 kids).
Proof.
  intros H.
  eapply nf_weaken;
    [exact (nf_and _ (kids_at kids) _ _ H (kids_at_Split kids fuel self tri)) | |].
  - intros w [Hs Hk]. split; [split; [exact Hs | constructor] | exact Hk].
  - intros a w [[Hs _] Hk]. split; assumption.
Qed.

Ltac valid_tac :=
  first
    [ assumption
    | match goal with
      | Hok : node_ok _ ?n, E : _ ?n = Some ?q |- valid _ ?q =>
        let H := fresh in
        pose proof (node_ok_fields _ _ Hok) as (? & ? & ? & ? & ?);
        match goal with Hf : opt_valid _ _ |- _ => exact (Hf q E) end
      end ].

Ltac opt_valid_tac :=
  first
    [ apply opt_valid_None
    | apply opt_valid_Some; valid_tac
    | match goal with
      | Hok : node_ok _ ?n |- opt_valid _ (_ ?n) =>
        pose proof (node_ok_fields _ _ Hok) as (? & ? & ? & ? & ?); assumption
      end ].

Ltac node_ok_tac :=
  let m := fresh "m" in let Hm := fresh "Hm" in
  intros m Hm;
  first [ apply node_ok_with_BaseNeighbor | apply node_ok_with_LeftNeighbor
        | apply node_ok_with_RightNeighbor ];
  [opt_valid_tac | exact Hm].

Ltac keeps_tac :=
  first [ apply keeps_children_BaseNeighbor | apply keeps_children_LeftNeighbor
        | apply keeps_children_RightNeighbor ].

Ltac in_tac := cbn [In]; auto 10.

(** one step of a run under the invariant *)
Ltac nf_step :=
  match goal with
  | |- no_fault _ (ret _) _ =>
    apply nf_ret; intros ? ?; first [assumption | eapply Inv_drop; eassumption]
  | |- no_fault _ (bind (ret _) _) _ => apply nf_bind_ret
  | |- no_fault _ (bind (ptr (tri_get LeftChild _)) _) _ =>
    eapply R_ptr_left; [in_tac|]
  | |- no_fault _ (bind (ptr (tri_get RightChild _)) _) _ =>
    eapply R_ptr_right; [in_tac|]
  | |- no_fault _ (bind (tri_get _ _) _) _ =>
    apply R_get; [valid_tac | let n := fresh "n" in let Hok := fresh "Hok" in
                              intros n Hok; apply nf_forget]
  | |- no_fault _ (bind (tri_set _ _) _) _ =>
    apply R_set; [valid_tac | keeps_tac | node_ok_tac |]
  | |- no_fault _ (tri_set _ _) _ =>
    apply T_set; [valid_tac | keeps_tac | node_ok_tac]
  | |- no_fault _ (if decide _ then _ else _) _ => destruct (decide _)
  | |- no_fault _ (match ?f ?n with Some _ => _ | None => _ end) _ =>
    let q := fresh "q" in let E := fresh "E" in destruct (f n) as [q|] eqn:E
  end.

Lemma Split_sound self pay w0 s t :
  curTriPool pay = Some (s, t) ->
  forall fuel tri, valid w0 tri ->
    no_fault (Inv self pay w0 []) (Split fuel self tri) (fun _ => Inv self pay w0 []).
Proof.
  intros Hcur. induction fuel as [|fuel IH]; intros tri Htri; [apply nf_out_of_fuel|].
  cbn [Split].
  apply R_get; [valid_tac|]. intros n0 Hok0. apply nf_forget.
  destruct (IsLeaf n0); cbn [negb]; [|nf_step].
  nf_step.
  eapply nf_bind with (mid := fun _ => Inv self pay w0 []).
  { nf_step; [|nf_step]. nf_step. nf_step; [nf_step|].
    eapply nf_bind; [apply IH; valid_tac|]. intros ?. nf_step. }
  intros ?.
  eapply nf_bind; [exact (T_alloc self pay w0 tri s t Hcur Htri)|].
  intros ok. destruct ok; cbn [negb]; [|nf_step].
  apply nf_ex2. intros lc rc [Hlc Hrc].
  apply R_get; [valid_tac|]. intros n1 Hok1.
  eapply nf_known; [in_tac|]. intros Hl1 Hr1.
  replace (IsBranch n1) with true by (unfold IsBranch, IsLeaf; rewrite Hl1; reflexivity).
  change (assert_ true) with (ret (S := World) tt).
  do 13 nf_step.
  (* link our left-neighbor to the new children *)
  nf_step.
  eapply nf_bind with (mid := fun _ => Inv self pay w0 [(tri, lc, rc)]).
  { repeat nf_step. }
  intros ?.
  (* link our right-neighbor to the new children *)
  nf_step.
  eapply nf_bind with (mid := fun _ => Inv self pay w0 [(tri, lc, rc)]).
  { repeat nf_step. }
  intros ?.
  (* link our base-neighbor to the new children *)
  nf_step.
  eapply nf_bind with (mid := fun _ => Inv self pay w0 [(tri, lc, rc)]); [|intros ?; nf_step].
  nf_step.
  - (* a base neighbour *)
    apply R_get; [valid_tac|]. intros nb Hokb.
    destruct (IsBranch nb) eqn:Hbr.
    + destruct (branch_children w0 nb Hokb Hbr) as (x & y & Hx & Hy & Hvx & Hvy).
      eapply nf_learn; [exact Hx | exact Hy |].
      eapply nf_weaken with (pre' := Inv self pay w0 [(q, x, y); (tri, lc, rc)])
                            (post' := fun _ => Inv self pay w0 [(q, x, y); (tri, lc, rc)]);
        [| auto |].
      * repeat nf_step.
      * intros ? w [Hs Hk]. split; [exact Hs|]. inversion Hk; assumption.
    + apply nf_forget.
      eapply nf_bind; [apply Split_kids; apply IH; valid_tac|]. intros ?. nf_step.
  - (* edge triangle *)
    repeat nf_step.
Qed.

Lemma sound_can_allocate self pay w0 w s t :
  curTriPool pay = Some (s, t) -> sound self pay w0 w -> can_allocate self w.
Proof.
  intros Hcur (_ & _ & _ & (P & HP & Hpay) & Hex).
  exists P, s, t. split; [exact HP|]. split; [|apply Hex; exact Hcur].
  rewrite <- Hcur, <- Hpay. reflexivity.
Qed.

(** X14: [Split] is memory safe on a closed mesh.  If no node of the world
    holds a dangling pointer or a single child, the pools are well formed
    and the patch has selected an existing pool, then [Split] of any
    existing node never dereferences a null or dangling pointer, never
    trips its assertion and never reads beyond a pool: the run does not
    fault.  When it returns the mesh is closed again, the patch can still
    allocate, and exactly the same node addresses exist. *)
Theorem Split_never_faults (fuel self : nat) (tri : NodePtr) (w : World)
    (Hclosed : mesh_closed w) (Hcan : can_allocate self w) (Htri : valid w tri) :
  match Split fuel self tri w with
  | Done (b, w') =>
    mesh_closed w' /\ can_allocate self w' /\ (forall p, valid w' p <-> valid w p)
  | Fault => False
  | OutOfFuel => True
  end.
Proof.
  destruct Hcan as (P & s & t & HP & Hcur & Hex).
  assert (Hsound : sound self (payload P) w w).
  { apply sound_start; [exact Hclosed | exact HP|].
    intros s' t' E. rewrite Hcur in E. injection E as <- <-. exact Hex. }
  pose proof (Split_sound self (payload P) w s t Hcur fuel tri Htri w
                (conj Hsound (List.Forall_nil _))) as H.
  destruct (Split fuel self tri w) as [[b w']| |]; [|exact H|exact H].
  destruct H as [Hs _].
  split; [exact (sound_closed _ _ _ _ Hs)|].
  split; [exact (sound_can_allocate self (payload P) w w' s t Hcur Hs) | exact (proj1 Hs)].
Qed.

Ltac node_ok_concrete :=
  unfold node_ok, opt_valid, valid; cbn;
  repeat split; try discriminate;
  try (intros ? [= <-]; cbn; eauto).

Lemma fresh_world_closed (n : nat) : Nat.Even n -> mesh_closed (fresh_world n).
Proof.
  intros Hn. split.
  - intros p m Hp. destruct p as [[|k]|[|k]|s t i]; cbn in Hp; try discriminate.
    + injection Hp as <-. node_ok_concrete.
    + injection Hp as <-. node_ok_concrete.
    + destruct s; [destruct t; discriminate|]. destruct t as [|t]; [|destruct t; discriminate].
      cbn in Hp. apply lookup_replicate in Hp as [-> _]. node_ok_concrete.
  - intros s t pl Hpl. destruct s; [destruct t; discriminate|].
    destruct t as [|t]; [|destruct t; discriminate]. cbn in Hpl. injection Hpl as <-.
    unfold pool_wf. cbn. rewrite length_replicate.
    split; [exact Hn|]. split; [exists 0%nat; reflexivity | lia].
Qed.

Lemma fresh_world_can_allocate (n : nat) : can_allocate 0 (fresh_world n).
Proof. exists fresh_patch, false, 0%nat. cbn. eauto. Qed.

Lemma Split_never_faults_witness :
  match Split 2 0 (BaseLeftOf 0) (fresh_world 4) with
  | Done (b, w') =>
    mesh_closed w' /\ can_allocate 0 w' /\ (forall p, valid w' p <-> valid (fresh_world 4) p)
  | Fault => False
  | OutOfFuel => True
  end.
Proof.
  apply (Split_never_faults 2 0 (BaseLeftOf 0) (fresh_world 4)).
  - apply fresh_world_closed. exists 2%nat. reflexivity.
  - apply fresh_world_can_allocate.
  - unfold valid. cbn. eauto.
Defined.

(** ** Pointer safety of the tessellation *)

(** the variance array that [currentVariance] selects holds an entry for
    every node within the depth bound *)
Definition variance_ready (VD : Z) (pay : Patch) : Prop :=
  0 <= VD
  /\ exists a, currentVariance pay = Some a
               /\ 2 ^ VD <= Z.of_nat (length (field_of a pay)).

Lemma T_triVariance self pay w0 kids PS VD left right node :
  variance_ready VD pay -> 0 <= node ->
  no_fault (Inv self pay w0 kids) (triVariance_of PS VD self left right node)
    (fun _ => Inv self pay w0 kids).
Proof.
  intros (HVD & a & Hcv & Hlen) Hnode w Hw.
  destruct Hw as [Hs Hk]. pose proof Hs as (_ & _ & _ & (P & HP & Hpay) & _).
  assert (HcvP : currentVariance P = Some a).
  { rewrite <- Hcv, <- Hpay. reflexivity. }
  assert (HfP : field_of a P = field_of a pay).
  { rewrite <- Hpay. destruct a; reflexivity. }
  assert (Hex : exists tv, scaled_variance_spec PS VD P left right node = Some tv).
  { unfold scaled_variance_spec. destruct (node <? 2 ^ VD) eqn:Hd; [|eauto].
    apply Z.ltb_lt in Hd. rewrite HcvP.
    change (match a with VarianceLeft => varianceLeft P | VarianceRight => varianceRight P end)
      with (field_of a P).
    destruct (array_get_in_range (field_of a P) node) as [e He]; [rewrite HfP; lia|].
    rewrite He. eauto. }
  destruct Hex as [tv Htv].
  rewrite (triVariance_of_spec PS VD self left right node w P tv HVD HP Htv).
  split; assumption.
Qed.

Lemma Inv_tail self pay w0 k kids w : Inv self pay w0 (k :: kids) w -> Inv self pay w0 kids w.
Proof. intros [Hs Hk]. split; [exact Hs|]. inversion Hk; assumption. Qed.

Lemma RecursTessellate_sound self pay w0 s t PS VD :
  curTriPool pay = Some (s, t) -> variance_ready VD pay ->
  forall fuel tri left right apex node kids,
    valid w0 tri -> 0 <= node ->
    no_fault (Inv self pay w0 kids)
      (RecursTessellate fuel PS VD self (Some tri) left right apex node)
      (fun _ => Inv self pay w0 kids).
Proof.
  intros Hcur Hready.
  induction fuel as [|fuel IH]; intros tri left right apex node kids Htri Hnode;
    [apply nf_out_of_fuel|].
  cbn [RecursTessellate].
  destruct ((Z.abs (int2.x left - int2.x right) <=? 1)
            && (Z.abs (int2.y left - int2.y right) <=? 1)); [nf_step|].
  eapply nf_bind; [apply T_triVariance; assumption|]. intros tv.
  destruct (leb tv one); [nf_step|].
  change (deref (Some tri)) with (ret (S := World) tri). apply nf_bind_ret.
  eapply nf_bind;
    [apply Split_kids; apply (Split_sound self pay w0 s t Hcur); exact Htri|].
  intros ?.
  apply R_get; [valid_tac|]. intros n Hok.
  destruct (IsBranch n) eqn:Hbr; [|apply nf_forget; nf_step].
  destruct (branch_children w0 n Hok Hbr) as (x & y & Hx & Hy & Hvx & Hvy).
  eapply nf_learn; [exact Hx | exact Hy |].
  eapply nf_weaken with (pre' := Inv self pay w0 ((tri, x, y) :: kids))
                        (post' := fun _ => Inv self pay w0 ((tri, x, y) :: kids));
    [| auto | intros ? w Hw; eapply Inv_tail; exact Hw].
  cbv zeta.
  apply R_get; [valid_tac|]. intros n1 Hok1.
  eapply nf_known; [left; reflexivity|]. intros Hl1 Hr1. rewrite Hl1.
  eapply nf_bind;
    [apply IH; [exact Hvx | rewrite Z.shiftl_mul_pow2 by lia; lia]|].
  intros ?.
  apply R_get; [valid_tac|]. intros n2 Hok2.
  eapply nf_known; [left; reflexivity|]. intros Hl2 Hr2. rewrite Hr2.
  apply IH; [exact Hvy | rewrite Z.shiftl_mul_pow2 by lia; lia].
Qed.

(** a change of the members of a patch that leaves its root nodes alone *)
Definition roots_kept (f : Patch -> Patch) : Prop :=
  forall P, baseLeft (f P) = baseLeft P /\ baseRight (f P) = baseRight P.

Lemma patch_modify_run self f w P :
  patches w !! self = Some P -> roots_kept f ->
  exists w',
    patch_modify self f w = Done (tt, w')
    /\ patches w' !! self = Some (f P)
    /\ (forall q, lookup_node w' q = lookup_node w q)
    /\ (forall s, pools w' s = pools w s).
Proof.
  intros HP Hf. exists (with_patches (<[self := f P]> (patches w)) w).
  split; [exact (patch_modify_Done self f w P HP)|].
  split; [rewrite patches_with_patches; eapply lookup_patch_updated; exact HP|].
  split; [|intros s; destruct s; reflexivity].
  destruct (Hf P) as [HL HR].
  intros [k|k|s t i]; cbn [lookup_node]; rewrite ?patches_with_patches.
  - destruct (decide (k = self)) as [->|Hne].
    + rewrite (lookup_patch_updated _ _ _ _ HP), HP, HL. reflexivity.
    + rewrite list_lookup_insert_ne by congruence. reflexivity.
  - destruct (decide (k = self)) as [->|Hne].
    + rewrite (lookup_patch_updated _ _ _ _ HP), HP, HR. reflexivity.
    + rewrite list_lookup_insert_ne by congruence. reflexivity.
  - destruct s; reflexivity.
Qed.

Lemma mesh_closed_same w w' :
  (forall q, lookup_node w' q = lookup_node w q) -> (forall s, pools w' s = pools w s) ->
  mesh_closed w -> mesh_closed w'.
Proof.
  intros Hl Hp [Hn Hwf]. split.
  - intros p n Hpn. rewrite Hl in Hpn.
    apply (node_ok_same_valid w w'); [|eapply Hn; exact Hpn].
    intros q. unfold valid. rewrite Hl. reflexivity.
  - intros s t pl Hpl. rewrite Hp in Hpl. eapply Hwf. exact Hpl.
Qed.

Lemma GetPool_run threadNum shadowPass w :
  0 <= threadNum < Z.of_nat (length (pools w shadowPass)) ->
  GetPool threadNum shadowPass w = Done ((shadowPass, Z.to_nat threadNum), w).
Proof.
  intros Hn. destruct (array_get_in_range (pools w shadowPass) threadNum Hn) as [pl Hpl].
  unfold GetPool, bind, get, lift. rewrite Hpl. reflexivity.
Qed.

(** the run of a tessellation pass over one root triangle, from a closed
    mesh *)
Lemma RecursTessellate_run fuel PS VD self root left right apex w P s t :
  mesh_closed w -> patches w !! self = Some P ->
  curTriPool P = Some (s, t) -> is_Some (pools w s !! t) ->
  variance_ready VD (payload P) -> valid w root ->
  match RecursTessellate fuel PS VD self (Some root) left right apex 1 w with
  | Done (_, w') =>
    mesh_closed w' /\ (forall p, valid w' p <-> valid w p)
    /\ (exists P', patches w' !! self = Some P' /\ payload P' = payload P)
    /\ is_Some (pools w' s !! t)
  | Fault => False
  | OutOfFuel => True
  end.
Proof.
  intros Hclosed HP Hcur Hex Hready Hroot.
  assert (Hsound : sound self (payload P) w w).
  { apply sound_start; [exact Hclosed | exact HP|].
    intros s' t' E. rewrite Hcur in E. injection E as <- <-. exact Hex. }
  pose proof (RecursTessellate_sound self (payload P) w s t PS VD Hcur Hready fuel root
                left right apex 1 [] Hroot ltac:(lia) w (conj Hsound (List.Forall_nil _))) as H.
  destruct (RecursTessellate fuel PS VD self (Some root) left right apex 1 w)
    as [[u w']| |]; [|exact H|exact H].
  destruct H as [Hs _].
  split; [exact (sound_closed _ _ _ _ Hs)|]. split; [exact (proj1 Hs)|].
  destruct Hs as (_ & _ & _ & HP' & Hex'). split; [exact HP'|]. apply Hex'. exact Hcur.
Qed.

Ltac roots_tac := intros ?; split; reflexivity.

(** X15: [Tessellate] is memory safe on a closed mesh.  For a closed mesh, a
    tile whose variance arrays hold an entry for every node within the
    depth bound, and a worker number that has a pool in the pass,
    [Tessellate] never faults: it follows no null or dangling pointer
    and reads no variance entry or pool outside its array, whatever the
    heights, the camera and the state of the pools.  When it returns, the
    mesh is closed again with the same node addresses, the tile is
    marked tessellated and allocates from the worker's pool of the pass,
    the result is false exactly when that pool has no node left, and the
    vertices, variance fields and extraction lists of the tile are
    untouched. *)
Theorem Tessellate_never_faults (fuel : nat) (PATCH_SIZE VARIANCE_DEPTH SQUARE_SIZE : Z)
    (avgHeight : float) (threadNum : Z) (self : nat) (camPos : float3)
    (viewRadius : Z) (shadowPass : bool) (w : World) (P : Patch)
    (Hclosed : mesh_closed w)
    (HP : patches w !! self = Some P)
    (HVD : 0 <= VARIANCE_DEPTH)
    (HlenL : 2 ^ VARIANCE_DEPTH <= Z.of_nat (length (varianceLeft P)))
    (HlenR : 2 ^ VARIANCE_DEPTH <= Z.of_nat (length (varianceRight P)))
    (Hthread : 0 <= threadNum < Z.of_nat (length (pools w shadowPass))) :
  match Tessellate fuel PATCH_SIZE VARIANCE_DEPTH SQUARE_SIZE avgHeight threadNum self
          camPos viewRadius shadowPass w with
  | Done (b, w') =>
    mesh_closed w'
    /\ (forall p, valid w' p <-> valid w p)
    /\ exists P' pl,
         patches w' !! self = Some P'
         /\ isTesselated P' = true
         /\ curTriPool P' = Some (shadowPass, Z.to_nat threadNum)
         /\ pools w' shadowPass !! Z.to_nat threadNum = Some pl
         /\ b = negb (OutOfNodes pl)
         /\ vertices P' = vertices P
         /\ varianceLeft P' = varianceLeft P
         /\ varianceRight P' = varianceRight P
         /\ indices P' = indices P
         /\ borderVertices P' = borderVertices P
         /\ isDirty P' = isDirty P
         /\ coors P' = coors P
  | Fault => False
  | OutOfFuel => True
  end.
Proof.
  set (tn := Z.to_nat threadNum).
  assert (Hpool : is_Some (pools w shadowPass !! tn)) by (apply lookup_lt_is_Some_2; lia).
  unfold Tessellate.
  destruct (patch_modify_run self (with_isTesselated true) w P HP ltac:(roots_tac))
    as (w1 & R1 & HP1 & L1 & Q1).
  rewrite (bind_Done _ _ _ _ _ R1).
  rewrite (bind_Done _ _ _ _ _ (patch_get_Done self coors w1 _ HP1)).
  cbv zeta.
  rewrite (bind_Done _ _ _ _ _ (GetPool_run threadNum shadowPass w1
                                  ltac:(rewrite Q1; exact Hthread))).
  fold tn.
  destruct (patch_modify_run self (with_curTriPool (Some (shadowPass, tn))) w1 _ HP1
              ltac:(roots_tac)) as (w2 & R2 & HP2 & L2 & Q2).
  rewrite (bind_Done _ _ _ _ _ R2).
  match goal with |- context [bind (patch_modify self ?f) _ w2] =>
    destruct (patch_modify_run self f w2 _ HP2 ltac:(roots_tac)) as (w3 & R3 & HP3 & L3 & Q3)
  end.
  rewrite (bind_Done _ _ _ _ _ R3).
  match goal with |- context [bind (patch_modify self ?f) _ w3] =>
    destruct (patch_modify_run self f w3 _ HP3 ltac:(roots_tac)) as (w4 & R4 & HP4 & L4 & Q4)
  end.
  rewrite (bind_Done _ _ _ _ _ R4).
  match goal with |- context [bind (patch_modify self ?f) _ w4] =>
    destruct (patch_modify_run self f w4 _ HP4 ltac:(roots_tac)) as (w5 & R5 & HP5 & L5 & Q5)
  end.
  rewrite (bind_Done _ _ _ _ _ R5).
  match goal with |- context [bind (patch_modify self ?f) _ w5] =>
    destruct (patch_modify_run self f w5 _ HP5 ltac:(roots_tac)) as (w6 & R6 & HP6 & L6 & Q6)
  end.
  rewrite (bind_Done _ _ _ _ _ R6).
  match goal with |- context [bind (patch_modify self ?f) _ w6] =>
    destruct (patch_modify_run self f w6 _ HP6 ltac:(roots_tac)) as (w7 & R7 & HP7 & L7 & Q7)
  end.
  rewrite (bind_Done _ _ _ _ _ R7).
  match goal with |- context [bind (patch_modify self ?f) _ w7] =>
    destruct (patch_modify_run self f w7 _ HP7 ltac:(roots_tac)) as (w8 & R8 & HP8 & L8 & Q8)
  end.
  rewrite (bind_Done _ _ _ _ _ R8).
  rewrite (bind_Done _ _ _ _ _ (patch_get_Done self coors w8 _ HP8)).
  assert (L : forall q, lookup_node w8 q = lookup_node w q)
    by (intros q; rewrite L8, L7, L6, L5, L4, L3, L2, L1; reflexivity).
  assert (Q : forall s, pools w8 s = pools w s)
    by (intros s; rewrite Q8, Q7, Q6, Q5, Q4, Q3, Q2, Q1; reflexivity).
  clear R1 R2 R3 R4 R5 R6 R7 R8 L1 L2 L3 L4 L5 L6 L7 L8 Q1 Q2 Q3 Q4 Q5 Q6 Q7 Q8
        HP1 HP2 HP3 HP4 HP5 HP6 HP7.
  match type of HP8 with _ = Some ?X => set (P8 := X) in * end.
  assert (Hclosed8 : mesh_closed w8) by (exact (mesh_closed_same w w8 L Q Hclosed)).
  assert (Hv8 : forall p, valid w8 p <-> valid w p)
    by (intros p; unfold valid; rewrite L; reflexivity).
  pose proof (RecursTessellate_run fuel PATCH_SIZE VARIANCE_DEPTH self (BaseLeftOf self)
                (int2.mk (int2.x (coors P8)) (int2.y (coors P8) + PATCH_SIZE))
                (int2.mk (int2.x (coors P8) + PATCH_SIZE) (int2.y (coors P8)))
                (int2.mk (int2.x (coors P8)) (int2.y (coors P8)))
                w8 P8 shadowPass tn Hclosed8 HP8 eq_refl
                ltac:(rewrite Q; exact Hpool)
                ltac:(split; [exact HVD | exists VarianceLeft; split; [reflexivity | exact HlenL]])
                ltac:(unfold valid; cbn [lookup_node]; rewrite HP8; eauto)) as Hleft.
  unfold bind at 1.
  destruct (RecursTessellate fuel PATCH_SIZE VARIANCE_DEPTH self (Some (BaseLeftOf self))
              _ _ _ 1 w8) as [[u9 w9]| |]; [|exact Hleft|exact Hleft].
  destruct Hleft as (Hclosed9 & Hv9 & (P9 & HP9 & Hpay9) & Hpool9).
  destruct (patch_modify_run self (with_currentVariance (Some VarianceRight)) w9 P9 HP9
              ltac:(roots_tac)) as (w10 & R10 & HP10 & L10 & Q10).
  rewrite (bind_Done _ _ _ _ _ R10).
  rewrite (bind_Done _ _ _ _ _ (patch_get_Done self coors w10 _ HP10)).
  assert (Hcur9 : curTriPool P9 = Some (shadowPass, tn))
    by (apply (f_equal curTriPool) in Hpay9; exact Hpay9).
  assert (HR9 : varianceRight P9 = varianceRight P)
    by (apply (f_equal varianceRight) in Hpay9; exact Hpay9).
  assert (Hclosed10 : mesh_closed w10) by (exact (mesh_closed_same w9 w10 L10 Q10 Hclosed9)).
  set (P10 := with_currentVariance (Some VarianceRight) P9) in *.
  pose proof (RecursTessellate_run fuel PATCH_SIZE VARIANCE_DEPTH self (BaseRightOf self)
                (int2.mk (int2.x (coors P10) + PATCH_SIZE) (int2.y (coors P10)))
                (int2.mk (int2.x (coors P10)) (int2.y (coors P10) + PATCH_SIZE))
                (int2.mk (int2.x (coors P10) + PATCH_SIZE) (int2.y (coors P10) + PATCH_SIZE))
                w10 P10 shadowPass tn Hclosed10 HP10 Hcur9
                ltac:(rewrite Q10; exact Hpool9)
                ltac:(split; [exact HVD | exists VarianceRight; split; [reflexivity|];
                      cbn; rewrite HR9; exact HlenR])
                ltac:(unfold valid; cbn [lookup_node]; rewrite HP10; eauto)) as Hright.
  unfold bind at 1.
  destruct (RecursTessellate fuel PATCH_SIZE VARIANCE_DEPTH self (Some (BaseRightOf self))
              _ _ _ 1 w10) as [[u11 w11]| |]; [|exact Hright|exact Hright].
  destruct Hright as (Hclosed11 & Hv11 & (P11 & HP11 & Hpay11) & [pl Hpl]).
  assert (Hcur11 : curTriPool P11 = Some (shadowPass, tn))
    by (apply (f_equal curTriPool) in Hpay11; cbn in Hpay11; congruence).
  rewrite (bind_Done _ _ _ _ _ (patch_get_Done self curTriPool w11 _ HP11)).
  rewrite Hcur11. rewrite (bind_Done _ _ w11 (shadowPass, tn) w11) by reflexivity.
  rewrite (bind_Done _ _ w11 w11 w11) by reflexivity.
  rewrite Hpl. rewrite (bind_Done _ _ w11 pl w11) by reflexivity.
  cbn [ret].
  split; [exact Hclosed11|]. split.
  { intros p. rewrite Hv11. unfold valid at 1. rewrite L10. fold (valid w9 p).
    rewrite Hv9. apply Hv8. }
  exists P11, pl. split; [exact HP11|].
  assert (Hfield : forall (A : Type) (f : Patch -> A),
            (forall Q, f (payload Q) = f Q) ->
            (forall c Q, f (with_currentVariance c Q) = f Q) ->
            f P11 = f P8).
  { intros A f Hf Hc. rewrite <- (Hf P11), Hpay11, Hf. unfold P10. rewrite Hc.
    rewrite <- (Hf P9), Hpay9, Hf. reflexivity. }
  split; [rewrite (Hfield _ isTesselated) by reflexivity; reflexivity|].
  split; [exact Hcur11|]. split; [exact Hpl|]. split; [reflexivity|].
  repeat split; match goal with |- ?f P11 = _ => rewrite (Hfield _ f) by reflexivity end;
    reflexivity.
Qed.

Lemma near_world_closed : mesh_closed near_world.
Proof.
  split.
  - intros p m Hp. destruct p as [[|k]|[|k]|s t i]; cbn in Hp; try discriminate.
    + injection Hp as <-. node_ok_concrete.
    + injection Hp as <-. node_ok_concrete.
    + destruct s; [destruct t; discriminate|]. destruct t as [|t]; [|destruct t; discriminate].
      cbn in Hp.
      do 4 (destruct i as [|i]; [injection Hp as <-; node_ok_concrete|]).
      discriminate Hp.
  - intros s t pl Hpl. destruct s; [destruct t; discriminate|].
    destruct t as [|t]; [|destruct t; discriminate]. cbn in Hpl. injection Hpl as <-.
    unfold pool_wf. cbn.
    split; [exists 2%nat; reflexivity|]. split; [exists 0%nat; reflexivity | lia].
Qed.

Lemma Tessellate_never_faults_witness :
  match Tessellate 3 128 12 8 zero 0 0 (float3.mk zero zero zero) 1000 false near_world with
  | Done (b, w') =>
    mesh_closed w'
    /\ (forall p, valid w' p <-> valid near_world p)
    /\ exists P' pl,
         patches w' !! 0%nat = Some P'
         /\ isTesselated P' = true
         /\ curTriPool P' = Some (false, Z.to_nat 0)
         /\ pools w' false !! Z.to_nat 0 = Some pl
         /\ b = negb (OutOfNodes pl)
         /\ vertices P' = vertices near_tile
         /\ varianceLeft P' = varianceLeft near_tile
         /\ varianceRight P' = varianceRight near_tile
         /\ indices P' = indices near_tile
         /\ borderVertices P' = borderVertices near_tile
         /\ isDirty P' = isDirty near_tile
         /\ coors P' = coors near_tile
  | Fault => False
  | OutOfFuel => True
  end.
Proof.
  apply (Tessellate_never_faults 3 128 12 8 zero 0 0 (float3.mk zero zero zero) 1000 false
           near_world near_tile).
  - exact near_world_closed.
  - reflexivity.
  - lia.
  - cbn [varianceLeft near_tile length]. rewrite length_replicate. lia.
  - cbn [varianceRight near_tile length]. rewrite length_replicate. lia.
  - cbn. lia.
Defined.

(** ** Runs that return *)

(** a run that ends, and ends in [post] *)
Definition runs {A : Type} (pre : World -> Prop) (m : St World A)
    (post : A -> World -> Prop) : Prop :=
  forall w, pre w -> exists a w', m w = Done (a, w') /\ post a w'.

Lemma runs_bind {A B : Type} pre mid post (m : St World A) (k : A -> St World B) :
  runs pre m mid -> (forall a, runs (mid a) (k a) post) -> runs pre (bind m k) post.
Proof.
  intros Hm Hk w Hw. destruct (Hm w Hw) as (a & w1 & E & H1).
  destruct (Hk a w1 H1) as (b & w2 & E2 & H2). exists b, w2.
  split; [|exact H2]. rewrite (bind_Done _ _ _ _ _ E). exact E2.
Qed.

Lemma runs_ret {A : Type} (pre : World -> Prop) (a : A) (post : A -> World -> Prop) :
  (forall w, pre w -> post a w) -> runs pre (ret a) post.
Proof. intros H w Hw. exists a, w. split; [reflexivity | exact (H w Hw)]. Qed.

Lemma runs_ret_same {A : Type} (pre : World -> Prop) (a : A) :
  runs pre (ret a) (fun _ => pre).
Proof. intros w Hw. exists a, w. split; [reflexivity | exact Hw]. Qed.

Lemma runs_ret_bind {A B : Type} pre (a : A) (k : A -> St World B) post :
  runs pre (k a) post -> runs pre (bind (ret a) k) post.
Proof. intros H w Hw. exact (H w Hw). Qed.


(** ** Pointer safety of the extraction *)

Section Extraction.

Variable self : nat.
Variable w0 : World.
Hypothesis Hclosed : mesh_closed w0.

(** the worlds an extraction passes through: the nodes and the pools of
    [w0], and a tile [self] with the vertex array [vs] *)
Definition same_mesh (vs : list float) (w : World) : Prop :=
  (forall p, lookup_node w p = lookup_node w0 p)
  /\ (forall s, pools w s = pools w0 s)
  /\ exists P, patches w !! self = Some P /\ vertices P = vs.

Lemma E_get {A B : Type} vs (f : TriTreeNode -> A) p (k : A -> St World B) Q :
  valid w0 p ->
  (forall n, lookup_node w0 p = Some n -> no_fault (same_mesh vs) (k (f n)) Q) ->
  no_fault (same_mesh vs) (bind (tri_get f p) k) Q.
Proof.
  intros [n Hn] Hk w Hw. unfold bind, tri_get. rewrite (proj1 Hw p), Hn.
  exact (Hk n Hn w Hw).
Qed.

Lemma E_patch_get {A B : Type} vs (f : Patch -> A) (k : A -> St World B) Q :
  (forall P, vertices P = vs -> no_fault (same_mesh vs) (k (f P)) Q) ->
  no_fault (same_mesh vs) (bind (patch_get self f) k) Q.
Proof.
  intros Hk w Hw. pose proof Hw as (_ & _ & P & HP & Hvs).
  unfold bind at 1. rewrite (patch_get_Done self f w P HP).
  exact (Hk P Hvs w Hw).
Qed.

Lemma T_modify vs f :
  roots_kept f -> (forall P, vertices (f P) = vertices P) ->
  no_fault (same_mesh vs) (patch_modify self f) (fun _ => same_mesh vs).
Proof.
  intros Hr Hv w (H1 & H2 & P & HP & Hvs).
  destruct (patch_modify_run self f w P HP Hr) as (w' & Hrun & HP' & Hl & Hp).
  rewrite Hrun.
  split; [intros p; rewrite Hl; apply H1|].
  split; [intros s; rewrite Hp; apply H2|].
  exists (f P). split; [exact HP'|]. rewrite Hv. exact Hvs.
Qed.

Lemma E_modify {B : Type} vs f (k : unit -> St World B) Q :
  roots_kept f -> (forall P, vertices (f P) = vertices P) ->
  no_fault (same_mesh vs) (k tt) Q ->
  no_fault (same_mesh vs) (bind (patch_modify self f) k) Q.
Proof.
  intros Hr Hv Hk. eapply nf_bind; [apply T_modify; assumption|].
  intros []. exact Hk.
Qed.

Lemma node_of_closed p n : lookup_node w0 p = Some n -> node_ok w0 n.
Proof. exact (proj1 Hclosed p n). Qed.

Lemma RecursGenIndices_safe vs PS fuel :
  forall t left right apex,
    valid w0 t ->
    no_fault (same_mesh vs) (RecursGenIndices fuel PS self (Some t) left right apex)
      (fun _ => same_mesh vs).
Proof.
  induction fuel as [|fuel IH]; intros t left right apex Ht; [apply nf_out_of_fuel|].
  cbn [RecursGenIndices deref]. apply nf_bind_ret.
  apply (E_get vs IsLeaf t _ _ Ht). intros n Hn.
  destruct (IsLeaf n) eqn:El.
  - unfold indices_push_back.
    apply E_modify; [intros ?; split; reflexivity | reflexivity|].
    apply E_modify; [intros ?; split; reflexivity | reflexivity|].
    apply T_modify; [intros ?; split; reflexivity | reflexivity].
  - destruct (branch_children w0 n (node_of_closed t n Hn)) as (l & r & Hl & Hr & Vl & Vr).
    { unfold IsBranch. rewrite El. reflexivity. }
    apply (E_get vs LeftChild t _ _ Ht). intros n1 Hn1.
    rewrite Hn in Hn1. injection Hn1 as <-. rewrite Hl.
    eapply nf_bind; [apply IH; exact Vl|]. intros ?.
    apply (E_get vs RightChild t _ _ Ht). intros n2 Hn2.
    rewrite Hn in Hn2. injection Hn2 as <-. rewrite Hr.
    apply IH. exact Vr.
Qed.

Lemma E_vertex {B : Type} vs PS p (k : float3 -> St World B) Q :
  0 <= PS -> 3 * ((PS + 1) * (PS + 1)) <= Z.of_nat (length vs) -> in_tile PS p ->
  (forall v, no_fault (same_mesh vs) (k v) Q) ->
  no_fault (same_mesh vs)
    (bind (vertex_at self ((int2.x p + int2.y p * (PS + 1)) * 3)) k) Q.
Proof.
  intros HPS Hlen [Hx Hy] Hk w Hw. pose proof Hw as (_ & _ & P & HP & Hvs).
  set (i := (int2.x p + int2.y p * (PS + 1)) * 3).
  assert (Hi : 0 <= i /\ i + 2 < Z.of_nat (length vs)) by (subst i; nia).
  destruct (array_get_in_range vs i ltac:(lia)) as [a Ha].
  destruct (array_get_in_range vs (i + 1) ltac:(lia)) as [b Hb].
  destruct (array_get_in_range vs (i + 2) ltac:(lia)) as [c Hc].
  assert (Hrun : vertex_at self i w = Done (float3.mk a b c, w)).
  { unfold vertex_at. unfold bind at 1. rewrite (patch_get_Done self vertices w P HP).
    rewrite Hvs. unfold bind, lift. rewrite Ha, Hb, Hc. reflexivity. }
  unfold bind. rewrite Hrun. exact (Hk _ w Hw).
Qed.

Lemma push_skirt_safe vs a b :
  no_fault (same_mesh vs) (push_skirt self a b) (fun _ => same_mesh vs).
Proof.
  unfold push_skirt, borderVertices_push_back.
  do 5 (apply E_modify; [intros ?; split; reflexivity | reflexivity|]).
  apply T_modify; [intros ?; split; reflexivity | reflexivity].
Qed.

Lemma RecursGenBorderVertices_safe vs PS fuel :
  0 <= PS -> 3 * ((PS + 1) * (PS + 1)) <= Z.of_nat (length vs) ->
  forall t left rght apex depth,
    valid w0 t -> in_tile PS left -> in_tile PS rght -> in_tile PS apex ->
    no_fault (same_mesh vs)
      (RecursGenBorderVertices fuel PS self (Some t) left rght apex depth)
      (fun _ => same_mesh vs).
Proof.
  intros HPS Hlen.
  induction fuel as [|fuel IH]; intros t left rght apex depth Ht Il Ir Ia;
    [apply nf_out_of_fuel|].
  cbn [RecursGenBorderVertices deref]. apply nf_bind_ret.
  apply (E_get vs IsLeaf t _ _ Ht). intros n Hn.
  destruct (IsLeaf n) eqn:El.
  - apply (E_vertex vs PS apex _ _ HPS Hlen Ia). intros v1.
    apply (E_vertex vs PS left _ _ HPS Hlen Il). intros v2.
    apply (E_vertex vs PS rght _ _ HPS Hlen Ir). intros v3.
    destruct (Z.land (int2.x depth) 1 =? 0); [apply push_skirt_safe|].
    destruct (negb (int2.y depth =? 0)); apply push_skirt_safe.
  - destruct (branch_children w0 n (node_of_closed t n Hn)) as (l & r & Hl & Hr & Vl & Vr).
    { unfold IsBranch. rewrite El. reflexivity. }
    pose proof (in_tile_center PS left rght Il Ir) as Ic.
    destruct (Z.land (int2.x depth) 1 =? 0).
    + apply (E_get vs LeftChild t _ _ Ht). intros n1 Hn1.
      rewrite Hn in Hn1. injection Hn1 as <-. rewrite Hl.
      eapply nf_bind; [apply IH; assumption|]. intros ?.
      apply (E_get vs RightChild t _ _ Ht). intros n2 Hn2.
      rewrite Hn in Hn2. injection Hn2 as <-. rewrite Hr.
      apply IH; assumption.
    + destruct (negb (int2.y depth =? 0)).
      * apply (E_get vs LeftChild t _ _ Ht). intros n1 Hn1.
        rewrite Hn in Hn1. injection Hn1 as <-. rewrite Hl.
        apply IH; assumption.
      * apply (E_get vs RightChild t _ _ Ht). intros n2 Hn2.
        rewrite Hn in Hn2. injection Hn2 as <-. rewrite Hr.
        apply IH; assumption.
Qed.

End Extraction.

Lemma same_mesh_start self w P :
  patches w !! self = Some P -> same_mesh self w (vertices P) w.
Proof. intros HP. split; [reflexivity|]. split; [reflexivity|]. exists P. auto. Qed.

Lemma same_mesh_closed self w0 vs w :
  mesh_closed w0 -> same_mesh self w0 vs w -> mesh_closed w.
Proof. intros Hc (H1 & H2 & _). exact (mesh_closed_same w0 w H1 H2 Hc). Qed.

Lemma root_valid_left self w P : patches w !! self = Some P -> valid w (BaseLeftOf self).
Proof. intros HP. exists (baseLeft P). cbn. rewrite HP. reflexivity. Qed.

Lemma root_valid_right self w P : patches w !! self = Some P -> valid w (BaseRightOf self).
Proof. intros HP. exists (baseRight P). cbn. rewrite HP. reflexivity. Qed.

Lemma GenerateIndices_safe fuel PS self w0 vs :
  mesh_closed w0 -> is_Some (patches w0 !! self) ->
  no_fault (same_mesh self w0 vs) (GenerateIndices fuel PS self)
    (fun _ => same_mesh self w0 vs).
Proof.
  intros Hc [P HP]. unfold GenerateIndices.
  apply E_modify; [intros ?; split; reflexivity | reflexivity|].
  eapply nf_bind;
    [apply RecursGenIndices_safe; [exact Hc | exact (root_valid_left self w0 P HP)]|].
  intros ?.
  apply RecursGenIndices_safe; [exact Hc | exact (root_valid_right self w0 P HP)].
Qed.

Lemma in_tile_corners PS :
  0 <= PS ->
  in_tile PS (int2.mk 0 PS) /\ in_tile PS (int2.mk PS 0)
  /\ in_tile PS (int2.mk 0 0) /\ in_tile PS (int2.mk PS PS).
Proof. intros H. unfold in_tile. cbn. lia. Qed.

Lemma GenerateBorderVertices_safe fuel PS self w0 vs :
  mesh_closed w0 -> is_Some (patches w0 !! self) ->
  0 <= PS -> 3 * ((PS + 1) * (PS + 1)) <= Z.of_nat (length vs) ->
  no_fault (same_mesh self w0 vs) (GenerateBorderVertices fuel PS self)
    (fun _ => same_mesh self w0 vs).
Proof.
  intros Hc [P HP] HPS Hlen. unfold GenerateBorderVertices.
  destruct (in_tile_corners PS HPS) as (I1 & I2 & I3 & I4).
  pose proof (root_valid_left self w0 P HP) as VL.
  pose proof (root_valid_right self w0 P HP) as VR.
  assert (Hside : forall root depth l r a,
            valid w0 root -> in_tile PS l -> in_tile PS r -> in_tile PS a ->
            forall n : option NodePtr,
              no_fault (same_mesh self w0 vs)
                (if decide (n = None)
                 then RecursGenBorderVertices fuel PS self (Some root) l r a depth
                 else ret tt)
                (fun _ => same_mesh self w0 vs)).
  { intros root depth l r a Hv Hl Hr Ha n. destruct (decide (n = None)).
    - apply RecursGenBorderVertices_safe; assumption.
    - apply nf_ret. auto. }
  apply E_patch_get. intros P0 _.
  destruct (negb (isTesselated P0)); [apply nf_ret; auto|].
  apply E_modify; [intros ?; split; reflexivity | reflexivity|].
  apply E_modify; [intros ?; split; reflexivity | reflexivity|].
  cbv zeta.
  apply (E_get self w0 vs LeftNeighbor _ _ _ VL). intros n1 _.
  eapply nf_bind; [apply Hside; assumption|]. intros ?.
  apply (E_get self w0 vs RightNeighbor _ _ _ VL). intros n2 _.
  eapply nf_bind; [apply Hside; assumption|]. intros ?.
  apply (E_get self w0 vs RightNeighbor _ _ _ VR). intros n3 _.
  eapply nf_bind; [apply Hside; assumption|]. intros ?.
  apply (E_get self w0 vs LeftNeighbor _ _ _ VR). intros n4 _.
  apply Hside; assumption.
Qed.

(** a finished [Split] leaves a closed mesh closed *)
Lemma Split_closed fuel self tri w b w' :
  mesh_closed w -> can_allocate self w -> valid w tri ->
  Split fuel self tri w = Done (b, w') -> mesh_closed w'.
Proof.
  intros Hclosed (P & s & t & HP & Hcur & Hex) Htri Hrun.
  assert (Hsound : sound self (payload P) w w).
  { apply sound_start; [exact Hclosed | exact HP|].
    intros s' t' E. rewrite Hcur in E. injection E as <- <-. exact Hex. }
  pose proof (Split_sound self (payload P) w s t Hcur fuel tri Htri w
                (conj Hsound (List.Forall_nil _))) as H.
  rewrite Hrun in H. destruct H as [Hs _].
  exact (sound_closed _ _ _ _ Hs).
Qed.

Lemma single_tile_closed (cur max : Z) (n : nat) (P : Patch) :
  Nat.Even n ->
  baseLeft P = with_BaseNeighbor (Some (BaseRightOf 0)) TriTreeNode_new ->
  baseRight P = with_BaseNeighbor (Some (BaseLeftOf 0)) TriTreeNode_new ->
  mesh_closed (mkWorld cur max [mkPool (replicate n TriTreeNode_new) 0] [] [P]).
Proof.
  intros Hn HL HR. split.
  - intros p m Hp. destruct p as [[|k]|[|k]|s t i]; cbn in Hp; try discriminate.
    + injection Hp as <-. rewrite HL. node_ok_concrete.
    + injection Hp as <-. rewrite HR. node_ok_concrete.
    + destruct s; [destruct t; discriminate|]. destruct t as [|t]; [|destruct t; discriminate].
      cbn in Hp. apply lookup_replicate in Hp as [-> _]. node_ok_concrete.
  - intros s t pl Hpl. destruct s; [destruct t; discriminate|].
    destruct t as [|t]; [|destruct t; discriminate]. cbn in Hpl. injection Hpl as <-.
    unfold pool_wf. cbn. rewrite length_replicate.
    split; [exact Hn|]. split; [exists 0%nat; reflexivity | lia].
Qed.

Lemma ridge_world_closed : mesh_closed ridge_world.
Proof.
  assert (H0 : mesh_closed ridge_base)
    by (apply single_tile_closed; [exists 4%nat; reflexivity | reflexivity | reflexivity]).
  assert (H1 : mesh_closed ridge_once).
  { apply (Split_closed 2 0 (BaseLeftOf 0) ridge_base true ridge_once H0).
    - exists flat_tile, false, 0%nat. cbn. eauto.
    - unfold valid. cbn. eauto.
    - exact ridge_once_run. }
  apply (Split_closed 1 0 (PoolNode false 0 0) ridge_once true ridge_world H1).
  - eexists _, false, 0%nat. split; [vm_compute; reflexivity|].
    split; [reflexivity | vm_compute; eauto].
  - unfold valid. vm_compute. eauto.
  - exact ridge_world_run.
Qed.

(** X16: [GenerateIndices] is memory safe on a closed mesh.  If no node
    holds a dangling pointer or a single child and the tile exists, the
    walk over the two trees follows no null or dangling pointer, for any
    shape and depth of the mesh; when it returns, the mesh is closed
    again and all nodes are as they were. *)
Theorem GenerateIndices_never_faults (fuel : nat) (PATCH_SIZE : Z) (self : nat)
    (w : World) (P : Patch)
    (Hclosed : mesh_closed w) (HP : patches w !! self = Some P) :
  match GenerateIndices fuel PATCH_SIZE self w with
  | Done (_, w') => mesh_closed w' /\ forall p, lookup_node w' p = lookup_node w p
  | Fault => False
  | OutOfFuel => True
  end.
Proof.
  pose proof (GenerateIndices_safe fuel PATCH_SIZE self w (vertices P) Hclosed
                (ex_intro _ P HP) w (same_mesh_start self w P HP)) as H.
  destruct (GenerateIndices fuel PATCH_SIZE self w) as [[u w']| |]; [|exact H|exact H].
  split; [exact (same_mesh_closed self w _ w' Hclosed H) | exact (proj1 H)].
Qed.

Lemma GenerateIndices_never_faults_witness :
  match GenerateIndices 3 4 0 ridge_world with
  | Done (_, w') => mesh_closed w' /\ forall p, lookup_node w' p = lookup_node ridge_world p
  | Fault => False
  | OutOfFuel => True
  end.
Proof.
  apply (GenerateIndices_never_faults 3 4 0 ridge_world ridge_tile).
  - exact ridge_world_closed.
  - exact ridge_world_tile.
Defined.

(** X17: [GenerateBorderVertices] is memory safe on a closed mesh.  If no
    node holds a dangling pointer or a single child and the vertex array
    of the tile holds three floats for each of the
    (PATCH_SIZE + 1)^2 grid points, the border walk follows no null or
    dangling pointer and reads no vertex outside the array, for any
    shape and depth of the mesh and any neighbours of the roots; when it
    returns, the mesh is closed again and all nodes are as they were. *)
Theorem GenerateBorderVertices_never_faults (fuel : nat) (PATCH_SIZE : Z) (self : nat)
    (w : World) (P : Patch)
    (Hclosed : mesh_closed w) (HP : patches w !! self = Some P)
    (HPS : 0 <= PATCH_SIZE)
    (Hlen : 3 * ((PATCH_SIZE + 1) * (PATCH_SIZE + 1)) <= Z.of_nat (length (vertices P))) :
  match GenerateBorderVertices fuel PATCH_SIZE self w with
  | Done (_, w') => mesh_closed w' /\ forall p, lookup_node w' p = lookup_node w p
  | Fault => False
  | OutOfFuel => True
  end.
Proof.
  pose proof (GenerateBorderVertices_safe fuel PATCH_SIZE self w (vertices P) Hclosed
                (ex_intro _ P HP) HPS Hlen w (same_mesh_start self w P HP)) as H.
  destruct (GenerateBorderVertices fuel PATCH_SIZE self w) as [[u w']| |];
    [|exact H|exact H].
  split; [exact (same_mesh_closed self w _ w' Hclosed H) | exact (proj1 H)].
Qed.

Lemma GenerateBorderVertices_never_faults_witness :
  match GenerateBorderVertices 1 4 0 flat_world with
  | Done (_, w') => mesh_closed w' /\ forall p, lookup_node w' p = lookup_node flat_world p
  | Fault => False
  | OutOfFuel => True
  end.
Proof.
  apply (GenerateBorderVertices_never_faults 1 4 0 flat_world flat_tile).
  - apply single_tile_closed; [exists 2%nat; reflexivity | reflexivity | reflexivity].
  - reflexivity.
  - lia.
  - cbn [vertices flat_tile]. rewrite length_replicate. lia.
Defined.

(** ** The first split of a reset tile *)

Lemma patch_modify_baseLeft self x w :
  patch_modify self (with_baseLeft x) w = tri_set (fun _ => x) (BaseLeftOf self) w.
Proof.
  unfold patch_modify, tri_set, bind, get, deref, put. cbn [lookup_node update_node].
  destruct (patches w !! self); reflexivity.
Qed.

Lemma patch_modify_baseRight self x w :
  patch_modify self (with_baseRight x) w = tri_set (fun _ => x) (BaseRightOf self) w.
Proof.
  unfold patch_modify, tri_set, bind, get, deref, put. cbn [lookup_node update_node].
  destruct (patches w !! self); reflexivity.
Qed.

Section Diamond.

Variable self : nat.
Variable s : bool.
Variable t c : nat.
Variable w0 : World.

(** the two roots of the tile and the two pairs that the pool [(s, t)]
    hands out from the cursor [c] on *)
Definition diamond_nodes : list NodePtr :=
  [BaseLeftOf self; BaseRightOf self; PoolNode s t c; PoolNode s t (S c);
   PoolNode s t (S (S c)); PoolNode s t (S (S (S c)))].

(** the six nodes hold [ns], all other nodes are those of [w0], and the
    pool of the tile has its cursor at [cur] *)
Definition holds (cur : nat) (ns : list TriTreeNode) (w : World) : Prop :=
  Forall2 (fun p n => lookup_node w p = Some n) diamond_nodes ns
  /\ (forall p, ~ In p diamond_nodes -> lookup_node w p = lookup_node w0 p)
  /\ exists P pl,
       patches w !! self = Some P /\ curTriPool P = Some (s, t)
       /\ pools w s !! t = Some pl /\ nextTriNodeIdx pl = cur
       /\ (c + 4 <= length (pool pl))%nat.

Lemma diamond_NoDup : NoDup diamond_nodes.
Proof.
  unfold diamond_nodes.
  repeat (apply NoDup_cons; split;
          [rewrite ?elem_of_cons, elem_of_nil;
           intros H; repeat destruct H as [H|H];
           first [discriminate H | (injection H; lia) | exact H] |]).
  apply NoDup_nil. exact Logic.I.
Qed.

Lemma holds_lookup cur ns w i p n :
  holds cur ns w -> diamond_nodes !! i = Some p -> ns !! i = Some n ->
  lookup_node w p = Some n.
Proof. intros (H & _) Hp Hn. exact (Forall2_lookup_lr _ _ _ _ _ _ H Hp Hn). Qed.

Lemma holds_update cur ns w i p n m w' :
  holds cur ns w -> diamond_nodes !! i = Some p -> ns !! i = Some n ->
  update_node w p m = Some w' -> holds cur (<[i := m]> ns) w'.
Proof.
  intros (H1 & H2 & P & pl & HP & Hcur & Hpl & Hc & Hlen) Hp Hn Hu.
  split; [|split].
  - apply Forall2_same_length_lookup. apply Forall2_same_length_lookup in H1 as [Hl H1].
    split; [rewrite length_insert; exact Hl|].
    intros j x y Hx Hy. destruct (decide (j = i)) as [->|Hne].
    + rewrite list_lookup_insert_eq in Hy by (eapply lookup_lt_Some; exact Hn).
      injection Hy as <-. rewrite Hp in Hx. injection Hx as <-.
      exact (update_node_lookup_same _ _ _ _ Hu).
    + rewrite list_lookup_insert_ne in Hy by congruence.
      rewrite (update_node_lookup_other _ _ _ _ x Hu); [exact (H1 j x y Hx Hy)|].
      intros ->. apply Hne. exact (NoDup_lookup _ _ _ _ diamond_NoDup Hx Hp).
  - intros q Hq. rewrite (update_node_lookup_other _ _ _ _ q Hu); [exact (H2 q Hq)|].
    intros ->. apply Hq. apply list_elem_of_In. eapply list_elem_of_lookup_2. exact Hp.
  - destruct (update_node_payload self _ _ _ _ P Hu HP) as (P' & HP' & Epay).
    destruct (update_node_pool_exists _ _ _ _ s t Hu (ex_intro _ pl Hpl)) as [pl' Hpl'].
    destruct (update_node_pools _ _ _ _ _ _ _ Hu Hpl') as (pl0 & Hpl0 & El & Ec).
    rewrite Hpl in Hpl0. injection Hpl0 as <-.
    exists P', pl'. split; [exact HP'|].
    split; [change (curTriPool (payload P') = Some (s, t)); rewrite Epay; exact Hcur|].
    split; [exact Hpl'|]. split; [congruence | lia].
Qed.

Lemma D_get {A B : Type} cur ns i p n (f : TriTreeNode -> A) a (k : A -> St World B) Q :
  diamond_nodes !! i = Some p -> ns !! i = Some n -> a = f n ->
  runs (holds cur ns) (k a) Q ->
  runs (holds cur ns) (bind (tri_get f p) k) Q.
Proof.
  intros Hp Hn -> Hk w Hw.
  rewrite (bind_Done _ _ _ _ _ (tri_get_Done f p w n (holds_lookup _ _ _ _ _ _ Hw Hp Hn))).
  exact (Hk w Hw).
Qed.

Lemma D_ptr {B : Type} cur ns i p n (f : TriTreeNode -> option NodePtr) q
    (k : NodePtr -> St World B) Q :
  diamond_nodes !! i = Some p -> ns !! i = Some n -> Some q = f n ->
  runs (holds cur ns) (k q) Q ->
  runs (holds cur ns) (bind (ptr (tri_get f p)) k) Q.
Proof.
  intros Hp Hn Hq Hk w Hw. unfold ptr.
  assert (E : bind (tri_get f p) deref w = Done (q, w)).
  { rewrite (bind_Done _ _ _ _ _
               (tri_get_Done f p w n (holds_lookup _ _ _ _ _ _ Hw Hp Hn))).
    rewrite <- Hq. reflexivity. }
  rewrite (bind_Done _ _ _ _ _ E). exact (Hk w Hw).
Qed.

Lemma D_set_last cur ns i p n upd ns' :
  diamond_nodes !! i = Some p -> ns !! i = Some n -> ns' = <[i := upd n]> ns ->
  runs (holds cur ns) (tri_set upd p) (fun _ => holds cur ns').
Proof.
  intros Hp Hn -> w Hw.
  pose proof (holds_lookup _ _ _ _ _ _ Hw Hp Hn) as Hl.
  destruct (update_node_exists w p n (upd n) Hl) as [w' Hu].
  exists tt, w'. split; [unfold tri_set; rewrite Hl, Hu; reflexivity|].
  exact (holds_update _ _ _ _ _ _ _ _ Hw Hp Hn Hu).
Qed.

Lemma D_set {B : Type} cur ns i p n upd ns' (k : unit -> St World B) Q :
  diamond_nodes !! i = Some p -> ns !! i = Some n -> ns' = <[i := upd n]> ns ->
  runs (holds cur ns') (k tt) Q ->
  runs (holds cur ns) (bind (tri_set upd p) k) Q.
Proof.
  intros Hp Hn E Hk. eapply runs_bind; [exact (D_set_last _ _ _ _ _ upd _ Hp Hn E)|].
  intros []. exact Hk.
Qed.

Lemma holds_move_cursor cur ns w pl :
  holds cur ns w -> pools w s !! t = Some pl -> (S cur < c + 4)%nat ->
  holds (S (S cur)) ns (with_pools s (<[t := mkPool (pool pl) (S (S cur))]> (pools w s)) w).
Proof.
  intros (H1 & H2 & P & pl0 & HP & Hcur & Hpl0 & Hc & Hlen) Hpl Hlt.
  rewrite Hpl in Hpl0. injection Hpl0 as <-.
  split; [|split].
  - eapply Forall2_impl; [exact H1|]. intros p n Hpn. cbv beta.
    rewrite (lookup_node_move_cursor w s t pl _ p Hpl). exact Hpn.
  - intros p Hp. rewrite (lookup_node_move_cursor w s t pl _ p Hpl). exact (H2 p Hp).
  - exists P, (mkPool (pool pl) (S (S cur))).
    split; [rewrite patches_with_pools; exact HP|]. split; [exact Hcur|].
    split; [rewrite with_pools_pools; apply list_lookup_insert_eq;
            eapply lookup_lt_Some; exact Hpl|].
    split; [reflexivity | exact Hlen].
Qed.

Lemma D_alloc {B : Type} cur ns i p n ns' (k : bool -> St World B) Q :
  diamond_nodes !! i = Some p -> ns !! i = Some n -> (S cur < c + 4)%nat ->
  ns' = <[i := with_RightChild (Some (PoolNode s t (S cur)))
                 (with_LeftChild (Some (PoolNode s t cur)) n)]> ns ->
  runs (holds (S (S cur)) ns') (k true) Q ->
  runs (holds cur ns) (bind (curTriPool_Allocate self p) k) Q.
Proof.
  intros Hp Hn Hlt -> Hk w Hw.
  pose proof Hw as (_ & _ & P & pl & HP & Hcur & Hpl & Hc & Hlen).
  assert (HA : Allocate pl
               = Done (true, Some cur, Some (S cur), mkPool (pool pl) (S (S cur)))).
  { unfold Allocate, OutOfNodes. rewrite Hc.
    destruct (Nat.leb_spec (length (pool pl)) cur); [lia|].
    destruct (Nat.ltb_spec (S cur) (length (pool pl))); [reflexivity | lia]. }
  set (w1 := with_pools s (<[t := mkPool (pool pl) (S (S cur))]> (pools w s)) w).
  pose proof (holds_move_cursor _ _ _ _ Hw Hpl Hlt) as Hw1. fold w1 in Hw1.
  set (n1 := with_LeftChild (Some (PoolNode s t cur)) n).
  pose proof (holds_lookup _ _ _ _ _ _ Hw1 Hp Hn) as Hl1.
  destruct (update_node_exists w1 p n n1 Hl1) as [w2 Hu2].
  pose proof (holds_update _ _ _ _ _ _ _ _ Hw1 Hp Hn Hu2) as Hw2.
  assert (Hn2 : <[i := n1]> ns !! i = Some n1)
    by (apply list_lookup_insert_eq; eapply lookup_lt_Some; exact Hn).
  pose proof (holds_lookup _ _ _ _ _ _ Hw2 Hp Hn2) as Hl2.
  destruct (update_node_exists w2 p n1 (with_RightChild (Some (PoolNode s t (S cur))) n1) Hl2)
    as [w3 Hu3].
  pose proof (holds_update _ _ _ _ _ _ _ _ Hw2 Hp Hn2 Hu3) as Hw3.
  rewrite list_insert_insert_eq in Hw3.
  assert (Hrun : curTriPool_Allocate self p w = Done (true, w3)).
  { unfold curTriPool_Allocate.
    rewrite (bind_Done _ _ _ _ _ (patch_get_Done self curTriPool w P HP)).
    rewrite Hcur. rewrite (bind_Done _ _ w (s, t) w) by reflexivity.
    rewrite (bind_Done _ _ w w w) by reflexivity.
    rewrite Hpl. rewrite (bind_Done _ _ w pl w) by reflexivity.
    rewrite (bind_Done _ _ w (true, Some cur, Some (S cur), mkPool (pool pl) (S (S cur))) w)
      by (unfold lift; rewrite HA; reflexivity).
    rewrite (bind_Done _ _ w tt w1) by reflexivity.
    rewrite (bind_Done _ _ w1 tt w2)
      by (unfold tri_set; rewrite Hl1; cbn [fmap option_fmap option_map]; fold n1;
          rewrite Hu2; reflexivity).
    rewrite (bind_Done _ _ w2 tt w3)
      by (unfold tri_set; rewrite Hl2; cbn [fmap option_fmap option_map];
          rewrite Hu3; reflexivity).
    reflexivity. }
  rewrite (bind_Done _ _ _ _ _ Hrun). exact (Hk w3 Hw3).
Qed.

Lemma D_reset_left {B : Type} cur ns n x ns' (k : unit -> St World B) Q :
  ns !! 0%nat = Some n -> ns' = <[0%nat := x]> ns ->
  runs (holds cur ns') (k tt) Q ->
  runs (holds cur ns) (bind (patch_modify self (with_baseLeft x)) k) Q.
Proof.
  intros Hn E Hk w Hw.
  destruct (D_set cur ns 0 (BaseLeftOf self) n (fun _ => x) ns' k Q eq_refl Hn E Hk w Hw)
    as (a & w' & Hrun & HQ).
  exists a, w'. split; [|exact HQ]. unfold bind in *.
  rewrite patch_modify_baseLeft. exact Hrun.
Qed.

Lemma D_reset_right {B : Type} cur ns n x ns' (k : unit -> St World B) Q :
  ns !! 1%nat = Some n -> ns' = <[1%nat := x]> ns ->
  runs (holds cur ns') (k tt) Q ->
  runs (holds cur ns) (bind (patch_modify self (with_baseRight x)) k) Q.
Proof.
  intros Hn E Hk w Hw.
  destruct (D_set cur ns 1 (BaseRightOf self) n (fun _ => x) ns' k Q eq_refl Hn E Hk w Hw)
    as (a & w' & Hrun & HQ).
  exists a, w'. split; [|exact HQ]. unfold bind in *.
  rewrite patch_modify_baseRight. exact Hrun.
Qed.

(** the six nodes after [Patch::Reset] *)
Definition reset_nodes : list TriTreeNode :=
  [mkTriTreeNode None None (Some (BaseRightOf self)) None None;
   mkTriTreeNode None None (Some (BaseLeftOf self)) None None;
   TriTreeNode_new; TriTreeNode_new; TriTreeNode_new; TriTreeNode_new].

(** the six nodes after the split of the left root: the four children
    form a ring around the centre of the tile *)
Definition ring_nodes : list TriTreeNode :=
  [mkTriTreeNode (Some (PoolNode s t c)) (Some (PoolNode s t (S c)))
     (Some (BaseRightOf self)) None None;
   mkTriTreeNode (Some (PoolNode s t (S (S c)))) (Some (PoolNode s t (S (S (S c)))))
     (Some (BaseLeftOf self)) None None;
   mkTriTreeNode None None None
     (Some (PoolNode s t (S c))) (Some (PoolNode s t (S (S (S c)))));
   mkTriTreeNode None None None
     (Some (PoolNode s t (S (S c)))) (Some (PoolNode s t c));
   mkTriTreeNode None None None
     (Some (PoolNode s t (S (S (S c))))) (Some (PoolNode s t (S c)));
   mkTriTreeNode None None None
     (Some (PoolNode s t c)) (Some (PoolNode s t (S (S c))))].

Ltac node_index p :=
  lazymatch p with
  | BaseLeftOf _ => constr:(0%nat)
  | BaseRightOf _ => constr:(1%nat)
  | PoolNode _ _ (S (S (S _))) => constr:(5%nat)
  | PoolNode _ _ (S (S _)) => constr:(4%nat)
  | PoolNode _ _ (S _) => constr:(3%nat)
  | PoolNode _ _ _ => constr:(2%nat)
  end.

Ltac dia_step :=
  cbv beta;
  lazymatch goal with
  | |- runs _ (bind (tri_get _ ?p) _) _ =>
    let i := node_index p in
    eapply (D_get _ _ i); [reflexivity | reflexivity | vm_compute; reflexivity |]
  | |- runs _ (bind (ptr (tri_get _ ?p)) _) _ =>
    let i := node_index p in
    eapply (D_ptr _ _ i); [reflexivity | reflexivity | vm_compute; reflexivity |]
  | |- runs _ (bind (tri_set _ ?p) _) _ =>
    let i := node_index p in
    eapply (D_set _ _ i); [reflexivity | reflexivity | vm_compute; reflexivity |]
  | |- runs _ (tri_set _ ?p) _ =>
    let i := node_index p in
    eapply (D_set_last _ _ i); [reflexivity | reflexivity | vm_compute; reflexivity]
  | |- runs _ (bind (curTriPool_Allocate _ ?p) _) _ =>
    let i := node_index p in
    eapply (D_alloc _ _ i); [reflexivity | reflexivity | lia | vm_compute; reflexivity |]
  | |- runs _ (bind (patch_modify _ (with_baseLeft _)) _) _ =>
    eapply D_reset_left; [reflexivity | vm_compute; reflexivity |]
  | |- runs _ (bind (patch_modify _ (with_baseRight _)) _) _ =>
    eapply D_reset_right; [reflexivity | vm_compute; reflexivity |]
  | |- runs _ (bind (assert_ true) _) _ => apply runs_ret_bind
  | |- runs _ (bind (ret _) _) _ => apply runs_ret_bind
  | |- runs _ (ret _) _ =>
    first [ apply runs_ret_same
          | apply runs_ret; intros ? ?; split; [reflexivity | assumption] ]
  | |- runs _ (bind (Split (S _) _ _) _) _ => cbn [Split]
  | |- runs _ (bind (bind _ _) _) _ =>
    eapply runs_bind; [solve [repeat dia_step] | intros ?]
  | |- runs _ (bind (if decide (?x = ?y) then _ else _) _) _ =>
    destruct (decide (x = y)) as [_|N]; [|exfalso; apply N; reflexivity]
  | |- runs _ (if decide (?x = ?y) then _ else _) _ =>
    destruct (decide (x = y)) as [_|N]; [|exfalso; apply N; reflexivity]
  | |- runs _ (if negb _ then _ else _) _ => cbn [negb]
  | |- runs _ (if _ then _ else _) _ => cbv iota
  | |- runs _ (match _ with Some _ => _ | None => _ end) _ => cbv iota
  | |- runs _ (bind (match _ with Some _ => _ | None => _ end) _) _ => cbv iota
  end.

Lemma Patch_Reset_run nl nr :
  runs (holds c [nl; nr; TriTreeNode_new; TriTreeNode_new; TriTreeNode_new; TriTreeNode_new])
    (Patch_Reset self) (fun _ => holds c reset_nodes).
Proof.
  unfold Patch_Reset. do 4 dia_step.
Qed.

Lemma Split_diamond_run fuel :
  runs (holds c reset_nodes) (Split (S (S fuel)) self (BaseLeftOf self))
    (fun b w => b = true /\ holds (S (S (S (S c)))) ring_nodes w).
Proof.
  cbn [Split]. unfold reset_nodes.
  repeat dia_step.
Qed.

End Diamond.

Lemma holds_start self s t c w P pl :
  patches w !! self = Some P -> curTriPool P = Some (s, t) ->
  pools w s !! t = Some pl -> nextTriNodeIdx pl = c ->
  (forall i, (c <= i < c + 4)%nat -> pool pl !! i = Some TriTreeNode_new) ->
  holds self s t c w c
    [baseLeft P; baseRight P; TriTreeNode_new; TriTreeNode_new; TriTreeNode_new;
     TriTreeNode_new] w.
Proof.
  intros HP Hcur Hpl Hc Hfree.
  assert (Hnode : forall i, (c <= i < c + 4)%nat ->
            lookup_node w (PoolNode s t i) = Some TriTreeNode_new).
  { intros i Hi. cbn [lookup_node]. rewrite Hpl. exact (Hfree i Hi). }
  split; [|split].
  - unfold diamond_nodes.
    repeat (apply Forall2_cons; split; [first [apply Hnode; lia | cbn; rewrite HP; reflexivity]|]).
    apply Forall2_nil. exact Logic.I.
  - reflexivity.
  - exists P, pl. repeat (split; [assumption|]).
    pose proof (lookup_lt_Some _ _ _ (Hfree (c + 3)%nat ltac:(lia))). lia.
Qed.

(** X18: the first split of a reset tile.  If the pool of the tile has four
    cleared nodes at its cursor [c], then after [Patch::Reset] the call
    [Split(&baseLeft)] returns true having split both roots, the right
    one through the forced split of the diamond partner: the left root
    has the children [c] and [c+1], the right root [c+2] and [c+3],
    the roots are still each other's base neighbour, and the four
    children are leaves that form a ring around the centre of the tile,
    each with its sibling on one side and a child of the other root on
    the other, and no base neighbour.  No other node changes and the
    cursor ends at [c+4]. *)
Theorem Split_root_diamond (fuel self : nat) (s : bool) (t c : nat) (w : World)
    (P : Patch) (pl : CTriNodePool)
    (HP : patches w !! self = Some P)
    (Hcur : curTriPool P = Some (s, t))
    (Hpl : pools w s !! t = Some pl)
    (Hc : nextTriNodeIdx pl = c)
    (Hfree : forall i, (c <= i < c + 4)%nat -> pool pl !! i = Some TriTreeNode_new) :
  exists w1 w',
    Patch_Reset self w = Done (tt, w1)
    /\ Split (S (S fuel)) self (BaseLeftOf self) w1 = Done (true, w')
    /\ lookup_node w' (BaseLeftOf self)
       = Some (mkTriTreeNode (Some (PoolNode s t c)) (Some (PoolNode s t (c + 1)))
                 (Some (BaseRightOf self)) None None)
    /\ lookup_node w' (BaseRightOf self)
       = Some (mkTriTreeNode (Some (PoolNode s t (c + 2))) (Some (PoolNode s t (c + 3)))
                 (Some (BaseLeftOf self)) None None)
    /\ lookup_node w' (PoolNode s t c)
       = Some (mkTriTreeNode None None None
                 (Some (PoolNode s t (c + 1))) (Some (PoolNode s t (c + 3))))
    /\ lookup_node w' (PoolNode s t (c + 1))
       = Some (mkTriTreeNode None None None
                 (Some (PoolNode s t (c + 2))) (Some (PoolNode s t c)))
    /\ lookup_node w' (PoolNode s t (c + 2))
       = Some (mkTriTreeNode None None None
                 (Some (PoolNode s t (c + 3))) (Some (PoolNode s t (c + 1))))
    /\ lookup_node w' (PoolNode s t (c + 3))
       = Some (mkTriTreeNode None None None
                 (Some (PoolNode s t c)) (Some (PoolNode s t (c + 2))))
    /\ (forall p, ~ In p [BaseLeftOf self; BaseRightOf self; PoolNode s t c;
                          PoolNode s t (c + 1); PoolNode s t (c + 2); PoolNode s t (c + 3)] ->
         lookup_node w' p = lookup_node w p)
    /\ exists pl', pools w' s !! t = Some pl' /\ nextTriNodeIdx pl' = (c + 4)%nat.
Proof.
  replace (c + 1)%nat with (S c) by lia.
  replace (c + 2)%nat with (S (S c)) by lia.
  replace (c + 3)%nat with (S (S (S c))) by lia.
  replace (c + 4)%nat with (S (S (S (S c)))) by lia.
  pose proof (holds_start self s t c w P pl HP Hcur Hpl Hc Hfree) as H0.
  destruct (Patch_Reset_run self s t c w _ _ w H0) as ([] & w1 & Hrun1 & H1).
  destruct (Split_diamond_run self s t c w fuel w1 H1) as (b & w' & Hrun2 & -> & H2).
  exists w1, w'. split; [exact Hrun1|]. split; [exact Hrun2|].
  pose proof (fun i p n => holds_lookup self s t c w _ _ w' i p n H2) as Hl.
  split; [exact (Hl 0%nat _ _ eq_refl eq_refl)|].
  split; [exact (Hl 1%nat _ _ eq_refl eq_refl)|].
  split; [exact (Hl 2%nat _ _ eq_refl eq_refl)|].
  split; [exact (Hl 3%nat _ _ eq_refl eq_refl)|].
  split; [exact (Hl 4%nat _ _ eq_refl eq_refl)|].
  split; [exact (Hl 5%nat _ _ eq_refl eq_refl)|].
  destruct H2 as (_ & Hother & P' & pl' & _ & _ & Hpl' & Hc' & _).
  split; [exact Hother|].
  exists pl'. split; [exact Hpl' | exact Hc'].
Qed.

Lemma Split_root_diamond_witness :
  exists w1 w',
    Patch_Reset 0 (fresh_world 4) = Done (tt, w1)
    /\ Split 2 0 (BaseLeftOf 0) w1 = Done (true, w')
    /\ lookup_node w' (BaseLeftOf 0)
       = Some (mkTriTreeNode (Some (PoolNode false 0 0)) (Some (PoolNode false 0 (0 + 1)))
                 (Some (BaseRightOf 0)) None None)
    /\ lookup_node w' (BaseRightOf 0)
       = Some (mkTriTreeNode (Some (PoolNode false 0 (0 + 2)))
                 (Some (PoolNode false 0 (0 + 3))) (Some (BaseLeftOf 0)) None None)
    /\ lookup_node w' (PoolNode false 0 0)
       = Some (mkTriTreeNode None None None
                 (Some (PoolNode false 0 (0 + 1))) (Some (PoolNode false 0 (0 + 3))))
    /\ lookup_node w' (PoolNode false 0 (0 + 1))
       = Some (mkTriTreeNode None None None
                 (Some (PoolNode false 0 (0 + 2))) (Some (PoolNode false 0 0)))
    /\ lookup_node w' (PoolNode false 0 (0 + 2))
       = Some (mkTriTreeNode None None None
                 (Some (PoolNode false 0 (0 + 3))) (Some (PoolNode false 0 (0 + 1))))
    /\ lookup_node w' (PoolNode false 0 (0 + 3))
       = Some (mkTriTreeNode None None None
                 (Some (PoolNode false 0 0)) (Some (PoolNode false 0 (0 + 2))))
    /\ (forall p, ~ In p [BaseLeftOf 0; BaseRightOf 0; PoolNode false 0 0;
                          PoolNode false 0 (0 + 1); PoolNode false 0 (0 + 2);
                          PoolNode false 0 (0 + 3)] ->
         lookup_node w' p = lookup_node (fresh_world 4) p)
    /\ exists pl', pools w' false !! 0%nat = Some pl' /\ nextTriNodeIdx pl' = (0 + 4)%nat.
Proof.
  apply (Split_root_diamond 0 0 false 0 0 (fresh_world 4) fresh_patch
           (mkPool (replicate 4 TriTreeNode_new) 0)).
  - reflexivity.
  - reflexivity.
  - reflexivity.
  - reflexivity.
  - intros i Hi. cbn [pool]. apply lookup_replicate_2. lia.
Defined.

(** ** [Patch::Reset] on a closed mesh *)

Lemma tri_set_closed w p upd n :
  mesh_closed w -> lookup_node w p = Some n -> node_ok w (upd n) ->
  exists w',
    tri_set upd p w = Done (tt, w')
    /\ mesh_closed w'
    /\ (forall q, valid w' q <-> valid w q)
    /\ lookup_node w' p = Some (upd n)
    /\ (forall q, q <> p -> lookup_node w' q = lookup_node w q)
    /\ (forall k P, patches w !! k = Some P ->
          exists P', patches w' !! k = Some P' /\ payload P' = payload P).
Proof.
  intros [Hnodes Hwf] Hn Hok.
  destruct (update_node_exists w p n (upd n) Hn) as [w' Hu].
  exists w'. split; [unfold tri_set; rewrite Hn, Hu; reflexivity|].
  assert (Hv : forall q, valid w' q <-> valid w q)
    by (intros q; exact (update_node_valid _ _ _ _ q Hu)).
  split; [split|].
  - intros q m Hq. apply (node_ok_same_valid w w'); [exact Hv|].
    destruct (decide (q = p)) as [->|Hne].
    + rewrite (update_node_lookup_same _ _ _ _ Hu) in Hq. injection Hq as <-. exact Hok.
    + rewrite (update_node_lookup_other _ _ _ _ q Hu Hne) in Hq. exact (Hnodes q m Hq).
  - intros s t pl' Hpl'.
    destruct (update_node_pools _ _ _ _ _ _ _ Hu Hpl') as (pl & Hpl & El & Ec).
    exact (pool_wf_same_shape pl pl' El Ec (Hwf s t pl Hpl)).
  - split; [exact Hv|]. split; [exact (update_node_lookup_same _ _ _ _ Hu)|].
    split; [intros q Hne; exact (update_node_lookup_other _ _ _ _ q Hu Hne)|].
    intros k P HP. exact (update_node_payload k _ _ _ _ P Hu HP).
Qed.

(** X19: [Patch::Reset] on a closed mesh.  For an existing tile the call
    never faults; afterwards the two roots are leaves without side
    neighbours that are each other's base neighbour, every other node of
    the world and every other member of every tile is as before, and a
    closed mesh is closed again with the same node addresses, although
    the former children of the roots are still stored in their pool. *)
Theorem Patch_Reset_closed (self : nat) (w : World) (P : Patch)
    (Hclosed : mesh_closed w) (HP : patches w !! self = Some P) :
  exists w',
    Patch_Reset self w = Done (tt, w')
    /\ mesh_closed w'
    /\ (forall q, valid w' q <-> valid w q)
    /\ lookup_node w' (BaseLeftOf self)
       = Some (mkTriTreeNode None None (Some (BaseRightOf self)) None None)
    /\ lookup_node w' (BaseRightOf self)
       = Some (mkTriTreeNode None None (Some (BaseLeftOf self)) None None)
    /\ (forall q, q <> BaseLeftOf self -> q <> BaseRightOf self ->
          lookup_node w' q = lookup_node w q)
    /\ (forall k Q, patches w !! k = Some Q ->
          exists Q', patches w' !! k = Some Q' /\ payload Q' = payload Q).
Proof.
  assert (VL : valid w (BaseLeftOf self)) by exact (root_valid_left self w P HP).
  assert (VR : valid w (BaseRightOf self)) by exact (root_valid_right self w P HP).
  assert (Hfresh : forall w1, node_ok w1 TriTreeNode_new).
  { intros w1. unfold node_ok, opt_valid. cbn. repeat split; discriminate. }
  assert (Hroot : forall w1 q, valid w1 q ->
            node_ok w1 (with_BaseNeighbor (Some q) TriTreeNode_new)).
  { intros w1 q Hq. apply node_ok_with_BaseNeighbor; [|apply Hfresh].
    apply opt_valid_Some. exact Hq. }
  destruct VL as [nl Hnl].
  destruct (tri_set_closed w (BaseLeftOf self) (fun _ => TriTreeNode_new) nl
              Hclosed Hnl (Hfresh w)) as (w1 & R1 & C1 & V1 & S1 & O1 & Y1).
  assert (Hnr1 : lookup_node w1 (BaseRightOf self) = Some (baseRight P)).
  { rewrite O1 by discriminate. cbn. rewrite HP. reflexivity. }
  destruct (tri_set_closed w1 (BaseRightOf self) (fun _ => TriTreeNode_new) _
              C1 Hnr1 (Hfresh w1)) as (w2 & R2 & C2 & V2 & S2 & O2 & Y2).
  assert (Hnl2 : lookup_node w2 (BaseLeftOf self) = Some TriTreeNode_new).
  { rewrite O2 by discriminate. exact S1. }
  assert (VR2 : valid w2 (BaseRightOf self)) by (apply V2, V1; exact VR).
  destruct (tri_set_closed w2 (BaseLeftOf self)
              (with_BaseNeighbor (Some (BaseRightOf self))) _
              C2 Hnl2 (Hroot w2 _ VR2)) as (w3 & R3 & C3 & V3 & S3 & O3 & Y3).
  assert (Hnr3 : lookup_node w3 (BaseRightOf self) = Some TriTreeNode_new).
  { rewrite O3 by discriminate. exact S2. }
  assert (VL3 : valid w3 (BaseLeftOf self)) by (exists (with_BaseNeighbor (Some (BaseRightOf self)) TriTreeNode_new); exact S3).
  destruct (tri_set_closed w3 (BaseRightOf self)
              (with_BaseNeighbor (Some (BaseLeftOf self))) _
              C3 Hnr3 (Hroot w3 _ VL3)) as (w4 & R4 & C4 & V4 & S4 & O4 & Y4).
  exists w4. split.
  { unfold Patch_Reset.
    rewrite (bind_Done _ _ w tt w1) by (rewrite patch_modify_baseLeft; exact R1).
    rewrite (bind_Done _ _ w1 tt w2) by (rewrite patch_modify_baseRight; exact R2).
    rewrite (bind_Done _ _ w2 tt w3) by exact R3.
    exact R4. }
  split; [exact C4|].
  split; [intros q; rewrite V4, V3, V2; apply V1|].
  split; [rewrite O4 by discriminate; exact S3|].
  split; [exact S4|].
  split.
  - intros q HL HR. rewrite (O4 q HR), (O3 q HL), (O2 q HR). exact (O1 q HL).
  - intros k Q HQ.
    destruct (Y1 k Q HQ) as (Q1 & HQ1 & E1).
    destruct (Y2 k Q1 HQ1) as (Q2 & HQ2 & E2).
    destruct (Y3 k Q2 HQ2) as (Q3 & HQ3 & E3).
    destruct (Y4 k Q3 HQ3) as (Q4 & HQ4 & E4).
    exists Q4. split; [exact HQ4 | congruence].
Qed.

Lemma Patch_Reset_closed_witness :
  exists w',
    Patch_Reset 0 ridge_world = Done (tt, w')
    /\ mesh_closed w'
    /\ (forall q, valid w' q <-> valid ridge_world q)
    /\ lookup_node w' (BaseLeftOf 0)
       = Some (mkTriTreeNode None None (Some (BaseRightOf 0)) None None)
    /\ lookup_node w' (BaseRightOf 0)
       = Some (mkTriTreeNode None None (Some (BaseLeftOf 0)) None None)
    /\ (forall q, q <> BaseLeftOf 0 -> q <> BaseRightOf 0 ->
          lookup_node w' q = lookup_node ridge_world q)
    /\ (forall k Q, patches ridge_world !! k = Some Q ->
          exists Q', patches w' !! k = Some Q' /\ payload Q' = payload Q).
Proof.
  apply (Patch_Reset_closed 0 ridge_world ridge_tile).
  - exact ridge_world_closed.
  - exact ridge_world_tile.
Defined.

(** ** The border walk on a finite mesh *)

(** no path from [p] through child pointers is longer than [d] nodes *)
Fixpoint tree_within (d : nat) (w : World) (p : NodePtr) : Prop :=
  match d with
  | O => False
  | S d' =>
    exists n, lookup_node w p = Some n
      /\ (IsLeaf n = true
          \/ exists l r, LeftChild n = Some l /\ RightChild n = Some r
                         /\ tree_within d' w l /\ tree_within d' w r)
  end.

Section Returns.

Variable self : nat.
Variable w0 : World.
Variable vs : list float.

Lemma W_get {A B : Type} (f : TriTreeNode -> A) p n (k : A -> St World B) Q :
  lookup_node w0 p = Some n ->
  runs (same_mesh self w0 vs) (k (f n)) Q ->
  runs (same_mesh self w0 vs) (bind (tri_get f p) k) Q.
Proof.
  intros Hn Hk w Hw.
  rewrite (bind_Done _ _ _ _ _ (tri_get_Done f p w n ltac:(rewrite (proj1 Hw p); exact Hn))).
  exact (Hk w Hw).
Qed.

Lemma W_patch_get {A B : Type} (f : Patch -> A) (k : A -> St World B) Q :
  (forall P, vertices P = vs -> runs (same_mesh self w0 vs) (k (f P)) Q) ->
  runs (same_mesh self w0 vs) (bind (patch_get self f) k) Q.
Proof.
  intros Hk w Hw. pose proof Hw as (_ & _ & P & HP & Hvs).
  rewrite (bind_Done _ _ _ _ _ (patch_get_Done self f w P HP)).
  exact (Hk P Hvs w Hw).
Qed.

Lemma W_modify_last f :
  roots_kept f -> (forall P, vertices (f P) = vertices P) ->
  runs (same_mesh self w0 vs) (patch_modify self f) (fun _ => same_mesh self w0 vs).
Proof.
  intros Hr Hv w (H1 & H2 & P & HP & Hvs).
  destruct (patch_modify_run self f w P HP Hr) as (w' & Hrun & HP' & Hl & Hp).
  exists tt, w'. split; [exact Hrun|].
  split; [intros p; rewrite Hl; apply H1|].
  split; [intros s; rewrite Hp; apply H2|].
  exists (f P). split; [exact HP'|]. rewrite Hv. exact Hvs.
Qed.

Lemma W_modify {B : Type} f (k : unit -> St World B) Q :
  roots_kept f -> (forall P, vertices (f P) = vertices P) ->
  runs (same_mesh self w0 vs) (k tt) Q ->
  runs (same_mesh self w0 vs) (bind (patch_modify self f) k) Q.
Proof.
  intros Hr Hv Hk. eapply runs_bind; [apply W_modify_last; assumption|].
  intros []. exact Hk.
Qed.

Lemma W_vertex {B : Type} PS p (k : float3 -> St World B) Q :
  0 <= PS -> 3 * ((PS + 1) * (PS + 1)) <= Z.of_nat (length vs) -> in_tile PS p ->
  (forall v, runs (same_mesh self w0 vs) (k v) Q) ->
  runs (same_mesh self w0 vs)
    (bind (vertex_at self ((int2.x p + int2.y p * (PS + 1)) * 3)) k) Q.
Proof.
  intros HPS Hlen [Hx Hy] Hk w Hw. pose proof Hw as (_ & _ & P & HP & Hvs).
  set (i := (int2.x p + int2.y p * (PS + 1)) * 3).
  assert (Hi : 0 <= i /\ i + 2 < Z.of_nat (length vs)) by (subst i; nia).
  destruct (array_get_in_range vs i ltac:(lia)) as [a Ha].
  destruct (array_get_in_range vs (i + 1) ltac:(lia)) as [b Hb].
  destruct (array_get_in_range vs (i + 2) ltac:(lia)) as [c Hc].
  assert (Hrun : vertex_at self i w = Done (float3.mk a b c, w)).
  { unfold vertex_at. unfold bind at 1. rewrite (patch_get_Done self vertices w P HP).
    rewrite Hvs. unfold bind, lift. rewrite Ha, Hb, Hc. reflexivity. }
  rewrite (bind_Done _ _ _ _ _ Hrun). exact (Hk _ w Hw).
Qed.

Lemma push_skirt_returns a b :
  runs (same_mesh self w0 vs) (push_skirt self a b) (fun _ => same_mesh self w0 vs).
Proof.
  unfold push_skirt, borderVertices_push_back.
  do 5 (apply W_modify; [intros ?; split; reflexivity | reflexivity|]).
  apply W_modify_last; [intros ?; split; reflexivity | reflexivity].
Qed.

Lemma RecursGenBorderVertices_returns PS fuel :
  0 <= PS -> 3 * ((PS + 1) * (PS + 1)) <= Z.of_nat (length vs) ->
  forall t left rght apex depth,
    tree_within fuel w0 t -> in_tile PS left -> in_tile PS rght -> in_tile PS apex ->
    runs (same_mesh self w0 vs)
      (RecursGenBorderVertices fuel PS self (Some t) left rght apex depth)
      (fun _ => same_mesh self w0 vs).
Proof.
  intros HPS Hlen.
  induction fuel as [|fuel IH]; intros t left rght apex depth Ht Il Ir Ia;
    [destruct Ht|].
  destruct Ht as (n & Hn & Hshape).
  cbn [RecursGenBorderVertices deref]. apply runs_ret_bind.
  apply (W_get IsLeaf t n _ _ Hn).
  destruct Hshape as [Hleaf|(l & r & Hl & Hr & Tl & Tr)].
  - rewrite Hleaf.
    apply (W_vertex PS apex _ _ HPS Hlen Ia). intros v1.
    apply (W_vertex PS left _ _ HPS Hlen Il). intros v2.
    apply (W_vertex PS rght _ _ HPS Hlen Ir). intros v3.
    destruct (Z.land (int2.x depth) 1 =? 0); [apply push_skirt_returns|].
    destruct (negb (int2.y depth =? 0)); apply push_skirt_returns.
  - assert (El : IsLeaf n = false) by (unfold IsLeaf; rewrite Hl; reflexivity).
    rewrite El.
    pose proof (in_tile_center PS left rght Il Ir) as Ic.
    destruct (Z.land (int2.x depth) 1 =? 0).
    + apply (W_get LeftChild t n _ _ Hn). rewrite Hl.
      eapply runs_bind; [apply IH; assumption|]. intros ?.
      apply (W_get RightChild t n _ _ Hn). rewrite Hr.
      apply IH; assumption.
    + destruct (negb (int2.y depth =? 0)).
      * apply (W_get LeftChild t n _ _ Hn). rewrite Hl. apply IH; assumption.
      * apply (W_get RightChild t n _ _ Hn). rewrite Hr. apply IH; assumption.
Qed.

Lemma GenerateBorderVertices_returns PS fuel :
  0 <= PS -> 3 * ((PS + 1) * (PS + 1)) <= Z.of_nat (length vs) ->
  tree_within fuel w0 (BaseLeftOf self) -> tree_within fuel w0 (BaseRightOf self) ->
  runs (same_mesh self w0 vs) (GenerateBorderVertices fuel PS self)
    (fun _ => same_mesh self w0 vs).
Proof.
  intros HPS Hlen TL TR. unfold GenerateBorderVertices.
  destruct (in_tile_corners PS HPS) as (I1 & I2 & I3 & I4).
  assert (HnL : exists n, lookup_node w0 (BaseLeftOf self) = Some n)
    by (destruct fuel; [destruct TL|]; destruct TL as (n & Hn & _); eauto).
  assert (HnR : exists n, lookup_node w0 (BaseRightOf self) = Some n)
    by (destruct fuel; [destruct TR|]; destruct TR as (n & Hn & _); eauto).
  destruct HnL as [nL HnL]. destruct HnR as [nR HnR].
  assert (Hside : forall root depth l r a,
            tree_within fuel w0 root -> in_tile PS l -> in_tile PS r -> in_tile PS a ->
            forall n : option NodePtr,
              runs (same_mesh self w0 vs)
                (if decide (n = None)
                 then RecursGenBorderVertices fuel PS self (Some root) l r a depth
                 else ret tt)
                (fun _ => same_mesh self w0 vs)).
  { intros root depth l r a Hv Hl Hr Ha n. destruct (decide (n = None)).
    - apply RecursGenBorderVertices_returns; assumption.
    - apply runs_ret_same. }
  apply W_patch_get. intros P0 _.
  destruct (negb (isTesselated P0)); [apply runs_ret_same|].
  apply W_modify; [intros ?; split; reflexivity | reflexivity|].
  apply W_modify; [intros ?; split; reflexivity | reflexivity|].
  cbv zeta.
  apply (W_get LeftNeighbor _ nL _ _ HnL).
  eapply runs_bind; [apply Hside; assumption|]. intros ?.
  apply (W_get RightNeighbor _ nL _ _ HnL).
  eapply runs_bind; [apply Hside; assumption|]. intros ?.
  apply (W_get RightNeighbor _ nR _ _ HnR).
  eapply runs_bind; [apply Hside; assumption|]. intros ?.
  apply (W_get LeftNeighbor _ nR _ _ HnR).
  apply Hside; assumption.
Qed.

End Returns.

(** X12: [GenerateBorderVertices] on a tessellated tile whose two trees are
    no deeper than the recursion budget and whose vertex array holds the
    (PATCH_SIZE + 1)^2 grid points returns, and has rebuilt the border
    list as the skirts of the four sides, in the order left, right,
    bottom, top of the source.  A side whose root triangle has a
    neighbour there gets none.  A side on the edge of the map gets a chain
    of skirts that starts in one corner of the tile and ends in the next,
    every skirt beginning at the grid point where the one before it
    ended, all of them on that side: however unevenly the mesh is split,
    the curtain below the edge has no gap.  Nothing but the border list
    and the flag [isTesselated] changes. *)
Theorem GenerateBorderVertices_skirts (fuel : nat) (PATCH_SIZE : Z) (self : nat)
    (w : World) (P : Patch)
    (HP : patches w !! self = Some P)
    (Htess : isTesselated P = true)
    (HPS : 0 <= PATCH_SIZE)
    (Hlen : 3 * ((PATCH_SIZE + 1) * (PATCH_SIZE + 1)) <= Z.of_nat (length (vertices P)))
    (HdepthL : tree_within fuel w (BaseLeftOf self))
    (HdepthR : tree_within fuel w (BaseRightOf self)) :
  let PS := PATCH_SIZE in
  exists w' o1 o2 o3 o4,
    GenerateBorderVertices fuel PATCH_SIZE self w = Done (tt, w')
    /\ w' = with_patches
             (<[self := with_borderVertices (o1 ++ o2 ++ o3 ++ o4)
                          (with_isTesselated false P)]> (patches w)) w
    /\ side_skirts PS (vertices P) (LeftNeighbor (baseLeft P))
         (int2.mk 0 0) (int2.mk 0 PS) o1
    /\ side_skirts PS (vertices P) (RightNeighbor (baseLeft P))
         (int2.mk PS 0) (int2.mk 0 0) o2
    /\ side_skirts PS (vertices P) (RightNeighbor (baseRight P))
         (int2.mk 0 PS) (int2.mk PS PS) o3
    /\ side_skirts PS (vertices P) (LeftNeighbor (baseRight P))
         (int2.mk PS PS) (int2.mk PS 0) o4.
Proof.
  intros PS.
  destruct (GenerateBorderVertices_returns self w (vertices P) PATCH_SIZE fuel HPS Hlen
              HdepthL HdepthR w (same_mesh_start self w P HP)) as ([] & w' & Hrun & _).
  destruct (GenerateBorderVertices_result fuel PATCH_SIZE self w w' P HP Htess Hrun)
    as (o1 & o2 & o3 & o4 & H).
  exists w', o1, o2, o3, o4. split; [exact Hrun | exact H].
Qed.

Lemma ridge_world_left_tree : tree_within 3 ridge_world (BaseLeftOf 0).
Proof.
  eexists. split; [vm_compute; reflexivity|]. right. eexists _, _.
  split; [reflexivity|]. split; [reflexivity|]. split.
  - eexists. split; [vm_compute; reflexivity|]. right. eexists _, _.
    split; [reflexivity|]. split; [reflexivity|].
    split; (eexists; split; [vm_compute; reflexivity | left; reflexivity]).
  - eexists. split; [vm_compute; reflexivity | left; reflexivity].
Defined.

Lemma ridge_world_right_tree : tree_within 3 ridge_world (BaseRightOf 0).
Proof.
  eexists. split; [vm_compute; reflexivity|]. right. eexists _, _.
  split; [reflexivity|]. split; [reflexivity|].
  split; (eexists; split; [vm_compute; reflexivity | left; reflexivity]).
Defined.

Lemma GenerateBorderVertices_skirts_witness :
  (length <$> (borderVertices <$>
     match GenerateBorderVertices 3 4 0 ridge_world with
     | Done (_, w) => patches w !! 0%nat
     | _ => None
     end)) = Some 30%nat
  /\ exists w' o1 o2 o3 o4,
    GenerateBorderVertices 3 4 0 ridge_world = Done (tt, w')
    /\ w' = with_patches
             (<[0%nat := with_borderVertices (o1 ++ o2 ++ o3 ++ o4)
                           (with_isTesselated false ridge_tile)]> (patches ridge_world))
             ridge_world
    /\ side_skirts 4 (vertices ridge_tile) (LeftNeighbor (baseLeft ridge_tile))
         (int2.mk 0 0) (int2.mk 0 4) o1
    /\ side_skirts 4 (vertices ridge_tile) (RightNeighbor (baseLeft ridge_tile))
         (int2.mk 4 0) (int2.mk 0 0) o2
    /\ side_skirts 4 (vertices ridge_tile) (RightNeighbor (baseRight ridge_tile))
         (int2.mk 0 4) (int2.mk 4 4) o3
    /\ side_skirts 4 (vertices ridge_tile) (LeftNeighbor (baseRight ridge_tile))
         (int2.mk 4 4) (int2.mk 4 0) o4.
Proof.
  split; [vm_compute; reflexivity|].
  apply (GenerateBorderVertices_skirts 3 4 0 ridge_world ridge_tile).
  - exact ridge_world_tile.
  - vm_compute. reflexivity.
  - lia.
  - vm_compute. discriminate.
  - exact ridge_world_left_tree.
  - exact ridge_world_right_tree.
Defined.

(** ** [Split] when the pool runs out *)

(** the chain of forced splits from [tri] ends within [k] calls: [tri] is
    a branch, has no base neighbour or is in a diamond, or the chain of
    its base neighbour ends within [k - 1] calls *)
Fixpoint chain_ends (k : nat) (w : World) (tri : NodePtr) : Prop :=
  match k with
  | O => False
  | S k' =>
    exists n, lookup_node w tri = Some n
      /\ (IsLeaf n = false
          \/ BaseNeighbor n = None
          \/ exists b nb, BaseNeighbor n = Some b /\ lookup_node w b = Some nb
                          /\ (BaseNeighbor nb = Some tri \/ chain_ends k' w b))
  end.

(** with the pool out of nodes, [Split] returns when the chain of forced
    splits ends, with false on a leaf, and changes nothing *)
Lemma Split_exhausted_chain self w :
  pool_exhausted self w ->
  forall k tri, chain_ends k w tri ->
    forall fuel, (k <= fuel)%nat ->
      exists n, lookup_node w tri = Some n
                /\ Split fuel self tri w = Done (negb (IsLeaf n), w).
Proof.
  intros Hex. induction k as [|k IH]; intros tri Hchain fuel Hfuel; [destruct Hchain|].
  destruct Hchain as (n & Hn & Hshape). exists n. split; [exact Hn|].
  destruct fuel as [|fuel]; [lia|]. cbn [Split].
  rewrite (bind_Done _ _ w (IsLeaf n) w) by (apply tri_get_Done; exact Hn).
  destruct (IsLeaf n) eqn:Hleaf; cbn [negb]; [|reflexivity].
  rewrite (bind_Done _ _ w (BaseNeighbor n) w) by (apply tri_get_Done; exact Hn).
  rewrite (bind_Done _ _ w tt w).
  - rewrite (bind_Done _ _ w false w)
      by (exact (curTriPool_Allocate_exhausted self tri w n Hex Hn Hleaf)).
    reflexivity.
  - destruct Hshape as [Hb|[->|(b & nb & -> & Hnb & Hrec)]];
      [congruence | reflexivity |].
    rewrite (bind_Done _ _ w (BaseNeighbor nb) w) by (apply tri_get_Done; exact Hnb).
    destruct (decide (BaseNeighbor nb = Some tri)) as [_|Hne]; [reflexivity|].
    destruct Hrec as [Hrec|Hrec]; [contradiction|].
    destruct (IH b Hrec fuel ltac:(lia)) as (nb' & Hnb' & Hrun).
    rewrite (bind_Done _ _ w (negb (IsLeaf nb')) w) by exact Hrun.
    reflexivity.
Qed.

(** [p] is not among the nodes that the pool [(s, t)] has yet to hand
    out from the cursor [c] on *)
Definition handed_out (s : bool) (t c : nat) (p : NodePtr) : Prop :=
  forall i, p = PoolNode s t i -> (i < c)%nat.

(** the side neighbours of [n] are other triangles than [p] and [q] *)
Definition sides_apart (n : TriTreeNode) (p q : NodePtr) : Prop :=
  LeftNeighbor n <> Some p /\ LeftNeighbor n <> Some q
  /\ RightNeighbor n <> Some p /\ RightNeighbor n <> Some q.

(** the tile [self] allocates from the pool [(s, t)], which has [cap]
    nodes and its cursor at [c] *)
Definition pool_at (self : nat) (s : bool) (t c cap : nat) (w : World) : Prop :=
  exists P pl,
    patches w !! self = Some P /\ curTriPool P = Some (s, t)
    /\ pools w s !! t = Some pl /\ nextTriNodeIdx pl = c /\ length (pool pl) = cap.

Lemma pool_at_exhausted self s t c cap w :
  pool_at self s t c cap w -> (cap <= c)%nat -> pool_exhausted self w.
Proof.
  intros (P & pl & HP & Hcur & Hpl & Hc & Hlen) Hle.
  exists P, s, t, pl. repeat (split; [assumption|]).
  unfold OutOfNodes. apply Nat.leb_le. lia.
Qed.

Section Tracked.

Variable self : nat.
Variable s : bool.
Variable t cap : nat.
Variable w0 : World.

Hypothesis Hcap : exists pl0, pools w0 s !! t = Some pl0 /\ length (pool pl0) = cap.

(** the worlds of a run from [w0] that is followed node by node: the
    node addresses of [w0], the nodes [tr] at the pointers the run is
    known to stay at, the cursor [cur] in the pool of the tile, and
    every other leaf of [w0] still a leaf *)
Definition at_nodes (tr : list (NodePtr * TriTreeNode)) (cur : nat) (w : World) : Prop :=
  (forall p, valid w p <-> valid w0 p)
  /\ Forall (fun pn => lookup_node w pn.1 = Some pn.2) tr
  /\ pool_at self s t cur cap w
  /\ (forall x, ~ In x (map fst tr) -> leaf_at w0 x -> leaf_at w x).

Lemma at_nodes_lookup tr cur w p n :
  at_nodes tr cur w -> In (p, n) tr -> lookup_node w p = Some n.
Proof.
  intros (_ & H & _) Hin. rewrite List.Forall_forall in H. exact (H (p, n) Hin).
Qed.

Lemma pool_node_valid i : (i < cap)%nat -> valid w0 (PoolNode s t i).
Proof.
  intros Hi. destruct Hcap as (pl0 & Hpl0 & Hlen). unfold valid. cbn [lookup_node].
  rewrite Hpl0. apply lookup_lt_is_Some_2. lia.
Qed.

Lemma leaf_at_update w q m w' x :
  update_node w q m = Some w' ->
  (x = q -> IsLeaf m = true) ->
  leaf_at w x -> leaf_at w' x.
Proof.
  intros Hu Hq (n & Hn & Hl). destruct (decide (x = q)) as [->|Hne].
  - exists m. split; [exact (update_node_lookup_same _ _ _ _ Hu) | apply Hq; reflexivity].
  - exists n. rewrite (update_node_lookup_other _ _ _ _ x Hu Hne). split; assumption.
Qed.

Lemma pool_at_update cur w q m w' :
  update_node w q m = Some w' -> pool_at self s t cur cap w -> pool_at self s t cur cap w'.
Proof.
  intros Hu (P & pl & HP & Hcur & Hpl & Hc & Hlen).
  destruct (update_node_payload self _ _ _ _ P Hu HP) as (P' & HP' & Epay).
  destruct (update_node_pool_exists _ _ _ _ s t Hu (ex_intro _ pl Hpl)) as [pl' Hpl'].
  destruct (update_node_pools _ _ _ _ _ _ _ Hu Hpl') as (pl0 & Hpl0 & El & Ec).
  rewrite Hpl in Hpl0. injection Hpl0 as <-.
  exists P', pl'. split; [exact HP'|].
  split; [change (curTriPool (payload P') = Some (s, t)); rewrite Epay; exact Hcur|].
  split; [exact Hpl'|]. split; congruence.
Qed.

Lemma N_get {A B : Type} tr cur p n (f : TriTreeNode -> A) (k : A -> St World B) Q :
  In (p, n) tr ->
  runs (at_nodes tr cur) (k (f n)) Q ->
  runs (at_nodes tr cur) (bind (tri_get f p) k) Q.
Proof.
  intros Hin Hk w Hw.
  rewrite (bind_Done _ _ _ _ _ (tri_get_Done f p w n (at_nodes_lookup _ _ _ _ _ Hw Hin))).
  exact (Hk w Hw).
Qed.

Lemma N_get_any {A B : Type} tr cur p (f : TriTreeNode -> A) (k : A -> St World B) Q :
  valid w0 p ->
  (forall a, runs (at_nodes tr cur) (k a) Q) ->
  runs (at_nodes tr cur) (bind (tri_get f p) k) Q.
Proof.
  intros Hp Hk w Hw. destruct (proj2 (proj1 Hw p) Hp) as [n Hn].
  rewrite (bind_Done _ _ _ _ _ (tri_get_Done f p w n Hn)).
  exact (Hk (f n) w Hw).
Qed.

Lemma N_ptr {B : Type} tr cur p n (f : TriTreeNode -> option NodePtr) q
    (k : NodePtr -> St World B) Q :
  In (p, n) tr -> f n = Some q ->
  runs (at_nodes tr cur) (k q) Q ->
  runs (at_nodes tr cur) (bind (ptr (tri_get f p)) k) Q.
Proof.
  intros Hin Hq Hk w Hw. unfold ptr.
  assert (E : bind (tri_get f p) deref w = Done (q, w)).
  { rewrite (bind_Done _ _ _ _ _
               (tri_get_Done f p w n (at_nodes_lookup _ _ _ _ _ Hw Hin))).
    rewrite Hq. reflexivity. }
  rewrite (bind_Done _ _ _ _ _ E). exact (Hk w Hw).
Qed.

Lemma N_set_last tr cur upd q :
  valid w0 q -> ~ In q (map fst tr) -> keeps_children upd ->
  runs (at_nodes tr cur) (tri_set upd q) (fun _ => at_nodes tr cur).
Proof.
  intros Hq Hout Hkeep w Hw. pose proof Hw as (Hv & Htr & Hpool & Hleaf).
  destruct (proj2 (Hv q) Hq) as [n Hn].
  destruct (update_node_exists w q n (upd n) Hn) as [w' Hu].
  exists tt, w'. split; [unfold tri_set; rewrite Hn, Hu; reflexivity|].
  split; [|split; [|split]].
  - intros p. rewrite (update_node_valid _ _ _ _ p Hu). apply Hv.
  - rewrite List.Forall_forall in *. intros [p m] Hin. cbn [fst snd].
    rewrite (update_node_lookup_other _ _ _ _ p Hu); [exact (Htr _ Hin)|].
    intros ->. apply Hout. apply in_map_iff. exists (q, m). auto.
  - exact (pool_at_update _ _ _ _ _ Hu Hpool).
  - intros x Hx Hx0. apply (leaf_at_update w q (upd n) w' x Hu); [|exact (Hleaf x Hx Hx0)].
    intros ->. destruct (Hleaf q Hx Hx0) as (n' & Hn' & Hl').
    assert (n' = n) by congruence. subst n'.
    destruct (Hkeep n) as [E1 E2]. unfold IsLeaf in *. rewrite E1, E2. exact Hl'.
Qed.

Lemma N_set {B : Type} tr cur upd q (k : unit -> St World B) Q :
  valid w0 q -> ~ In q (map fst tr) -> keeps_children upd ->
  runs (at_nodes tr cur) (k tt) Q ->
  runs (at_nodes tr cur) (bind (tri_set upd q) k) Q.
Proof.
  intros Hq Hout Hkeep Hk. eapply runs_bind; [exact (N_set_last tr cur upd q Hq Hout Hkeep)|].
  intros []. exact Hk.
Qed.

(** an update of a node that the run stays at *)
Lemma at_nodes_update tr cur w i p n m w' :
  at_nodes tr cur w -> NoDup (map fst tr) -> tr !! i = Some (p, n) ->
  update_node w p m = Some w' ->
  at_nodes (<[i := (p, m)]> tr) cur w'.
Proof.
  intros (Hv & Htr & Hpool & Hleaf) Hnd Hi Hu.
  assert (Hfst : map fst (<[i := (p, m)]> tr) = map fst tr).
  { change (map fst) with (fmap (M := list) (@fst NodePtr TriTreeNode)).
    rewrite list_fmap_insert. apply list_insert_id.
    rewrite list_lookup_fmap, Hi. reflexivity. }
  split; [|split; [|split]].
  - intros q. rewrite (update_node_valid _ _ _ _ q Hu). apply Hv.
  - apply Forall_lookup_2. intros j [q x] Hj. cbn [fst snd].
    destruct (decide (j = i)) as [->|Hne].
    + rewrite list_lookup_insert_eq in Hj by (eapply lookup_lt_Some; exact Hi).
      injection Hj as <- <-. exact (update_node_lookup_same _ _ _ _ Hu).
    + rewrite list_lookup_insert_ne in Hj by congruence.
      rewrite (update_node_lookup_other _ _ _ _ q Hu).
      * exact (Forall_lookup_1 _ _ _ _ Htr Hj).
      * intros ->. apply Hne.
        apply (NoDup_lookup (map fst tr) j i p Hnd).
        -- change (map fst) with (fmap (M := list) (@fst NodePtr TriTreeNode)).
           rewrite list_lookup_fmap, Hj. reflexivity.
        -- change (map fst) with (fmap (M := list) (@fst NodePtr TriTreeNode)).
           rewrite list_lookup_fmap, Hi. reflexivity.
  - exact (pool_at_update _ _ _ _ _ Hu Hpool).
  - rewrite Hfst. intros x Hx Hx0.
    apply (leaf_at_update w p m w' x Hu); [|exact (Hleaf x Hx Hx0)].
    intros ->. exfalso. apply Hx. apply in_map_iff. exists (p, n).
    split; [reflexivity|]. apply list_elem_of_In. eapply list_elem_of_lookup_2. exact Hi.
Qed.

Lemma at_nodes_move_cursor tr cur w pl :
  at_nodes tr cur w -> pools w s !! t = Some pl ->
  at_nodes tr (S (S cur))
    (with_pools s (<[t := mkPool (pool pl) (S (S cur))]> (pools w s)) w).
Proof.
  intros (Hv & Htr & (P & pl0 & HP & Hcur & Hpl0 & Hc & Hlen) & Hleaf) Hpl.
  rewrite Hpl in Hpl0. injection Hpl0 as <-.
  split; [|split; [|split]].
  - intros p. unfold valid. rewrite (lookup_node_move_cursor w s t pl _ p Hpl). apply Hv.
  - eapply Forall_impl; [exact Htr|]. intros [p n] Hpn. cbn [fst snd] in *.
    rewrite (lookup_node_move_cursor w s t pl _ p Hpl). exact Hpn.
  - exists P, (mkPool (pool pl) (S (S cur))).
    split; [rewrite patches_with_pools; exact HP|]. split; [exact Hcur|].
    split; [rewrite with_pools_pools; apply list_lookup_insert_eq;
            eapply lookup_lt_Some; exact Hpl|].
    split; [reflexivity | exact Hlen].
  - intros x Hx Hx0. destruct (Hleaf x Hx Hx0) as (n & Hn & Hl). exists n.
    rewrite (lookup_node_move_cursor w s t pl _ x Hpl). split; assumption.
Qed.

Lemma N_alloc {B : Type} tr cur i p n tr' (k : bool -> St World B) Q :
  NoDup (map fst tr) -> tr !! i = Some (p, n) -> (S cur < cap)%nat ->
  tr' = <[i := (p, with_RightChild (Some (PoolNode s t (S cur)))
                     (with_LeftChild (Some (PoolNode s t cur)) n))]> tr ->
  runs (at_nodes tr' (S (S cur))) (k true) Q ->
  runs (at_nodes tr cur) (bind (curTriPool_Allocate self p) k) Q.
Proof.
  intros Hnd Hi Hlt -> Hk w Hw.
  pose proof Hw as (_ & _ & (P & pl & HP & Hcur & Hpl & Hc & Hlen) & _).
  assert (HA : Allocate pl
               = Done (true, Some cur, Some (S cur), mkPool (pool pl) (S (S cur)))).
  { unfold Allocate, OutOfNodes. rewrite Hc.
    destruct (Nat.leb_spec (length (pool pl)) cur); [lia|].
    destruct (Nat.ltb_spec (S cur) (length (pool pl))); [reflexivity | lia]. }
  set (w1 := with_pools s (<[t := mkPool (pool pl) (S (S cur))]> (pools w s)) w).
  pose proof (at_nodes_move_cursor _ _ _ _ Hw Hpl) as Hw1. fold w1 in Hw1.
  set (n1 := with_LeftChild (Some (PoolNode s t cur)) n).
  assert (Hin : In (p, n) tr)
    by (apply list_elem_of_In; eapply list_elem_of_lookup_2; exact Hi).
  pose proof (at_nodes_lookup _ _ _ _ _ Hw1 Hin) as Hl1.
  destruct (update_node_exists w1 p n n1 Hl1) as [w2 Hu2].
  pose proof (at_nodes_update _ _ _ _ _ _ _ _ Hw1 Hnd Hi Hu2) as Hw2.
  pose proof (update_node_lookup_same _ _ _ _ Hu2) as Hl2.
  destruct (update_node_exists w2 p n1 (with_RightChild (Some (PoolNode s t (S cur))) n1) Hl2)
    as [w3 Hu3].
  assert (Hi2 : <[i := (p, n1)]> tr !! i = Some (p, n1))
    by (apply list_lookup_insert_eq; eapply lookup_lt_Some; exact Hi).
  assert (Hnd2 : NoDup (map fst (<[i := (p, n1)]> tr))).
  { replace (map fst (<[i := (p, n1)]> tr)) with (map fst tr); [exact Hnd|].
    change (map fst) with (fmap (M := list) (@fst NodePtr TriTreeNode)).
    rewrite list_fmap_insert. symmetry. apply list_insert_id.
    rewrite list_lookup_fmap, Hi. reflexivity. }
  pose proof (at_nodes_update _ _ _ _ _ _ _ _ Hw2 Hnd2 Hi2 Hu3) as Hw3.
  rewrite list_insert_insert_eq in Hw3.
  assert (Hrun : curTriPool_Allocate self p w = Done (true, w3)).
  { unfold curTriPool_Allocate.
    rewrite (bind_Done _ _ _ _ _ (patch_get_Done self curTriPool w P HP)).
    rewrite Hcur. rewrite (bind_Done _ _ w (s, t) w) by reflexivity.
    rewrite (bind_Done _ _ w w w) by reflexivity.
    rewrite Hpl. rewrite (bind_Done _ _ w pl w) by reflexivity.
    rewrite (bind_Done _ _ w (true, Some cur, Some (S cur), mkPool (pool pl) (S (S cur))) w)
      by (unfold lift; rewrite HA; reflexivity).
    rewrite (bind_Done _ _ w tt w1) by reflexivity.
    rewrite (bind_Done _ _ w1 tt w2)
      by (unfold tri_set; rewrite Hl1; cbn [fmap option_fmap option_map]; fold n1;
          rewrite Hu2; reflexivity).
    rewrite (bind_Done _ _ w2 tt w3)
      by (unfold tri_set; rewrite Hl2; cbn [fmap option_fmap option_map];
          rewrite Hu3; reflexivity).
    reflexivity. }
  rewrite (bind_Done _ _ _ _ _ Hrun). exact (Hk w3 Hw3).
Qed.

(** the cascaded split of a leaf in a diamond when the pool is out of
    nodes: it fails and changes nothing *)
Lemma N_split_fail {B : Type} tr cur fuel b nb p np (k : bool -> St World B) Q :
  (cap <= cur)%nat ->
  In (b, nb) tr -> IsLeaf nb = true -> BaseNeighbor nb = Some p ->
  In (p, np) tr -> BaseNeighbor np = Some b ->
  runs (at_nodes tr cur) (k false) Q ->
  runs (at_nodes tr cur) (bind (Split (S fuel) self b) k) Q.
Proof.
  intros Hle Hb Hleaf Hbn Hp Hpn Hk w Hw.
  pose proof (at_nodes_lookup _ _ _ _ _ Hw Hb) as Hlb.
  pose proof (at_nodes_lookup _ _ _ _ _ Hw Hp) as Hlp.
  assert (Hrun : Split (S fuel) self b w = Done (false, w)).
  { apply Split_exhausted_in_diamond.
    - exact (pool_at_exhausted _ _ _ _ _ _ (proj1 (proj2 (proj2 Hw))) Hle).
    - exists nb. split; assumption.
    - exists nb. split; [exact Hlb|]. right. exists p, np. auto. }
  rewrite (bind_Done _ _ _ _ _ Hrun). exact (Hk w Hw).
Qed.

End Tracked.

Section DirectSplit.

Variable self : nat.
Variable s : bool.
Variable t cap c : nat.
Variable w0 : World.

Hypothesis Hcap : exists pl0, pools w0 s !! t = Some pl0 /\ length (pool pl0) = cap.

Ltac tracked_tac := cbn [In]; first [left; reflexivity | right; left; reflexivity].

Ltac tvalid_tac :=
  first
    [ assumption
    | apply (pool_node_valid s t cap w0 Hcap); lia
    | match goal with
      | H : opt_valid _ (Some ?q) |- valid _ ?q => exact (H q eq_refl)
      end ].

Ltac apart_tac :=
  let H := fresh "Hin" in
  cbn [map fst In]; intros H;
  repeat (destruct H as [H|H]); try contradiction;
  first
    [ congruence
    | match goal with
      | U : handed_out _ _ _ ?p |- _ =>
        match type of H with p = PoolNode _ _ _ => apply U in H; lia end
      end ].

Ltac nodup_tac :=
  cbn [map fst];
  repeat (apply NoDup_cons; split;
          [rewrite ?elem_of_cons, elem_of_nil;
           let H := fresh in
           intros H; repeat destruct H as [H|H]; first [congruence | exact H] |]);
  apply NoDup_nil; exact Logic.I.

Ltac t_step :=
  cbv beta;
  lazymatch goal with
  | |- runs _ (bind (curTriPool_Allocate _ _) _) _ =>
    first
      [ eapply (N_alloc self s t cap w0) with (i := 0%nat);
        [nodup_tac | reflexivity | lia | vm_compute; reflexivity |]
      | eapply (N_alloc self s t cap w0) with (i := 1%nat);
        [nodup_tac | reflexivity | lia | vm_compute; reflexivity |] ];
    cbn [negb]
  | |- runs _ (bind (ret _) _) _ => apply runs_ret_bind
  | |- runs _ (bind (assert_ true) _) _ => apply runs_ret_bind
  | |- runs _ (ret _) _ =>
    first [ apply runs_ret_same
          | apply runs_ret; intros ? ?; split; [reflexivity | assumption] ]
  | |- runs _ (bind (ptr (tri_get _ _)) _) _ =>
    eapply (N_ptr self s t cap w0); [tracked_tac | reflexivity |]
  | |- runs _ (bind (tri_get _ _) _) _ =>
    first
      [ eapply (N_get self s t cap w0); [tracked_tac|];
        cbn [IsLeaf IsBranch LeftChild RightChild BaseNeighbor LeftNeighbor
             RightNeighbor negb]
      | apply (N_get_any self s t cap w0); [tvalid_tac | intros ?] ]
  | |- runs _ (bind (tri_set _ _) _) _ =>
    apply (N_set self s t cap w0); [tvalid_tac | apart_tac | keeps_tac |]
  | |- runs _ (tri_set _ _) _ =>
    apply (N_set_last self s t cap w0); [tvalid_tac | apart_tac | keeps_tac]
  | |- runs _ (bind (bind _ _) _) _ =>
    eapply runs_bind; [solve [repeat t_step] | intros ?]
  | |- runs _ (bind (match ?o with Some _ => _ | None => _ end) _) _ =>
    is_var o; destruct o as [?|]
  | |- runs _ (match ?o with Some _ => _ | None => _ end) _ =>
    is_var o; destruct o as [?|]
  | |- runs _ (if decide ?P then _ else _) _ => destruct (decide P); try congruence
  | |- runs _ (bind (if decide ?P then _ else _) _) _ =>
    destruct (decide P); try congruence
  | |- runs _ (bind (Split ?f _ _) _) _ =>
    try (is_var f; subst f);
    first
      [ eapply (N_split_fail self s t cap w0);
        [lia | tracked_tac | reflexivity | reflexivity | tracked_tac | reflexivity |]
      | cbn [Split]; eapply runs_bind; [solve [repeat t_step] | intros ?] ]
  | |- runs _ (if negb _ then _ else _) _ => cbn [negb]
  | |- runs _ (if _ then _ else _) _ => cbv iota
  end.

Variable tri : NodePtr.
Hypothesis Huse : handed_out s t c tri.

Lemma Split_edge_run fuel ln rn :
  opt_valid w0 ln -> opt_valid w0 rn -> ln <> Some tri -> rn <> Some tri ->
  (S c < cap)%nat ->
  runs (at_nodes self s t cap w0 [(tri, mkTriTreeNode None None None ln rn)] c)
    (Split (S fuel) self tri)
    (fun b w =>
       b = true
       /\ at_nodes self s t cap w0
            [(tri, mkTriTreeNode (Some (PoolNode s t c)) (Some (PoolNode s t (S c)))
                     None ln rn)] (S (S c)) w).
Proof.
  intros Hvl Hvr Hl Hr Hroom. cbn [Split].
  repeat t_step.
Qed.

Variable b : NodePtr.
Hypothesis Hne : tri <> b.
Hypothesis Huse_b : handed_out s t c b.

Lemma Split_diamond_last fuel ln rn bl br :
  opt_valid w0 ln -> opt_valid w0 rn -> opt_valid w0 bl -> opt_valid w0 br ->
  ln <> Some tri -> ln <> Some b -> rn <> Some tri -> rn <> Some b ->
  bl <> Some tri -> bl <> Some b -> br <> Some tri -> br <> Some b ->
  (S c < cap)%nat -> (cap <= S (S c))%nat ->
  runs (at_nodes self s t cap w0
          [(tri, mkTriTreeNode None None (Some b) ln rn);
           (b, mkTriTreeNode None None (Some tri) bl br)] c)
    (Split (S (S fuel)) self tri)
    (fun r w =>
       r = true
       /\ at_nodes self s t cap w0
            [(tri, mkTriTreeNode (Some (PoolNode s t c)) (Some (PoolNode s t (S c)))
                     (Some b) ln rn);
             (b, mkTriTreeNode None None (Some tri) bl br)] (S (S c)) w).
Proof.
  intros Hvl Hvr Hvbl Hvbr Hl1 Hl2 Hr1 Hr2 Hbl1 Hbl2 Hbr1 Hbr2 Hroom Hlast.
  remember (S fuel) as f1 eqn:Ef. cbn [Split].
  repeat t_step.
Qed.

Lemma Split_diamond_both fuel ln rn bl br :
  opt_valid w0 ln -> opt_valid w0 rn -> opt_valid w0 bl -> opt_valid w0 br ->
  ln <> Some tri -> ln <> Some b -> rn <> Some tri -> rn <> Some b ->
  bl <> Some tri -> bl <> Some b -> br <> Some tri -> br <> Some b ->
  (S (S (S c)) < cap)%nat ->
  runs (at_nodes self s t cap w0
          [(tri, mkTriTreeNode None None (Some b) ln rn);
           (b, mkTriTreeNode None None (Some tri) bl br)] c)
    (Split (S (S fuel)) self tri)
    (fun r w =>
       r = true
       /\ at_nodes self s t cap w0
            [(tri, mkTriTreeNode (Some (PoolNode s t c)) (Some (PoolNode s t (S c)))
                     (Some b) ln rn);
             (b, mkTriTreeNode (Some (PoolNode s t (S (S c))))
                   (Some (PoolNode s t (S (S (S c))))) (Some tri) bl br)]
            (S (S (S (S c)))) w).
Proof.
  intros Hvl Hvr Hvbl Hvbr Hl1 Hl2 Hr1 Hr2 Hbl1 Hbl2 Hbr1 Hbr2 Hroom.
  remember (S fuel) as f1 eqn:Ef. cbn [Split].
  repeat t_step.
Qed.

End DirectSplit.

Lemma at_nodes_start self s t cap c w tr :
  pool_at self s t c cap w ->
  Forall (fun pn => lookup_node w pn.1 = Some pn.2) tr ->
  at_nodes self s t cap w tr c w.
Proof.
  intros Hpool Htr. split; [reflexivity|]. split; [exact Htr|].
  split; [exact Hpool|]. intros x _ Hx. exact Hx.
Qed.

Lemma pool_at_capacity self s t c cap w :
  pool_at self s t c cap w ->
  exists pl0, pools w s !! t = Some pl0 /\ length (pool pl0) = cap.
Proof. intros (P & pl & _ & _ & Hpl & _ & Hlen). eauto. Qed.

Lemma leaf_node n :
  IsLeaf n = true ->
  n = mkTriTreeNode None None (BaseNeighbor n) (LeftNeighbor n) (RightNeighbor n).
Proof.
  intros H. destruct (IsLeaf_children n H) as [E1 E2].
  destruct n; cbn in *. subst. reflexivity.
Qed.

(** [tri] is a leaf without base neighbour, with other triangles than
    itself at its sides, and not a node that the pool has yet to hand
    out *)
Definition edge_leaf (w : World) (s : bool) (t c : nat) (tri : NodePtr) : Prop :=
  exists n,
    lookup_node w tri = Some n /\ IsLeaf n = true /\ BaseNeighbor n = None
    /\ sides_apart n tri tri /\ handed_out s t c tri.

(** [tri] and [b] are two leaves that are each other's base neighbour,
    with other triangles than the two at their sides, and not nodes that
    the pool has yet to hand out *)
Definition leaf_diamond (w : World) (s : bool) (t c : nat) (tri b : NodePtr) : Prop :=
  tri <> b
  /\ exists n nb,
       lookup_node w tri = Some n /\ lookup_node w b = Some nb
       /\ IsLeaf n = true /\ IsLeaf nb = true
       /\ BaseNeighbor n = Some b /\ BaseNeighbor nb = Some tri
       /\ sides_apart n tri b /\ sides_apart nb tri b
       /\ handed_out s t c tri /\ handed_out s t c b.

Lemma closed_sides w p n :
  mesh_closed w -> lookup_node w p = Some n ->
  opt_valid w (LeftNeighbor n) /\ opt_valid w (RightNeighbor n).
Proof.
  intros [Hnodes _] Hn. destruct (node_ok_fields w n (Hnodes p n Hn)) as (_ & _ & _ & H4 & H5).
  auto.
Qed.

(** a leaf on a tile edge is split whenever a pair is left *)
Lemma Split_at_edge self s t c cap fuel tri w :
  mesh_closed w -> pool_at self s t c cap w -> (c + 2 <= cap)%nat ->
  edge_leaf w s t c tri ->
  exists w',
    Split (S fuel) self tri w = Done (true, w')
    /\ branch_at w' tri
    /\ pool_at self s t (c + 2) cap w'
    /\ (forall x, x <> tri -> leaf_at w x -> leaf_at w' x).
Proof.
  intros Hclosed Hpool Hroom (n & Hn & Hleaf & Hbn & (Hl & _ & Hr & _) & Huse).
  destruct (closed_sides w tri n Hclosed Hn) as [Hvl Hvr].
  rewrite (leaf_node n Hleaf), Hbn in Hn.
  destruct (Split_edge_run self s t cap c w (pool_at_capacity _ _ _ _ _ _ Hpool) tri Huse
              fuel (LeftNeighbor n) (RightNeighbor n) Hvl Hvr Hl Hr ltac:(lia) w)
    as (r & w' & Hrun & -> & Hw').
  { apply at_nodes_start; [exact Hpool|]. constructor; [exact Hn | constructor]. }
  exists w'. split; [exact Hrun|].
  destruct Hw' as (_ & Htr & Hpool' & Hleaves).
  apply Forall_cons in Htr as [Htri _]. cbn [fst snd] in Htri.
  split; [eexists; split; [exact Htri | reflexivity]|].
  split; [replace (c + 2)%nat with (S (S c)) by lia; exact Hpool'|].
  intros x Hx. apply Hleaves. cbn [map fst In]. intros [E|[]]. congruence.
Qed.

(** a leaf in a diamond with a leaf is split whenever a pair is left; its
    partner is split as well if a second pair is left, and stays a leaf
    otherwise *)
Lemma Split_in_diamond self s t c cap fuel tri b w :
  mesh_closed w -> pool_at self s t c cap w -> (c + 2 <= cap)%nat ->
  leaf_diamond w s t c tri b ->
  exists w',
    Split (S (S fuel)) self tri w = Done (true, w')
    /\ branch_at w' tri
    /\ (cap = (c + 2)%nat -> leaf_at w' b /\ pool_exhausted self w')
    /\ ((c + 2 < cap)%nat -> branch_at w' b)
    /\ (forall x, x <> tri -> x <> b -> leaf_at w x -> leaf_at w' x).
Proof.
  intros Hclosed Hpool Hroom
    (Hne & n & nb & Hn & Hnb & Hleaf & Hleafb & Hbn & Hbnb
     & (Hl1 & Hl2 & Hr1 & Hr2) & (Hbl1 & Hbl2 & Hbr1 & Hbr2) & Huse & Huseb).
  destruct (closed_sides w tri n Hclosed Hn) as [Hvl Hvr].
  destruct (closed_sides w b nb Hclosed Hnb) as [Hvbl Hvbr].
  rewrite (leaf_node n Hleaf), Hbn in Hn.
  rewrite (leaf_node nb Hleafb), Hbnb in Hnb.
  assert (Hstart : at_nodes self s t cap w
            [(tri, mkTriTreeNode None None (Some b) (LeftNeighbor n) (RightNeighbor n));
             (b, mkTriTreeNode None None (Some tri) (LeftNeighbor nb) (RightNeighbor nb))]
            c w).
  { apply at_nodes_start; [exact Hpool|].
    constructor; [exact Hn|]. constructor; [exact Hnb | constructor]. }
  assert (Hwf : Nat.Even cap /\ Nat.Even c).
  { destruct Hpool as (P & pl & _ & _ & Hpl & Hc & Hlen).
    destruct (proj2 Hclosed s t pl Hpl) as (E1 & E2 & _). rewrite <- Hlen, <- Hc. auto. }
  destruct Hwf as [[k1 Ek1] [k2 Ek2]].
  assert (Hothers : forall w' tr cur,
            at_nodes self s t cap w tr cur w' -> map fst tr = [tri; b] ->
            forall x, x <> tri -> x <> b -> leaf_at w x -> leaf_at w' x).
  { intros w' tr cur (_ & _ & _ & Hleaves) Etr x Hx1 Hx2. apply Hleaves.
    rewrite Etr. cbn [In]. intros [E|[E|[]]]; congruence. }
  destruct (decide (cap = (c + 2)%nat)) as [Hcase|Hcase].
  - destruct (Split_diamond_last self s t cap c w (pool_at_capacity _ _ _ _ _ _ Hpool)
                tri Huse b Hne Huseb fuel _ _ _ _
                Hvl Hvr Hvbl Hvbr Hl1 Hl2 Hr1 Hr2 Hbl1 Hbl2 Hbr1 Hbr2
                ltac:(lia) ltac:(lia) w Hstart)
      as (r & w' & Hrun & -> & Hw').
    exists w'. split; [exact Hrun|].
    pose proof Hw' as (_ & Htr & Hpool' & _).
    apply Forall_cons in Htr as [Htri Htr]. apply Forall_cons in Htr as [Hb _].
    cbn [fst snd] in Htri, Hb.
    split; [eexists; split; [exact Htri | reflexivity]|].
    split; [intros _; split;
            [eexists; split; [exact Hb | reflexivity]
            | exact (pool_at_exhausted _ _ _ _ _ _ Hpool' ltac:(lia))]|].
    split; [intros; lia|].
    exact (Hothers w' _ _ Hw' eq_refl).
  - destruct (Split_diamond_both self s t cap c w (pool_at_capacity _ _ _ _ _ _ Hpool)
                tri Huse b Hne Huseb fuel _ _ _ _
                Hvl Hvr Hvbl Hvbr Hl1 Hl2 Hr1 Hr2 Hbl1 Hbl2 Hbr1 Hbr2
                ltac:(lia) w Hstart)
      as (r & w' & Hrun & -> & Hw').
    exists w'. split; [exact Hrun|].
    pose proof Hw' as (_ & Htr & Hpool' & _).
    apply Forall_cons in Htr as [Htri Htr]. apply Forall_cons in Htr as [Hb _].
    cbn [fst snd] in Htri, Hb.
    split; [eexists; split; [exact Htri | reflexivity]|].
    split; [intros; lia|].
    split; [intros _; eexists; split; [exact Hb | reflexivity]|].
    exact (Hothers w' _ _ Hw' eq_refl).
Qed.

(** the forced split of a base neighbour on a tile edge that takes the
    last pair: the call returns false and [tri] is still a leaf *)
Lemma Split_after_forced self s t c fuel tri b w :
  mesh_closed w -> pool_at self s t c (c + 2) w ->
  (exists n, lookup_node w tri = Some n /\ IsLeaf n = true /\ BaseNeighbor n = Some b) ->
  edge_leaf w s t c b ->
  exists w',
    Split (S (S fuel)) self tri w = Done (false, w')
    /\ leaf_at w' tri /\ branch_at w' b /\ pool_exhausted self w'.
Proof.
  intros Hclosed Hpool (n & Hn & Hleaf & Hbn) Hedge.
  pose proof Hedge as (nb & Hnb & Hleafb & Hbnb & _).
  assert (Hne : tri <> b).
  { intros ->. rewrite Hn in Hnb. injection Hnb as <-. congruence. }
  destruct (Split_at_edge self s t c (c + 2) fuel b w Hclosed Hpool ltac:(lia) Hedge)
    as (w1 & Hrun1 & Hbranch & Hpool1 & Hleaves).
  assert (Hex1 : pool_exhausted self w1)
    by (exact (pool_at_exhausted _ _ _ _ _ _ Hpool1 ltac:(lia))).
  destruct (Hleaves tri Hne (ex_intro _ n (conj Hn Hleaf))) as (n1 & Hn1 & Hleaf1).
  exists w1. split; [|split; [exists n1; auto | split; assumption]].
  cbn [Split].
  rewrite (bind_Done _ _ w (IsLeaf n) w) by (apply tri_get_Done; exact Hn).
  rewrite Hleaf. cbn [negb].
  rewrite (bind_Done _ _ w (BaseNeighbor n) w) by (apply tri_get_Done; exact Hn).
  rewrite Hbn.
  rewrite (bind_Done _ _ w tt w1).
  - rewrite (bind_Done _ _ w1 false w1)
      by (exact (curTriPool_Allocate_exhausted self tri w1 n1 Hex1 Hn1 Hleaf1)).
    reflexivity.
  - rewrite (bind_Done _ _ w (BaseNeighbor nb) w) by (apply tri_get_Done; exact Hnb).
    rewrite Hbnb. destruct (decide (None = Some tri)) as [E|_]; [discriminate E|].
    rewrite (bind_Done _ _ w true w1) by exact Hrun1. reflexivity.
Qed.


(** a tile whose left root has the right root as its base neighbour while
    the right root has none, with two nodes in the pool *)
Definition lopsided_tile : Patch := with_baseRight TriTreeNode_new fresh_patch.

Definition lopsided_world (cursor : nat) : World :=
  mkWorld 2 32 [mkPool (replicate 2 TriTreeNode_new) cursor] [] [lopsided_tile].

Lemma lopsided_world_closed : mesh_closed (lopsided_world 0).
Proof.
  split.
  - intros p m Hp. destruct p as [[|k]|[|k]|s t i]; cbn in Hp; try discriminate.
    + injection Hp as <-. node_ok_concrete.
    + injection Hp as <-. node_ok_concrete.
    + destruct s; [destruct t; discriminate|]. destruct t as [|t]; [|destruct t; discriminate].
      cbn in Hp. do 2 (destruct i as [|i]; [injection Hp as <-; node_ok_concrete|]).
      discriminate Hp.
  - intros s t pl Hpl. destruct s; [destruct t; discriminate|].
    destruct t as [|t]; [|destruct t; discriminate]. cbn in Hpl. injection Hpl as <-.
    unfold pool_wf. cbn.
    split; [exists 1%nat; reflexivity|]. split; [exists 0%nat; reflexivity | lia].
Defined.

Lemma lopsided_world_pool (cursor : nat) : pool_at 0 false 0 cursor 2 (lopsided_world cursor).
Proof. exists lopsided_tile, (mkPool (replicate 2 TriTreeNode_new) cursor). repeat split. Defined.

Lemma no_pool_node (p : NodePtr) (s : bool) (t c : nat) :
  (forall i, p <> PoolNode s t i) -> handed_out s t c p.
Proof. intros H i E. destruct (H i E). Qed.

Lemma lopsided_world_edge : edge_leaf (lopsided_world 0) false 0 0 (BaseRightOf 0).
Proof.
  exists TriTreeNode_new. split; [reflexivity|]. split; [reflexivity|]. split; [reflexivity|].
  split; [repeat split; discriminate|]. apply no_pool_node. discriminate.
Defined.

Lemma fresh_world_diamond :
  leaf_diamond (fresh_world 2) false 0 0 (BaseLeftOf 0) (BaseRightOf 0).
Proof.
  split; [discriminate|].
  exists (with_BaseNeighbor (Some (BaseRightOf 0)) TriTreeNode_new),
    (with_BaseNeighbor (Some (BaseLeftOf 0)) TriTreeNode_new).
  repeat split; try discriminate; apply no_pool_node; discriminate.
Defined.

Lemma lopsided_world_chain : chain_ends 2 (lopsided_world 2) (BaseLeftOf 0).
Proof.
  eexists. split; [reflexivity|]. right. right.
  exists (BaseRightOf 0), TriTreeNode_new. split; [reflexivity|]. split; [reflexivity|].
  right. eexists. split; [reflexivity|]. right. left. reflexivity.
Defined.

